(** * Discrete curves and the square-root-velocity metric

    A shallow embedding of [geomstats/geometry/discrete_curves.py].

    Floating point numbers are read as real numbers: every array entry is an
    [R], [gs.sqrt] is [sqrt], and division is the total division of [R].
    Where the Python code divides by a quantity that may vanish, the theorems
    below carry the hypothesis that it does not, because NumPy then produces
    [nan] or [inf] while [R] does not have such values.  Two functions are
    given a second definition that follows these values where a theorem is
    about them: the Newton iteration of [project_srv]
    ([project_srv_float], whose result is a state of numbers or the remark
    that it has become [nan]) and the grid of
    [construct_reparametrization] ([construct_reparametrization_float], on
    the reals with [inf], [-inf] and [nan]).

    Arrays are nested lists: a 1-d array is a [vec], a 2-d array a list of
    rows, a 3-d array a list of 2-d arrays.  NumPy arrays are rectangular;
    the theorems state that as a hypothesis on the lists where it matters. *)

From Stdlib Require Import Reals Lra Lia List ZArith Bool Arith.
Import ListNotations.

Open Scope R_scope.

(** ** Exceptions and results *)

Inductive exn : Type :=
| AssertionError
| ValueError
| RuntimeError
| ZeroDivisionError
| LinAlgError
| IndexError.

Inductive result (A : Type) : Type :=
| Ok (a : A)
| Raise (e : exn).

Arguments Ok {A} a.
Arguments Raise {A} e.

Definition bind {A B : Type} (r : result A) (k : A -> result B) : result B :=
  match r with
  | Ok a => k a
  | Raise e => Raise e
  end.

Notation "x <- r ;; k" := (bind r (fun x => k))
  (at level 61, r at next level, right associativity).

(** ** Arrays *)

Definition vec := list R.
Definition mat := list vec.
Definition tensor := list mat.

Inductive ndarray : Type :=
| Arr1 (v : vec)
| Arr2 (c : mat)
| Arr3 (b : tensor).

Definition ndim (x : ndarray) : nat :=
  match x with
  | Arr1 _ => 1
  | Arr2 _ => 2
  | Arr3 _ => 3
  end.

Definition zip_with {A B C : Type} (f : A -> B -> C)
    (l1 : list A) (l2 : list B) : list C :=
  map (fun ab => f (fst ab) (snd ab)) (combine l1 l2).

Definition vadd (u v : vec) : vec := zip_with Rplus u v.
Definition vsub (u v : vec) : vec := zip_with Rminus u v.
Definition vscale (a : R) (v : vec) : vec := map (Rmult a) v.
Definition rsum (l : list R) : R := fold_right Rplus 0 l.
Definition dot (u v : vec) : R := rsum (zip_with Rmult u v).

Definition madd (a b : mat) : mat := zip_with vadd a b.
Definition msub (a b : mat) : mat := zip_with vsub a b.
Definition mscale (a : R) (m : mat) : mat := map (vscale a) m.

(** [x[1:]] and [x[:-1]] along the first axis. *)
Definition drop_first {A : Type} (l : list A) : list A := tl l.
Definition drop_last {A : Type} (l : list A) : list A := removelast l.

(** [gs.expand_dims]. *)
Definition expand_dims (x : ndarray) (axis : nat) : ndarray :=
  match x, axis with
  | Arr1 v, O => Arr2 [v]
  | Arr1 v, _ => Arr2 (map (fun a => [a]) v)
  | Arr2 c, O => Arr3 [c]
  | Arr2 c, _ => Arr3 (map (fun p => [p]) c)
  | Arr3 b, _ => Arr3 b
  end.

(** Modelled from the spec: [gs.to_ndarray] belongs to the backend, which is
    not part of the sources at hand.  It is the dimension-counting helper of
    the design notes: an array whose rank is one below [to_ndim] receives a
    new axis at [axis]; an array whose rank is still too low afterwards is
    rejected. *)
Definition to_ndarray (x : ndarray) (to_ndim : nat) (axis : nat)
    : result ndarray :=
  let x' := if Nat.eqb (S (ndim x)) to_ndim then expand_dims x axis else x in
  if Nat.ltb (ndim x') to_ndim then Raise ValueError else Ok x'.

(** Reshape of a list of rows into [k] blocks of [rows] rows. *)
Fixpoint chunks {A : Type} (k rows : nat) (l : list A) : list (list A) :=
  match k with
  | O => []
  | S k' => firstn rows l :: chunks k' rows (skipn rows l)
  end.

Definition reshape3 {A : Type} (k rows : nat) (l : list A)
    : result (list (list A)) :=
  if Nat.eqb (length l) (k * rows) then Ok (chunks k rows l)
  else Raise ValueError.

(** Boolean-mask indexing [x[mask]]. *)
Definition mask_select {A : Type} (mask : list bool) (l : list A)
    : result (list A) :=
  if Nat.eqb (length mask) (length l)
  then Ok (map snd (filter fst (combine mask l)))
  else Raise IndexError.

(** [gs.cumsum(x, -2)] on a 2-d array: running sums of the rows. *)
Fixpoint cumsum_from (acc : vec) (rows : mat) : mat :=
  match rows with
  | [] => []
  | r :: rest => let acc' := vadd acc r in acc' :: cumsum_from acc' rest
  end.

Definition cumsum_rows (rows : mat) : mat :=
  match rows with
  | [] => []
  | r :: rest => r :: cumsum_from r rest
  end.

Definition cols_agree (a b : mat) : bool :=
  match a, b with
  | p :: _, q :: _ => Nat.eqb (length p) (length q)
  | _, _ => true
  end.

(** [gs.concatenate((a, b), -2)]. *)
Definition concatenate_rows (a b : ndarray) : result ndarray :=
  match a, b with
  | Arr2 x, Arr2 y =>
      if cols_agree x y then Ok (Arr2 (x ++ y)) else Raise ValueError
  | Arr3 x, Arr3 y =>
      if Nat.eqb (length x) (length y)
         && forallb (fun xy => cols_agree (fst xy) (snd xy)) (combine x y)
      then Ok (Arr3 (zip_with (@app vec) x y))
      else Raise ValueError
  | _, _ => Raise ValueError
  end.

Definition cumsum_axis_rows (x : ndarray) : result ndarray :=
  match x with
  | Arr1 _ => Raise ValueError
  | Arr2 c => Ok (Arr2 (cumsum_rows c))
  | Arr3 b => Ok (Arr3 (map cumsum_rows b))
  end.

(** ** Ambient metrics *)

(** Modelled from the spec: the ambient metric is an external collaborator
    that supplies [exp], [log] and [inner_product] on single ambient points;
    [norm] and [dist] follow from them. *)
Record metric_ops : Type := {
  op_exp : vec -> vec -> vec;
  op_log : vec -> vec -> vec;
  op_inner_product : vec -> vec -> vec -> R
}.

(** [isinstance(metric, EuclideanMetric)] is a match on the constructor. *)
Inductive ambient_metric : Type :=
| EuclideanMetric (dim : nat)
| OtherMetric (ops : metric_ops).

Definition is_euclidean (m : ambient_metric) : bool :=
  match m with
  | EuclideanMetric _ => true
  | OtherMetric _ => false
  end.

Definition is_planar_metric (m : ambient_metric) : bool :=
  match m with
  | EuclideanMetric d => Nat.eqb d 2
  | OtherMetric _ => false
  end.

(** Modelled from the spec: the Euclidean metric is flat, its exponential is
    a translation, its logarithm a difference and its inner product the dot
    product. *)
Definition metric_exp (m : ambient_metric) (tangent_vec base_point : vec)
    : vec :=
  match m with
  | EuclideanMetric _ => vadd base_point tangent_vec
  | OtherMetric ops => op_exp ops tangent_vec base_point
  end.

(** Modelled from the spec: the logarithm of the ambient metric, a
    difference in the Euclidean case. *)
Definition metric_log (m : ambient_metric) (point base_point : vec) : vec :=
  match m with
  | EuclideanMetric _ => vsub point base_point
  | OtherMetric ops => op_log ops point base_point
  end.

(** Modelled from the spec: the inner product of the ambient metric, the
    dot product in the Euclidean case. *)
Definition metric_inner_product (m : ambient_metric)
    (u v base_point : vec) : R :=
  match m with
  | EuclideanMetric _ => dot u v
  | OtherMetric ops => op_inner_product ops u v base_point
  end.

(** Modelled from the spec: the norm follows from the inner product. *)
Definition metric_norm (m : ambient_metric) (v base_point : vec) : R :=
  sqrt (metric_inner_product m v v base_point).

(** Modelled from the spec: the distance is the norm of the logarithm. *)
Definition metric_dist (m : ambient_metric) (a b : vec) : R :=
  metric_norm m (metric_log m b a) a.

(** ** The square-root-velocity transform *)

Definition shape_rows (b : tensor) : nat := length (hd [] b).

(** [SRVMetric.square_root_velocity]. *)
Definition square_root_velocity (m : ambient_metric) (curve : ndarray)
    : result ndarray :=
  curve3 <- to_ndarray curve 3 0 ;;
  match curve3 with
  | Arr3 b =>
      let n_curves := length b in
      let n_sampling_points := shape_rows b in
      let flat := concat b in
      let coef := INR (n_sampling_points - 1) in
      let velocity :=
        zip_with (fun p q => vscale coef (metric_log m p q))
                 (drop_first flat) (drop_last flat) in
      let velocity_norm :=
        zip_with (metric_norm m) velocity (drop_last flat) in
      let srv :=
        zip_with (fun v nv => vscale (1 / sqrt nv) v)
                 velocity velocity_norm in
      let index := seq 0 (n_curves * n_sampling_points - 1) in
      let mask :=
        map (fun i => negb (Nat.eqb ((i + 1) mod n_sampling_points) 0))
            index in
      selected <- mask_select mask srv ;;
      blocks <- reshape3 n_curves (n_sampling_points - 1) selected ;;
      Ok (Arr3 blocks)
  | _ => Raise ValueError
  end.

(** [SRVMetric.square_root_velocity_inverse]. *)
Definition square_root_velocity_inverse (m : ambient_metric)
    (srv starting_point : ndarray) : result ndarray :=
  if negb (is_euclidean m) then Raise AssertionError else
  starting_point' <-
    (if Nat.eqb (ndim srv) (ndim starting_point) then Ok starting_point
     else to_ndarray starting_point (ndim srv) 1) ;;
  srv3 <- to_ndarray srv 3 0 ;;
  match srv3 with
  | Arr3 b =>
      let n_curves := length b in
      let n_sampling_points_minus_one := shape_rows b in
      let flat := concat b in
      let srv_norm := map (fun s => metric_norm m s []) flat in
      if Nat.eqb n_sampling_points_minus_one 0 then Raise ZeroDivisionError
      else
        let delta_points :=
          zip_with
            (fun nrm s =>
               vscale (1 / INR n_sampling_points_minus_one * nrm) s)
            srv_norm flat in
        delta <-
          match srv with
          | Arr3 _ =>
              blocks <- reshape3 n_curves n_sampling_points_minus_one
                          delta_points ;;
              Ok (Arr3 blocks)
          | _ => Ok (Arr2 delta_points)
          end ;;
        curve <- concatenate_rows starting_point' delta ;;
        cumsum_axis_rows curve
  | _ => Raise ValueError
  end.

(** ** Comparisons of reals as booleans *)

Definition Rleb (x y : R) : bool := if Rle_dec x y then true else false.
Definition Rgeb (x y : R) : bool := if Rge_dec x y then true else false.
Definition Rgtb (x y : R) : bool := if Rgt_dec x y then true else false.
Definition Reqb (x y : R) : bool := if Req_dec_T x y then true else false.

(** ** Pointwise operations along a curve *)

Fixpoint zip_with3 {A B C D : Type} (f : A -> B -> C -> D)
    (l1 : list A) (l2 : list B) (l3 : list C) : list D :=
  match l1, l2, l3 with
  | a :: t1, b :: t2, c :: t3 => f a b c :: zip_with3 f t1 t2 t3
  | _, _, _ => []
  end.

Fixpoint zip_with3_result {A B C D : Type} (f : A -> B -> C -> result D)
    (l1 : list A) (l2 : list B) (l3 : list C) : result (list D) :=
  match l1, l2, l3 with
  | a :: t1, b :: t2, c :: t3 =>
      d <- f a b c ;; ds <- zip_with3_result f t1 t2 t3 ;; Ok (d :: ds)
  | _, _, _ => Ok []
  end.

(** The shape of an array; the lists are rectangular. *)
Definition shape (x : ndarray) : list nat :=
  match x with
  | Arr1 v => [length v]
  | Arr2 c => [length c; length (hd [] c)]
  | Arr3 b => [length b; length (hd [] b); length (hd [] (hd [] b))]
  end.

Definition list_eqb (l1 l2 : list nat) : bool :=
  if list_eq_dec Nat.eq_dec l1 l2 then true else false.

(** [gs.squeeze] of a 1-d array, or of a 2-d array with a single row, given
    by its entries: a 1-d array, or an array without axis when there is a
    single entry. *)
Inductive squeezed : Type :=
| Scalar (x : R)
| Vector (v : vec).

Definition squeeze (row : vec) : squeezed :=
  match row with
  | [x] => Scalar x
  | _ => Vector row
  end.

(** The local function [inner_prod_aux] of [pointwise_inner_product]: the
    inner products of the ambient metric along one curve, squeezed. *)
Definition inner_prod_aux (m : ambient_metric) (vec_a vec_b curve : mat)
    : squeezed :=
  squeeze (zip_with3 (metric_inner_product m) vec_a vec_b curve).

(** [SRVMetric.pointwise_inner_product] on single curves.  The call is
    vectorised with the signature [(i,j),(i,j),(i,j)->(i)]: the three
    arrays have one shape, and the auxiliary function has to return a 1-d
    array.  On arrays of a single row the squeezed result has no axis and
    the vectorisation raises a value error. *)
Definition pointwise_inner_product (m : ambient_metric)
    (tangent_vec_a tangent_vec_b base_curve : mat) : result vec :=
  if negb (list_eqb (shape (Arr2 tangent_vec_a)) (shape (Arr2 tangent_vec_b))
           && list_eqb (shape (Arr2 tangent_vec_a)) (shape (Arr2 base_curve)))
  then Raise ValueError
  else
    match inner_prod_aux m tangent_vec_a tangent_vec_b base_curve with
    | Scalar _ => Raise ValueError
    | Vector inner_prod => Ok inner_prod
    end.

(** [SRVMetric.pointwise_norm] on single curves. *)
Definition pointwise_norm (m : ambient_metric)
    (tangent_vec base_curve : mat) : result vec :=
  sq_norm <- pointwise_inner_product m tangent_vec tangent_vec base_curve ;;
  Ok (map sqrt sq_norm).

(** The same two operations on a batch: the vectorisation calls the
    auxiliary function on one curve after the other. *)
Definition pointwise_inner_product3 (m : ambient_metric)
    (a b base : tensor) : result mat :=
  zip_with3_result (pointwise_inner_product m) a b base.

Definition pointwise_norm3 (m : ambient_metric) (a base : tensor)
    : result mat :=
  sq_norm <- pointwise_inner_product3 m a a base ;;
  Ok (map (map sqrt) sq_norm).

(** ** The product (L2) metric over the sampling points *)

(** Modelled from the spec: the product metric lifts the ambient operations
    pointwise and aggregates them; its inner product is the sum over the
    index of the ambient inner products, norm and distance follow from it. *)
Definition l2_inner_product (m : ambient_metric) (a b : mat) : R :=
  rsum (zip_with (fun u v => metric_inner_product m u v []) a b).

(** Modelled from the spec: the exponential of the product metric, taken
    point by point. *)
Definition l2_exp (m : ambient_metric) (tangent_vec base_point : mat) : mat :=
  zip_with (metric_exp m) tangent_vec base_point.

(** Modelled from the spec: the logarithm of the product metric, taken
    point by point. *)
Definition l2_log (m : ambient_metric) (point base_point : mat) : mat :=
  zip_with (metric_log m) point base_point.

(** Modelled from the spec: norm and distance of the product metric follow
    from its inner product. *)
Definition l2_norm (m : ambient_metric) (v : mat) : R :=
  sqrt (l2_inner_product m v v).

(** Modelled from the spec: the distance of the product metric is the norm
    of its logarithm. *)
Definition l2_dist (m : ambient_metric) (a b : mat) : R :=
  l2_norm m (l2_log m b a).

(** ** Inner products of SRV representations *)

(** [SRVMetric.srv_inner_product]. *)
Definition srv_inner_product (m : ambient_metric) (srv_1 srv_2 : mat) : R :=
  let n_sampling_points := length srv_1 in
  l2_inner_product m srv_1 srv_2 / INR n_sampling_points.

(** [SRVMetric.srv_norm]. *)
Definition srv_norm (m : ambient_metric) (srv : mat) : R :=
  let squared_norm := srv_inner_product m srv srv in
  sqrt squared_norm.

(** [SRVMetric.d_square_root_velocity]. *)
Definition d_square_root_velocity (m : ambient_metric)
    (tangent_vec curve : mat) : result mat :=
  if negb (is_euclidean m) then Raise AssertionError else
  let n_sampling_points := INR (length curve) in
  let d_vec :=
    mscale n_sampling_points
      (msub (drop_first tangent_vec) (drop_last tangent_vec)) in
  let velocity_vec :=
    mscale n_sampling_points (msub (drop_first curve) (drop_last curve)) in
  let velocity_norm := map (fun v => metric_norm m v []) velocity_vec in
  let unit_velocity_vec :=
    zip_with (fun v nv => vscale (1 / nv) v) velocity_vec velocity_norm in
  let d_vec_tangential :=
    zip_with (fun u d => vscale (metric_inner_product m d u []) u)
             unit_velocity_vec d_vec in
  let d_srv_vec := msub d_vec (mscale (1 / 2) d_vec_tangential) in
  Ok (zip_with (fun d nv => vscale (1 / sqrt nv) d) d_srv_vec velocity_norm).

(** [SRVMetric.inner_product]. *)
Definition inner_product (m : ambient_metric)
    (tangent_vec_a tangent_vec_b curve : mat) : result R :=
  if negb (is_euclidean m) then Raise AssertionError else
  let n_sampling_points := INR (length curve) in
  d_srv_vec_a <- d_square_root_velocity m tangent_vec_a curve ;;
  d_srv_vec_b <- d_square_root_velocity m tangent_vec_b curve ;;
  Ok (l2_inner_product m d_srv_vec_a d_srv_vec_b / n_sampling_points).

(** ** Exponential, logarithm, geodesics and distance *)

(** [x[:, 0, :]] on a 3-d array. *)
Fixpoint first_rows (b : tensor) : result mat :=
  match b with
  | [] => Ok []
  | c :: rest =>
      match c with
      | [] => Raise IndexError
      | p :: _ => ps <- first_rows rest ;; Ok (p :: ps)
      end
  end.

Definition as_tensor (x : ndarray) : result tensor :=
  x3 <- to_ndarray x 3 0 ;;
  match x3 with
  | Arr3 b => Ok b
  | _ => Raise ValueError
  end.

(** [SRVMetric.exp].  For a non-negative [x] the power [x**(5/2)] is
    [sqrt x ^ 5]. *)
Definition exp (m : ambient_metric) (tangent_vec base_point : ndarray)
    : result ndarray :=
  if negb (is_euclidean m) then Raise AssertionError else
  base_point <- as_tensor base_point ;;
  tangent_vec <- as_tensor tangent_vec ;;
  let n_sampling_points := shape_rows base_point in
  base_curve_srv <- square_root_velocity m (Arr3 base_point) ;;
  base_curve_srv <- as_tensor base_curve_srv ;;
  let coef := INR (n_sampling_points - 1) in
  let tangent_vec_derivative :=
    map (fun tv => mscale coef (msub (drop_first tv) (drop_last tv)))
        tangent_vec in
  let base_curve_velocity :=
    map (fun bp => mscale coef (msub (drop_first bp) (drop_last bp)))
        base_point in
  let base_heads := map (@drop_last vec) base_point in
  base_curve_velocity_norm <-
    pointwise_norm3 m base_curve_velocity base_heads ;;
  inner_prod <-
    pointwise_inner_product3 m tangent_vec_derivative base_curve_velocity
      base_heads ;;
  let coef_1 := map (map (fun nv => 1 / sqrt nv)) base_curve_velocity_norm in
  let coef_2 :=
    zip_with (zip_with (fun nv ip => - 1 / (2 * sqrt nv ^ 5) * ip))
             base_curve_velocity_norm inner_prod in
  let term_1 := zip_with (zip_with vscale) coef_1 tangent_vec_derivative in
  let term_2 := zip_with (zip_with vscale) coef_2 base_curve_velocity in
  let srv_initial_derivative := zip_with madd term_1 term_2 in
  let end_curve_srv :=
    zip_with (l2_exp m) srv_initial_derivative base_curve_srv in
  tangent_starts <- first_rows tangent_vec ;;
  base_starts <- first_rows base_point ;;
  let end_curve_starting_point :=
    zip_with (metric_exp m) tangent_starts base_starts in
  square_root_velocity_inverse m (Arr3 end_curve_srv)
    (Arr2 end_curve_starting_point).

Definition n_coords (b : tensor) : nat := length (hd [] (hd [] b)).

(** [SRVMetric.log]. *)
Definition log (m : ambient_metric) (point base_point : ndarray)
    : result ndarray :=
  if negb (is_euclidean m) then Raise AssertionError else
  point <- as_tensor point ;;
  base_point <- as_tensor base_point ;;
  let n_sampling_points := shape_rows point in
  curve_srv <- square_root_velocity m (Arr3 point) ;;
  curve_srv <- as_tensor curve_srv ;;
  base_curve_srv <- square_root_velocity m (Arr3 base_point) ;;
  base_curve_srv <- as_tensor base_curve_srv ;;
  let coef := INR (n_sampling_points - 1) in
  let base_curve_velocity :=
    map (fun bp => mscale coef (msub (drop_first bp) (drop_last bp)))
        base_point in
  let base_heads := map (@drop_last vec) base_point in
  base_curve_velocity_norm <-
    pointwise_norm3 m base_curve_velocity base_heads ;;
  let srv_diff := zip_with msub curve_srv base_curve_srv in
  inner_prod <-
    pointwise_inner_product3 m srv_diff base_curve_velocity base_heads ;;
  let coef_1 := map (map sqrt) base_curve_velocity_norm in
  let coef_2 :=
    zip_with (zip_with (fun nv ip => 1 / sqrt nv ^ 3 * ip))
             base_curve_velocity_norm inner_prod in
  let term_1 := zip_with (zip_with vscale) coef_1 srv_diff in
  let term_2 := zip_with (zip_with vscale) coef_2 base_curve_velocity in
  let log_derivative := zip_with madd term_1 term_2 in
  point_starts <- first_rows point ;;
  base_starts <- first_rows base_point ;;
  let log_starting_points :=
    zip_with (metric_log m) point_starts base_starts in
  let zeros := repeat 0 (n_coords point) in
  let log_cumsum := map (fun d => zeros :: cumsum_rows d) log_derivative in
  if Nat.eqb (n_sampling_points - 1) 0 then Raise ZeroDivisionError else
  Ok (Arr3
        (zip_with
           (fun start rows =>
              map (fun row => vadd start (vscale (1 / coef) row)) rows)
           log_starting_points log_cumsum)).

(** The default tolerances of the backend, used by [gs.allclose]. *)
Record tolerance : Type := { gs_atol : R; gs_rtol : R }.

Definition close (tol : tolerance) (a b : R) : bool :=
  Rleb (Rabs (a - b)) (gs_atol tol + gs_rtol tol * Rabs b).

(** NumPy broadcasting of one axis: two sizes go together when they are
    equal or one of them is 1. *)
Definition broadcast_dim (p q : nat) : result nat :=
  if Nat.eqb p q then Ok p
  else if Nat.eqb p 1 then Ok q
  else if Nat.eqb q 1 then Ok p
  else Raise ValueError.

(** An axis of size 1 stretched to [n] entries; an axis that has [n]
    entries already is left as it is. *)
Definition stretch {A : Type} (n : nat) (l : list A) : list A :=
  match l with
  | [a] => repeat a n
  | _ => l
  end.

Definition stretch3 (k n d : nat) (t : tensor) : tensor :=
  stretch k (map (fun c => stretch n (map (stretch d) c)) t).

Definition allclose_vec (tol : tolerance) (a b : vec) : bool :=
  forallb (fun ab => close tol (fst ab) (snd ab)) (combine a b).

Definition allclose_mat (tol : tolerance) (a b : mat) : bool :=
  forallb (fun ab => allclose_vec tol (fst ab) (snd ab)) (combine a b).

(** [gs.allclose] of a 3-d array with a 1-d, 2-d or 3-d one.  The array of
    lower rank receives leading axes of size 1, the two shapes are
    broadcast axis by axis, and all pairs of entries are compared; shapes
    that cannot be broadcast raise a value error. *)
Definition allclose (tol : tolerance) (a : tensor) (b : ndarray)
    : result bool :=
  let b :=
    match b with
    | Arr1 v => [[v]]
    | Arr2 c => [c]
    | Arr3 t => t
    end in
  k <- broadcast_dim (length a) (length b) ;;
  n <- broadcast_dim (length (hd [] a)) (length (hd [] b)) ;;
  d <- broadcast_dim (length (hd [] (hd [] a))) (length (hd [] (hd [] b))) ;;
  Ok (forallb (fun ab => allclose_mat tol (fst ab) (snd ab))
              (combine (stretch3 k n d a) (stretch3 k n d b))).

(** The closure returned by [SRVMetric.geodesic]: the function [path] with
    the values it captures. *)
Record geodesic_path : Type := {
  path_metric : ambient_metric;
  path_initial_curve : tensor;
  path_initial_tangent_vec : tensor
}.

(** [SRVMetric.geodesic]. *)
Definition geodesic (tol : tolerance) (m : ambient_metric)
    (initial_curve : ndarray) (end_curve initial_tangent_vec : option ndarray)
    : result geodesic_path :=
  if negb (is_euclidean m) then Raise AssertionError else
  initial_curve <- as_tensor initial_curve ;;
  match end_curve, initial_tangent_vec with
  | None, None => Raise ValueError
  | Some end_curve, supplied =>
      end_curve <- as_tensor end_curve ;;
      shooting <- log m (Arr3 end_curve) (Arr3 initial_curve) ;;
      shooting_tangent_vec <- as_tensor shooting ;;
      match supplied with
      | Some initial_tangent_vec =>
          close_enough <-
            allclose tol shooting_tangent_vec initial_tangent_vec ;;
          if negb close_enough
          then Raise RuntimeError
          else Ok {| path_metric := m;
                     path_initial_curve := initial_curve;
                     path_initial_tangent_vec := shooting_tangent_vec |}
      | None =>
          Ok {| path_metric := m;
                path_initial_curve := initial_curve;
                path_initial_tangent_vec := shooting_tangent_vec |}
      end
  | None, Some initial_tangent_vec =>
      initial_tangent_vec <- as_tensor initial_tangent_vec ;;
      Ok {| path_metric := m;
            path_initial_curve := initial_curve;
            path_initial_tangent_vec := initial_tangent_vec |}
  end.

(** The sum over the batch axis taken by [einsum('il,nkm->ikm', ...)]. *)
Definition batch_sum (b : tensor) : mat :=
  match b with
  | [] => []
  | c :: rest => fold_left madd rest c
  end.

Fixpoint map_result {A B : Type} (f : A -> result B) (l : list A)
    : result (list B) :=
  match l with
  | [] => Ok []
  | a :: rest => b <- f a ;; bs <- map_result f rest ;; Ok (b :: bs)
  end.

(** The function [path] returned by [SRVMetric.geodesic], applied to a
    sequence of times. *)
Definition path (g : geodesic_path) (t : list R) : result (list ndarray) :=
  let tangent_vecs :=
    map (fun ti => mscale ti (batch_sum (path_initial_tangent_vec g))) t in
  map_result
    (fun tan_vec =>
       exp (path_metric g) (Arr2 tan_vec) (Arr3 (path_initial_curve g)))
    tangent_vecs.

(** [x[0, :]]. *)
Definition first_slice (x : ndarray) : result ndarray :=
  match x with
  | Arr1 _ => Raise IndexError
  | Arr2 [] => Raise IndexError
  | Arr2 (p :: _) => Ok (Arr1 p)
  | Arr3 [] => Raise IndexError
  | Arr3 (c :: _) => Ok (Arr2 c)
  end.

(** The ambient distance between two slices, rowwise on 2-d slices. *)
Definition slice_dist (m : ambient_metric) (a b : ndarray) : result vec :=
  match a, b with
  | Arr1 p, Arr1 q => Ok [metric_dist m p q]
  | Arr2 x, Arr2 y => Ok (zip_with (metric_dist m) x y)
  | _, _ => Raise ValueError
  end.

(** NumPy broadcasting of two 1-d arrays under a binary operation. *)
Definition broadcast (f : R -> R -> R) (u v : vec) : result vec :=
  if Nat.eqb (length u) (length v) then Ok (zip_with f u v)
  else match u, v with
       | [a], _ => Ok (map (f a) v)
       | _, [b] => Ok (map (fun a => f a b) u)
       | _, _ => Raise ValueError
       end.

(** [SRVMetric.dist]. *)
Definition dist (m : ambient_metric) (point_a point_b : ndarray)
    : result vec :=
  if negb (is_euclidean m) then Raise AssertionError else
  if negb (list_eqb (shape point_a) (shape point_b)) then Raise ValueError
  else
    srv_a <- square_root_velocity m point_a ;;
    srv_a <- as_tensor srv_a ;;
    srv_b <- square_root_velocity m point_b ;;
    srv_b <- as_tensor srv_b ;;
    start_a <- first_slice point_a ;;
    start_b <- first_slice point_b ;;
    dist_starting_points <- slice_dist m start_a start_b ;;
    let dist_srvs := zip_with (l2_dist m) srv_a srv_b in
    broadcast (fun ds dv => sqrt (ds ^ 2 + dv ^ 2))
      dist_starting_points dist_srvs.

(** ** Projection onto closed curves *)

(** Modelled from the spec: the symmetric-matrix utility builds a symmetric
    matrix from its upper triangular values, here for dimension two. *)
Definition from_vector (v : vec) : result mat :=
  match v with
  | [a; b; c] => Ok [[a; b]; [b; c]]
  | _ => Raise ValueError
  end.

(** Modelled from the spec: the linear-algebra utility inverts a small dense
    matrix, here of dimension two, and rejects a singular one. *)
Definition linalg_inv (a : mat) : result mat :=
  match a with
  | [[a11; a12]; [a21; a22]] =>
      let det := a11 * a22 - a12 * a21 in
      if Reqb det 0 then Raise LinAlgError
      else Ok [[a22 / det; - a12 / det]; [- a21 / det; a11 / det]]
  | _ => Raise LinAlgError
  end.

(** The matrix-vector product [a @ v]. *)
Definition matvec (a : mat) (v : vec) : vec := map (fun row => dot row v) a.

(** The column [x[:, i]]. *)
Definition column (i : nat) (x : mat) : vec := map (fun row => nth i row 0) x.

(** [gs.sum(x, axis=0)] on a 2-d array with [dim] columns. *)
Definition sum_rows (dim : nat) (x : mat) : vec :=
  fold_right vadd (repeat 0 dim) x.

(** The local function [g_criterion] of [project_srv]. *)
Definition g_criterion (dim : nat) (srv : mat) (srv_norms : vec) : vec :=
  sum_rows dim (zip_with (fun row nrm => vscale nrm row) srv srv_norms).

(** The variables of the Newton loop of [project_srv]. *)
Record newton_state : Type := {
  proj : mat;
  proj_norms : vec;
  residual : vec;
  criteria : R;
  nb_iter : Z
}.

Definition e_1 : vec := [1; 0].
Definition e_2 : vec := [0; 1].

(** The gradient [proj_norms[:, None] * e + (proj[:, i] / proj_norms)[:, None]
    * proj]. *)
Definition gradient (e : vec) (i : nat) (proj : mat) (proj_norms : vec)
    : mat :=
  madd (map (fun nrm => vscale nrm e) proj_norms)
       (zip_with3 (fun x nrm row => vscale (x / nrm) row)
                  (column i proj) proj_norms proj).

(** The value of [proj] after [proj -= gs.sum(beta[:, None, None] * basis)],
    before it is rescaled. *)
Definition newton_update (m : ambient_metric) (s : newton_state)
    : result mat :=
  let inner_prod := fun u v => metric_inner_product m u v [] in
  let jacobian_vec :=
    [3 * inner_prod (column 0 (proj s)) (column 0 (proj s));
     3 * inner_prod (column 0 (proj s)) (column 1 (proj s));
     3 * inner_prod (column 1 (proj s)) (column 1 (proj s))] in
  g_jacobian <- from_vector jacobian_vec ;;
  let proj_squared_norm := srv_norm m (proj s) ^ 2 in
  let g_jacobian :=
    madd g_jacobian [[proj_squared_norm; 0]; [0; proj_squared_norm]] in
  inverse <- linalg_inv g_jacobian ;;
  let beta := matvec inverse (residual s) in
  let grad_1 := gradient e_1 0 (proj s) (proj_norms s) in
  let grad_2 := gradient e_2 1 (proj s) (proj_norms s) in
  let basis_vector_1 := mscale (1 / srv_norm m grad_1) grad_1 in
  let grad_2_component := srv_inner_product m grad_2 basis_vector_1 in
  let grad_2_proj := mscale grad_2_component basis_vector_1 in
  let basis_vector_2 := msub grad_2 grad_2_proj in
  let basis_vector_2 :=
    mscale (1 / srv_norm m basis_vector_2) basis_vector_2 in
  Ok (msub (proj s)
           (madd (mscale (nth 0 beta 0) basis_vector_1)
                 (mscale (nth 1 beta 0) basis_vector_2))).

(** One turn of the loop body of [project_srv]. *)
Definition newton_step (m : ambient_metric) (initial_norm : R)
    (s : newton_state) : result newton_state :=
  updated <- newton_update m s ;;
  let proj := mscale (initial_norm / srv_norm m updated) updated in
  let proj_norms := map (fun row => metric_norm m row []) proj in
  let residual := g_criterion 2 proj proj_norms in
  let criteria := metric_norm m residual [] in
  Ok {| proj := proj;
        proj_norms := proj_norms;
        residual := residual;
        criteria := criteria;
        nb_iter := (nb_iter s + 1)%Z |}.

(** A [while] loop; [None] when the fuel does not suffice. *)
Fixpoint while_loop {St : Type} (fuel : nat) (cond : St -> bool)
    (body : St -> result St) (s : St) : option (result St) :=
  match fuel with
  | O => None
  | S fuel' =>
      if cond s then
        match body s with
        | Ok s' => while_loop fuel' cond body s'
        | Raise e => Some (Raise e)
        end
      else Some (Ok s)
  end.

Definition newton_cond (atol : R) (max_iter : Z) (s : newton_state) : bool :=
  Rgeb (criteria s) atol && Z.ltb (nb_iter s) max_iter.

Definition newton_init (m : ambient_metric) (srv : mat) : newton_state :=
  let proj_norms := map (fun row => metric_norm m row []) srv in
  let residual := g_criterion 2 srv proj_norms in
  {| proj := srv;
     proj_norms := proj_norms;
     residual := residual;
     criteria := metric_norm m residual [];
     nb_iter := 0%Z |}.

(** The Newton loop of [project_srv] with its final variables.  The norm
    [initial_norm] is taken on entry; the array [srv] of the caller is
    modified in place by the first [proj -= ...] only after that. *)
Definition project_srv_loop (fuel : nat) (m : ambient_metric) (srv : mat)
    (atol : R) (max_iter : Z) : option (result newton_state) :=
  if negb (is_planar_metric m) then Some (Raise AssertionError) else
  let initial_norm := srv_norm m srv in
  while_loop fuel (newton_cond atol max_iter) (newton_step m initial_norm)
    (newton_init m srv).

Definition option_result_map {A B : Type} (f : A -> B)
    (r : option (result A)) : option (result B) :=
  match r with
  | None => None
  | Some (Ok a) => Some (Ok (f a))
  | Some (Raise e) => Some (Raise e)
  end.

(** [ClosedSRVMetric.project_srv]. *)
Definition project_srv (fuel : nat) (m : ambient_metric) (srv : mat)
    (atol : R) (max_iter : Z) : option (result mat) :=
  option_result_map proj (project_srv_loop fuel m srv atol max_iter).

(** *** The projection where a quotient is not a number

    The loop body divides by the norms of the rows of [proj], by the SRV
    norm of [grad_1], by the SRV norm of the second basis vector before it
    is normalised, and by the SRV norm of the updated projection.  Each of
    these divisors is a norm and vanishes only together with its dividend:
    NumPy then evaluates [0 / 0] to [nan], with a warning.  The [nan]
    spreads: a row of [nan] in a gradient makes its SRV norm [nan], the
    basis vectors, [proj -= ...], the rescaled [proj], [proj_norms],
    [residual] and [criteria] are [nan] in every entry.  The test
    [criteria >= atol] is false for [nan], so the loop is left and the
    projection returned holds [nan]. *)

(** The divisors of one turn of the loop body. *)
Definition newton_divisors (m : ambient_metric) (s : newton_state)
    (updated : mat) : vec :=
  let grad_1 := gradient e_1 0 (proj s) (proj_norms s) in
  let grad_2 := gradient e_2 1 (proj s) (proj_norms s) in
  let basis_vector_1 := mscale (1 / srv_norm m grad_1) grad_1 in
  let grad_2_component := srv_inner_product m grad_2 basis_vector_1 in
  let grad_2_proj := mscale grad_2_component basis_vector_1 in
  let basis_vector_2 := msub grad_2 grad_2_proj in
  proj_norms s
  ++ [srv_norm m grad_1; srv_norm m basis_vector_2; srv_norm m updated].

(** The variables of the loop: numbers, or [nan] in [proj], [proj_norms],
    [residual] and [criteria], with the count of iterations. *)
Inductive float_state : Type :=
| Finite (s : newton_state)
| NotANumber (nb_iter : Z).

(** One turn of the loop body: as [newton_step] when no divisor is zero. *)
Definition newton_step_float (m : ambient_metric) (initial_norm : R)
    (s : newton_state) : result float_state :=
  updated <- newton_update m s ;;
  if existsb (fun divisor => Reqb divisor 0) (newton_divisors m s updated)
  then Ok (NotANumber (nb_iter s + 1))
  else s' <- newton_step m initial_norm s ;; Ok (Finite s').

(** The test of the loop; [nan >= atol] is false. *)
Definition newton_cond_float (atol : R) (max_iter : Z) (s : float_state)
    : bool :=
  match s with
  | Finite s => newton_cond atol max_iter s
  | NotANumber _ => false
  end.

Definition newton_body_float (m : ambient_metric) (initial_norm : R)
    (s : float_state) : result float_state :=
  match s with
  | Finite s => newton_step_float m initial_norm s
  | NotANumber nb_iter => Ok (NotANumber nb_iter)
  end.

(** The Newton loop of [project_srv] with its final variables, on an array
    [srv] of numbers. *)
Definition project_srv_float (fuel : nat) (m : ambient_metric) (srv : mat)
    (atol : R) (max_iter : Z) : option (result float_state) :=
  if negb (is_planar_metric m) then Some (Raise AssertionError) else
  let initial_norm := srv_norm m srv in
  while_loop fuel (newton_cond_float atol max_iter)
    (newton_body_float m initial_norm) (Finite (newton_init m srv)).

(** Ambient manifolds; [isinstance(manifold, Euclidean)] is a match on the
    constructor. *)
Inductive manifold : Type :=
| Euclidean (dim : nat)
| OtherManifold (metric : ambient_metric).

Definition manifold_metric (M : manifold) : ambient_metric :=
  match M with
  | Euclidean d => EuclideanMetric d
  | OtherManifold metric => metric
  end.

Definition is_planar_manifold (M : manifold) : bool :=
  match M with
  | Euclidean d => Nat.eqb d 2
  | OtherManifold _ => false
  end.

(** [gs.array([x])]. *)
Definition array_of_one (x : ndarray) : result ndarray :=
  match x with
  | Arr1 v => Ok (Arr2 [v])
  | Arr2 c => Ok (Arr3 [c])
  | Arr3 _ => Raise ValueError
  end.

(** [ClosedDiscreteCurves.project]. *)
Definition project (fuel : nat) (M : manifold) (curve : ndarray)
    (atol : R) (max_iter : Z) : option (result ndarray) :=
  if negb (is_planar_manifold M) then Some (Raise AssertionError) else
  let srv_metric := manifold_metric M in
  match (srvs <- square_root_velocity srv_metric curve ;;
         srvs <- as_tensor srvs ;;
         match srvs with
         | [] => Raise IndexError
         | srv :: _ => Ok srv
         end) with
  | Raise e => Some (Raise e)
  | Ok srv =>
      match project_srv fuel srv_metric srv atol max_iter with
      | None => None
      | Some (Raise e) => Some (Raise e)
      | Some (Ok srv_proj) =>
          Some (start <- first_slice curve ;;
                start <- array_of_one start ;;
                square_root_velocity_inverse srv_metric (Arr2 srv_proj) start)
      end
  end.

(** ** Horizontal and vertical parts of a tangent vector *)

Fixpoint remove_nth {A : Type} (j : nat) (l : list A) : list A :=
  match l, j with
  | [], _ => []
  | _ :: t, O => t
  | h :: t, S j' => h :: remove_nth j' t
  end.

Fixpoint set_nth {A : Type} (j : nat) (x : A) (l : list A) : list A :=
  match l, j with
  | [], _ => []
  | _ :: t, O => x :: t
  | h :: t, S j' => h :: set_nth j' x t
  end.

(** The determinant of an [n] by [n] matrix, expanded along its first row. *)
Fixpoint det (n : nat) (a : mat) : R :=
  match n with
  | O => 1
  | S n' =>
      match a with
      | [] => 0
      | row :: rest =>
          rsum (map (fun j => (-1) ^ j * nth j row 0
                              * det n' (map (remove_nth j) rest))
                    (seq 0 n))
      end
  end.

Definition replace_column (j : nat) (b : vec) (a : mat) : mat :=
  zip_with (fun row bi => set_nth j bi row) a b.

(** Modelled from the spec: the linear-algebra utility solves a dense linear
    system [a x = b].  Over the reals the solution of a regular system is
    the one given by Cramer's rule, and a singular matrix is rejected. *)
Definition linalg_solve (a : mat) (b : vec) : result vec :=
  let n := length a in
  let d := det n a in
  if Reqb d 0 then Raise LinAlgError
  else Ok (map (fun j => det n (replace_column j b a) / d) (seq 0 n)).

(** [np.diag(v, k)]: the square matrix with [v] on its [k]-th diagonal. *)
Definition np_diag (v : vec) (k : Z) : mat :=
  let n := (length v + Z.abs_nat k)%nat in
  map (fun i =>
         map (fun j =>
                if Z.eqb (Z.of_nat j - Z.of_nat i) k
                then nth (Nat.min i j) v 0 else 0)
             (seq 0 n))
      (seq 0 n).

(** [x[2:]], [x[:-2]] and [x[1:-1]]. *)
Definition from_two {A : Type} (l : list A) : list A := skipn 2 l.
Definition upto_last_two {A : Type} (l : list A) : list A :=
  removelast (removelast l).
Definition interior {A : Type} (l : list A) : list A := removelast (tl l).

Definition vmap2 (f : R -> R -> R) (u v : vec) : vec := zip_with f u v.

(** [QuotientSRVMetric.split_horizontal_vertical]; the result is the triple
    of the horizontal part, the vertical part and the vertical norm.  The
    pointwise norms and inner products that the code takes several times
    are taken once each, in the order of their first use. *)
Definition split_horizontal_vertical (m : ambient_metric)
    (tangent_vec curve : mat) : result (mat * mat * vec) :=
  let ambient_dim := length (hd [] curve) in
  let a_param := 1 in
  let b_param := 1 / 2 in
  let quotient := a_param / b_param in
  let position := interior curve in
  let d_pos := mscale (1 / 2) (msub (from_two curve) (upto_last_two curve)) in
  let d_vec :=
    mscale (1 / 2) (msub (from_two tangent_vec) (upto_last_two tangent_vec)) in
  let d2_pos :=
    madd (msub (from_two curve) (mscale 2 (interior curve)))
         (upto_last_two curve) in
  let d2_vec :=
    madd (msub (from_two tangent_vec) (mscale 2 (interior tangent_vec)))
         (upto_last_two tangent_vec) in
  norm_d_pos <- pointwise_norm m d_pos position ;;
  ip_d2_pos_d_pos <- pointwise_inner_product m d2_pos d_pos position ;;
  norm_d2_pos <- pointwise_norm m d2_pos position ;;
  ip_d2_vec_d_pos <- pointwise_inner_product m d2_vec d_pos position ;;
  ip_d_vec_d2_pos <- pointwise_inner_product m d_vec d2_pos position ;;
  ip_d_vec_d_pos <- pointwise_inner_product m d_vec d_pos position ;;
  let vec_a :=
    vmap2 (fun n ip => n ^ 2 - 1 / 2 * ip) norm_d_pos ip_d2_pos_d_pos in
  let vec_b :=
    zip_with3
      (fun n n2 ip => - 2 * n ^ 2 - quotient ^ 2 * (n2 ^ 2 - ip ^ 2 / n ^ 2))
      norm_d_pos norm_d2_pos ip_d2_pos_d_pos in
  let vec_c :=
    vmap2 (fun n ip => n ^ 2 + 1 / 2 * ip) norm_d_pos ip_d2_pos_d_pos in
  let vec_d :=
    zip_with3
      (fun n ips ip3 =>
         n * (fst (fst ips) - (quotient ^ 2 - 1) * snd (fst ips)
              + (quotient ^ 2 - 2) * snd ips * ip3 / n ^ 2))
      norm_d_pos
      (zip_with3 (fun x y z => (x, y, z))
         ip_d2_vec_d_pos ip_d_vec_d2_pos ip_d2_pos_d_pos)
      ip_d_vec_d_pos in
  let linear_system :=
    madd (madd (np_diag (drop_last vec_a) 1) (np_diag vec_b 0))
         (np_diag (drop_first vec_c) (-1)) in
  solution <- linalg_solve linear_system vec_d ;;
  let vertical_norm := 0 :: solution ++ [0] in
  let unit_speed :=
    zip_with (fun v n => vscale (1 / n) v) d_pos norm_d_pos in
  let tangent_vec_ver :=
    repeat 0 ambient_dim
    :: zip_with (fun u n => vscale n u) unit_speed (interior vertical_norm)
    ++ [repeat 0 ambient_dim] in
  let tangent_vec_hor := msub tangent_vec tangent_vec_ver in
  Ok (tangent_vec_hor, tangent_vec_ver, vertical_norm).

(** ** The reparametrization grid of [horizontal_geodesic] *)

(** The entry [a[i, j]] of a 2-d array. *)
Definition get2 {A : Type} (a : list (list A)) (i j : nat) : result A :=
  match nth_error a i with
  | Some row =>
      match nth_error row j with
      | Some x => Ok x
      | None => Raise IndexError
      end
  | None => Raise IndexError
  end.

(** The assignment [a[i, j] = x]. *)
Definition set2 {A : Type} (a : list (list A)) (i j : nat) (x : A)
    : result (list (list A)) :=
  match nth_error a i with
  | Some row =>
      if Nat.ltb j (length row) then Ok (set_nth i (set_nth j x row) a)
      else Raise IndexError
  | None => Raise IndexError
  end.

(** [gs.linspace(0., 1., n)]. *)
Definition linspace (n : nat) : vec :=
  map (fun i => INR i / INR (n - 1)) (seq 0 n).

Fixpoint for_each {St : Type} (l : list nat) (body : nat -> St -> result St)
    (s : St) : result St :=
  match l with
  | [] => Ok s
  | i :: rest => s' <- body i s ;; for_each rest body s'
  end.

(** The local function [construct_reparametrization] of
    [horizontal_geodesic]; [n_points] is captured from the enclosing call.
    The arrays [rep_space_deriv] and [rep_time_deriv] are written and read
    back at once, they are local values here.  The test of monotonicity
    only prints a warning and is left out. *)
Definition construct_reparametrization (n_points n_times : nat)
    (vertical_norm space_deriv_norm : mat) : result mat :=
  if Nat.eqb n_times 0 then Raise ValueError else
  let rep := repeat (repeat 0 n_points) n_times in
  let rep := set_nth 0 (linspace n_points) rep in
  if Nat.eqb n_points 0 then Raise IndexError else
  let rep := map (set_nth (n_points - 1) 1) rep in
  for_each (seq 0 (n_times - 1))
    (fun i rep =>
       rep_i_1 <- get2 rep i 1 ;;
       rep_i_0 <- get2 rep i 0 ;;
       let rep_space_deriv := INR n_points * (rep_i_1 - rep_i_0) in
       vn <- get2 vertical_norm i 0 ;;
       sdn <- get2 space_deriv_norm i 0 ;;
       let rep_time_deriv := rep_space_deriv * vn / sdn in
       rep <- set2 rep (i + 1) 0 (rep_i_0 + rep_time_deriv / INR n_times) ;;
       for_each (seq 1 (n_points - 2))
         (fun j rep =>
            rep_next <- get2 rep i (j + 1) ;;
            rep_here <- get2 rep i j ;;
            rep_prev <- get2 rep i (j - 1) ;;
            let d_rep_plus := rep_next - rep_here in
            let d_rep_minus := rep_here - rep_prev in
            vn <- get2 vertical_norm i j ;;
            let rep_space_deriv :=
              if Rgtb vn 0 then INR n_points * d_rep_plus
              else INR n_points * d_rep_minus in
            sdn <- get2 space_deriv_norm i j ;;
            let rep_time_deriv := rep_space_deriv * vn / sdn in
            set2 rep (i + 1) j (rep_here + rep_time_deriv / INR n_times))
         rep)
    rep.

(** ** The grid in floating point

    The quotients of [construct_reparametrization] are taken by entries of
    [space_deriv_norm], which are norms and can vanish.  NumPy does not
    stop there: a quotient by zero is [inf], [-inf] or [nan], and these
    values spread through the later entries of the grid.  The values
    below are the reals and these three; the operations follow IEEE 754 on
    them, a zero being read as [+0.0] where its sign matters (the divisors
    of the grid are norms and the number of times). *)
Inductive xreal : Type :=
| Fin (x : R)
| PInf
| NInf
| NaN.

Definition xvec := list xreal.
Definition xmat := list xvec.

Definition xopp (a : xreal) : xreal :=
  match a with
  | Fin x => Fin (- x)
  | PInf => NInf
  | NInf => PInf
  | NaN => NaN
  end.

Definition xadd (a b : xreal) : xreal :=
  match a, b with
  | Fin x, Fin y => Fin (x + y)
  | NaN, _ | _, NaN => NaN
  | PInf, NInf | NInf, PInf => NaN
  | PInf, _ | _, PInf => PInf
  | NInf, _ | _, NInf => NInf
  end.

Definition xsub (a b : xreal) : xreal := xadd a (xopp b).

(** An infinity times a number: [nan] for zero, else the sign decides. *)
Definition xscale_inf (x : R) (inf : xreal) : xreal :=
  if Reqb x 0 then NaN else if Rgtb x 0 then inf else xopp inf.

Definition xmul (a b : xreal) : xreal :=
  match a, b with
  | Fin x, Fin y => Fin (x * y)
  | NaN, _ | _, NaN => NaN
  | Fin x, inf | inf, Fin x => xscale_inf x inf
  | PInf, PInf | NInf, NInf => PInf
  | PInf, NInf | NInf, PInf => NInf
  end.

Definition xdiv (a b : xreal) : xreal :=
  match a, b with
  | Fin x, Fin y =>
      if Reqb y 0
      then if Reqb x 0 then NaN else if Rgtb x 0 then PInf else NInf
      else Fin (x / y)
  | NaN, _ | _, NaN => NaN
  | Fin _, _ => Fin 0
  | inf, Fin y => if Rgeb y 0 then inf else xopp inf
  | _, _ => NaN
  end.

(** An array of numbers, as an array of such values. *)
Definition fin_mat (a : mat) : xmat := map (map Fin) a.

(** [construct_reparametrization] again, line by line, on these values.
    The arrays [vertical_norm] and [space_deriv_norm] it is given hold
    numbers. *)
Definition construct_reparametrization_float (n_points n_times : nat)
    (vertical_norm space_deriv_norm : mat) : result xmat :=
  if Nat.eqb n_times 0 then Raise ValueError else
  let rep := repeat (repeat (Fin 0) n_points) n_times in
  let rep := set_nth 0 (map Fin (linspace n_points)) rep in
  if Nat.eqb n_points 0 then Raise IndexError else
  let rep := map (set_nth (n_points - 1) (Fin 1)) rep in
  for_each (seq 0 (n_times - 1))
    (fun i rep =>
       rep_i_1 <- get2 rep i 1 ;;
       rep_i_0 <- get2 rep i 0 ;;
       let rep_space_deriv :=
         xmul (Fin (INR n_points)) (xsub rep_i_1 rep_i_0) in
       vn <- get2 vertical_norm i 0 ;;
       sdn <- get2 space_deriv_norm i 0 ;;
       let rep_time_deriv :=
         xdiv (xmul rep_space_deriv (Fin vn)) (Fin sdn) in
       rep <- set2 rep (i + 1) 0
                (xadd rep_i_0 (xdiv rep_time_deriv (Fin (INR n_times)))) ;;
       for_each (seq 1 (n_points - 2))
         (fun j rep =>
            rep_next <- get2 rep i (j + 1) ;;
            rep_here <- get2 rep i j ;;
            rep_prev <- get2 rep i (j - 1) ;;
            let d_rep_plus := xsub rep_next rep_here in
            let d_rep_minus := xsub rep_here rep_prev in
            vn <- get2 vertical_norm i j ;;
            let rep_space_deriv :=
              if Rgtb vn 0 then xmul (Fin (INR n_points)) d_rep_plus
              else xmul (Fin (INR n_points)) d_rep_minus in
            sdn <- get2 space_deriv_norm i j ;;
            let rep_time_deriv :=
              xdiv (xmul rep_space_deriv (Fin vn)) (Fin sdn) in
            set2 rep (i + 1) j
              (xadd rep_here (xdiv rep_time_deriv (Fin (INR n_times)))))
         rep)
    rep.

(** ** The space derivative *)

(** [gs.zeros((1, k))] and [gs.ones((1, k))], as their single row; a
    negative size is rejected. *)
Definition constant_row (x : R) (k : Z) : result vec :=
  if Z.ltb k 0 then Raise ValueError else Ok (repeat x (Z.to_nat k)).

(** The square matrix with [v] on its diagonal and zero elsewhere. *)
Definition diagonal_matrix (v : vec) : mat :=
  map (fun i =>
         map (fun j => if Nat.eqb i j then nth i v 0 else 0)
             (seq 0 (length v)))
      (seq 0 (length v)).

(** Modelled from the spec: the utility that lays a vector on the diagonal
    of a square matrix, the rest of which is zero.  It reads the size of the
    last axis of its argument, which an array without axis does not have. *)
Definition from_vector_to_diagonal_matrix (x : squeezed) : result mat :=
  match x with
  | Scalar _ => Raise IndexError
  | Vector v => Ok (diagonal_matrix v)
  end.

(** [gs.hstack] and [gs.vstack] of two 2-d arrays. *)
Definition hstack (a b : mat) : result mat :=
  if Nat.eqb (length a) (length b) then Ok (zip_with (@app R) a b)
  else Raise ValueError.

Definition vstack (a b : mat) : result mat :=
  if cols_agree a b then Ok (a ++ b) else Raise ValueError.

(** [gs.matmul(a, c)] of a square matrix with as many columns as [c] has
    rows: each row of the product is the combination of the rows of [c]
    with the entries of a row of [a]. *)
Definition lin_comb (d : nat) (row : vec) (c : mat) : vec :=
  sum_rows d (zip_with vscale row c).

Definition matmul (a c : mat) : mat :=
  map (fun row => lin_comb (length (hd [] c)) row c) a.

(** The matrix [mat_space_deriv] of [space_derivative]. *)
Definition space_derivative_matrix (n_points : nat) : result mat :=
  zeros <- constant_row 0 (Z.of_nat n_points - 2) ;;
  let vec_1 := squeeze ([-1] ++ zeros ++ [1]) in
  ones <- constant_row 1 (Z.of_nat n_points - 2) ;;
  let vec_2 := squeeze (vscale (1 / 2) ones ++ [1]) in
  let vec_3 := squeeze ([1] ++ vscale (1 / 2) ones) in
  mat_1 <- from_vector_to_diagonal_matrix vec_1 ;;
  mat_2 <- from_vector_to_diagonal_matrix vec_2 ;;
  mat_3 <- from_vector_to_diagonal_matrix vec_3 ;;
  mat_2 <- hstack mat_2 (repeat [0] (n_points - 1)) ;;
  mat_2 <- vstack [repeat 0 n_points] mat_2 ;;
  mat_3 <- hstack (repeat [0] (n_points - 1)) mat_3 ;;
  mat_3 <- vstack mat_3 [repeat 0 n_points] ;;
  Ok (madd (msub mat_1 mat_2) mat_3).

(** [SRVMetric.space_derivative] on a single curve. *)
Definition space_derivative (curve : mat) : result mat :=
  let n_points := length curve in
  mat_space_deriv <- space_derivative_matrix n_points ;;
  Ok (mscale (INR n_points) (matmul mat_space_deriv curve)).

(** ** Definitions used to state the properties *)

(** A rectangular 2-d array with [n] rows and [d] columns. *)
Definition rect (n d : nat) (c : mat) : Prop :=
  length c = n /\ Forall (fun p => length p = d) c.

(** The SRV vector of the segment from [q] to [p], as the specification
    words it: the logarithm from the earlier point to the later one, scaled
    by [coef], divided by the square root of its norm. *)
Definition srv_segment (m : ambient_metric) (coef : R) (p q : vec) : vec :=
  let velocity := vscale coef (metric_log m p q) in
  vscale (1 / sqrt (metric_norm m velocity q)) velocity.

(** The SRV representation of one curve taken alone. *)
Definition srv_of_curve (m : ambient_metric) (c : mat) : mat :=
  zip_with (srv_segment m (INR (length c - 1))) (drop_first c) (drop_last c).

(** The speeds of the segments of a curve in a Euclidean space. *)
Definition segment_speeds (c : mat) : vec :=
  zip_with (fun p q => sqrt (dot (vsub p q) (vsub p q)))
           (drop_first c) (drop_last c).

Definition positive_speeds (c : mat) : Prop :=
  Forall (fun s => 0 < s) (segment_speeds c).

(** The displacements between consecutive points of a curve. *)
Definition differences (c : mat) : mat := msub (drop_first c) (drop_last c).

(** The shooting tangent vector of [geodesic]: the logarithm of the end
    curve at the initial curve, both with a batch axis. *)
Definition shooting_tangent_vec (m : ambient_metric) (initial_curve : tensor)
    (end_curve : ndarray) : result tensor :=
  end_curve <- as_tensor end_curve ;;
  shooting <- log m (Arr3 end_curve) (Arr3 initial_curve) ;;
  as_tensor shooting.

(** The distance of the product metric in the words of the specification:
    the square root of the sum of the squared ambient distances. *)
Definition l2_dist_spec (m : ambient_metric) (a b : mat) : R :=
  sqrt (rsum (zip_with (fun u v => metric_dist m u v ^ 2) a b)).

(** The relations that the variables of the Newton loop of [project_srv]
    keep between them. *)
Definition newton_inv (m : ambient_metric) (s : newton_state) : Prop :=
  proj_norms s = map (fun row => metric_norm m row []) (proj s)
  /\ residual s = g_criterion 2 (proj s) (proj_norms s)
  /\ criteria s = metric_norm m (residual s) [].

Definition all_zero (v : vec) : Prop := Forall (fun x => x = 0) v.

(** The two ways in which the loop of [project_srv] is meant to end: the
    norm of the residual is below the tolerance, or the count of
    iterations is [max_iter].  A norm that is [nan] is not below the
    tolerance. *)
Definition converged_or_exhausted (atol : R) (max_iter : Z)
    (s : float_state) : Prop :=
  match s with
  | Finite s => criteria s < atol \/ nb_iter s = max_iter
  | NotANumber nb_iter => nb_iter = max_iter
  end.

(** The SRV norm of the current projection, when it is a number. *)
Definition float_srv_norm (m : ambient_metric) (s : float_state)
    : option R :=
  match s with
  | Finite s => Some (srv_norm m (proj s))
  | NotANumber _ => None
  end.

(** What the outer loop of [construct_reparametrization] keeps true of the
    grid once the rows up to [k] are written. *)
Definition grid_inv (n_points n_times k : nat) (rep : mat) : Prop :=
  rect n_times n_points rep
  /\ nth_error rep 0 = Some (linspace n_points)
  /\ (forall i, (i < n_times)%nat -> get2 rep i (n_points - 1) = Ok 1)
  /\ (forall i, (i <= k)%nat -> (i < n_times)%nat -> get2 rep i 0 = Ok 0).

(** The centered differences [d_pos] and the unit tangents [unit_speed] of
    [split_horizontal_vertical], at the interior sampling points. *)
Definition centered_speed (c : mat) : mat :=
  mscale (1 / 2) (msub (from_two c) (upto_last_two c)).

(** The inner products and the norms along a curve, point by point: the
    values of [pointwise_inner_product] and [pointwise_norm] where they
    return. *)
Definition inner_products_along (m : ambient_metric) (a b base : mat) : vec :=
  zip_with3 (metric_inner_product m) a b base.

Definition norms_along (m : ambient_metric) (a base : mat) : vec :=
  map sqrt (inner_products_along m a a base).

Definition unit_speed (m : ambient_metric) (c : mat) : mat :=
  zip_with (fun v n => vscale (1 / n) v) (centered_speed c)
    (norms_along m (centered_speed c) (interior c)).

(** The claim of pointwise orthogonality up to a tolerance, for one tangent
    vector and one curve. *)
Definition pointwise_orthogonal (tol : R) (m : ambient_metric)
    (tangent_vec curve : mat) : Prop :=
  forall hor ver vertical_norm,
    split_horizontal_vertical m tangent_vec curve
    = Ok (hor, ver, vertical_norm) ->
    exists inner_prod,
      pointwise_inner_product m hor ver curve = Ok inner_prod
      /\ Forall (fun x => Rabs x <= tol) (interior inner_prod).

(** The mask of [square_root_velocity]: the index [i] of a segment is kept
    unless the segment joins two curves of the batch. *)
Definition boundary_keep (n i : nat) : bool :=
  negb (Nat.eqb ((i + 1) mod n) 0).

(** A binary operation applied to all pairs of consecutive elements. *)
Definition consecutive {A B : Type} (g : A -> A -> B) (c : list A) : list B :=
  zip_with g (drop_first c) (drop_last c).

(** An ambient metric that is not Euclidean, for examples. *)
Definition hyperbolic_like : metric_ops :=
  {| op_exp := fun v p => vadd p v;
     op_log := fun q p => vsub q p;
     op_inner_product := fun u v p => dot u v / (1 + dot p p) |}.

(** The rows that [exp] and [log] compute, one sampling interval at a time.
    [velocities c] is the array [(n - 1) * (c[1:] - c[:-1])] of both
    functions; in a Euclidean space a row of the SRV representation is a
    function of the velocity alone. *)
Definition velocities (c : mat) : mat :=
  mscale (INR (length c - 1)) (differences c).

Definition srv_row (V : vec) : vec := vscale (1 / sqrt (sqrt (dot V V))) V.

(** A row of [end_curve_srv] in [exp], from the row [D] of
    [tangent_vec_derivative] and the row [V] of [base_curve_velocity]. *)
Definition exp_row (D V : vec) : vec :=
  let nv := sqrt (dot V V) in
  vadd (srv_row V)
       (vadd (vscale (1 / sqrt nv) D)
             (vscale (- 1 / (2 * sqrt nv ^ 5) * dot D V) V)).

(** A row of [log_derivative] in [log], from the row [Q] of [curve_srv] and
    the row [V] of [base_curve_velocity]. *)
Definition log_row (Q V : vec) : vec :=
  let nv := sqrt (dot V V) in
  let srv_diff := vsub Q (srv_row V) in
  vadd (vscale (sqrt nv) srv_diff)
       (vscale (1 / sqrt nv ^ 3 * dot srv_diff V) V).

(** The tangent vector that [log] assembles from the rows of
    [log_derivative]: the logarithm of the starting points plus the running
    sums, divided by the number of segments. *)
Definition log_assemble (coef : R) (start : vec) (n_coords : nat)
    (log_derivative : mat) : mat :=
  map (fun row => vadd start (vscale (1 / coef) row))
      (repeat 0 n_coords :: cumsum_rows log_derivative).

(** A tolerance for examples. *)
Definition example_tol : tolerance :=
  {| gs_atol := 1 / 1000; gs_rtol := 1 / 1000 |}.

(** What the loops of [construct_reparametrization] keep true of the grid
    when the vertical norm vanishes: the rows up to [k] are the uniform
    grid, the last column is one, and, inside the loop over the points, the
    next row agrees with the uniform grid up to the column [j]. *)
Definition identity_rows (n_points n_times k : nat) (rep : mat) : Prop :=
  rect n_times n_points rep
  /\ (forall i, (i <= k)%nat -> (i < n_times)%nat ->
        nth_error rep i = Some (linspace n_points))
  /\ (forall i, (i < n_times)%nat -> get2 rep i (n_points - 1) = Ok 1).

Definition identity_row_upto (n_points n_times i j : nat) (rep : mat)
    : Prop :=
  identity_rows n_points n_times i rep
  /\ (forall j', (j' < j)%nat ->
        get2 rep (i + 1) j' = Ok (INR j' / INR (n_points - 1))).

(** The claim on the boundary columns, for a grid in floating point. *)
Definition boundary_columns_fixed (n_points n_times : nat) (rep : xmat)
    : Prop :=
  forall i, (i < n_times)%nat ->
    get2 rep i 0 = Ok (Fin 0) /\ get2 rep i (n_points - 1) = Ok (Fin 1).

(** The length of the polygon through the sampling points of a curve in a
    Euclidean space. *)
Definition curve_length (c : mat) : R := rsum (segment_speeds c).

(** The rows of [d_square_root_velocity]: the row of the differential at a
    segment with velocity [V], for the row [D] of [d_vec]. *)
Definition d_srv_row (V D : vec) : vec :=
  let nv := sqrt (dot V V) in
  let U := vscale (1 / nv) V in
  vscale (1 / sqrt nv) (vsub D (vscale (1 / 2) (vscale (dot D U) U))).

Definition d_srv_rows (V D : mat) : mat := zip_with d_srv_row V D.

(** * Properties *)

(** ** Lists *)

Lemma combine_app_eq {A B : Type} (a b : list A) (c d : list B) :
  length a = length c ->
  combine (a ++ b) (c ++ d) = combine a c ++ combine b d.
Proof.
  revert c; induction a as [|x a IH]; intros [|y c] H; simpl in *;
    try discriminate; auto.
  f_equal. apply IH. lia.
Qed.

Lemma zip_with_app {A B C : Type} (f : A -> B -> C)
    (a b : list A) (c d : list B) :
  length a = length c ->
  zip_with f (a ++ b) (c ++ d) = zip_with f a c ++ zip_with f b d.
Proof.
  intros H. unfold zip_with. rewrite combine_app_eq by exact H.
  apply map_app.
Qed.

Lemma zip_with_length {A B C : Type} (f : A -> B -> C)
    (a : list A) (b : list B) :
  length (zip_with f a b) = Nat.min (length a) (length b).
Proof.
  unfold zip_with. rewrite length_map. apply length_combine.
Qed.

Lemma zip_with_cons {A B C : Type} (f : A -> B -> C) x y a b :
  zip_with f (x :: a) (y :: b) = f x y :: zip_with f a b.
Proof. reflexivity. Qed.

Lemma zip_with_nil_r {A B C : Type} (f : A -> B -> C) a :
  zip_with f a [] = [].
Proof. destruct a; reflexivity. Qed.

Lemma zip_with_fuse {A B C D : Type} (g : A -> B -> C) (k : C -> B -> D)
    (h : C -> D -> C) (x : list A) (y : list B) :
  zip_with h (zip_with g x y) (zip_with k (zip_with g x y) y)
  = zip_with (fun a b => h (g a b) (k (g a b) b)) x y.
Proof.
  revert y; induction x as [|a x IH]; intros [|b y]; simpl; auto.
  rewrite !zip_with_cons. f_equal. apply IH.
Qed.

Lemma removelast_length {A : Type} (l : list A) :
  length (removelast l) = (length l - 1)%nat.
Proof.
  induction l as [|a [|b l] IH]; simpl in *; auto. lia.
Qed.

Lemma tl_length {A : Type} (l : list A) :
  length (tl l) = (length l - 1)%nat.
Proof. destruct l; simpl; lia. Qed.

Lemma drop_first_length {A : Type} (l : list A) :
  length (drop_first l) = (length l - 1)%nat.
Proof. apply tl_length. Qed.

Lemma drop_last_length {A : Type} (l : list A) :
  length (drop_last l) = (length l - 1)%nat.
Proof. apply removelast_length. Qed.

Lemma removelast_last_eq {A : Type} (d : A) (l : list A) :
  l <> [] -> l = removelast l ++ [last l d].
Proof. intros H. apply app_removelast_last. exact H. Qed.

Lemma map_seq_shift {B : Type} (f : nat -> B) (k s len : nat) :
  map f (seq (k + s) len) = map (fun i => f (k + i)%nat) (seq s len).
Proof.
  revert s; induction len as [|len IH]; intros s; simpl; auto.
  f_equal. replace (S (k + s)) with (k + S s)%nat by lia. apply IH.
Qed.

Lemma filter_all_true {B : Type} (mask : list bool) (l : list B) :
  Forall (fun b => b = true) mask ->
  length mask = length l ->
  map snd (filter fst (combine mask l)) = l.
Proof.
  revert l; induction mask as [|b mask IH]; intros [|x l] Hall Hlen;
    simpl in *; try discriminate; auto.
  inversion Hall; subst. simpl. f_equal. apply IH; auto.
Qed.

Lemma chunks_concat {A : Type} (rows : nat) (b : list (list A)) :
  Forall (fun c => length c = rows) b ->
  chunks (length b) rows (concat b) = b.
Proof.
  induction 1 as [|c b Hc Hb IH]; simpl; auto.
  rewrite firstn_app, skipn_app, Hc, Nat.sub_diag.
  rewrite firstn_all2 by lia. rewrite skipn_all2 by lia.
  simpl. rewrite app_nil_r. f_equal. exact IH.
Qed.

Lemma concat_length_const {A : Type} (rows : nat) (b : list (list A)) :
  Forall (fun c => length c = rows) b ->
  length (concat b) = (length b * rows)%nat.
Proof.
  induction 1 as [|c b Hc Hb IH]; simpl; auto.
  rewrite length_app, IH, Hc. reflexivity.
Qed.

Lemma Forall_zip_with_l {A B C : Type} (P : A -> Prop) (Q : C -> Prop)
    (f : A -> B -> C) (x : list A) (y : list B) :
  Forall P x -> (forall a b, P a -> Q (f a b)) -> Forall Q (zip_with f x y).
Proof.
  intros Hx Hf. revert y.
  induction Hx as [|a x Ha Hx IH]; intros [|b y]; try constructor.
  - apply Hf. exact Ha.
  - apply IH.
Qed.

Lemma Forall_zip_with_r {A B C : Type} (P : B -> Prop) (Q : C -> Prop)
    (f : A -> B -> C) (x : list A) (y : list B) :
  Forall P y -> (forall a b, P b -> Q (f a b)) -> Forall Q (zip_with f x y).
Proof.
  intros Hy Hf. revert x.
  induction Hy as [|b y Hb Hy IH]; intros [|a x]; try constructor.
  - apply Hf. exact Hb.
  - apply IH.
Qed.

Lemma Forall_zip_with_both {A B C : Type} (P : A -> Prop) (P' : B -> Prop)
    (Q : C -> Prop) (f : A -> B -> C) (x : list A) (y : list B) :
  Forall P x -> Forall P' y -> (forall a b, P a -> P' b -> Q (f a b)) ->
  Forall Q (zip_with f x y).
Proof.
  intros Hx Hy Hf. revert y Hy.
  induction Hx as [|a x Ha Hx IH]; intros y Hy; [constructor|].
  destruct Hy as [|b y Hb Hy]; [constructor|].
  rewrite zip_with_cons. constructor; [apply Hf; assumption | apply IH].
  exact Hy.
Qed.


(** ** Masking the segments that join two curves of a batch *)

Section Masking.

Variables (A B : Type) (g : A -> A -> B) (n : nat).
Hypothesis n_pos : (1 <= n)%nat.

Lemma keep_inside (len : nat) :
  (len <= n - 1)%nat ->
  Forall (fun b => b = true) (map (boundary_keep n) (seq 0 len)).
Proof.
  intros Hlen. apply Forall_forall. intros b Hb.
  apply in_map_iff in Hb. destruct Hb as [i [<- Hi]].
  apply in_seq in Hi. unfold boundary_keep.
  rewrite Nat.mod_small by lia.
  destruct (Nat.eqb_spec (i + 1) 0); [lia | reflexivity].
Qed.

Lemma keep_boundary : boundary_keep n (n - 1) = false.
Proof.
  unfold boundary_keep. replace (n - 1 + 1)%nat with n by lia.
  rewrite Nat.Div0.mod_same. reflexivity.
Qed.

Lemma keep_periodic (i : nat) :
  boundary_keep n (n + i) = boundary_keep n i.
Proof.
  unfold boundary_keep. f_equal. f_equal.
  replace (n + i + 1)%nat with (i + 1 + 1 * n)%nat by lia.
  apply Nat.Div0.mod_add.
Qed.

Lemma pairs_app (d : A) (c rest : list A) :
  c <> [] -> rest <> [] ->
  consecutive g (c ++ rest)
  = consecutive g c ++ g (hd d rest) (last c d) :: consecutive g rest.
Proof.
  intros Hc Hrest. unfold consecutive, drop_first, drop_last.
  rewrite removelast_app by exact Hrest.
  destruct c as [|x c]; [contradiction|].
  destruct rest as [|y rest]; [contradiction|].
  change (tl ((x :: c) ++ y :: rest)) with (c ++ y :: rest).
  rewrite (removelast_last_eq d (x :: c)) at 1 by discriminate.
  rewrite <- app_assoc.
  rewrite zip_with_app.
  - reflexivity.
  - rewrite removelast_length. simpl. lia.
Qed.

Lemma mask_pairs (b : list (list A)) :
  Forall (fun c => length c = n) b ->
  map snd
    (filter fst
       (combine (map (boundary_keep n) (seq 0 (length b * n - 1)))
          (consecutive g (concat b))))
  = concat (map (consecutive g) b).
Proof.
  induction 1 as [|c b Hc Hb IH].
  - reflexivity.
  - destruct b as [|c' b'].
    + simpl concat. rewrite !app_nil_r.
      apply filter_all_true.
      * apply keep_inside. simpl. lia.
      * unfold consecutive. rewrite length_map, length_seq, zip_with_length.
        unfold drop_first, drop_last.
        rewrite tl_length, removelast_length, Hc. simpl. lia.
    + assert (Hrest : concat (c' :: b') <> []).
      { intros E. apply (f_equal (@length A)) in E.
        rewrite (concat_length_const n) in E by exact Hb.
        simpl in E. lia. }
      assert (Hne : c <> []) by (intros ->; simpl in Hc; lia).
      change (concat (c :: c' :: b')) with (c ++ concat (c' :: b')).
      destruct c as [|x c]; [contradiction|].
      rewrite (pairs_app x) by assumption.
      replace (length ((x :: c) :: c' :: b') * n - 1)%nat
        with ((n - 1) + S (length (c' :: b') * n - 1))%nat
        by (simpl; lia).
      rewrite seq_app, map_app. simpl seq. simpl map at 2.
      rewrite combine_app_eq.
      2:{ unfold consecutive. rewrite length_map, length_seq, zip_with_length.
          unfold drop_first, drop_last.
          rewrite tl_length, removelast_length, Hc. lia. }
      rewrite filter_app, map_app.
      rewrite filter_all_true.
      2:{ apply keep_inside. lia. }
      2:{ unfold consecutive. rewrite length_map, length_seq, zip_with_length.
          unfold drop_first, drop_last.
          rewrite tl_length, removelast_length, Hc. lia. }
      simpl combine. rewrite keep_boundary. simpl filter.
      replace (S (n - 1)) with (n + 0)%nat by lia.
      rewrite map_seq_shift.
      rewrite (map_ext _ (boundary_keep n)) by (intros; apply keep_periodic).
      simpl in IH |- *. rewrite IH. reflexivity.
Qed.

End Masking.

(** ** The transform of a batch *)

Lemma to_ndarray_3 (b : tensor) : to_ndarray (Arr3 b) 3 0 = Ok (Arr3 b).
Proof. reflexivity. Qed.

Lemma to_ndarray_2 (c : mat) : to_ndarray (Arr2 c) 3 0 = Ok (Arr3 [c]).
Proof. reflexivity. Qed.

Lemma as_tensor_3 (b : tensor) : as_tensor (Arr3 b) = Ok b.
Proof. reflexivity. Qed.

Lemma srv_of_curve_length (m : ambient_metric) (c : mat) :
  length (srv_of_curve m c) = (length c - 1)%nat.
Proof.
  unfold srv_of_curve.
  rewrite zip_with_length, drop_first_length, drop_last_length. lia.
Qed.

Lemma square_root_velocity_blocks (m : ambient_metric) (n : nat)
    (b : tensor) :
  (1 <= n)%nat ->
  Forall (fun c => length c = n) b ->
  square_root_velocity m (Arr3 b) = Ok (Arr3 (map (srv_of_curve m) b)).
Proof.
  intros Hn Hb.
  destruct b as [|c0 b0]; [reflexivity|].
  set (b := c0 :: b0) in *.
  assert (Hrows : shape_rows b = n) by (inversion Hb; assumption).
  unfold square_root_velocity.
  rewrite to_ndarray_3. cbn [bind]. cbv zeta. rewrite Hrows.
  rewrite (zip_with_fuse
             (fun p q => vscale (INR (n - 1)) (metric_log m p q))
             (metric_norm m)
             (fun v nv => vscale (1 / sqrt nv) v)).
  change (fun a b1 =>
            vscale
              (1 / sqrt (metric_norm m
                           (vscale (INR (n - 1)) (metric_log m a b1)) b1))
              (vscale (INR (n - 1)) (metric_log m a b1)))
    with (srv_segment m (INR (n - 1))).
  unfold mask_select.
  rewrite length_map, length_seq, zip_with_length.
  rewrite drop_first_length, drop_last_length.
  rewrite (concat_length_const n) by exact Hb.
  rewrite Nat.min_id, Nat.eqb_refl.
  cbn [bind].
  match goal with
  | |- context [reshape3 _ _ ?selected] =>
      replace selected
        with (concat (map (fun c => zip_with (srv_segment m (INR (n - 1)))
                                      (drop_first c) (drop_last c)) b))
        by (symmetry;
            exact (mask_pairs _ _ (srv_segment m (INR (n - 1))) n Hn b Hb))
  end.
  assert (Hmap : map (fun c => zip_with (srv_segment m (INR (n - 1)))
                                 (drop_first c) (drop_last c)) b
                 = map (srv_of_curve m) b).
  { apply map_ext_in. intros c Hc.
    rewrite Forall_forall in Hb. unfold srv_of_curve.
    rewrite (Hb c Hc). reflexivity. }
  rewrite Hmap.
  assert (Hlen : Forall (fun s => length s = (n - 1)%nat)
                   (map (srv_of_curve m) b)).
  { apply Forall_map. eapply Forall_impl; [|exact Hb].
    intros c Hc. simpl. rewrite srv_of_curve_length, Hc. reflexivity. }
  unfold reshape3.
  rewrite (concat_length_const (n - 1)) by exact Hlen.
  rewrite length_map, Nat.eqb_refl. cbn [bind].
  pose proof (chunks_concat (n - 1) _ Hlen) as Hchunks.
  rewrite length_map in Hchunks.
  do 2 f_equal. exact Hchunks.
Qed.

Lemma square_root_velocity_single (m : ambient_metric) (c : mat) :
  (1 <= length c)%nat ->
  square_root_velocity m (Arr2 c) = Ok (Arr3 [srv_of_curve m c]).
Proof.
  intros Hc.
  assert (H := square_root_velocity_blocks m (length c) [c] Hc).
  unfold square_root_velocity in *.
  rewrite to_ndarray_2. rewrite to_ndarray_3 in H.
  apply H. repeat constructor.
Qed.

(** C9: on a batch of curves that share contiguous storage, the transform
    works curve by curve: the [k]-th slice of the result on the batch is the
    result on the [k]-th curve alone, so that no segment joins the last
    point of a curve to the first point of the next one. *)
Theorem square_root_velocity_batch_independent (m : ambient_metric)
    (n : nat) (b : tensor) :
  (1 <= n)%nat ->
  Forall (fun c => length c = n) b ->
  exists blocks,
    square_root_velocity m (Arr3 b) = Ok (Arr3 blocks)
    /\ length blocks = length b
    /\ forall k c,
         nth_error b k = Some c ->
         exists s,
           square_root_velocity m (Arr2 c) = Ok (Arr3 [s])
           /\ nth_error blocks k = Some s
           /\ s = srv_of_curve m c
           /\ length s = (n - 1)%nat.
Proof.
  intros Hn Hb.
  exists (map (srv_of_curve m) b). split; [|split].
  - apply (square_root_velocity_blocks m n); assumption.
  - apply length_map.
  - intros k c Hk. exists (srv_of_curve m c).
    assert (Hc : length c = n).
    { rewrite Forall_forall in Hb. apply Hb.
      eapply nth_error_In; eassumption. }
    split; [|split; [|split]].
    + apply square_root_velocity_single. lia.
    + rewrite nth_error_map, Hk. reflexivity.
    + reflexivity.
    + rewrite srv_of_curve_length, Hc. reflexivity.
Qed.

Lemma square_root_velocity_batch_independent_witness :
  exists blocks,
    square_root_velocity (EuclideanMetric 2)
      (Arr3 [[[0; 0]; [1; 0]]; [[5; 5]; [5; 7]]]) = Ok (Arr3 blocks)
    /\ length blocks = 2%nat
    /\ forall k c,
         nth_error [[[0; 0]; [1; 0]]; [[5; 5]; [5; 7]]] k = Some c ->
         exists s,
           square_root_velocity (EuclideanMetric 2) (Arr2 c) = Ok (Arr3 [s])
           /\ nth_error blocks k = Some s
           /\ s = srv_of_curve (EuclideanMetric 2) c
           /\ length s = (2 - 1)%nat.
Proof.
  apply (square_root_velocity_batch_independent (EuclideanMetric 2) 2
           [[[0; 0]; [1; 0]]; [[5; 5]; [5; 7]]]).
  - lia.
  - repeat constructor.
Defined.

(** ** Vectors over the reals *)

Lemma dot_vscale (a b : R) (u v : vec) :
  dot (vscale a u) (vscale b v) = a * b * dot u v.
Proof.
  unfold dot, vscale, zip_with. revert v.
  induction u as [|x u IH]; intros [|y v]; simpl; try lra.
  rewrite IH. lra.
Qed.

Lemma dot_self_nonneg (v : vec) : 0 <= dot v v.
Proof.
  unfold dot. induction v as [|x v IH]; simpl; [lra|].
  unfold zip_with in *. simpl. nra.
Qed.

Lemma dot_comm (u v : vec) : dot u v = dot v u.
Proof.
  unfold dot. revert v.
  induction u as [|x u IH]; intros [|y v]; simpl; try lra.
  unfold zip_with in *. simpl. rewrite IH. lra.
Qed.

Lemma vscale_vscale (a b : R) (v : vec) :
  vscale a (vscale b v) = vscale (a * b) v.
Proof.
  unfold vscale. rewrite map_map. apply map_ext. intros x. lra.
Qed.

Lemma vscale_one (v : vec) : vscale 1 v = v.
Proof.
  unfold vscale. rewrite <- (map_id v) at 2. apply map_ext. intros x. lra.
Qed.

Lemma vscale_length (a : R) (v : vec) : length (vscale a v) = length v.
Proof. apply length_map. Qed.

Lemma vsub_length (u v : vec) :
  length (vsub u v) = Nat.min (length u) (length v).
Proof. apply zip_with_length. Qed.

Lemma vadd_length (u v : vec) :
  length (vadd u v) = Nat.min (length u) (length v).
Proof. apply zip_with_length. Qed.

Lemma vadd_vsub (p q : vec) :
  length p = length q -> vadd p (vsub q p) = q.
Proof.
  unfold vadd, vsub, zip_with. revert q.
  induction p as [|x p IH]; intros [|y q] H; simpl in *;
    try discriminate; auto.
  f_equal; [lra | apply IH; lia].
Qed.

Lemma norm_vscale (a : R) (v : vec) :
  0 <= a -> sqrt (dot (vscale a v) (vscale a v)) = a * sqrt (dot v v).
Proof.
  intros Ha. rewrite dot_vscale.
  rewrite sqrt_mult by (try apply dot_self_nonneg; nra).
  rewrite sqrt_square by exact Ha. reflexivity.
Qed.

Lemma zip_with_map_l {A B C : Type} (f : B -> A -> C) (g : A -> B)
    (l : list A) :
  zip_with f (map g l) l = map (fun x => f (g x) x) l.
Proof.
  unfold zip_with. induction l as [|x l IH]; simpl; auto.
  f_equal. exact IH.
Qed.

Lemma zip_with_map_r_self {A B C : Type} (f : A -> B -> C) (g : A -> B)
    (l : list A) :
  zip_with f l (map g l) = map (fun x => f x (g x)) l.
Proof.
  unfold zip_with. induction l as [|x l IH]; simpl; auto.
  f_equal. exact IH.
Qed.

(** The displacement recovered from one SRV vector. *)
Lemma segment_round_trip (dim : nat) (coef : R) (p q : vec) :
  0 < coef ->
  0 < sqrt (dot (vsub p q) (vsub p q)) ->
  let s := srv_segment (EuclideanMetric dim) coef p q in
  vscale (1 / coef * metric_norm (EuclideanMetric dim) s []) s = vsub p q.
Proof.
  intros Hcoef Hspeed s. subst s.
  unfold srv_segment, metric_norm. cbn [metric_inner_product metric_log].
  set (w := vsub p q) in *.
  rewrite (norm_vscale coef w) by lra.
  set (N := coef * sqrt (dot w w)).
  assert (HN : 0 < N) by (unfold N; nra).
  assert (HsN : 0 < sqrt N) by (apply sqrt_lt_R0; exact HN).
  assert (Hinv : 0 <= 1 / sqrt N).
  { apply Rlt_le. apply Rdiv_lt_0_compat; lra. }
  rewrite (norm_vscale (1 / sqrt N) (vscale coef w)) by exact Hinv.
  rewrite (norm_vscale coef w) by lra. fold N.
  rewrite !vscale_vscale.
  rewrite <- (vscale_one w) at 2. f_equal.
  assert (Hsq : sqrt N * sqrt N = N) by (apply sqrt_sqrt; lra).
  field_simplify_eq; [nra | lra].
Qed.

(** ** The inverse transform undoes the transform *)

Lemma zip_with_ext_Forall {A B C D : Type} (P : D -> Prop)
    (k : A -> B -> D) (f g : A -> B -> C) (x : list A) (y : list B) :
  Forall P (zip_with k x y) ->
  (forall a b, P (k a b) -> f a b = g a b) ->
  zip_with f x y = zip_with g x y.
Proof.
  intros Hall Hfg. revert y Hall.
  induction x as [|a x IH]; intros [|b y] Hall; try reflexivity.
  rewrite !zip_with_cons in *. inversion Hall; subst.
  f_equal; auto.
Qed.

Lemma map_zip_with {A B C D : Type} (h : C -> D) (g : A -> B -> C)
    (x : list A) (y : list B) :
  map h (zip_with g x y) = zip_with (fun a b => h (g a b)) x y.
Proof. unfold zip_with. rewrite map_map. reflexivity. Qed.

Lemma deltas_of_curve (dim : nat) (c : mat) :
  (2 <= length c)%nat ->
  positive_speeds c ->
  map (fun s =>
         vscale (1 / INR (length c - 1)
                 * metric_norm (EuclideanMetric dim) s []) s)
      (srv_of_curve (EuclideanMetric dim) c)
  = differences c.
Proof.
  intros Hlen Hpos. unfold srv_of_curve, differences, msub.
  rewrite map_zip_with.
  apply (zip_with_ext_Forall (fun s => 0 < s)
           (fun p q => sqrt (dot (vsub p q) (vsub p q)))).
  - exact Hpos.
  - intros p q Hs.
    apply (segment_round_trip dim (INR (length c - 1)) p q); [|exact Hs].
    apply lt_0_INR. lia.
Qed.

Lemma cumsum_differences (d : nat) (rest : mat) (p0 : vec) :
  length p0 = d ->
  Forall (fun p => length p = d) rest ->
  cumsum_from p0 (msub rest (drop_last (p0 :: rest))) = rest.
Proof.
  intros Hp0 Hrest. revert p0 Hp0.
  induction Hrest as [|p1 rest Hp1 Hrest IH]; intros p0 Hp0.
  - reflexivity.
  - change (drop_last (p0 :: p1 :: rest))
      with (p0 :: drop_last (p1 :: rest)).
    unfold msub. rewrite zip_with_cons. cbn [cumsum_from]. cbv zeta.
    rewrite vadd_vsub by congruence.
    f_equal. apply IH. exact Hp1.
Qed.

Lemma cumsum_rows_differences (d : nat) (c : mat) :
  Forall (fun p => length p = d) c ->
  c <> [] ->
  cumsum_rows (hd [] c :: differences c) = c.
Proof.
  intros Hc Hne. destruct c as [|p0 rest]; [contradiction|].
  inversion Hc; subst.
  unfold differences, drop_first. cbn [hd tl cumsum_rows].
  f_equal. apply (cumsum_differences (length p0)); auto.
Qed.

Lemma differences_head (d : nat) (c : mat) :
  (2 <= length c)%nat ->
  Forall (fun p => length p = d) c ->
  cols_agree [hd [] c] (differences c) = true.
Proof.
  intros Hlen Hc.
  destruct c as [|p0 [|p1 rest]]; simpl in Hlen; try lia.
  inversion Hc as [|? ? Hp0 Hc']; subst. inversion Hc'; subst.
  unfold differences, msub, drop_first, drop_last.
  cbn [tl]. change (removelast (p0 :: p1 :: rest))
    with (p0 :: removelast (p1 :: rest)).
  rewrite zip_with_cons. cbn [hd cols_agree].
  rewrite vsub_length. apply Nat.eqb_eq. lia.
Qed.

Lemma inverse_of_blocks (dim n d : nat) (b : tensor) :
  (2 <= n)%nat ->
  b <> [] ->
  Forall (fun c => rect n d c /\ positive_speeds c) b ->
  square_root_velocity_inverse (EuclideanMetric dim)
    (Arr3 (map (srv_of_curve (EuclideanMetric dim)) b))
    (Arr2 (map (hd []) b))
  = Ok (Arr3 b).
Proof.
  intros Hn Hne Hb.
  set (m := EuclideanMetric dim).
  assert (Hlen : Forall (fun c => length c = n) b).
  { eapply Forall_impl; [|exact Hb]. intros c [[H _] _]. exact H. }
  assert (Hrows : shape_rows (map (srv_of_curve m) b) = (n - 1)%nat).
  { destruct b as [|c0 b0]; [contradiction|].
    unfold shape_rows. cbn [map hd]. rewrite srv_of_curve_length.
    inversion Hlen; subst. reflexivity. }
  unfold square_root_velocity_inverse.
  change (negb (is_euclidean m)) with false.
  cbn [ndim Nat.eqb].
  change (to_ndarray (Arr2 (map (hd []) b)) 3 1)
    with (Ok (Arr3 (map (fun p : vec => [p]) (map (hd []) b)))).
  rewrite to_ndarray_3. cbn [bind]. cbv zeta.
  rewrite Hrows.
  destruct (Nat.eqb_spec (n - 1) 0) as [E|_]; [lia|].
  rewrite zip_with_map_l.
  set (h := fun s : vec =>
              vscale (1 / INR (n - 1) * metric_norm m s []) s).
  assert (Hdelta : map (map h) (map (srv_of_curve m) b)
                   = map differences b).
  { rewrite map_map. apply map_ext_in. intros c Hc.
    rewrite Forall_forall in Hb. destruct (Hb c Hc) as [[Hcl _] Hpos].
    unfold h. rewrite <- Hcl. apply deltas_of_curve; [lia | exact Hpos]. }
  assert (Hblock : Forall (fun s => length s = (n - 1)%nat)
                     (map (map h) (map (srv_of_curve m) b))).
  { rewrite map_map. apply Forall_map. eapply Forall_impl; [|exact Hlen].
    intros c Hc. simpl. rewrite length_map, srv_of_curve_length, Hc.
    reflexivity. }
  unfold reshape3.
  rewrite concat_map.
  rewrite (concat_length_const (n - 1)) by exact Hblock.
  rewrite !length_map, Nat.eqb_refl. cbn [bind].
  pose proof (chunks_concat (n - 1) _ Hblock) as Hchunks.
  rewrite !length_map in Hchunks.
  match goal with
  | |- context [chunks ?k ?r ?l] =>
      replace (chunks k r l) with (map differences b)
        by (rewrite <- Hdelta; symmetry; exact Hchunks)
  end.
  unfold concatenate_rows.
  rewrite !length_map, Nat.eqb_refl. cbn [andb].
  assert (Hcols :
    forallb (fun xy : mat * mat => cols_agree (fst xy) (snd xy))
      (combine (map (fun p : vec => [p]) (map (hd []) b))
               (map differences b)) = true).
  { clear - Hb Hn. induction Hb as [|c b [[Hcl Hcd] _] _ IH];
      [reflexivity|].
    cbn [map combine forallb fst snd]. rewrite IH, andb_true_r.
    apply (differences_head d); [lia | exact Hcd]. }
  match goal with
  | |- context [forallb ?f ?l] =>
      replace (forallb f l) with true by (symmetry; exact Hcols)
  end.
  cbn [bind cumsum_axis_rows].
  do 2 f_equal.
  clear - Hb Hn.
  induction Hb as [|c b [[Hcl Hcd] _] _ IH]; [reflexivity|].
  cbn [map]. rewrite zip_with_cons. cbn [map app].
  rewrite IH. f_equal.
  apply (cumsum_rows_differences d); [exact Hcd|].
  intros ->. simpl in Hcl. lia.
Qed.

Lemma inverse_single (dim : nat) (srv : mat) (p0 : vec) :
  let m := EuclideanMetric dim in
  let delta :=
    map (fun s => vscale (1 / INR (length srv) * metric_norm m s []) s)
        srv in
  srv <> [] ->
  cols_agree [p0] delta = true ->
  square_root_velocity_inverse m (Arr2 srv) (Arr2 [p0])
  = Ok (Arr2 (p0 :: cumsum_from p0 delta)).
Proof.
  intros m delta Hne Hcols.
  unfold square_root_velocity_inverse.
  change (negb (is_euclidean m)) with false.
  cbn [ndim Nat.eqb bind]. rewrite to_ndarray_2. cbn [bind]. cbv zeta.
  unfold shape_rows. cbn [hd concat]. rewrite app_nil_r.
  destruct (Nat.eqb_spec (length srv) 0) as [E|_].
  { destruct srv; [contradiction | discriminate]. }
  rewrite zip_with_map_l. fold delta. cbn [bind].
  unfold concatenate_rows. rewrite Hcols. reflexivity.
Qed.

(** C1: for a curve with strictly positive segment speeds in a Euclidean
    space, the inverse transform applied to the transform of the curve, with
    the first sampling point of the curve as starting point, gives the curve
    back.  This holds for the batched result of the transform, which comes
    back with its batch axis of length one, and for its slice, the form in
    which the projection onto closed curves calls the two operations. *)
Theorem square_root_velocity_round_trip (dim d : nat) (c : mat) :
  (2 <= length c)%nat ->
  Forall (fun p => length p = d) c ->
  positive_speeds c ->
  let m := EuclideanMetric dim in
  (srv <- square_root_velocity m (Arr2 c) ;;
   square_root_velocity_inverse m srv (Arr2 [hd [] c])) = Ok (Arr3 [c])
  /\ (srv <- square_root_velocity m (Arr2 c) ;;
      srvs <- as_tensor srv ;;
      square_root_velocity_inverse m (Arr2 (hd [] srvs)) (Arr2 [hd [] c]))
     = Ok (Arr2 c).
Proof.
  intros Hlen Hc Hpos m. subst m. set (m := EuclideanMetric dim).
  split.
  - rewrite square_root_velocity_single by lia. cbn [bind].
    apply (inverse_of_blocks dim (length c) d [c]).
    + exact Hlen.
    + discriminate.
    + repeat constructor; assumption.
  - rewrite square_root_velocity_single by lia. cbn [bind].
    unfold as_tensor. rewrite to_ndarray_3. cbn [bind hd].
    assert (Hsrv : length (srv_of_curve m c) = (length c - 1)%nat)
      by apply srv_of_curve_length.
    assert (Hdelta :
      map (fun s =>
             vscale (1 / INR (length (srv_of_curve m c))
                     * metric_norm m s []) s) (srv_of_curve m c)
      = differences c).
    { rewrite Hsrv. apply deltas_of_curve; assumption. }
    unfold m in *. rewrite inverse_single.
    + rewrite Hdelta. do 2 f_equal.
      apply (cumsum_rows_differences d); [exact Hc|].
      intros ->. simpl in Hlen. lia.
    + intros E. rewrite E in Hsrv. simpl in Hsrv. lia.
    + rewrite Hdelta. apply (differences_head d); assumption.
Qed.

Lemma square_root_velocity_round_trip_witness :
  let c := [[0; 0]; [1; 0]; [2; 0]] in
  let m := EuclideanMetric 2 in
  (srv <- square_root_velocity m (Arr2 c) ;;
   square_root_velocity_inverse m srv (Arr2 [hd [] c])) = Ok (Arr3 [c])
  /\ (srv <- square_root_velocity m (Arr2 c) ;;
      srvs <- as_tensor srv ;;
      square_root_velocity_inverse m (Arr2 (hd [] srvs)) (Arr2 [hd [] c]))
     = Ok (Arr2 c).
Proof.
  apply (square_root_velocity_round_trip 2 2 [[0; 0]; [1; 0]; [2; 0]]).
  - simpl. lia.
  - repeat constructor.
  - unfold positive_speeds, segment_speeds, zip_with, dot, vsub, zip_with.
    simpl. repeat constructor; apply sqrt_lt_R0; lra.
Defined.

(** ** Operations that need a flat ambient space *)

(** C6: every operation that needs a flat ambient metric raises an error
    when the ambient metric is not Euclidean, and the projection onto closed
    curves when the ambient space is not the Euclidean plane; none of them
    computes a result in that case. *)
Theorem flat_metric_required (tol : tolerance) (m : ambient_metric)
    (M : manifold) (x y z : ndarray) (a b c : mat)
    (end_curve initial_tangent_vec : option ndarray)
    (atol : R) (max_iter : Z) (fuel : nat) :
  (is_euclidean m = false ->
     square_root_velocity_inverse m x y = Raise AssertionError
     /\ d_square_root_velocity m a b = Raise AssertionError
     /\ inner_product m a b c = Raise AssertionError
     /\ exp m x y = Raise AssertionError
     /\ log m x y = Raise AssertionError
     /\ geodesic tol m x end_curve initial_tangent_vec = Raise AssertionError
     /\ dist m x y = Raise AssertionError)
  /\ (is_planar_metric m = false ->
        project_srv fuel m a atol max_iter = Some (Raise AssertionError))
  /\ (is_planar_manifold M = false ->
        project fuel M x atol max_iter = Some (Raise AssertionError)).
Proof.
  split; [|split].
  - intros H. destruct m as [dim|ops]; [discriminate|].
    repeat split; reflexivity.
  - intros H. unfold project_srv, project_srv_loop. rewrite H. reflexivity.
  - intros H. unfold project. rewrite H. reflexivity.
Qed.

Lemma flat_metric_required_witness :
  (square_root_velocity_inverse (OtherMetric hyperbolic_like)
     (Arr2 [[1; 0]]) (Arr2 [[0; 0]]) = Raise AssertionError
   /\ d_square_root_velocity (OtherMetric hyperbolic_like)
        [[0; 0]; [1; 0]] [[0; 0]; [1; 1]] = Raise AssertionError
   /\ inner_product (OtherMetric hyperbolic_like)
        [[0; 0]; [1; 0]] [[0; 0]; [1; 1]] [[0; 0]; [2; 0]]
      = Raise AssertionError
   /\ exp (OtherMetric hyperbolic_like) (Arr2 [[1; 0]]) (Arr2 [[0; 0]])
      = Raise AssertionError
   /\ log (OtherMetric hyperbolic_like) (Arr2 [[1; 0]]) (Arr2 [[0; 0]])
      = Raise AssertionError
   /\ geodesic {| gs_atol := 0; gs_rtol := 0 |}
        (OtherMetric hyperbolic_like) (Arr2 [[1; 0]]) None None
      = Raise AssertionError
   /\ dist (OtherMetric hyperbolic_like) (Arr2 [[1; 0]]) (Arr2 [[0; 0]])
      = Raise AssertionError)
  /\ project_srv 5 (EuclideanMetric 3) [[0; 0]; [1; 0]] 1 10
     = Some (Raise AssertionError)
  /\ project 5 (Euclidean 3) (Arr2 [[1; 0]]) 1 10
     = Some (Raise AssertionError).
Proof.
  pose proof (flat_metric_required {| gs_atol := 0; gs_rtol := 0 |}
                (OtherMetric hyperbolic_like) (Euclidean 3)
                (Arr2 [[1; 0]]) (Arr2 [[0; 0]]) (Arr2 [[0; 0]])
                [[0; 0]; [1; 0]] [[0; 0]; [1; 1]] [[0; 0]; [2; 0]]
                None None 1 10 5) as [H1 [_ H3]].
  pose proof (flat_metric_required {| gs_atol := 0; gs_rtol := 0 |}
                (EuclideanMetric 3) (Euclidean 3)
                (Arr2 [[1; 0]]) (Arr2 [[0; 0]]) (Arr2 [[0; 0]])
                [[0; 0]; [1; 0]] [[0; 0]; [1; 1]] [[0; 0]; [2; 0]]
                None None 1 10 5) as [_ [H2 _]].
  split; [exact (H1 eq_refl)|].
  split; [exact (H2 eq_refl) | exact (H3 eq_refl)].
Defined.

(** ** The distance between two curves *)

Lemma pow2_sqrt_dot (v : vec) : sqrt (dot v v) ^ 2 = dot v v.
Proof.
  simpl. rewrite Rmult_1_r. apply sqrt_sqrt. apply dot_self_nonneg.
Qed.

Lemma l2_dist_is_spec (dim : nat) (a b : mat) :
  l2_dist (EuclideanMetric dim) a b = l2_dist_spec (EuclideanMetric dim) a b.
Proof.
  unfold l2_dist, l2_dist_spec, l2_norm, l2_inner_product, l2_log.
  f_equal. f_equal. unfold zip_with. revert a.
  induction b as [|y b IH]; intros [|x a]; cbn [combine map fst snd]; auto.
  f_equal; [|apply IH].
  unfold metric_dist, metric_norm. cbn [metric_inner_product metric_log].
  symmetry. apply pow2_sqrt_dot.
Qed.

Lemma list_eqb_true (l1 l2 : list nat) : list_eqb l1 l2 = true <-> l1 = l2.
Proof.
  unfold list_eqb. destruct (list_eq_dec Nat.eq_dec l1 l2); split;
    intros; auto; discriminate.
Qed.

Lemma list_eqb_false (l1 l2 : list nat) :
  list_eqb l1 l2 = false <-> l1 <> l2.
Proof.
  unfold list_eqb. destruct (list_eq_dec Nat.eq_dec l1 l2); split;
    intros; auto; try discriminate. contradiction.
Qed.


(** ** Pointwise inner products and norms *)

Lemma zip_with3_length {A B C D : Type} (f : A -> B -> C -> D)
    (a : list A) (b : list B) (c : list C) :
  length (zip_with3 f a b c)
  = Nat.min (length a) (Nat.min (length b) (length c)).
Proof.
  revert b c. induction a as [|x a IH]; intros [|y b] [|z c]; simpl; auto.
Qed.

Lemma same_shape_rect (k d : nat) (a b : mat) :
  rect k d a -> rect k d b ->
  list_eqb (shape (Arr2 a)) (shape (Arr2 b)) = true.
Proof.
  intros [Ha Hda] [Hb Hdb]. apply list_eqb_true. cbn [shape].
  destruct a as [|p a], b as [|q b]; simpl in Ha, Hb; try congruence.
  apply Forall_cons_iff in Hda. apply Forall_cons_iff in Hdb.
  cbn [hd length]. destruct Hda as [-> _]. destruct Hdb as [-> _].
  congruence.
Qed.

Lemma inner_products_along_length (m : ambient_metric) (k d : nat)
    (a b c : mat) :
  rect k d a -> rect k d b -> rect k d c ->
  length (inner_products_along m a b c) = k.
Proof.
  intros [Ha _] [Hb _] [Hc _]. unfold inner_products_along.
  rewrite zip_with3_length. unfold mat, vec in *. lia.
Qed.

Lemma norms_along_length (m : ambient_metric) (k d : nat) (a c : mat) :
  rect k d a -> rect k d c -> length (norms_along m a c) = k.
Proof.
  intros Ha Hc. unfold norms_along. rewrite length_map.
  apply (inner_products_along_length m k d); assumption.
Qed.

Lemma squeeze_vector (row : vec) :
  length row <> 1%nat -> squeeze row = Vector row.
Proof.
  destruct row as [|x [|y row]]; intros H; try reflexivity.
  exfalso. apply H. reflexivity.
Qed.

Lemma squeeze_scalar (row : vec) :
  length row = 1%nat -> exists x, squeeze row = Scalar x.
Proof.
  destruct row as [|x [|y row]]; intros H; try discriminate.
  exists x. reflexivity.
Qed.

(** Away from arrays of a single row the pointwise operations return the
    inner products and the norms along the curve. *)
Lemma pointwise_inner_product_ok (m : ambient_metric) (k d : nat)
    (a b c : mat) :
  rect k d a -> rect k d b -> rect k d c -> k <> 1%nat ->
  pointwise_inner_product m a b c = Ok (inner_products_along m a b c).
Proof.
  intros Ha Hb Hc Hk. unfold pointwise_inner_product.
  rewrite (same_shape_rect k d a b Ha Hb), (same_shape_rect k d a c Ha Hc).
  cbn [andb negb]. unfold inner_prod_aux.
  fold (inner_products_along m a b c).
  rewrite squeeze_vector; [reflexivity|].
  rewrite (inner_products_along_length m k d); assumption.
Qed.

Lemma pointwise_norm_ok (m : ambient_metric) (k d : nat) (a c : mat) :
  rect k d a -> rect k d c -> k <> 1%nat ->
  pointwise_norm m a c = Ok (norms_along m a c).
Proof.
  intros Ha Hc Hk. unfold pointwise_norm.
  rewrite (pointwise_inner_product_ok m k d) by assumption.
  reflexivity.
Qed.

(** On arrays of a single row they raise. *)
Lemma pointwise_inner_product_single (m : ambient_metric) (d : nat)
    (a b c : mat) :
  rect 1 d a -> rect 1 d b -> rect 1 d c ->
  pointwise_inner_product m a b c = Raise ValueError.
Proof.
  intros Ha Hb Hc. unfold pointwise_inner_product.
  rewrite (same_shape_rect 1 d a b Ha Hb), (same_shape_rect 1 d a c Ha Hc).
  cbn [andb negb]. unfold inner_prod_aux.
  fold (inner_products_along m a b c).
  destruct (squeeze_scalar (inner_products_along m a b c)) as [x ->];
    [|reflexivity].
  apply (inner_products_along_length m 1 d); assumption.
Qed.

Lemma pointwise_norm_single (m : ambient_metric) (d : nat) (a c : mat) :
  rect 1 d a -> rect 1 d c ->
  pointwise_norm m a c = Raise ValueError.
Proof.
  intros Ha Hc. unfold pointwise_norm.
  rewrite (pointwise_inner_product_single m d) by assumption.
  reflexivity.
Qed.

(** ** The Jacobian of the closure constraint is regular *)

Lemma cauchy_schwarz (u v : vec) : dot u v * dot u v <= dot u u * dot v v.
Proof.
  revert v. induction u as [|x u IH]; intros [|y v].
  - unfold dot, zip_with. simpl. lra.
  - unfold dot, zip_with. simpl. lra.
  - pose proof (dot_self_nonneg (x :: u)).
    unfold dot at 1 2 4, zip_with. simpl. lra.
  - specialize (IH v).
    pose proof (dot_self_nonneg u) as Hu.
    pose proof (dot_self_nonneg v) as Hv.
    assert (E1 : dot (x :: u) (y :: v) = x * y + dot u v)
      by (unfold dot, zip_with; reflexivity).
    assert (E2 : dot (x :: u) (x :: u) = x * x + dot u u)
      by (unfold dot, zip_with; reflexivity).
    assert (E3 : dot (y :: v) (y :: v) = y * y + dot v v)
      by (unfold dot, zip_with; reflexivity).
    rewrite E1, E2, E3.
    set (A := dot u u) in *. set (B := dot v v) in *.
    set (C := dot u v) in *.
    assert (Hcross : 2 * (x * y * C) <= x * x * B + A * (y * y)).
    { destruct (Req_dec A 0) as [HA|HA].
      - assert (HC : C = 0) by nra. rewrite HC, HA. nra.
      - assert (HApos : 0 < A) by lra.
        pose proof (Rle_0_sqr (A * y - C * x)) as Hsq. unfold Rsqr in Hsq.
        assert (Hm : A * (2 * (x * y * C)) <= A * (x * x * B + A * (y * y))).
        { assert (Hxx : 0 <= x * x) by (apply Rle_0_sqr).
          assert (C * C * (x * x) <= A * B * (x * x))
            by (apply Rmult_le_compat_r; assumption).
          lra. }
        apply (Rmult_le_reg_l A); assumption. }
    nra.
Qed.

Lemma rsum_nonneg (l : list R) : Forall (fun x => 0 <= x) l -> 0 <= rsum l.
Proof.
  induction 1 as [|x l Hx Hl IH]; simpl; lra.
Qed.

Lemma rsum_zero_all (l : list R) :
  Forall (fun x => 0 <= x) l -> rsum l <= 0 -> Forall (fun x => x = 0) l.
Proof.
  induction 1 as [|x l Hx Hl IH]; intros Hs; [constructor|].
  simpl in Hs. pose proof (rsum_nonneg l Hl).
  constructor; [lra | apply IH; lra].
Qed.

Lemma all_zero_vscale_zero (v : vec) : all_zero (vscale 0 v).
Proof.
  unfold all_zero, vscale. apply Forall_map.
  apply Forall_forall. intros x _. lra.
Qed.

Lemma all_zero_vadd (u v : vec) :
  all_zero u -> all_zero v -> all_zero (vadd u v).
Proof.
  unfold all_zero, vadd, zip_with. intros Hu. revert v.
  induction Hu as [|x u Hx Hu IH]; intros v Hv; [constructor|].
  destruct Hv as [|y v Hy Hv]; [constructor|].
  simpl. constructor; [lra | apply IH; exact Hv].
Qed.

Lemma all_zero_dot (v : vec) : all_zero v -> dot v v = 0.
Proof.
  unfold all_zero, dot, zip_with.
  induction 1 as [|x v Hx Hv IH]; simpl; [reflexivity|].
  rewrite IH, Hx. lra.
Qed.

Lemma all_zero_repeat (n : nat) : all_zero (repeat 0 n).
Proof.
  unfold all_zero. apply Forall_forall. intros x Hx.
  apply repeat_spec in Hx. exact Hx.
Qed.

Lemma l2_inner_self_rows (dim : nat) (x : mat) :
  l2_inner_product (EuclideanMetric dim) x x = rsum (map (fun r => dot r r) x).
Proof.
  unfold l2_inner_product, zip_with. f_equal.
  induction x as [|r x IH]; simpl; [reflexivity|].
  f_equal. exact IH.
Qed.

Lemma l2_inner_self_nonneg (dim : nat) (x : mat) :
  0 <= l2_inner_product (EuclideanMetric dim) x x.
Proof.
  rewrite l2_inner_self_rows. apply rsum_nonneg. apply Forall_map.
  apply Forall_forall. intros r _. apply dot_self_nonneg.
Qed.

(** A projection whose rows all vanish has a vanishing residual. *)
Lemma residual_of_zero_rows (dim : nat) (x : mat) :
  l2_inner_product (EuclideanMetric dim) x x <= 0 ->
  all_zero
    (g_criterion 2 x
       (map (fun row => metric_norm (EuclideanMetric dim) row []) x)).
Proof.
  intros Hle. rewrite l2_inner_self_rows in Hle.
  apply rsum_zero_all in Hle.
  2:{ apply Forall_map. apply Forall_forall. intros r _.
      apply dot_self_nonneg. }
  rewrite Forall_map in Hle.
  unfold g_criterion, sum_rows.
  rewrite zip_with_map_r_self.
  induction Hle as [|r x Hr Hx IH]; simpl.
  - repeat constructor.
  - apply all_zero_vadd; [|exact IH].
    unfold metric_norm. cbn [metric_inner_product].
    rewrite Hr, sqrt_0. apply all_zero_vscale_zero.
Qed.

(** ** The Newton loop of the projection *)

Lemma srv_inner_self_nonneg (dim : nat) (x : mat) :
  0 <= srv_inner_product (EuclideanMetric dim) x x.
Proof.
  unfold srv_inner_product.
  pose proof (l2_inner_self_nonneg dim x) as H.
  destruct x as [|r x].
  - simpl. unfold Rdiv. rewrite Rinv_0. lra.
  - apply Rle_mult_inv_pos; [exact H|]. apply lt_0_INR. simpl. lia.
Qed.

Lemma srv_norm_sq (dim : nat) (x : mat) :
  srv_norm (EuclideanMetric dim) x ^ 2
  = srv_inner_product (EuclideanMetric dim) x x.
Proof.
  unfold srv_norm. simpl. rewrite Rmult_1_r.
  apply sqrt_sqrt. apply srv_inner_self_nonneg.
Qed.

Lemma srv_inner_self_pos (dim : nat) (x : mat) :
  0 < l2_inner_product (EuclideanMetric dim) x x ->
  0 < srv_inner_product (EuclideanMetric dim) x x.
Proof.
  intros H. unfold srv_inner_product.
  destruct x as [|r x].
  - unfold l2_inner_product, zip_with in H. simpl in H. lra.
  - apply Rdiv_lt_0_compat; [exact H|]. apply lt_0_INR. simpl. lia.
Qed.

Lemma Reqb_false (x y : R) : x <> y -> Reqb x y = false.
Proof.
  intros H. unfold Reqb. destruct (Req_dec_T x y); [contradiction|].
  reflexivity.
Qed.

Lemma Reqb_true (x y : R) : x = y -> Reqb x y = true.
Proof.
  intros H. unfold Reqb. destruct (Req_dec_T x y); [|contradiction].
  reflexivity.
Qed.

Lemma newton_update_regular (s : newton_state) :
  0 < l2_inner_product (EuclideanMetric 2) (proj s) (proj s) ->
  exists updated, newton_update (EuclideanMetric 2) s = Ok updated.
Proof.
  intros Hpos. unfold newton_update. cbv zeta.
  cbn [metric_inner_product from_vector bind].
  set (a := dot (column 0 (proj s)) (column 0 (proj s))).
  set (b := dot (column 0 (proj s)) (column 1 (proj s))).
  set (c := dot (column 1 (proj s)) (column 1 (proj s))).
  rewrite srv_norm_sq.
  set (n2 := srv_inner_product (EuclideanMetric 2) (proj s) (proj s)).
  assert (Hn2 : 0 < n2) by (apply srv_inner_self_pos; exact Hpos).
  assert (Ha : 0 <= a) by apply dot_self_nonneg.
  assert (Hc : 0 <= c) by apply dot_self_nonneg.
  assert (Hcs : b * b <= a * c) by apply cauchy_schwarz.
  unfold madd, vadd, zip_with. cbn [combine map fst snd linalg_inv].
  rewrite Reqb_false.
  - cbn [bind]. eexists. reflexivity.
  - assert (Hac : 0 <= a * c) by (apply Rmult_le_pos; assumption).
    assert (Hna : 0 <= n2 * a) by (apply Rmult_le_pos; lra).
    assert (Hnc : 0 <= n2 * c) by (apply Rmult_le_pos; lra).
    assert (Hnn : 0 < n2 * n2) by (apply Rmult_lt_0_compat; lra).
    intros E. ring_simplify in E. nra.
Qed.

Lemma newton_inv_init (m : ambient_metric) (srv : mat) :
  newton_inv m (newton_init m srv).
Proof. repeat split. Qed.

Lemma newton_step_spec (m : ambient_metric) (initial_norm : R)
    (s : newton_state) (updated : mat) :
  newton_update m s = Ok updated ->
  exists s',
    newton_step m initial_norm s = Ok s'
    /\ proj s' = mscale (initial_norm / srv_norm m updated) updated
    /\ nb_iter s' = (nb_iter s + 1)%Z
    /\ newton_inv m s'.
Proof.
  intros Hup. unfold newton_step. rewrite Hup. cbn [bind]. cbv zeta.
  eexists. split; [reflexivity|]. repeat split.
Qed.

Lemma criteria_positive_rows (s : newton_state) :
  newton_inv (EuclideanMetric 2) s ->
  0 < criteria s ->
  0 < l2_inner_product (EuclideanMetric 2) (proj s) (proj s).
Proof.
  intros [Hnorms [Hres Hcrit]] Hpos.
  destruct (Rlt_le_dec 0 (l2_inner_product (EuclideanMetric 2)
                            (proj s) (proj s))) as [H|H]; [exact H|].
  exfalso.
  pose proof (residual_of_zero_rows 2 (proj s) H) as Hzero.
  rewrite <- Hnorms, <- Hres in Hzero.
  rewrite Hcrit in Hpos. unfold metric_norm in Hpos.
  cbn [metric_inner_product] in Hpos.
  rewrite (all_zero_dot _ Hzero), sqrt_0 in Hpos. lra.
Qed.

Lemma Rgeb_true (x y : R) : Rgeb x y = true -> x >= y.
Proof. unfold Rgeb. destruct (Rge_dec x y); [auto | discriminate]. Qed.

Lemma Rgeb_false (x y : R) : Rgeb x y = false -> x < y.
Proof.
  unfold Rgeb. destruct (Rge_dec x y); [discriminate|]. intros _. lra.
Qed.

Lemma newton_loop_terminates (atol : R) (max_iter : Z) (initial_norm : R)
    (fuel : nat) :
  0 < atol ->
  forall s,
    newton_inv (EuclideanMetric 2) s ->
    (nb_iter s <= max_iter)%Z ->
    (Z.to_nat (max_iter - nb_iter s) < fuel)%nat ->
    exists s',
      while_loop fuel (newton_cond atol max_iter)
        (newton_step (EuclideanMetric 2) initial_norm) s = Some (Ok s')
      /\ newton_inv (EuclideanMetric 2) s'
      /\ newton_cond atol max_iter s' = false
      /\ (nb_iter s <= nb_iter s' <= max_iter)%Z.
Proof.
  intros Hatol. induction fuel as [|fuel IH]; intros s Hinv Hle Hfuel.
  - lia.
  - cbn [while_loop].
    destruct (newton_cond atol max_iter s) eqn:Hcond.
    + unfold newton_cond in Hcond. apply andb_prop in Hcond.
      destruct Hcond as [Hge Hlt].
      apply Rgeb_true in Hge. apply Z.ltb_lt in Hlt.
      assert (Hrows : 0 < l2_inner_product (EuclideanMetric 2)
                            (proj s) (proj s)).
      { apply criteria_positive_rows; [exact Hinv | lra]. }
      destruct (newton_update_regular s Hrows) as [updated Hup].
      destruct (newton_step_spec (EuclideanMetric 2) initial_norm s
                  updated Hup) as [s1 [Hstep [_ [Hnb Hinv1]]]].
      rewrite Hstep.
      destruct (IH s1 Hinv1) as [s' [Hrun [Hinv' [Hcond' Hbounds]]]];
        try lia.
      exists s'. split; [exact Hrun|]. split; [exact Hinv'|].
      split; [exact Hcond'|]. lia.
    + exists s. split; [reflexivity|]. split; [exact Hinv|].
      split; [exact Hcond|]. lia.
Qed.

Lemma project_srv_loop_total (srv : mat) (atol : R) (max_iter : Z)
    (fuel : nat) :
  let m := EuclideanMetric 2 in
  0 < atol ->
  (0 <= max_iter)%Z ->
  (Z.to_nat max_iter < fuel)%nat ->
  exists s,
    project_srv_loop fuel m srv atol max_iter = Some (Ok s)
    /\ project_srv fuel m srv atol max_iter = Some (Ok (proj s))
    /\ criteria s
       = metric_norm m
           (g_criterion 2 (proj s)
              (map (fun row => metric_norm m row []) (proj s))) []
    /\ (criteria s < atol \/ nb_iter s = max_iter)
    /\ (0 <= nb_iter s <= max_iter)%Z.
Proof.
  intros m Hatol Hmax Hfuel. subst m.
  destruct (newton_loop_terminates atol max_iter
              (srv_norm (EuclideanMetric 2) srv) fuel
              Hatol (newton_init (EuclideanMetric 2) srv)
              (newton_inv_init (EuclideanMetric 2) srv))
    as [s [Hrun [Hinv [Hcond Hbounds]]]].
  - simpl. exact Hmax.
  - simpl. rewrite Z.sub_0_r. exact Hfuel.
  - exists s. unfold project_srv, project_srv_loop.
    change (negb (is_planar_metric (EuclideanMetric 2))) with false.
    cbv iota zeta. rewrite Hrun. cbn [option_result_map].
    split; [reflexivity|]. split; [reflexivity|].
    destruct Hinv as [Hnorms [Hres Hcrit]].
    split; [rewrite Hcrit, Hres, Hnorms; reflexivity|].
    split.
    + unfold newton_cond in Hcond. apply andb_false_iff in Hcond.
      destruct Hcond as [Hc|Hc].
      * left. apply Rgeb_false. exact Hc.
      * right. apply Z.ltb_ge in Hc. simpl in Hbounds. lia.
    + simpl in Hbounds. lia.
Qed.

(** ** The projection keeps the norm of the SRV representation *)

Lemma l2_inner_mscale (dim : nat) (a : R) (x : mat) :
  l2_inner_product (EuclideanMetric dim) (mscale a x) (mscale a x)
  = a * a * l2_inner_product (EuclideanMetric dim) x x.
Proof.
  rewrite !l2_inner_self_rows. unfold mscale.
  induction x as [|r x IH]; simpl; [lra|].
  rewrite IH, dot_vscale. lra.
Qed.

Lemma srv_norm_mscale (dim : nat) (a : R) (x : mat) :
  0 <= a ->
  srv_norm (EuclideanMetric dim) (mscale a x)
  = a * srv_norm (EuclideanMetric dim) x.
Proof.
  intros Ha. unfold srv_norm, srv_inner_product.
  rewrite l2_inner_mscale. unfold mscale. rewrite length_map.
  replace (a * a * l2_inner_product (EuclideanMetric dim) x x
           / INR (length x))
    with (a * a * (l2_inner_product (EuclideanMetric dim) x x
                   / INR (length x)))
    by (unfold Rdiv; ring).
  rewrite sqrt_mult.
  - rewrite sqrt_square by exact Ha. reflexivity.
  - nra.
  - apply (srv_inner_self_nonneg dim x).
Qed.

Lemma srv_norm_nonneg (m : ambient_metric) (x : mat) : 0 <= srv_norm m x.
Proof. unfold srv_norm. apply sqrt_pos. Qed.

Lemma renormalised_norm (dim : nat) (initial_norm : R) (updated : mat) :
  0 <= initial_norm ->
  srv_norm (EuclideanMetric dim) updated <> 0 ->
  srv_norm (EuclideanMetric dim)
    (mscale (initial_norm / srv_norm (EuclideanMetric dim) updated) updated)
  = initial_norm.
Proof.
  intros Hn Hu.
  pose proof (srv_norm_nonneg (EuclideanMetric dim) updated) as Hpos.
  rewrite srv_norm_mscale.
  - field. exact Hu.
  - apply Rle_mult_inv_pos; lra.
Qed.

Lemma while_loop_last {St : Type} (cond : St -> bool)
    (body : St -> result St) (fuel : nat) (s0 s_final : St) :
  while_loop fuel cond body s0 = Some (Ok s_final) ->
  s_final = s0
  \/ exists s, cond s = true /\ body s = Ok s_final.
Proof.
  revert s0. induction fuel as [|fuel IH]; intros s0 Hrun; [discriminate|].
  cbn [while_loop] in Hrun.
  destruct (cond s0) eqn:Hcond.
  - destruct (body s0) as [s1|e] eqn:Hbody; [|discriminate].
    destruct (IH s1 Hrun) as [->|Hlast]; [|right; exact Hlast].
    right. exists s0. split; assumption.
  - injection Hrun as ->. left. reflexivity.
Qed.
(** ** One turn of the Newton loop on the SRV representation of a segment *)

Lemma sqrt_of_square (x y : R) : 0 <= y -> x = y * y -> sqrt x = y.
Proof. intros Hy ->. apply sqrt_square. exact Hy. Qed.

Ltac reals_in_lists :=
  repeat (first [ reflexivity | lra | f_equal ]).

Ltac reals_in_lists_field :=
  repeat (first [ reflexivity | lra | (field; lra) | (field; nra) | f_equal ]).

Lemma segment_norm (a : R) :
  0 <= a -> metric_norm (EuclideanMetric 2) [a; 0] [] = a.
Proof.
  intros Ha. unfold metric_norm, metric_inner_product, dot, zip_with. simpl.
  apply sqrt_of_square; [exact Ha | lra].
Qed.

Lemma segment_init (a : R) :
  0 <= a ->
  newton_init (EuclideanMetric 2) [[a; 0]]
  = {| proj := [[a; 0]]; proj_norms := [a]; residual := [a * a; 0];
       criteria := a * a; nb_iter := 0 |}.
Proof.
  intros Ha. unfold newton_init. cbv zeta.
  cbn [map]. rewrite (segment_norm a Ha).
  assert (Hr : g_criterion 2 [[a; 0]] [a] = [a * a; 0]).
  { unfold g_criterion, sum_rows, vadd, vscale, zip_with. simpl.
    reals_in_lists. }
  rewrite Hr. rewrite (segment_norm (a * a)) by nra. reflexivity.
Qed.

Lemma segment_srv_norm (x : R) :
  0 <= x -> srv_norm (EuclideanMetric 2) [[x; 0]] = x.
Proof.
  intros Hx.
  unfold srv_norm, srv_inner_product, l2_inner_product, dot, zip_with.
  cbn [metric_inner_product]. simpl.
  apply sqrt_of_square; [exact Hx | unfold dot, zip_with; simpl; lra].
Qed.

Lemma segment_srv_norm_e2 (x : R) :
  0 <= x -> srv_norm (EuclideanMetric 2) [[0; x]] = x.
Proof.
  intros Hx.
  unfold srv_norm, srv_inner_product, l2_inner_product, dot, zip_with.
  cbn [metric_inner_product]. simpl.
  apply sqrt_of_square; [exact Hx | unfold dot, zip_with; simpl; lra].
Qed.

Lemma segment_gradient_1 (a : R) :
  0 < a -> gradient e_1 0 [[a; 0]] [a] = [[2 * a; 0]].
Proof.
  intros Ha.
  unfold gradient, madd, vadd, vscale, zip_with, column, e_1. simpl.
  reals_in_lists_field.
Qed.

Lemma segment_gradient_2 (a : R) :
  0 < a -> gradient e_2 1 [[a; 0]] [a] = [[0; a]].
Proof.
  intros Ha.
  unfold gradient, madd, vadd, vscale, zip_with, column, e_2. simpl.
  reals_in_lists_field.
Qed.

Lemma segment_basis_1 (a : R) :
  0 < a ->
  mscale (1 / srv_norm (EuclideanMetric 2) [[2 * a; 0]]) [[2 * a; 0]]
  = [[1; 0]].
Proof.
  intros Ha. rewrite (segment_srv_norm (2 * a)) by lra.
  unfold mscale, vscale. simpl. reals_in_lists_field.
Qed.

Lemma segment_basis_2 (a : R) :
  msub [[0; a]]
    (mscale (srv_inner_product (EuclideanMetric 2) [[0; a]] [[1; 0]])
       [[1; 0]])
  = [[0; a]].
Proof.
  replace (srv_inner_product (EuclideanMetric 2) [[0; a]] [[1; 0]]) with 0
    by (unfold srv_inner_product, l2_inner_product, zip_with; simpl;
        unfold dot, zip_with; simpl; lra).
  unfold msub, mscale, vsub, vscale, zip_with. simpl. reals_in_lists.
Qed.

(** On the SRV representation [(a, 0)] of a segment the update subtracts a
    quarter from [a]. *)
Lemma segment_update (a : R) (k : Z) :
  0 < a ->
  newton_update (EuclideanMetric 2)
    {| proj := [[a; 0]]; proj_norms := [a]; residual := [a * a; 0];
       criteria := a * a; nb_iter := k |}
  = Ok [[a - 1 / 4; 0]].
Proof.
  intros Ha.
  unfold newton_update. cbv zeta. cbn [proj proj_norms residual].
  rewrite segment_gradient_1, segment_gradient_2 by lra.
  rewrite (segment_basis_1 a Ha), segment_basis_2.
  rewrite (segment_srv_norm_e2 a) by lra.
  rewrite (segment_srv_norm a) by lra.
  cbn [metric_inner_product column map nth from_vector bind].
  replace (madd
             [[3 * dot [a] [a]; 3 * dot [a] [0]];
              [3 * dot [a] [0]; 3 * dot [0] [0]]]
             [[a ^ 2; 0]; [0; a ^ 2]])
    with [[4 * (a * a); 0]; [0; a * a]]
    by (unfold madd, vadd, dot, zip_with; simpl; reals_in_lists).
  assert (Ha2 : 0 < a * a) by nra.
  assert (Ha4 : 0 < a * a * (a * a)) by nra.
  unfold linalg_inv. rewrite Reqb_false by lra. cbn [bind].
  unfold matvec, msub, madd, mscale, vsub, vadd, vscale, dot, zip_with.
  simpl. reals_in_lists_field.
Qed.

(** The divisors of that turn. *)
Lemma segment_divisors (a : R) (k : Z) (updated : mat) :
  0 < a ->
  newton_divisors (EuclideanMetric 2)
    {| proj := [[a; 0]]; proj_norms := [a]; residual := [a * a; 0];
       criteria := a * a; nb_iter := k |} updated
  = [a; 2 * a; a; srv_norm (EuclideanMetric 2) updated].
Proof.
  intros Ha. unfold newton_divisors. cbv zeta. cbn [proj proj_norms app].
  rewrite segment_gradient_1, segment_gradient_2 by lra.
  rewrite (segment_basis_1 a Ha), segment_basis_2.
  rewrite (segment_srv_norm_e2 a) by lra.
  rewrite (segment_srv_norm (2 * a)) by lra.
  reflexivity.
Qed.
(** ** The Newton loop where a quotient is not a number *)

Lemma existsb_zero_false (l : vec) :
  existsb (fun x => Reqb x 0) l = false -> Forall (fun x => x <> 0) l.
Proof.
  induction l as [|x l IH]; intros H; [constructor|].
  cbn [existsb] in H. apply orb_false_iff in H. destruct H as [Hx Hl].
  constructor; [|apply IH; exact Hl].
  intros E. rewrite (Reqb_true x 0 E) in Hx. discriminate.
Qed.

Lemma existsb_zero_true (l : vec) :
  In 0 l -> existsb (fun x => Reqb x 0) l = true.
Proof.
  intros H. apply existsb_exists. exists 0. split; [exact H|].
  apply Reqb_true. reflexivity.
Qed.

(** A turn without a zero divisor is a turn of [newton_step], and its
    rescaling divides by a norm that is not zero. *)
Lemma newton_step_float_finite (m : ambient_metric) (initial_norm : R)
    (s s' : newton_state) :
  newton_step_float m initial_norm s = Ok (Finite s') ->
  newton_step m initial_norm s = Ok s'
  /\ exists updated,
       newton_update m s = Ok updated /\ srv_norm m updated <> 0.
Proof.
  unfold newton_step_float.
  destruct (newton_update m s) as [updated|e] eqn:Hup; [|discriminate].
  cbn [bind].
  destruct (existsb (fun divisor => Reqb divisor 0)
              (newton_divisors m s updated)) eqn:Hdiv; [discriminate|].
  destruct (newton_step m initial_norm s) as [s1|e] eqn:Hstep;
    [|discriminate].
  cbn [bind]. intros H. injection H as <-.
  split; [reflexivity|]. exists updated. split; [reflexivity|].
  apply existsb_zero_false in Hdiv. unfold newton_divisors in Hdiv.
  cbv zeta in Hdiv. apply Forall_app in Hdiv. destruct Hdiv as [_ Hdiv].
  apply Forall_cons_iff in Hdiv. destruct Hdiv as [_ Hdiv].
  apply Forall_cons_iff in Hdiv. destruct Hdiv as [_ Hdiv].
  apply Forall_cons_iff in Hdiv. apply Hdiv.
Qed.

Lemma newton_step_float_cases (m : ambient_metric) (initial_norm : R)
    (s : newton_state) (updated : mat) :
  newton_update m s = Ok updated ->
  newton_step_float m initial_norm s = Ok (NotANumber (nb_iter s + 1))
  \/ exists s',
       newton_step_float m initial_norm s = Ok (Finite s')
       /\ newton_step m initial_norm s = Ok s'.
Proof.
  intros Hup. unfold newton_step_float. rewrite Hup. cbn [bind].
  destruct (existsb (fun divisor => Reqb divisor 0)
              (newton_divisors m s updated)); [left; reflexivity|].
  right.
  destruct (newton_step_spec m initial_norm s updated Hup)
    as [s' [Hstep _]].
  exists s'. rewrite Hstep. split; reflexivity.
Qed.

(** A run that ends with numbers is a run of the loop over the reals. *)
Lemma float_loop_finite (m : ambient_metric) (atol : R) (max_iter : Z)
    (initial_norm : R) (fuel : nat) (s s' : newton_state) :
  while_loop fuel (newton_cond_float atol max_iter)
    (newton_body_float m initial_norm) (Finite s) = Some (Ok (Finite s')) ->
  while_loop fuel (newton_cond atol max_iter) (newton_step m initial_norm) s
  = Some (Ok s').
Proof.
  revert s. induction fuel as [|fuel IH]; intros s Hrun; [discriminate|].
  cbn [while_loop newton_cond_float newton_body_float] in *.
  destruct (newton_cond atol max_iter s).
  - destruct (newton_step_float m initial_norm s) as [[s1|k]|e] eqn:Hstep.
    + apply newton_step_float_finite in Hstep. destruct Hstep as [-> _].
      apply IH. exact Hrun.
    + exfalso. destruct fuel as [|fuel']; [discriminate|].
      cbn [while_loop newton_cond_float] in Hrun. discriminate.
    + discriminate.
  - injection Hrun as <-. reflexivity.
Qed.

Lemma project_srv_float_finite (fuel : nat) (m : ambient_metric)
    (srv : mat) (atol : R) (max_iter : Z) (s : newton_state) :
  project_srv_float fuel m srv atol max_iter = Some (Ok (Finite s)) ->
  project_srv_loop fuel m srv atol max_iter = Some (Ok s)
  /\ project_srv fuel m srv atol max_iter = Some (Ok (proj s)).
Proof.
  unfold project_srv_float, project_srv, project_srv_loop.
  destruct (negb (is_planar_metric m)); [discriminate|].
  cbv zeta. intros H. apply float_loop_finite in H. rewrite H.
  split; reflexivity.
Qed.

(** The last turn of a run. *)
Lemma float_loop_last (m : ambient_metric) (atol : R) (max_iter : Z)
    (initial_norm : R) (fuel : nat) (s0 : newton_state)
    (out : float_state) :
  while_loop fuel (newton_cond_float atol max_iter)
    (newton_body_float m initial_norm) (Finite s0) = Some (Ok out) ->
  out = Finite s0
  \/ exists s,
       newton_cond atol max_iter s = true
       /\ newton_step_float m initial_norm s = Ok out.
Proof.
  revert s0. induction fuel as [|fuel IH]; intros s0 Hrun; [discriminate|].
  cbn [while_loop newton_cond_float newton_body_float] in Hrun.
  destruct (newton_cond atol max_iter s0) eqn:Hcond.
  - destruct (newton_step_float m initial_norm s0) as [[s1|k]|e] eqn:Hstep.
    + destruct (IH s1 Hrun) as [->|Hlast]; [|right; exact Hlast].
      right. exists s0. split; assumption.
    + destruct fuel as [|fuel']; [discriminate|].
      cbn [while_loop newton_cond_float] in Hrun. injection Hrun as <-.
      right. exists s0. split; assumption.
    + discriminate.
  - injection Hrun as <-. left. reflexivity.
Qed.

Lemma float_loop_terminates (atol : R) (max_iter : Z) (initial_norm : R)
    (fuel : nat) :
  0 < atol ->
  forall s,
    newton_inv (EuclideanMetric 2) s ->
    (nb_iter s <= max_iter)%Z ->
    (Z.to_nat (max_iter - nb_iter s) < fuel)%nat ->
    exists out,
      while_loop fuel (newton_cond_float atol max_iter)
        (newton_body_float (EuclideanMetric 2) initial_norm) (Finite s)
      = Some (Ok out)
      /\ match out with
         | Finite s' =>
             newton_inv (EuclideanMetric 2) s'
             /\ newton_cond atol max_iter s' = false
             /\ (nb_iter s <= nb_iter s' <= max_iter)%Z
         | NotANumber k => (nb_iter s < k <= max_iter)%Z
         end.
Proof.
  intros Hatol. induction fuel as [|fuel IH]; intros s Hinv Hle Hfuel.
  - lia.
  - cbn [while_loop newton_cond_float newton_body_float].
    destruct (newton_cond atol max_iter s) eqn:Hcond.
    + unfold newton_cond in Hcond. apply andb_prop in Hcond.
      destruct Hcond as [Hge Hlt].
      apply Rgeb_true in Hge. apply Z.ltb_lt in Hlt.
      assert (Hrows : 0 < l2_inner_product (EuclideanMetric 2)
                            (proj s) (proj s)).
      { apply criteria_positive_rows; [exact Hinv | lra]. }
      destruct (newton_update_regular s Hrows) as [updated Hup].
      destruct (newton_step_float_cases (EuclideanMetric 2) initial_norm s
                  updated Hup) as [Hnan|[s1 [Hfloat Hstep]]].
      * rewrite Hnan. destruct fuel as [|fuel']; [lia|].
        cbn [while_loop newton_cond_float].
        eexists. split; [reflexivity|]. cbv iota beta. lia.
      * rewrite Hfloat.
        destruct (newton_step_spec (EuclideanMetric 2) initial_norm s
                    updated Hup) as [s2 [Hstep2 [_ [Hnb Hinv1]]]].
        rewrite Hstep in Hstep2. injection Hstep2 as <-.
        destruct (IH s1 Hinv1) as [out [Hrun Hout]]; try lia.
        exists out. split; [exact Hrun|].
        destruct out as [s'|k]; [|lia].
        destruct Hout as [Hinv' [Hcond' Hbounds]].
        split; [exact Hinv'|]. split; [exact Hcond'|]. lia.
    + exists (Finite s). split; [reflexivity|].
      split; [exact Hinv|]. split; [exact Hcond|]. lia.
Qed.

(** On the SRV representation [(1/4, 0)] of a segment the first update of
    the projection is [(0, 0)], and its rescaling is the quotient
    [0 / 0]. *)
Lemma segment_quarter_step :
  newton_step_float (EuclideanMetric 2)
    (srv_norm (EuclideanMetric 2) [[1 / 4; 0]])
    (newton_init (EuclideanMetric 2) [[1 / 4; 0]])
  = Ok (NotANumber 1).
Proof.
  rewrite (segment_init (1 / 4)) by lra.
  unfold newton_step_float.
  rewrite (segment_update (1 / 4)) by lra. cbn [bind].
  rewrite (segment_divisors (1 / 4)) by lra.
  replace (1 / 4 - 1 / 4) with 0 by lra.
  rewrite (segment_srv_norm 0) by lra.
  rewrite existsb_zero_true by (simpl; auto).
  reflexivity.
Qed.

Lemma segment_quarter_run :
  project_srv_float 2 (EuclideanMetric 2) [[1 / 4; 0]] (1 / 1000) 1000
  = Some (Ok (NotANumber 1)).
Proof.
  unfold project_srv_float.
  change (negb (is_planar_metric (EuclideanMetric 2))) with false.
  cbv iota zeta.
  cbn [while_loop newton_cond_float newton_body_float].
  rewrite segment_quarter_step.
  rewrite (segment_init (1 / 4)) by lra.
  assert (Hcond : newton_cond (1 / 1000) 1000
                    {| proj := [[1 / 4; 0]]; proj_norms := [1 / 4];
                       residual := [1 / 4 * (1 / 4); 0];
                       criteria := 1 / 4 * (1 / 4); nb_iter := 0 |}
                  = true).
  { unfold newton_cond. cbn [criteria nb_iter]. unfold Rgeb.
    destruct (Rge_dec (1 / 4 * (1 / 4)) (1 / 1000)); [reflexivity | lra]. }
  rewrite Hcond. reflexivity.
Qed.

(** C4, as it is stated, fails: on the SRV representation [(1/4, 0)] of a
    segment the loop is left after one iteration with a residual norm that
    is [nan]: it is not below the tolerance, and the count of iterations
    is not [max_iter]. *)
Lemma project_srv_leaves_on_nan :
  project_srv_float 2 (EuclideanMetric 2) [[1 / 4; 0]] (1 / 1000) 1000
  = Some (Ok (NotANumber 1))
  /\ ~ converged_or_exhausted (1 / 1000) 1000 (NotANumber 1).
Proof.
  split; [exact segment_quarter_run|].
  cbn [converged_or_exhausted]. lia.
Qed.

(** C4, amended: [project_srv] returns, also when the iteration does not
    converge.  With a positive tolerance and a non-negative bound on the
    number of iterations, the loop stops after at most [max_iter] turns and
    no step of it raises an error.  At the end the norm of the residual of
    the closure constraint is below [atol], or the number of iterations is
    [max_iter], or a quotient of the last turn was [0 / 0] and the residual
    and the projection returned are [nan]. *)
Theorem project_srv_returns (k : nat) (srv : mat) (atol : R)
    (max_iter : Z) (fuel : nat) :
  let m := EuclideanMetric 2 in
  rect k 2 srv -> (1 <= k)%nat ->
  0 < atol ->
  (0 <= max_iter)%Z ->
  (Z.to_nat max_iter < fuel)%nat ->
  exists out,
    project_srv_float fuel m srv atol max_iter = Some (Ok out)
    /\ match out with
       | Finite s =>
           project_srv fuel m srv atol max_iter = Some (Ok (proj s))
           /\ criteria s
              = metric_norm m
                  (g_criterion 2 (proj s)
                     (map (fun row => metric_norm m row []) (proj s))) []
           /\ (criteria s < atol \/ nb_iter s = max_iter)
           /\ (0 <= nb_iter s <= max_iter)%Z
       | NotANumber nb_iter => (0 < nb_iter <= max_iter)%Z
       end.
Proof.
  intros m _ _ Hatol Hmax Hfuel. subst m.
  destruct (float_loop_terminates atol max_iter
              (srv_norm (EuclideanMetric 2) srv) fuel
              Hatol (newton_init (EuclideanMetric 2) srv)
              (newton_inv_init (EuclideanMetric 2) srv))
    as [out [Hrun Hout]].
  - simpl. exact Hmax.
  - simpl. rewrite Z.sub_0_r. exact Hfuel.
  - assert (Hfloat : project_srv_float fuel (EuclideanMetric 2) srv atol
                       max_iter = Some (Ok out)).
    { unfold project_srv_float.
      change (negb (is_planar_metric (EuclideanMetric 2))) with false.
      cbv iota zeta. exact Hrun. }
    exists out. split; [exact Hfloat|].
    destruct out as [s|n]; [|simpl in Hout; lia].
    destruct Hout as [Hinv [Hcond Hbounds]].
    split; [apply (project_srv_float_finite _ _ _ _ _ _ Hfloat)|].
    destruct Hinv as [Hnorms [Hres Hcrit]].
    split; [rewrite Hcrit, Hres, Hnorms; reflexivity|].
    split.
    + unfold newton_cond in Hcond. apply andb_false_iff in Hcond.
      destruct Hcond as [Hc|Hc].
      * left. apply Rgeb_false. exact Hc.
      * right. apply Z.ltb_ge in Hc. simpl in Hbounds. lia.
    + simpl in Hbounds. lia.
Qed.

Lemma project_srv_returns_witness :
  let m := EuclideanMetric 2 in
  exists out,
    project_srv_float 4 m [[1; 0]; [0; 1]; [1; 1]] (1 / 1000) 3
    = Some (Ok out)
    /\ match out with
       | Finite s =>
           project_srv 4 m [[1; 0]; [0; 1]; [1; 1]] (1 / 1000) 3
           = Some (Ok (proj s))
           /\ criteria s
              = metric_norm m
                  (g_criterion 2 (proj s)
                     (map (fun row => metric_norm m row []) (proj s))) []
           /\ (criteria s < 1 / 1000 \/ nb_iter s = 3%Z)
           /\ (0 <= nb_iter s <= 3)%Z
       | NotANumber nb_iter => (0 < nb_iter <= 3)%Z
       end.
Proof.
  apply (project_srv_returns 3 [[1; 0]; [0; 1]; [1; 1]] (1 / 1000) 3 4).
  - split; [reflexivity | repeat constructor].
  - lia.
  - lra.
  - lia.
  - simpl. lia.
Defined.

(** ** The projection keeps the norm of the SRV representation, continued *)

(** C5, as it is stated, fails: on the SRV representation [(1/4, 0)] of a
    segment the projection after the first iteration, which is the one
    returned, holds [nan]; its SRV norm is not the one of the input. *)
Lemma project_srv_loses_norm :
  let m := EuclideanMetric 2 in
  newton_step_float m (srv_norm m [[1 / 4; 0]]) (newton_init m [[1 / 4; 0]])
  = Ok (NotANumber 1)
  /\ project_srv_float 2 m [[1 / 4; 0]] (1 / 1000) 1000
     = Some (Ok (NotANumber 1))
  /\ float_srv_norm m (NotANumber 1) <> Some (srv_norm m [[1 / 4; 0]]).
Proof.
  cbv zeta. split; [exact segment_quarter_step|].
  split; [exact segment_quarter_run|].
  cbn [float_srv_norm]. discriminate.
Qed.

(** C5, amended: in [project_srv], after every turn of the Newton loop in
    which no quotient is [0 / 0] the SRV norm of the current projection is
    the SRV norm of the input; hence the projection returned has the norm
    of the input whenever it holds numbers. *)
Theorem project_srv_keeps_norm (k : nat) (srv : mat) (atol : R)
    (max_iter : Z) (fuel : nat) :
  let m := EuclideanMetric 2 in
  let initial_norm := srv_norm m srv in
  rect k 2 srv -> (1 <= k)%nat ->
  (forall s s',
     newton_step_float m initial_norm s = Ok (Finite s') ->
     srv_norm m (proj s') = initial_norm)
  /\ (forall s_final,
        project_srv_float fuel m srv atol max_iter
        = Some (Ok (Finite s_final)) ->
        srv_norm m (proj s_final) = initial_norm).
Proof.
  intros m initial_norm _ _. subst m initial_norm.
  set (N := srv_norm (EuclideanMetric 2) srv).
  assert (HN : 0 <= N) by apply srv_norm_nonneg.
  assert (Hstep : forall s s',
            newton_step_float (EuclideanMetric 2) N s = Ok (Finite s') ->
            srv_norm (EuclideanMetric 2) (proj s') = N).
  { intros s s' H. apply newton_step_float_finite in H.
    destruct H as [Hs' [updated [Hup Hnz]]].
    destruct (newton_step_spec (EuclideanMetric 2) N s updated Hup)
      as [s1 [Hs1 [Hproj _]]].
    rewrite Hs' in Hs1. injection Hs1 as <-.
    rewrite Hproj. apply renormalised_norm; assumption. }
  split; [exact Hstep|].
  intros s_final Hrun. unfold project_srv_float in Hrun.
  change (negb (is_planar_metric (EuclideanMetric 2))) with false in Hrun.
  cbv iota zeta in Hrun. fold N in Hrun.
  apply float_loop_last in Hrun. destruct Hrun as [E|[s [_ Hbody]]].
  - injection E as ->. reflexivity.
  - exact (Hstep s s_final Hbody).
Qed.

Lemma segment_unit_step :
  exists s',
    newton_step_float (EuclideanMetric 2)
      (srv_norm (EuclideanMetric 2) [[1; 0]])
      (newton_init (EuclideanMetric 2) [[1; 0]])
    = Ok (Finite s')
    /\ nb_iter s' = 1%Z.
Proof.
  rewrite (segment_init 1) by lra.
  destruct (newton_step_spec (EuclideanMetric 2)
              (srv_norm (EuclideanMetric 2) [[1; 0]]) _ _
              (segment_update 1 0 ltac:(lra))) as [s' [Hstep [_ [Hnb _]]]].
  exists s'. split; [|exact Hnb]. unfold newton_step_float.
  rewrite (segment_update 1) by lra. cbn [bind].
  rewrite (segment_divisors 1) by lra.
  rewrite (segment_srv_norm (1 - 1 / 4)) by lra.
  cbn [existsb]. rewrite !Reqb_false by lra. cbn [orb].
  rewrite Hstep. reflexivity.
Qed.

Lemma project_srv_keeps_norm_witness :
  let m := EuclideanMetric 2 in
  exists s',
    newton_step_float m (srv_norm m [[1; 0]]) (newton_init m [[1; 0]])
    = Ok (Finite s')
    /\ srv_norm m (proj s') = srv_norm m [[1; 0]].
Proof.
  cbv zeta. destruct segment_unit_step as [s' [Hstep _]].
  exists s'. split; [exact Hstep|].
  apply (proj1 (project_srv_keeps_norm 1 [[1; 0]] 1 10 11
                  ltac:(split; [reflexivity | repeat constructor])
                  ltac:(lia))
           (newton_init (EuclideanMetric 2) [[1; 0]]) s' Hstep).
Defined.

(** ** The projection keeps the starting point *)

Lemma inverse_head (m : ambient_metric) (srv : mat) (p0 : vec)
    (r : ndarray) :
  square_root_velocity_inverse m (Arr2 srv) (Arr2 [p0]) = Ok r ->
  exists rest, r = Arr2 (p0 :: rest).
Proof.
  unfold square_root_velocity_inverse.
  destruct (negb (is_euclidean m)); [discriminate|].
  cbn [ndim Nat.eqb bind]. rewrite to_ndarray_2. cbn [bind]. cbv zeta.
  destruct (Nat.eqb (shape_rows [srv]) 0); [discriminate|].
  cbn [bind]. unfold concatenate_rows.
  match goal with
  | |- context [cols_agree ?a ?b] => destruct (cols_agree a b)
  end; [|discriminate].
  cbn [bind cumsum_axis_rows app cumsum_rows].
  intros H. injection H as <-. eexists. reflexivity.
Qed.

Lemma rect_mscale (k d : nat) (a : R) (x : mat) :
  rect k d x -> rect k d (mscale a x).
Proof.
  intros [Hk Hd]. split.
  - unfold mscale. rewrite length_map. exact Hk.
  - unfold mscale. apply Forall_map. eapply Forall_impl; [|exact Hd].
    intros r Hr. simpl. rewrite vscale_length. exact Hr.
Qed.

Lemma rect_zip_with (k d : nat) (f : R -> R -> R) (x y : mat) :
  rect k d x -> rect k d y -> rect k d (zip_with (zip_with f) x y).
Proof.
  intros [Hkx Hdx] [Hky Hdy]. split.
  - rewrite zip_with_length.
    transitivity (Nat.min k k); [|apply Nat.min_id].
    f_equal; assumption.
  - clear Hkx Hky. revert y Hdy.
    induction Hdx as [|r x Hr Hx IH]; intros y Hdy; [constructor|].
    destruct Hdy as [|q y Hq Hy]; [constructor|].
    rewrite zip_with_cons. constructor.
    + rewrite zip_with_length.
      transitivity (Nat.min d d); [|apply Nat.min_id].
      f_equal; assumption.
    + apply IH. exact Hy.
Qed.

Lemma rect_madd (k d : nat) (x y : mat) :
  rect k d x -> rect k d y -> rect k d (madd x y).
Proof. apply rect_zip_with. Qed.

Lemma rect_msub (k d : nat) (x y : mat) :
  rect k d x -> rect k d y -> rect k d (msub x y).
Proof. apply rect_zip_with. Qed.

Lemma zip_with3_rows (k : nat) (f : R -> R -> vec -> vec)
    (u v : vec) (x : mat) :
  length u = k -> length v = k -> rect k 2 x ->
  (forall a b r, length (f a b r) = length r) ->
  rect k 2 (zip_with3 f u v x).
Proof.
  intros Hu Hv [Hk Hd] Hf. revert k u v Hu Hv Hk.
  induction Hd as [|r x Hr Hx IH]; intros k u v Hu Hv Hk.
  - simpl in Hk. subst k. destruct u, v; try discriminate.
    split; [reflexivity | constructor].
  - destruct k as [|k]; [discriminate|].
    destruct u as [|a u]; [discriminate|].
    destruct v as [|b v]; [discriminate|].
    simpl in *. destruct (IH k u v) as [Hk' Hd']; try lia.
    split; [simpl; lia|].
    constructor; [rewrite Hf; exact Hr | exact Hd'].
Qed.

Lemma rect_gradient (k i : nat) (e : vec) (x : mat) (norms : vec) :
  length e = 2%nat -> length norms = k -> rect k 2 x ->
  rect k 2 (gradient e i x norms).
Proof.
  intros He Hn Hx. unfold gradient. apply rect_madd.
  - split.
    + rewrite length_map. exact Hn.
    + apply Forall_map. apply Forall_forall. intros a _.
      rewrite vscale_length. exact He.
  - apply zip_with3_rows; try assumption.
    + unfold column. rewrite length_map. apply Hx.
    + intros a b r. apply vscale_length.
Qed.

Lemma rect_newton_update (k : nat) (m : ambient_metric) (s : newton_state)
    (updated : mat) :
  rect k 2 (proj s) ->
  length (proj_norms s) = k ->
  newton_update m s = Ok updated ->
  rect k 2 updated.
Proof.
  intros Hx Hn. unfold newton_update. cbv zeta. cbn [from_vector bind].
  match goal with
  | |- context [linalg_inv ?j] => destruct (linalg_inv j) as [inverse|e]
  end; [|discriminate].
  cbn [bind]. intros H. injection H as <-.
  assert (H1 : rect k 2 (gradient e_1 0 (proj s) (proj_norms s)))
    by (apply rect_gradient; auto).
  assert (H2 : rect k 2 (gradient e_2 1 (proj s) (proj_norms s)))
    by (apply rect_gradient; auto).
  apply rect_msub; [exact Hx|].
  apply rect_madd; apply rect_mscale.
  - apply rect_mscale. exact H1.
  - apply rect_mscale. apply rect_msub; [exact H2|].
    do 2 apply rect_mscale. exact H1.
Qed.

Lemma rect_newton_loop (k : nat) (m : ambient_metric) (atol : R)
    (max_iter : Z) (initial_norm : R) (fuel : nat) (s s' : newton_state) :
  rect k 2 (proj s) ->
  length (proj_norms s) = k ->
  while_loop fuel (newton_cond atol max_iter) (newton_step m initial_norm) s
  = Some (Ok s') ->
  rect k 2 (proj s').
Proof.
  revert s. induction fuel as [|fuel IH]; intros s Hx Hn Hrun;
    [discriminate|].
  cbn [while_loop] in Hrun.
  destruct (newton_cond atol max_iter s).
  - destruct (newton_step m initial_norm s) as [s1|e] eqn:Hstep;
      [|discriminate].
    unfold newton_step in Hstep.
    destruct (newton_update m s) as [updated|e] eqn:Hup; [|discriminate].
    cbn [bind] in Hstep. cbv zeta in Hstep. injection Hstep as <-.
    pose proof (rect_newton_update k m s updated Hx Hn Hup) as Hu.
    eapply IH; [| |exact Hrun].
    + cbn [proj]. apply rect_mscale. exact Hu.
    + cbn [proj_norms]. rewrite length_map. unfold mscale.
      rewrite length_map. apply Hu.
  - injection Hrun as <-. exact Hx.
Qed.

Lemma rect_srv_of_curve (m_dim n d : nat) (c : mat) :
  rect n d c -> rect (n - 1) d (srv_of_curve (EuclideanMetric m_dim) c).
Proof.
  intros [Hn Hd]. split.
  - rewrite srv_of_curve_length, Hn. reflexivity.
  - unfold srv_of_curve, drop_first, drop_last.
    generalize (INR (length c - 1)) as coef. intros coef.
    destruct c as [|p0 rest]; [constructor|].
    apply Forall_cons_iff in Hd. destruct Hd as [Hp0 Hrest]. cbn [tl].
    clear Hn. revert p0 Hp0. induction Hrest as [|p1 rest Hp1 Hrest IH];
      intros p0 Hp0; [constructor|].
    change (removelast (p0 :: p1 :: rest))
      with (p0 :: removelast (p1 :: rest)).
    rewrite zip_with_cons. constructor.
    + unfold srv_segment. cbn [metric_log].
      rewrite !vscale_length, vsub_length. lia.
    + apply IH. exact Hp1.
Qed.

(** C10: the curve returned by [ClosedDiscreteCurves.project] starts at the
    first sampling point of the input: only the SRV representation is
    changed, and the result is rebuilt from that point.  For a planar curve
    with at least two sampling points, a positive tolerance and a
    non-negative bound on the iterations, the projection does return. *)
Theorem project_keeps_starting_point (fuel : nat) (atol : R)
    (max_iter : Z) :
  (forall M curve r,
     project fuel M curve atol max_iter = Some (Ok r) ->
     exists p0,
       first_slice curve = Ok (Arr1 p0) /\ first_slice r = Ok (Arr1 p0))
  /\ (forall n c,
        rect n 2 c -> (2 <= n)%nat ->
        0 < atol -> (0 <= max_iter)%Z -> (Z.to_nat max_iter < fuel)%nat ->
        exists rest,
          project fuel (Euclidean 2) (Arr2 c) atol max_iter
          = Some (Ok (Arr2 (hd [] c :: rest)))).
Proof.
  split.
  - intros M curve r. unfold project.
    destruct (negb (is_planar_manifold M)); [discriminate|].
    match goal with
    | |- match ?e with _ => _ end = _ -> _ => destruct e as [srv|e0]
    end; [|discriminate].
    destruct (project_srv fuel (manifold_metric M) srv atol max_iter)
      as [[srv_proj|e0]|]; try discriminate.
    intros H. injection H as H.
    destruct curve as [v|[|p0 c]|[|c0 b]]; try discriminate.
    + cbn [first_slice array_of_one bind] in H.
      apply inverse_head in H. destruct H as [rest ->].
      exists p0. split; reflexivity.
    + exfalso. cbn [first_slice array_of_one bind] in H.
      unfold square_root_velocity_inverse in H.
      destruct (negb (is_euclidean (manifold_metric M)));
        [discriminate|].
      cbn [ndim Nat.eqb] in H.
      change (to_ndarray (Arr3 [c0]) 2 1) with (Ok (Arr3 [c0])) in H.
      rewrite to_ndarray_2 in H. cbn [bind] in H. cbv zeta in H.
      destruct (Nat.eqb (shape_rows [srv_proj]) 0); [discriminate|].
      cbn [bind concatenate_rows] in H. discriminate.
  - intros n c Hc Hn Hatol Hmax Hfuel.
    assert (Hlen : length c = n) by apply Hc.
    assert (Hfirst : first_slice (Arr2 c) = Ok (Arr1 (hd [] c))
                     /\ length (hd [] c) = 2%nat).
    { destruct Hc as [_ Hcd]. destruct c as [|p0 c'].
      - simpl in Hlen. lia.
      - apply Forall_cons_iff in Hcd. split; [reflexivity | apply Hcd]. }
    destruct Hfirst as [Hfirst Hp0].
    unfold project.
    change (negb (is_planar_manifold (Euclidean 2))) with false.
    cbv iota zeta. cbn [manifold_metric].
    rewrite square_root_velocity_single by lia.
    cbn [bind]. rewrite as_tensor_3. cbn [bind].
    set (srv := srv_of_curve (EuclideanMetric 2) c).
    destruct (project_srv_loop_total srv atol max_iter fuel Hatol Hmax
                Hfuel) as [s [Hloop [Hproj _]]].
    rewrite Hproj.
    assert (Hrect : rect (n - 1) 2 (proj s)).
    { unfold project_srv_loop in Hloop.
      change (negb (is_planar_metric (EuclideanMetric 2))) with false
        in Hloop.
      cbv iota zeta in Hloop.
      eapply rect_newton_loop; [| |exact Hloop].
      - cbn [newton_init proj]. apply rect_srv_of_curve. exact Hc.
      - cbn [newton_init proj_norms]. rewrite length_map.
        unfold srv. rewrite srv_of_curve_length, Hlen. reflexivity. }
    rewrite Hfirst. cbn [array_of_one bind].
    destruct (proj s) as [|row rows] eqn:Eproj.
    { destruct Hrect as [Hk _]. simpl in Hk. lia. }
    rewrite inverse_single.
    + eexists. reflexivity.
    + discriminate.
    + cbn [map cols_agree]. rewrite vscale_length.
      destruct Hrect as [_ Hd]. apply Forall_cons_iff in Hd.
      destruct Hd as [Hrow _]. rewrite Hrow, Hp0. reflexivity.
Qed.

Lemma project_keeps_starting_point_witness :
  exists rest,
    project 1001 (Euclidean 2)
      (Arr2 [[0; 0]; [1; 0]; [1; 1]; [0; 1 / 2]]) (1 / 1000000) 1000
    = Some (Ok (Arr2 ([0; 0] :: rest))).
Proof.
  apply (proj2 (project_keeps_starting_point 1001 (1 / 1000000) 1000) 4%nat
           [[0; 0]; [1; 0]; [1; 1]; [0; 1 / 2]]).
  - split; [reflexivity | repeat constructor].
  - lia.
  - lra.
  - lia.
  - simpl. lia.
Defined.

(** ** Assignments in arrays *)

Lemma set_nth_length {A : Type} (j : nat) (x : A) (l : list A) :
  length (set_nth j x l) = length l.
Proof.
  revert j; induction l as [|a l IH]; intros [|j]; simpl; auto.
Qed.

Lemma nth_error_set_nth_same {A : Type} (j : nat) (x : A) (l : list A) :
  (j < length l)%nat -> nth_error (set_nth j x l) j = Some x.
Proof.
  revert j; induction l as [|a l IH]; intros [|j] H; simpl in *;
    try lia; auto.
  apply IH. lia.
Qed.

Lemma nth_error_set_nth_other {A : Type} (j j' : nat) (x : A) (l : list A) :
  j <> j' -> nth_error (set_nth j x l) j' = nth_error l j'.
Proof.
  revert j j'; induction l as [|a l IH]; intros [|j] [|j'] H; simpl;
    try congruence; auto.
Qed.

Lemma set_nth_id {A : Type} (j : nat) (x : A) (l : list A) :
  nth_error l j = Some x -> set_nth j x l = l.
Proof.
  revert j; induction l as [|a l IH]; intros [|j] H; simpl in *;
    try discriminate.
  - injection H as ->. reflexivity.
  - f_equal. apply IH. exact H.
Qed.

Lemma get2_row (a : mat) (i j : nat) (row : vec) :
  nth_error a i = Some row ->
  get2 a i j = match nth_error row j with
               | Some x => Ok x
               | None => Raise IndexError
               end.
Proof. intros H. unfold get2. unfold mat, vec in *. rewrite H. reflexivity. Qed.

Lemma rect_row (k d : nat) (a : mat) (i : nat) :
  rect k d a -> (i < k)%nat ->
  exists row, nth_error a i = Some row /\ length row = d.
Proof.
  intros [Hk Hd] Hi.
  destruct (nth_error a i) as [row|] eqn:E.
  - exists row. split; [reflexivity|].
    rewrite Forall_forall in Hd. apply Hd.
    eapply nth_error_In. exact E.
  - apply nth_error_None in E. lia.
Qed.

Lemma rect_get2 (k d : nat) (a : mat) (i j : nat) :
  rect k d a -> (i < k)%nat -> (j < d)%nat -> exists x, get2 a i j = Ok x.
Proof.
  intros Ha Hi Hj. destruct (rect_row k d a i Ha Hi) as [row [Hrow Hlen]].
  rewrite (get2_row a i j row Hrow).
  destruct (nth_error row j) as [x|] eqn:E.
  - exists x. reflexivity.
  - apply nth_error_None in E. lia.
Qed.

Lemma set2_spec (k d : nat) (a : mat) (i j : nat) (x : R) :
  rect k d a -> (i < k)%nat -> (j < d)%nat ->
  exists a',
    set2 a i j x = Ok a'
    /\ rect k d a'
    /\ get2 a' i j = Ok x
    /\ (forall i' j', (i', j') <> (i, j) -> get2 a' i' j' = get2 a i' j')
    /\ (forall i', i' <> i -> nth_error a' i' = nth_error a i').
Proof.
  intros Ha Hi Hj.
  destruct (rect_row k d a i Ha Hi) as [row [Hrow Hlen]].
  assert (Hik : (i < length a)%nat) by (destruct Ha as [Hk _]; lia).
  unfold set2. unfold mat, vec in *. rewrite Hrow.
  destruct (Nat.ltb_spec j (length row)) as [_|Hge]; [|lia].
  eexists. split; [reflexivity|]. split; [|split; [|split]].
  - destruct Ha as [Hk Hd]. split.
    + rewrite set_nth_length. exact Hk.
    + apply Forall_forall. intros r Hr.
      apply In_nth_error in Hr. destruct Hr as [i' Hi'].
      destruct (Nat.eq_dec i i') as [<-|Hne].
      * rewrite nth_error_set_nth_same in Hi' by exact Hik.
        injection Hi' as <-. rewrite set_nth_length. exact Hlen.
      * rewrite nth_error_set_nth_other in Hi' by exact Hne.
        rewrite Forall_forall in Hd. apply Hd.
        eapply nth_error_In. exact Hi'.
  - unfold get2. rewrite nth_error_set_nth_same by exact Hik.
    rewrite nth_error_set_nth_same by lia. reflexivity.
  - intros i' j' Hne. unfold get2.
    destruct (Nat.eq_dec i i') as [<-|Hi'].
    + rewrite nth_error_set_nth_same by exact Hik. rewrite Hrow.
      rewrite nth_error_set_nth_other; [reflexivity|].
      intros ->. apply Hne. reflexivity.
    + rewrite nth_error_set_nth_other by exact Hi'. reflexivity.
  - intros i' Hi'. apply nth_error_set_nth_other. congruence.
Qed.

Lemma for_each_seq_invariant {St : Type} (P : nat -> St -> Prop)
    (body : nat -> St -> result St) (start len : nat) (s : St) :
  P start s ->
  (forall i t, (start <= i < start + len)%nat -> P i t ->
               exists t', body i t = Ok t' /\ P (S i) t') ->
  exists s', for_each (seq start len) body s = Ok s' /\ P (start + len)%nat s'.
Proof.
  revert start s. induction len as [|len IH]; intros start s Hs Hbody.
  - exists s. split; [reflexivity|]. rewrite Nat.add_0_r. exact Hs.
  - cbn [seq for_each].
    destruct (Hbody start s) as [t [Ht HPt]]; [lia | exact Hs |].
    rewrite Ht. cbn [bind].
    destruct (IH (S start) t HPt) as [s' [Hs' HP']].
    + intros i u Hi. apply Hbody. lia.
    + exists s'. split; [exact Hs'|].
      replace (start + S len)%nat with (S start + len)%nat by lia.
      exact HP'.
Qed.

(** ** The boundary columns of the reparametrization grid *)

Lemma linspace_length (n : nat) : length (linspace n) = n.
Proof. unfold linspace. rewrite length_map. apply length_seq. Qed.

Lemma linspace_nth (n j : nat) :
  (j < n)%nat -> nth_error (linspace n) j = Some (INR j / INR (n - 1)).
Proof.
  intros Hj. unfold linspace. rewrite nth_error_map, nth_error_seq.
  destruct (Nat.ltb_spec j n) as [_|H]; [reflexivity | lia].
Qed.

Lemma linspace_last (n : nat) :
  (2 <= n)%nat -> nth_error (linspace n) (n - 1) = Some 1.
Proof.
  intros Hn. rewrite linspace_nth by lia. f_equal.
  apply Rdiv_diag. apply not_0_INR. lia.
Qed.

Lemma linspace_first (n : nat) :
  (1 <= n)%nat -> nth_error (linspace n) 0 = Some 0.
Proof.
  intros Hn. rewrite linspace_nth by lia. f_equal.
  simpl. unfold Rdiv. apply Rmult_0_l.
Qed.

Lemma get2_map_set_last (g : mat) (d i : nat) :
  (exists row, nth_error g i = Some row /\ length row = d) ->
  (1 <= d)%nat ->
  get2 (map (set_nth (d - 1) 1) g) i (d - 1) = Ok 1.
Proof.
  intros [row [Hrow Hlen]] Hd. unfold get2. unfold mat, vec in *.
  rewrite nth_error_map, Hrow. cbn [option_map].
  rewrite nth_error_set_nth_same by lia. reflexivity.
Qed.

Lemma grid_init (n_points n_times : nat) :
  (1 <= n_times)%nat -> (2 <= n_points)%nat ->
  grid_inv n_points n_times 0
    (map (set_nth (n_points - 1) 1)
       (set_nth 0 (linspace n_points)
          (repeat (repeat 0 n_points) n_times))).
Proof.
  intros Ht Hp.
  set (zeros := repeat (repeat 0 n_points) n_times).
  assert (Hrows : forall i row,
            nth_error (set_nth 0 (linspace n_points) zeros) i = Some row ->
            length row = n_points).
  { intros i row Hi. destruct (Nat.eq_dec 0 i) as [<-|Hne].
    - rewrite nth_error_set_nth_same in Hi
        by (unfold zeros; rewrite repeat_length; lia).
      injection Hi as <-. apply linspace_length.
    - rewrite nth_error_set_nth_other in Hi by exact Hne.
      apply nth_error_In in Hi. apply repeat_spec in Hi. subst row.
      apply repeat_length. }
  assert (Hrow0 : nth_error
                    (map (set_nth (n_points - 1) 1)
                       (set_nth 0 (linspace n_points) zeros)) 0
                  = Some (linspace n_points)).
  { rewrite nth_error_map, nth_error_set_nth_same
      by (unfold zeros; rewrite repeat_length; lia).
    cbn [option_map]. f_equal. apply set_nth_id. apply linspace_last.
    exact Hp. }
  split; [|split; [exact Hrow0|split]].
  - split.
    + rewrite length_map, set_nth_length. apply repeat_length.
    + apply Forall_map. apply Forall_forall. intros row Hrow.
      apply In_nth_error in Hrow. destruct Hrow as [i Hi].
      rewrite set_nth_length. exact (Hrows i row Hi).
  - intros i Hi. apply get2_map_set_last; [|lia].
    destruct (nth_error (set_nth 0 (linspace n_points) zeros) i)
      as [row|] eqn:E.
    + exists row. split; [reflexivity | exact (Hrows i row E)].
    + apply nth_error_None in E.
      rewrite set_nth_length in E. unfold zeros in E.
      rewrite repeat_length in E. lia.
  - intros i Hi0 Hi. assert (i = 0)%nat by lia. subst i.
    erewrite get2_row by exact Hrow0.
    rewrite linspace_first by lia. reflexivity.
Qed.

Section Grid.

Variables (n_points n_times : nat) (vertical_norm space_deriv_norm : mat).
Hypothesis times_pos : (1 <= n_times)%nat.
Hypothesis points_two : (2 <= n_points)%nat.
Hypothesis vertical_shape : rect (n_times - 1) n_points vertical_norm.
Hypothesis space_shape : rect n_times n_points space_deriv_norm.
Hypothesis vertical_first :
  forall i, (i < n_times - 1)%nat -> get2 vertical_norm i 0 = Ok 0.

Lemma grid_inner_step (i j : nat) (rep : mat) :
  (i < n_times - 1)%nat -> (1 <= j < 1 + (n_points - 2))%nat ->
  grid_inv n_points n_times (S i) rep ->
  exists rep',
    (rep_next <- get2 rep i (j + 1) ;;
     rep_here <- get2 rep i j ;;
     rep_prev <- get2 rep i (j - 1) ;;
     let d_rep_plus := rep_next - rep_here in
     let d_rep_minus := rep_here - rep_prev in
     vn <- get2 vertical_norm i j ;;
     let rep_space_deriv :=
       if Rgtb vn 0 then INR n_points * d_rep_plus
       else INR n_points * d_rep_minus in
     sdn <- get2 space_deriv_norm i j ;;
     let rep_time_deriv := rep_space_deriv * vn / sdn in
     set2 rep (i + 1) j (rep_here + rep_time_deriv / INR n_times)) = Ok rep'
    /\ grid_inv n_points n_times (S i) rep'.
Proof.
  intros Hi Hj [Hrect [Hrow0 [Hlast Hfirst]]].
  destruct (rect_get2 _ _ rep i (j + 1) Hrect) as [x1 H1]; try lia.
  destruct (rect_get2 _ _ rep i j Hrect) as [x2 H2]; try lia.
  destruct (rect_get2 _ _ rep i (j - 1) Hrect) as [x3 H3]; try lia.
  destruct (rect_get2 _ _ vertical_norm i j vertical_shape) as [v Hv];
    try lia.
  destruct (rect_get2 _ _ space_deriv_norm i j space_shape) as [d Hd];
    try lia.
  rewrite H1, H2, H3, Hv, Hd. cbn [bind]. cbv zeta.
  match goal with
  | |- context [set2 rep (i + 1) j ?x] =>
      destruct (set2_spec _ _ rep (i + 1) j x Hrect)
        as [rep' [Hset [Hrect' [_ [Hother Hrows]]]]]; try lia
  end.
  exists rep'. split; [exact Hset|].
  split; [exact Hrect'|]. split; [|split].
  - rewrite Hrows by lia. exact Hrow0.
  - intros i' Hi'. rewrite Hother; [apply Hlast; exact Hi'|].
    intros E. injection E as _ E. lia.
  - intros i' Hle Hi'. rewrite Hother; [apply Hfirst; assumption|].
    intros E. injection E as _ E. lia.
Qed.

Lemma grid_outer_step (i : nat) (rep : mat) :
  (i < n_times - 1)%nat ->
  grid_inv n_points n_times i rep ->
  exists rep',
    (rep_i_1 <- get2 rep i 1 ;;
     rep_i_0 <- get2 rep i 0 ;;
     let rep_space_deriv := INR n_points * (rep_i_1 - rep_i_0) in
     vn <- get2 vertical_norm i 0 ;;
     sdn <- get2 space_deriv_norm i 0 ;;
     let rep_time_deriv := rep_space_deriv * vn / sdn in
     rep <- set2 rep (i + 1) 0 (rep_i_0 + rep_time_deriv / INR n_times) ;;
     for_each (seq 1 (n_points - 2))
       (fun j rep =>
          rep_next <- get2 rep i (j + 1) ;;
          rep_here <- get2 rep i j ;;
          rep_prev <- get2 rep i (j - 1) ;;
          let d_rep_plus := rep_next - rep_here in
          let d_rep_minus := rep_here - rep_prev in
          vn <- get2 vertical_norm i j ;;
          let rep_space_deriv :=
            if Rgtb vn 0 then INR n_points * d_rep_plus
            else INR n_points * d_rep_minus in
          sdn <- get2 space_deriv_norm i j ;;
          let rep_time_deriv := rep_space_deriv * vn / sdn in
          set2 rep (i + 1) j (rep_here + rep_time_deriv / INR n_times))
       rep) = Ok rep'
    /\ grid_inv n_points n_times (S i) rep'.
Proof.
  intros Hi [Hrect [Hrow0 [Hlast Hfirst]]].
  destruct (rect_get2 _ _ rep i 1 Hrect) as [x1 H1]; try lia.
  destruct (rect_get2 _ _ space_deriv_norm i 0 space_shape) as [d Hd];
    try lia.
  rewrite H1, (Hfirst i) by lia.
  rewrite (vertical_first i Hi), Hd. cbn [bind]. cbv zeta.
  match goal with
  | |- context [set2 rep (i + 1) 0 ?x] =>
      replace x with 0 by (unfold Rdiv; ring);
      destruct (set2_spec _ _ rep (i + 1) 0 0 Hrect)
        as [rep1 [Hset [Hrect1 [Hget [Hother Hrows]]]]]; try lia
  end.
  rewrite Hset. cbn [bind].
  assert (Hinv1 : grid_inv n_points n_times (S i) rep1).
  { split; [exact Hrect1|]. split; [|split].
    - rewrite Hrows by lia. exact Hrow0.
    - intros i' Hi'. rewrite Hother; [apply Hlast; exact Hi'|].
      intros E. injection E as _ E. lia.
    - intros i' Hle Hi'.
      destruct (Nat.eq_dec i' (i + 1)) as [->|Hne]; [exact Hget|].
      rewrite Hother; [apply Hfirst; lia|].
      intros E. injection E as E. contradiction. }
  destruct (for_each_seq_invariant
              (fun _ t => grid_inv n_points n_times (S i) t)
              (fun j rep =>
                 rep_next <- get2 rep i (j + 1) ;;
                 rep_here <- get2 rep i j ;;
                 rep_prev <- get2 rep i (j - 1) ;;
                 let d_rep_plus := rep_next - rep_here in
                 let d_rep_minus := rep_here - rep_prev in
                 vn <- get2 vertical_norm i j ;;
                 let rep_space_deriv :=
                   if Rgtb vn 0 then INR n_points * d_rep_plus
                   else INR n_points * d_rep_minus in
                 sdn <- get2 space_deriv_norm i j ;;
                 let rep_time_deriv := rep_space_deriv * vn / sdn in
                 set2 rep (i + 1) j
                   (rep_here + rep_time_deriv / INR n_times))
              1 (n_points - 2) rep1 Hinv1) as [rep' [Hrun Hinv']].
  - intros j t Hj Ht. apply grid_inner_step; assumption.
  - exists rep'. split; [exact Hrun | exact Hinv'].
Qed.

Lemma grid_construction :
  exists rep,
    construct_reparametrization n_points n_times vertical_norm
      space_deriv_norm = Ok rep
    /\ grid_inv n_points n_times (n_times - 1) rep.
Proof.
  unfold construct_reparametrization.
  destruct (Nat.eqb_spec n_times 0) as [E|_]; [lia|].
  destruct (Nat.eqb_spec n_points 0) as [E|_]; [lia|].
  cbv zeta.
  pose proof (grid_init n_points n_times times_pos points_two) as Hinit.
  destruct (for_each_seq_invariant
              (fun k t => grid_inv n_points n_times k t)
              (fun i rep =>
                 rep_i_1 <- get2 rep i 1 ;;
                 rep_i_0 <- get2 rep i 0 ;;
                 let rep_space_deriv := INR n_points * (rep_i_1 - rep_i_0) in
                 vn <- get2 vertical_norm i 0 ;;
                 sdn <- get2 space_deriv_norm i 0 ;;
                 let rep_time_deriv := rep_space_deriv * vn / sdn in
                 rep <- set2 rep (i + 1) 0
                          (rep_i_0 + rep_time_deriv / INR n_times) ;;
                 for_each (seq 1 (n_points - 2))
                   (fun j rep =>
                      rep_next <- get2 rep i (j + 1) ;;
                      rep_here <- get2 rep i j ;;
                      rep_prev <- get2 rep i (j - 1) ;;
                      let d_rep_plus := rep_next - rep_here in
                      let d_rep_minus := rep_here - rep_prev in
                      vn <- get2 vertical_norm i j ;;
                      let rep_space_deriv :=
                        if Rgtb vn 0 then INR n_points * d_rep_plus
                        else INR n_points * d_rep_minus in
                      sdn <- get2 space_deriv_norm i j ;;
                      let rep_time_deriv := rep_space_deriv * vn / sdn in
                      set2 rep (i + 1) j
                        (rep_here + rep_time_deriv / INR n_times))
                   rep)
              0 (n_times - 1) _ Hinit) as [rep [Hrun Hinv]].
  - intros i t Hi Ht. apply grid_outer_step; [lia | exact Ht].
  - exists rep. split; [exact Hrun | exact Hinv].
Qed.

End Grid.
(** ** Numbers and other values in the grid *)

Lemma Rgtb_true (x y : R) : x > y -> Rgtb x y = true.
Proof. intros H. unfold Rgtb. destruct (Rgt_dec x y); [reflexivity | lra]. Qed.

Lemma Rgtb_le (x y : R) : x <= y -> Rgtb x y = false.
Proof. intros H. unfold Rgtb. destruct (Rgt_dec x y); [lra | reflexivity]. Qed.

Lemma xdiv_fin (x y : R) : y <> 0 -> xdiv (Fin x) (Fin y) = Fin (x / y).
Proof. intros H. unfold xdiv. rewrite Reqb_false by exact H. reflexivity. Qed.

Lemma xdiv_pos_zero (x : R) : 0 < x -> xdiv (Fin x) (Fin 0) = PInf.
Proof.
  intros H. unfold xdiv. rewrite Reqb_true by reflexivity.
  rewrite Reqb_false by lra. unfold Rgtb.
  destruct (Rgt_dec x 0); [reflexivity | lra].
Qed.

Lemma xscale_inf_zero (inf : xreal) : xscale_inf 0 inf = NaN.
Proof. unfold xscale_inf. rewrite Reqb_true by reflexivity. reflexivity. Qed.

Lemma xscale_inf_pos (x : R) (inf : xreal) : 0 < x -> xscale_inf x inf = inf.
Proof.
  intros H. unfold xscale_inf. rewrite Reqb_false by lra. unfold Rgtb.
  destruct (Rgt_dec x 0); [reflexivity | lra].
Qed.

Lemma xdiv_inf_pos (y : R) : 0 < y -> xdiv PInf (Fin y) = PInf.
Proof.
  intros H. unfold xdiv, Rgeb. destruct (Rge_dec y 0); [reflexivity | lra].
Qed.

Lemma set_nth_map {A B : Type} (f : A -> B) (j : nat) (x : A) (l : list A) :
  set_nth j (f x) (map f l) = map f (set_nth j x l).
Proof.
  revert j; induction l as [|a l IH]; intros [|j]; simpl; try reflexivity.
  rewrite IH. reflexivity.
Qed.

Lemma get2_map {A B : Type} (f : A -> B) (a : list (list A)) (i j : nat)
    (x : A) :
  get2 a i j = Ok x -> get2 (map (map f) a) i j = Ok (f x).
Proof.
  unfold get2. rewrite nth_error_map.
  destruct (nth_error a i) as [row|]; cbn; [|discriminate].
  rewrite nth_error_map.
  destruct (nth_error row j) as [y|]; cbn; [|discriminate].
  intros H. injection H as ->. reflexivity.
Qed.

Lemma set2_map {A B : Type} (f : A -> B) (a a' : list (list A)) (i j : nat)
    (x : A) :
  set2 a i j x = Ok a' ->
  set2 (map (map f) a) i j (f x) = Ok (map (map f) a').
Proof.
  unfold set2. rewrite nth_error_map.
  destruct (nth_error a i) as [row|]; cbn [option_map]; [|discriminate].
  rewrite length_map.
  destruct (Nat.ltb j (length row)); cbn; [|discriminate].
  intros H. injection H as <-.
  rewrite set_nth_map, set_nth_map. reflexivity.
Qed.

Lemma get2_fin_mat (a : mat) (i j : nat) (x : R) :
  get2 a i j = Ok x -> get2 (fin_mat a) i j = Ok (Fin x).
Proof. apply get2_map. Qed.

Lemma set2_fin_mat (a a' : mat) (i j : nat) (x : R) :
  set2 a i j x = Ok a' -> set2 (fin_mat a) i j (Fin x) = Ok (fin_mat a').
Proof. apply set2_map. Qed.

Lemma for_each_map {S T : Type} (f : S -> T) (l : list nat)
    (body : nat -> S -> result S) (body' : nat -> T -> result T)
    (s s' : S) :
  (forall i t t', In i l -> body i t = Ok t' -> body' i (f t) = Ok (f t')) ->
  for_each l body s = Ok s' ->
  for_each l body' (f s) = Ok (f s').
Proof.
  revert s. induction l as [|i l IH]; intros s Hbody; cbn [for_each].
  - intros H. injection H as ->. reflexivity.
  - destruct (body i s) as [t|e] eqn:E; cbn [bind]; [|discriminate].
    rewrite (Hbody i s t (or_introl eq_refl) E). cbn [bind].
    apply IH. intros j u u' Hj. apply Hbody. right. exact Hj.
Qed.

Lemma fin_mat_init (n_points n_times : nat) :
  map (set_nth (n_points - 1) (Fin 1))
    (set_nth 0 (map Fin (linspace n_points))
       (repeat (repeat (Fin 0) n_points) n_times))
  = fin_mat (map (set_nth (n_points - 1) 1)
               (set_nth 0 (linspace n_points)
                  (repeat (repeat 0 n_points) n_times))).
Proof.
  unfold fin_mat. rewrite map_map.
  rewrite <- (map_repeat 0 n_points Fin).
  rewrite <- (map_repeat (repeat 0 n_points) n_times (map Fin)).
  rewrite set_nth_map. rewrite map_map.
  apply map_ext. intros row. apply set_nth_map.
Qed.

Lemma get2_nonzero (a : mat) (i j : nat) (x : R) :
  get2 a i j <> Ok 0 -> get2 a i j = Ok x -> x <> 0.
Proof. intros Hne Hx ->. apply Hne. exact Hx. Qed.

(** Where no divisor vanishes, the grid in floating point is the grid of
    numbers. *)
Lemma construct_reparametrization_float_fin (n_points n_times : nat)
    (vertical_norm space_deriv_norm rep : mat) :
  (2 <= n_points)%nat ->
  (forall i j, (i < n_times - 1)%nat -> (j < n_points - 1)%nat ->
               get2 space_deriv_norm i j <> Ok 0) ->
  construct_reparametrization n_points n_times vertical_norm
    space_deriv_norm = Ok rep ->
  construct_reparametrization_float n_points n_times vertical_norm
    space_deriv_norm = Ok (fin_mat rep).
Proof.
  intros Hp Hsdn.
  unfold construct_reparametrization, construct_reparametrization_float.
  destruct (Nat.eqb n_times 0) eqn:Et; [discriminate|].
  apply Nat.eqb_neq in Et.
  assert (Htimes : INR n_times <> 0) by (apply not_0_INR; exact Et).
  cbv zeta.
  destruct (Nat.eqb n_points 0); [discriminate|].
  rewrite fin_mat_init.
  apply (for_each_map fin_mat).
  intros i t t' Hi. apply in_seq in Hi.
  destruct (get2 t i 1) as [rep_i_1|] eqn:E1; cbn [bind]; [|discriminate].
  destruct (get2 t i 0) as [rep_i_0|] eqn:E0; cbn [bind]; [|discriminate].
  destruct (get2 vertical_norm i 0) as [vn|] eqn:Ev; cbn [bind];
    [|discriminate].
  destruct (get2 space_deriv_norm i 0) as [sdn|] eqn:Es; cbn [bind];
    [|discriminate].
  destruct (set2 t (i + 1) 0 _) as [u|] eqn:Eu; cbn [bind]; [|discriminate].
  intros Hinner.
  rewrite (get2_fin_mat _ _ _ _ E1), (get2_fin_mat _ _ _ _ E0).
  cbn [bind xsub xopp xadd xmul].
  rewrite xdiv_fin
    by (apply (get2_nonzero space_deriv_norm i 0); [apply Hsdn; lia | exact Es]).
  rewrite xdiv_fin by exact Htimes. cbn [xadd].
  fold (rep_i_1 - rep_i_0).
  rewrite (set2_fin_mat _ _ _ _ _ Eu). cbn [bind].
  revert Hinner. apply (for_each_map fin_mat).
  clear Eu E1 E0 Ev Es. intros j w w' Hj. apply in_seq in Hj.
  destruct (get2 w i (j + 1)) as [rep_next|] eqn:En; cbn [bind];
    [|discriminate].
  destruct (get2 w i j) as [rep_here|] eqn:Eh; cbn [bind]; [|discriminate].
  destruct (get2 w i (j - 1)) as [rep_prev|] eqn:Epv; cbn [bind];
    [|discriminate].
  destruct (get2 vertical_norm i j) as [vnj|] eqn:Evj; cbn [bind];
    [|discriminate].
  destruct (get2 space_deriv_norm i j) as [sdnj|] eqn:Esj; cbn [bind];
    [|discriminate].
  intros Hset.
  rewrite (get2_fin_mat _ _ _ _ En), (get2_fin_mat _ _ _ _ Eh),
    (get2_fin_mat _ _ _ _ Epv).
  cbn [bind xsub xopp xadd xmul].
  assert (Hne : sdnj <> 0)
    by (apply (get2_nonzero space_deriv_norm i j); [apply Hsdn; lia | exact Esj]).
  fold (rep_next - rep_here). fold (rep_here - rep_prev).
  destruct (Rgtb vnj 0); cbn [xmul];
    rewrite xdiv_fin by exact Hne; rewrite xdiv_fin by exact Htimes;
    cbn [xadd]; apply set2_fin_mat; exact Hset.
Qed.


(** The vertical norm returned by [split_horizontal_vertical] vanishes at
    both ends of the curve; these are the rows of the grid [vertical_norm]
    that [horizontal_geodesic] hands to [construct_reparametrization]. *)
Lemma split_vertical_norm_boundary (m : ambient_metric)
    (tangent_vec curve hor ver : mat) (vertical_norm : vec) :
  split_horizontal_vertical m tangent_vec curve
  = Ok (hor, ver, vertical_norm) ->
  exists interior_norm, vertical_norm = 0 :: interior_norm ++ [0].
Proof.
  unfold split_horizontal_vertical. cbv zeta.
  repeat match goal with
  | |- bind ?r _ = _ -> _ =>
      destruct r as [?|?]; cbn [bind]; [|discriminate]
  end.
  intros H. injection H as _ _ <-.
  eexists. reflexivity.
Qed.

(** A grid of three times and three points where the space derivative of
    curve 0 vanishes at the middle point and the vertical norm does not:
    the quotient by zero is [inf] in row 1, and [inf * 0.0] is [nan] in the
    first column of row 2. *)
Lemma grid_with_zero_speed :
  construct_reparametrization_float 3 3 [[0; 1; 0]; [0; 0; 0]]
    [[1; 0; 1]; [1; 1; 1]; [1; 1; 1]]
  = Ok [[Fin 0; Fin (1 / 2); Fin 1]; [Fin 0; PInf; Fin 1];
        [NaN; NaN; Fin 1]].
Proof.
  unfold construct_reparametrization_float, linspace.
  cbn [Nat.eqb Nat.sub seq map repeat set_nth for_each get2 set2 nth_error
       bind Nat.add Nat.ltb Nat.leb length xsub xadd xopp xmul].
  rewrite (Rgtb_true 1 0) by lra. cbn [xmul].
  rewrite !(xdiv_fin _ 1) by lra.
  rewrite !(xdiv_fin _ (INR 3)) by (simpl; lra).
  rewrite xdiv_pos_zero by (simpl; lra).
  rewrite (xdiv_inf_pos (INR 3)) by (simpl; lra).
  cbn [xsub xadd xopp xmul].
  rewrite xscale_inf_pos by (simpl; lra).
  rewrite (Rgtb_le 0 0) by lra.
  cbn [xmul]. rewrite !xscale_inf_zero.
  cbn [xdiv xadd].
  repeat f_equal; simpl; field.
Qed.



(** ** The horizontal and the vertical part are not orthogonal pointwise *)

Lemma split_example :
  split_horizontal_vertical (EuclideanMetric 2)
    [[3; 0]; [0; 0]; [0; 0]; [0; 0]] [[0; 0]; [1; 0]; [2; 0]; [3; 0]]
  = Ok ([[3; 0]; [2; 0]; [1; 0]; [0; 0]],
        [[0; 0]; [-2; 0]; [-1; 0]; [0; 0]], [0; -2; -1; 0]).
Proof.
  unfold split_horizontal_vertical. cbv zeta.
  unfold interior, from_two, upto_last_two, drop_first, drop_last,
    pointwise_norm, pointwise_inner_product, inner_prod_aux, vmap2.
  simpl.
  replace (sqrt (dot [1 / 2 * (2 - 0); 1 / 2 * (0 - 0)]
                     [1 / 2 * (2 - 0); 1 / 2 * (0 - 0)])) with 1
    by (symmetry; apply sqrt_of_square;
        [lra | unfold dot, zip_with; simpl; lra]).
  replace (sqrt (dot [1 / 2 * (3 - 1); 1 / 2 * (0 - 0)]
                     [1 / 2 * (3 - 1); 1 / 2 * (0 - 0)])) with 1
    by (symmetry; apply sqrt_of_square;
        [lra | unfold dot, zip_with; simpl; lra]).
  replace (sqrt (dot (vadd (vsub [2; 0] [2 * 1; 2 * 0]) [0; 0])
                     (vadd (vsub [2; 0] [2 * 1; 2 * 0]) [0; 0]))) with 0
    by (symmetry; apply sqrt_of_square;
        [lra | unfold dot, vadd, vsub, zip_with; simpl; lra]).
  replace (sqrt (dot (vadd (vsub [3; 0] [2 * 2; 2 * 0]) [1; 0])
                     (vadd (vsub [3; 0] [2 * 2; 2 * 0]) [1; 0]))) with 0
    by (symmetry; apply sqrt_of_square;
        [lra | unfold dot, vadd, vsub, zip_with; simpl; lra]).
  unfold linalg_solve, np_diag, madd, dot, vadd, vsub, zip_with.
  simpl.
  rewrite Reqb_false.
  - cbn [bind]. unfold msub, vsub, vscale, zip_with. simpl.
    reals_in_lists_field.
  - lra.
Qed.

(** C2, as it is stated, fails: for the straight curve
    [(0,0), (1,0), (2,0), (3,0)] and the tangent vector
    [(3,0), (0,0), (0,0), (0,0)] the pointwise inner products of the
    horizontal and the vertical part at the two interior sampling points
    are -4 and -1. *)
Lemma split_not_pointwise_orthogonal :
  ~ pointwise_orthogonal (1 / 2) (EuclideanMetric 2)
      [[3; 0]; [0; 0]; [0; 0]; [0; 0]] [[0; 0]; [1; 0]; [2; 0]; [3; 0]].
Proof.
  intros H. destruct (H _ _ _ split_example) as [inner_prod [Hip Hall]].
  unfold pointwise_inner_product, inner_prod_aux in Hip. simpl in Hip.
  injection Hip as <-.
  unfold interior in Hall. simpl in Hall.
  apply Forall_inv in Hall. unfold dot, zip_with in Hall. simpl in Hall.
  replace (2 * -2 + (0 * 0 + 0)) with (-4) in Hall by lra.
  unfold Rabs in Hall. destruct (Rcase_abs (-4)); lra.
Qed.

(** ** The pointwise inner product of the two parts *)

Lemma zip_with3_app {A B C D : Type} (f : A -> B -> C -> D)
    (a1 a2 : list A) (b1 b2 : list B) (c1 c2 : list C) :
  length a1 = length b1 -> length a1 = length c1 ->
  zip_with3 f (a1 ++ a2) (b1 ++ b2) (c1 ++ c2)
  = zip_with3 f a1 b1 c1 ++ zip_with3 f a2 b2 c2.
Proof.
  revert b1 c1. induction a1 as [|x a1 IH]; intros [|y b1] [|z c1] Hb Hc;
    simpl in *; try discriminate; auto.
  f_equal. apply IH; lia.
Qed.

Lemma Forall_skipn {A : Type} (P : A -> Prop) (k : nat) (l : list A) :
  Forall P l -> Forall P (skipn k l).
Proof.
  revert l. induction k as [|k IH]; intros l H; [exact H|].
  destruct H as [|x l Hx Hl]; [constructor|]. simpl. apply IH. exact Hl.
Qed.

Lemma Forall_removelast {A : Type} (P : A -> Prop) (l : list A) :
  Forall P l -> Forall P (removelast l).
Proof.
  induction 1 as [|x l Hx Hl IH]; [constructor|].
  destruct l as [|y l]; [constructor|].
  change (removelast (x :: y :: l)) with (x :: removelast (y :: l)).
  constructor; assumption.
Qed.

Lemma list_ends {A : Type} (l : list A) :
  (2 <= length l)%nat ->
  exists a mid b, l = a :: mid ++ [b] /\ length mid = (length l - 2)%nat.
Proof.
  intros H. destruct l as [|a l]; [simpl in H; lia|].
  assert (Hne : l <> []) by (intros ->; simpl in H; lia).
  destruct (exists_last Hne) as [mid [b ->]].
  exists a, mid, b. split; [reflexivity|].
  simpl. rewrite length_app. simpl. lia.
Qed.

Lemma interior_ends {A : Type} (a b : A) (mid : list A) :
  interior (a :: mid ++ [b]) = mid.
Proof. unfold interior. cbn [tl]. apply removelast_last. Qed.

Lemma interior_ends_one {A : Type} (a : A) (mid l : list A) :
  length l = 1%nat -> interior (a :: mid ++ l) = mid.
Proof.
  intros H. destruct l as [|b [|c l]]; try discriminate.
  apply interior_ends.
Qed.

Lemma rect_from_two (n d : nat) (c : mat) :
  rect n d c -> rect (n - 2) d (from_two c).
Proof.
  intros [Hn Hd]. split.
  - unfold from_two. rewrite length_skipn, Hn. reflexivity.
  - apply Forall_skipn. exact Hd.
Qed.

Lemma rect_upto_last_two (n d : nat) (c : mat) :
  rect n d c -> rect (n - 2) d (upto_last_two c).
Proof.
  intros [Hn Hd]. split.
  - unfold upto_last_two. rewrite !removelast_length, Hn. lia.
  - apply Forall_removelast, Forall_removelast. exact Hd.
Qed.

Lemma rect_interior (n d : nat) (c : mat) :
  rect n d c -> rect (n - 2) d (interior c).
Proof.
  intros [Hn Hd]. split.
  - unfold interior. rewrite removelast_length, tl_length, Hn. lia.
  - apply Forall_removelast. destruct Hd; [constructor | assumption].
Qed.

Lemma rect_centered_speed (n d : nat) (c : mat) :
  rect n d c -> rect (n - 2) d (centered_speed c).
Proof.
  intros Hc. unfold centered_speed. apply rect_mscale, rect_msub.
  - apply rect_from_two. exact Hc.
  - apply rect_upto_last_two. exact Hc.
Qed.

Lemma np_diag_length (v : vec) (k : Z) :
  length (np_diag v k) = (length v + Z.abs_nat k)%nat.
Proof. unfold np_diag. rewrite length_map. apply length_seq. Qed.

Lemma linalg_solve_length (a : mat) (b sol : vec) :
  linalg_solve a b = Ok sol -> length sol = length a.
Proof.
  unfold linalg_solve.
  destruct (Reqb (det (length a) a) 0); [discriminate|].
  intros H. injection H as <-. rewrite length_map. apply length_seq.
Qed.

Lemma unit_speed_unit (dim d : nat) (speed position : mat) :
  Forall (fun v => length v = d) speed ->
  Forall (fun s => s <> 0)
    (norms_along (EuclideanMetric dim) speed position) ->
  Forall (fun u => dot u u = 1 /\ length u = d)
    (zip_with (fun v n => vscale (1 / n) v) speed
       (norms_along (EuclideanMetric dim) speed position)).
Proof.
  intros Hd. revert position.
  induction Hd as [|v speed Hv Hd IH]; intros position Hnz.
  - apply Forall_nil.
  - destruct position as [|p position]; [apply Forall_nil|].
    change (norms_along (EuclideanMetric dim) (v :: speed)
              (p :: position))
      with (sqrt (dot v v)
            :: norms_along (EuclideanMetric dim) speed position) in *.
    rewrite zip_with_cons.
    apply Forall_cons_iff in Hnz. destruct Hnz as [Hnz Htail].
    apply Forall_cons.
    + split; [|rewrite vscale_length; exact Hv].
      rewrite dot_vscale.
      pose proof (dot_self_nonneg v) as Hpos.
      pose proof (sqrt_sqrt (dot v v) Hpos) as Hsq.
      field_simplify_eq; [lra | exact Hnz].
    + apply IH. exact Htail.
Qed.

Lemma dot_vsub_l (t w : vec) :
  length t = length w -> dot (vsub t w) w = dot t w - dot w w.
Proof.
  unfold dot, vsub, zip_with. revert w.
  induction t as [|x t IH]; intros [|y w] H; simpl in *;
    try discriminate; try lra.
  rewrite IH by lia. lra.
Qed.

Lemma interior_products (d : nat) (us : mat) :
  Forall (fun u => dot u u = 1 /\ length u = d) us ->
  forall (sol : vec) (tmid cmid : mat),
    length sol = length us -> length tmid = length us ->
    length cmid = length us ->
    Forall (fun t => length t = d) tmid ->
    zip_with3 (fun a b (_ : vec) => dot a b)
      (msub tmid (zip_with (fun u n => vscale n u) us sol))
      (zip_with (fun u n => vscale n u) us sol) cmid
    = zip_with3 (fun k t u => k * (dot t u - k)) sol tmid us.
Proof.
  induction 1 as [|u us [Hu Hlen] Hus IH];
    intros [|k sol] [|t tmid] [|c cmid] Hs Ht Hc Htd;
    try (simpl in Hs, Ht, Hc; discriminate); try reflexivity.
  simpl in Hs, Ht, Hc.
  apply Forall_cons_iff in Htd. destruct Htd as [Htl Htd].
  unfold msub. rewrite !zip_with_cons. cbn [zip_with3]. f_equal.
  - rewrite dot_vsub_l by (rewrite vscale_length; congruence).
    rewrite !dot_vscale.
    replace (dot t (vscale k u)) with (k * dot t u).
    + rewrite Hu. ring.
    + symmetry. rewrite <- (vscale_one t) at 1. rewrite dot_vscale. ring.
  - apply IH; try lia. exact Htd.
Qed.
(** ** The pointwise inner product of the two parts, continued *)

Lemma tridiagonal_length (a b c : vec) (k : nat) :
  length a = k -> length b = k -> length c = k ->
  length (madd (madd (np_diag (drop_last a) 1) (np_diag b 0))
               (np_diag (drop_first c) (-1))) = k.
Proof.
  intros Ha Hb Hc. unfold madd.
  rewrite !zip_with_length, !np_diag_length.
  rewrite drop_last_length, drop_first_length, Ha, Hb, Hc.
  simpl Z.abs_nat. lia.
Qed.

Lemma rect_second_difference (n d : nat) (c : mat) :
  rect n d c ->
  rect (n - 2) d
    (madd (msub (from_two c) (mscale 2 (interior c))) (upto_last_two c)).
Proof.
  intros Hc. apply rect_madd; [apply rect_msub|].
  - apply rect_from_two. exact Hc.
  - apply rect_mscale, rect_interior. exact Hc.
  - apply rect_upto_last_two. exact Hc.
Qed.

Lemma hd_rect (n d : nat) (a : mat) :
  rect n d a -> (1 <= n)%nat -> length (hd [] a) = d.
Proof.
  intros [Hn Hd] H1. destruct a as [|p a]; [simpl in Hn; lia|].
  apply Forall_cons_iff in Hd. apply Hd.
Qed.

(** On three sampling points there is a single interior point, and the
    first pointwise norm raises. *)
Lemma split_three_points (m : ambient_metric) (d : nat)
    (tangent_vec curve : mat) :
  rect 3 d curve ->
  split_horizontal_vertical m tangent_vec curve = Raise ValueError.
Proof.
  intros Hc. unfold split_horizontal_vertical. cbv zeta.
  fold (centered_speed curve).
  rewrite (pointwise_norm_single m d).
  - reflexivity.
  - apply (rect_centered_speed 3 d curve Hc).
  - apply (rect_interior 3 d curve Hc).
Qed.

(** The parts that [split_horizontal_vertical] returns, in terms of the
    solution of its linear system. *)
Lemma split_parts (dim n d : nat) (tangent_vec curve hor ver : mat)
    (vertical_norm : vec) :
  let m := EuclideanMetric dim in
  (4 <= n)%nat ->
  rect n d curve ->
  rect n d tangent_vec ->
  split_horizontal_vertical m tangent_vec curve
  = Ok (hor, ver, vertical_norm) ->
  exists sol,
    length sol = (n - 2)%nat
    /\ vertical_norm = 0 :: sol ++ [0]
    /\ ver = repeat 0 d
             :: zip_with (fun u k => vscale k u) (unit_speed m curve) sol
             ++ [repeat 0 d]
    /\ hor = msub tangent_vec ver.
Proof.
  intros m Hn Hc Htv H.
  set (k := (n - 2)%nat).
  assert (Hk : k <> 1%nat) by (unfold k; lia).
  assert (Hpos : rect k d (interior curve)) by (apply rect_interior; exact Hc).
  assert (Hdpos : rect k d (centered_speed curve))
    by (apply rect_centered_speed; exact Hc).
  assert (Hdvec : rect k d (centered_speed tangent_vec))
    by (apply rect_centered_speed; exact Htv).
  assert (Hd2 : rect k d
                  (madd (msub (from_two curve) (mscale 2 (interior curve)))
                        (upto_last_two curve)))
    by (apply rect_second_difference; exact Hc).
  assert (Hd2vec : rect k d
                     (madd (msub (from_two tangent_vec)
                                 (mscale 2 (interior tangent_vec)))
                           (upto_last_two tangent_vec)))
    by (apply rect_second_difference; exact Htv).
  assert (Hhd : length (hd [] curve) = d)
    by (apply (hd_rect n); [exact Hc | lia]).
  unfold split_horizontal_vertical in H. cbv zeta in H.
  fold (centered_speed curve) in H.
  fold (centered_speed tangent_vec) in H.
  rewrite (pointwise_norm_ok m k d _ _ Hdpos Hpos Hk) in H.
  rewrite (pointwise_norm_ok m k d _ _ Hd2 Hpos Hk) in H.
  rewrite (pointwise_inner_product_ok m k d _ _ _ Hd2 Hdpos Hpos Hk) in H.
  rewrite (pointwise_inner_product_ok m k d _ _ _ Hd2vec Hdpos Hpos Hk)
    in H.
  rewrite (pointwise_inner_product_ok m k d _ _ _ Hdvec Hd2 Hpos Hk) in H.
  rewrite (pointwise_inner_product_ok m k d _ _ _ Hdvec Hdpos Hpos Hk)
    in H.
  cbn [bind] in H.
  fold (unit_speed m curve) in H.
  match type of H with
  | context [linalg_solve ?ls ?vd] =>
      destruct (linalg_solve ls vd) as [sol|e] eqn:Hsolve
  end; [|discriminate].
  cbn [bind] in H. injection H as Hhor Hver Hvn.
  apply linalg_solve_length in Hsolve.
  rewrite (tridiagonal_length _ _ _ k) in Hsolve.
  2:{ unfold vmap2. rewrite zip_with_length.
      rewrite (norms_along_length m k d) by assumption.
      rewrite (inner_products_along_length m k d) by assumption.
      apply Nat.min_id. }
  2:{ rewrite zip_with3_length.
      rewrite !(norms_along_length m k d) by assumption.
      rewrite (inner_products_along_length m k d) by assumption.
      rewrite !Nat.min_id. reflexivity. }
  2:{ unfold vmap2. rewrite zip_with_length.
      rewrite (norms_along_length m k d) by assumption.
      rewrite (inner_products_along_length m k d) by assumption.
      apply Nat.min_id. }
  exists sol. rewrite Hhd in Hver. rewrite interior_ends in Hver.
  subst hor ver vertical_norm.
  rewrite Hhd, interior_ends.
  split; [exact Hsolve|]. repeat split.
Qed.

Lemma centered_speeds_example :
  Forall (fun s => s <> 0)
    (norms_along (EuclideanMetric 2)
       (centered_speed [[0; 0]; [1; 0]; [2; 0]; [3; 0]])
       (interior [[0; 0]; [1; 0]; [2; 0]; [3; 0]])).
Proof.
  unfold norms_along, inner_products_along, centered_speed,
    interior, from_two, upto_last_two.
  simpl.
  replace (sqrt (dot [1 / 2 * (2 - 0); 1 / 2 * (0 - 0)]
                     [1 / 2 * (2 - 0); 1 / 2 * (0 - 0)])) with 1
    by (symmetry; apply sqrt_of_square;
        [lra | unfold dot, zip_with; simpl; lra]).
  replace (sqrt (dot [1 / 2 * (3 - 1); 1 / 2 * (0 - 0)]
                     [1 / 2 * (3 - 1); 1 / 2 * (0 - 0)])) with 1
    by (symmetry; apply sqrt_of_square;
        [lra | unfold dot, zip_with; simpl; lra]).
  repeat constructor; lra.
Qed.

Lemma unit_speed_length (m : ambient_metric) (n d : nat) (curve : mat) :
  rect n d curve -> length (unit_speed m curve) = (n - 2)%nat.
Proof.
  intros Hc. unfold unit_speed. rewrite zip_with_length.
  rewrite (norms_along_length m (n - 2) d)
    by (try apply rect_centered_speed; try apply rect_interior; exact Hc).
  destruct (rect_centered_speed n d curve Hc) as [Hl _].
  unfold mat, vec in *. lia.
Qed.

Lemma rect_vertical_part (m : ambient_metric) (n d : nat) (curve : mat)
    (sol : vec) :
  (2 <= n)%nat -> rect n d curve -> length sol = (n - 2)%nat ->
  rect (n - 2) d
    (zip_with (fun u k => vscale k u) (unit_speed m curve) sol)
  /\ rect n d
       (repeat 0 d
        :: zip_with (fun u k => vscale k u) (unit_speed m curve) sol
        ++ [repeat 0 d]).
Proof.
  intros Hn Hc Hsol.
  pose proof (unit_speed_length m n d curve Hc) as Hul.
  assert (Hmid : rect (n - 2) d
                   (zip_with (fun u k => vscale k u) (unit_speed m curve)
                      sol)).
  { split.
    - rewrite zip_with_length. unfold mat, vec in *. lia.
    - apply (Forall_zip_with_l (fun u => length u = d)).
      + unfold unit_speed.
        apply (Forall_zip_with_l (fun u => length u = d)).
        * apply (rect_centered_speed n d curve Hc).
        * intros a b Ha. rewrite vscale_length. exact Ha.
      + intros a b Ha. rewrite vscale_length. exact Ha. }
  split; [exact Hmid|].
  destruct Hmid as [Hml Hmd]. split.
  - cbn [length]. rewrite length_app. cbn [length].
    unfold mat, vec in *. lia.
  - constructor; [apply repeat_length|].
    apply Forall_app. split; [exact Hmd|].
    constructor; [apply repeat_length | constructor].
Qed.

(** C2, amended: on a curve of at least four sampling points the horizontal
    and the vertical part add up to the tangent vector, and their pointwise
    inner product at an interior sampling point is [k * (<t, u> - k)],
    where [k] is the vertical norm, [t] the tangent vector and [u] the unit
    tangent of the curve at that point.  It vanishes only where the
    vertical norm is zero or equal to the tangential component of the
    tangent vector. *)
Theorem split_pointwise_inner_product (dim n d : nat)
    (tangent_vec curve hor ver : mat) (vertical_norm : vec) :
  let m := EuclideanMetric dim in
  (4 <= n)%nat ->
  rect n d curve ->
  rect n d tangent_vec ->
  Forall (fun s => s <> 0)
    (norms_along m (centered_speed curve) (interior curve)) ->
  split_horizontal_vertical m tangent_vec curve
  = Ok (hor, ver, vertical_norm) ->
  length vertical_norm = n
  /\ hor = msub tangent_vec ver
  /\ exists inner_prod,
       pointwise_inner_product m hor ver curve = Ok inner_prod
       /\ interior inner_prod
          = zip_with3 (fun k t u => k * (dot t u - k))
              (interior vertical_norm) (interior tangent_vec)
              (unit_speed m curve).
Proof.
  intros m Hn Hc Htv Hnz H.
  destruct (split_parts dim n d tangent_vec curve hor ver vertical_norm
              Hn Hc Htv H) as [sol [Hsol [Hvn [Hver Hhor]]]].
  fold m in Hver.
  set (k := (n - 2)%nat) in *.
  assert (Hdpos : rect k d (centered_speed curve))
    by (apply rect_centered_speed; exact Hc).
  assert (Hunit : Forall (fun u => dot u u = 1 /\ length u = d)
                    (unit_speed m curve)).
  { apply unit_speed_unit; [apply Hdpos | exact Hnz]. }
  pose proof (unit_speed_length m n d curve Hc) as Hulen. fold k in Hulen.
  destruct (rect_vertical_part m n d curve sol) as [Hmid Hrv];
    [lia | exact Hc | exact Hsol |].
  rewrite <- Hver in Hrv.
  assert (Hrh : rect n d hor) by (rewrite Hhor; apply rect_msub; assumption).
  split; [|split; [exact Hhor|]].
  - rewrite Hvn. simpl. rewrite length_app, Hsol. simpl. unfold k. lia.
  - rewrite (pointwise_inner_product_ok m n d hor ver curve Hrh Hrv Hc)
      by lia.
    eexists. split; [reflexivity|].
    rewrite Hvn, interior_ends. subst hor ver.
    destruct (list_ends curve) as [c0 [cmid [c1 [Ec Hcl]]]];
      [destruct Hc as [Hl _]; rewrite Hl; lia|].
    destruct (list_ends tangent_vec) as [t0 [tmid [t1 [Et Htl]]]];
      [destruct Htv as [Hl _]; rewrite Hl; lia|].
    assert (Htmid : Forall (fun t => length t = d) tmid).
    { destruct Htv as [_ Hd]. rewrite Et in Hd.
      apply Forall_cons_iff in Hd. destruct Hd as [_ Hd].
      apply Forall_app in Hd. apply Hd. }
    assert (Hcn : length cmid = k)
      by (destruct Hc as [Hl _]; rewrite Hcl, Hl; reflexivity).
    assert (Htn : length tmid = k)
      by (destruct Htv as [Hl _]; rewrite Htl, Hl; reflexivity).
    clear Hmid Hrv Hrh.
    revert Hunit Hulen. generalize (unit_speed m curve) as us.
    intros us Hunit Hulen.
    generalize (repeat 0 d) as zeros. intros zeros.
    rewrite Et, Ec. rewrite interior_ends.
    set (vmid := zip_with (fun (u : vec) (n0 : R) => vscale n0 u) us sol).
    assert (Hvl : length vmid = k).
    { unfold vmid. rewrite zip_with_length. unfold mat, vec in *. lia. }
    unfold msub.
    rewrite zip_with_cons.
    rewrite zip_with_app by (unfold mat, vec in *; lia).
    unfold inner_products_along. cbn [zip_with3].
    rewrite zip_with3_app.
    2:{ rewrite zip_with_length. unfold mat, vec in *. lia. }
    2:{ rewrite zip_with_length. unfold mat, vec in *. lia. }
    rewrite interior_ends_one by reflexivity.
    cbn [metric_inner_product].
    apply (interior_products d); try assumption;
      unfold mat, vec in *; lia.
Qed.

Lemma split_pointwise_inner_product_witness :
  let m := EuclideanMetric 2 in
  let tangent_vec := [[3; 0]; [0; 0]; [0; 0]; [0; 0]] in
  let curve := [[0; 0]; [1; 0]; [2; 0]; [3; 0]] in
  let hor := [[3; 0]; [2; 0]; [1; 0]; [0; 0]] in
  let ver := [[0; 0]; [-2; 0]; [-1; 0]; [0; 0]] in
  length [0; -2; -1; 0] = 4%nat
  /\ hor = msub tangent_vec ver
  /\ exists inner_prod,
       pointwise_inner_product m hor ver curve = Ok inner_prod
       /\ interior inner_prod
          = zip_with3 (fun k t u => k * (dot t u - k))
              (interior [0; -2; -1; 0]) (interior tangent_vec)
              (unit_speed m curve).
Proof.
  apply (split_pointwise_inner_product 2 4 2
           [[3; 0]; [0; 0]; [0; 0]; [0; 0]]
           [[0; 0]; [1; 0]; [2; 0]; [3; 0]]
           [[3; 0]; [2; 0]; [1; 0]; [0; 0]]
           [[0; 0]; [-2; 0]; [-1; 0]; [0; 0]] [0; -2; -1; 0]).
  - lia.
  - split; [reflexivity | repeat constructor].
  - split; [reflexivity | repeat constructor].
  - exact centered_speeds_example.
  - exact split_example.
Defined.

(** * Further properties of the code *)

(** ** The closure constraint measures the gap between the end points *)

Lemma vscale_vadd (a : R) (u v : vec) :
  vadd (vscale a u) (vscale a v) = vscale a (vadd u v).
Proof.
  unfold vadd, vscale, zip_with. revert v.
  induction u as [|x u IH]; intros [|y v]; simpl; auto.
  f_equal; [lra | apply IH].
Qed.

Lemma vscale_zeros (a : R) (d : nat) : vscale a (repeat 0 d) = repeat 0 d.
Proof.
  unfold vscale. induction d as [|d IH]; simpl; auto.
  f_equal; [lra | exact IH].
Qed.

Lemma vsub_self (p : vec) : vsub p p = repeat 0 (length p).
Proof.
  unfold vsub, zip_with. induction p as [|x p IH]; simpl; auto.
  f_equal; [lra | exact IH].
Qed.

Lemma vadd_vsub_chain (a b c : vec) :
  length a = length b -> length b = length c ->
  vadd (vsub b a) (vsub c b) = vsub c a.
Proof.
  unfold vadd, vsub, zip_with. revert b c.
  induction a as [|x a IH]; intros [|y b] [|z c] Hab Hbc; simpl in *;
    try discriminate; auto.
  f_equal; [lra | apply IH; lia].
Qed.

Lemma sum_rows_mscale (d : nat) (a : R) (x : mat) :
  sum_rows d (mscale a x) = vscale a (sum_rows d x).
Proof.
  unfold sum_rows, mscale. induction x as [|r x IH]; simpl.
  - symmetry. apply vscale_zeros.
  - rewrite IH. apply vscale_vadd.
Qed.

Lemma last_cons_default {A : Type} (a d : A) (l : list A) :
  last (a :: l) d = last l a.
Proof.
  revert a d. induction l as [|b l IH]; intros a d; [reflexivity|].
  change (last (a :: b :: l) d) with (last (b :: l) d).
  rewrite (IH b d), (IH b a). reflexivity.
Qed.

Lemma last_Forall {A : Type} (P : A -> Prop) (l : list A) (d : A) :
  Forall P l -> P d -> P (last l d).
Proof.
  intros Hl. revert d. induction Hl as [|a l Ha Hl IH]; intros d Hd;
    [exact Hd|].
  rewrite last_cons_default. apply IH. exact Ha.
Qed.

Lemma sum_rows_cons (d : nat) (r : vec) (x : mat) :
  sum_rows d (r :: x) = vadd r (sum_rows d x).
Proof. reflexivity. Qed.

Lemma sum_rows_telescope (d : nat) (rest : mat) (p0 : vec) :
  length p0 = d ->
  Forall (fun p => length p = d) rest ->
  sum_rows d (zip_with vsub rest (drop_last (p0 :: rest)))
  = vsub (last rest p0) p0.
Proof.
  intros Hp0 Hrest. revert p0 Hp0.
  induction Hrest as [|p1 rest Hp1 Hrest IH]; intros p0 Hp0.
  - cbn [last]. rewrite vsub_self, Hp0. reflexivity.
  - change (drop_last (p0 :: p1 :: rest))
      with (p0 :: drop_last (p1 :: rest)).
    rewrite zip_with_cons, sum_rows_cons, last_cons_default.
    transitivity (vadd (vsub p1 p0) (vsub (last rest p1) p1)).
    + f_equal. apply IH. exact Hp1.
    + apply vadd_vsub_chain; [congruence|].
      rewrite Hp1. symmetry.
      apply (last_Forall (fun p => length p = d)); assumption.
Qed.

Lemma sum_rows_differences (d : nat) (rest : mat) (p0 : vec) :
  length p0 = d ->
  Forall (fun p => length p = d) rest ->
  sum_rows d (differences (p0 :: rest)) = vsub (last rest p0) p0.
Proof. apply sum_rows_telescope. Qed.

Lemma segment_velocity (dim : nat) (coef : R) (p q : vec) :
  0 < coef ->
  0 < sqrt (dot (vsub p q) (vsub p q)) ->
  let s := srv_segment (EuclideanMetric dim) coef p q in
  vscale (metric_norm (EuclideanMetric dim) s []) s
  = vscale coef (vsub p q).
Proof.
  intros Hcoef Hspeed s.
  pose proof (segment_round_trip dim coef p q Hcoef Hspeed) as H.
  cbv zeta in H. fold s in H. rewrite <- H.
  rewrite vscale_vscale. f_equal. field. lra.
Qed.

Lemma dot_zero_all_zero (v : vec) : dot v v = 0 -> all_zero v.
Proof.
  unfold all_zero. induction v as [|x v IH]; intros H; [constructor|].
  assert (E : dot (x :: v) (x :: v) = x * x + dot v v)
    by (unfold dot, zip_with; reflexivity).
  rewrite E in H. pose proof (dot_self_nonneg v) as Hv.
  assert (Hx : x * x = 0) by nra.
  constructor; [nra | apply IH; nra].
Qed.

Lemma vsub_all_zero (a b : vec) :
  length a = length b -> (all_zero (vsub a b) <-> a = b).
Proof.
  unfold all_zero, vsub, zip_with. revert b.
  induction a as [|x a IH]; intros [|y b] Hlen; simpl in *;
    try discriminate.
  - split; [reflexivity | constructor].
  - split.
    + intros H. apply Forall_cons_iff in H. destruct H as [Hx Ha].
      f_equal; [lra | apply IH; [lia | exact Ha]].
    + intros E. injection E as -> ->. constructor; [lra|].
      apply IH; [lia | reflexivity].
Qed.

Lemma residual_of_curve (dim n d : nat) (c : mat) :
  rect n d c -> (2 <= n)%nat -> positive_speeds c ->
  let m := EuclideanMetric dim in
  sum_rows d
    (zip_with (fun row nrm => vscale nrm row) (srv_of_curve m c)
       (map (fun row => metric_norm m row []) (srv_of_curve m c)))
  = vscale (INR (n - 1)) (vsub (last c []) (hd [] c)).
Proof.
  intros [Hn Hd] Hn2 Hpos m.
  rewrite zip_with_map_r_self.
  assert (Hrows : map (fun s => vscale (metric_norm m s []) s)
                    (srv_of_curve m c)
                  = mscale (INR (n - 1)) (differences c)).
  { unfold srv_of_curve, differences, msub, mscale.
    rewrite !map_zip_with.
    apply (zip_with_ext_Forall (fun s => 0 < s)
             (fun p q => sqrt (dot (vsub p q) (vsub p q)))).
    - exact Hpos.
    - intros p q Hs. rewrite Hn.
      apply (segment_velocity dim (INR (n - 1)) p q); [|exact Hs].
      apply lt_0_INR. lia. }
  match goal with
  | |- sum_rows d ?x = _ =>
      replace x with (mscale (INR (n - 1)) (differences c))
        by (symmetry; exact Hrows)
  end.
  rewrite sum_rows_mscale. f_equal.
  destruct c as [|p0 rest]; [simpl in Hn; lia|].
  apply Forall_cons_iff in Hd. destruct Hd as [Hp0 Hrest].
  rewrite last_cons_default. cbn [hd].
  apply sum_rows_differences; assumption.
Qed.

(** X1: on the SRV representation of a planar curve, the residual of the
    closure constraint with which [project_srv] starts is the vector from
    the first to the last sampling point, scaled by [n - 1]; the criterion
    is zero exactly when the curve is closed. *)
Theorem closure_residual_of_curve (n : nat) (c : mat) :
  rect n 2 c -> (2 <= n)%nat -> positive_speeds c ->
  let m := EuclideanMetric 2 in
  let gap := vsub (last c []) (hd [] c) in
  let s0 := newton_init m (srv_of_curve m c) in
  residual s0 = vscale (INR (n - 1)) gap
  /\ criteria s0 = INR (n - 1) * sqrt (dot gap gap)
  /\ (criteria s0 = 0 <-> last c [] = hd [] c).
Proof.
  intros Hc Hn Hpos m gap s0.
  pose proof (residual_of_curve 2 n 2 c Hc Hn Hpos) as Hres.
  cbv zeta in Hres. fold gap in Hres.
  subst s0 m. unfold newton_init. cbn [residual criteria].
  unfold g_criterion.
  assert (Hcoef : 0 < INR (n - 1)) by (apply lt_0_INR; lia).
  match goal with
  | |- ?r = _ /\ _ =>
      replace r with (vscale (INR (n - 1)) gap) by (symmetry; exact Hres)
  end.
  assert (Hcrit : metric_norm (EuclideanMetric 2)
                    (vscale (INR (n - 1)) gap) []
                  = INR (n - 1) * sqrt (dot gap gap)).
  { unfold metric_norm. cbn [metric_inner_product].
    apply norm_vscale. lra. }
  split; [reflexivity|]. split; [exact Hcrit|].
  assert (Hlen : length (last c []) = length (hd [] c)).
  { destruct Hc as [Hl Hd]. destruct c as [|p0 rest]; [simpl in Hl; lia|].
    apply Forall_cons_iff in Hd. destruct Hd as [Hp0 Hrest].
    rewrite last_cons_default. cbn [hd]. rewrite Hp0.
    apply (last_Forall (fun p => length p = 2%nat)); assumption. }
  rewrite Hcrit. split.
  - intros H. apply (vsub_all_zero _ _ Hlen).
    apply dot_zero_all_zero.
    assert (Hs : sqrt (dot gap gap) = 0) by nra.
    apply sqrt_eq_0 in Hs; [exact Hs | apply dot_self_nonneg].
  - intros E. apply (vsub_all_zero _ _ Hlen) in E.
    fold gap in E. rewrite (all_zero_dot gap E), sqrt_0. lra.
Qed.

Lemma positive_speeds_triangle :
  positive_speeds [[0; 0]; [1; 0]; [0; 1]; [0; 0]].
Proof.
  unfold positive_speeds, segment_speeds, zip_with, dot, vsub, zip_with.
  simpl. repeat constructor; apply sqrt_lt_R0; lra.
Qed.

Lemma closure_residual_of_curve_witness :
  let c := [[0; 0]; [1; 0]; [0; 1]; [0; 0]] in
  let m := EuclideanMetric 2 in
  let gap := vsub (last c []) (hd [] c) in
  let s0 := newton_init m (srv_of_curve m c) in
  residual s0 = vscale (INR (4 - 1)) gap
  /\ criteria s0 = INR (4 - 1) * sqrt (dot gap gap)
  /\ (criteria s0 = 0 <-> last c [] = hd [] c).
Proof.
  apply (closure_residual_of_curve 4 [[0; 0]; [1; 0]; [0; 1]; [0; 0]]).
  - split; [reflexivity | repeat constructor].
  - lia.
  - exact positive_speeds_triangle.
Defined.

(** ** Curves that are already closed *)

Lemma Rgeb_lt (x y : R) : x < y -> Rgeb x y = false.
Proof.
  intros H. unfold Rgeb. destruct (Rge_dec x y); [lra | reflexivity].
Qed.

Lemma criteria_of_curve (n : nat) (c : mat) :
  rect n 2 c -> (2 <= n)%nat -> positive_speeds c ->
  let m := EuclideanMetric 2 in
  let gap := vsub (last c []) (hd [] c) in
  criteria (newton_init m (srv_of_curve m c))
  = INR (n - 1) * sqrt (dot gap gap).
Proof.
  intros Hc Hn Hpos m gap.
  pose proof (residual_of_curve 2 n 2 c Hc Hn Hpos) as Hres.
  cbv zeta in Hres. fold gap in Hres.
  subst m. unfold newton_init. cbn [criteria]. unfold g_criterion.
  match goal with
  | |- metric_norm _ ?r _ = _ =>
      replace r with (vscale (INR (n - 1)) gap) by (symmetry; exact Hres)
  end.
  unfold metric_norm. cbn [metric_inner_product].
  apply norm_vscale. apply pos_INR.
Qed.

Lemma inverse_of_srv_single (dim d : nat) (c : mat) :
  (2 <= length c)%nat ->
  Forall (fun p => length p = d) c ->
  positive_speeds c ->
  let m := EuclideanMetric dim in
  square_root_velocity_inverse m (Arr2 (srv_of_curve m c)) (Arr2 [hd [] c])
  = Ok (Arr2 c).
Proof.
  intros Hlen Hc Hpos m. subst m. set (m := EuclideanMetric dim).
  assert (Hsrv : length (srv_of_curve m c) = (length c - 1)%nat)
    by apply srv_of_curve_length.
  assert (Hdelta :
    map (fun s =>
           vscale (1 / INR (length (srv_of_curve m c))
                   * metric_norm m s []) s) (srv_of_curve m c)
    = differences c).
  { rewrite Hsrv. apply deltas_of_curve; assumption. }
  unfold m in *. rewrite inverse_single.
  - rewrite Hdelta. do 2 f_equal.
    apply (cumsum_rows_differences d); [exact Hc|].
    intros ->. simpl in Hlen. lia.
  - intros E. rewrite E in Hsrv. simpl in Hsrv. lia.
  - rewrite Hdelta. apply (differences_head d); assumption.
Qed.

(** X2: a planar curve with positive segment speeds whose end points are
    closer than the tolerance allows, [(n - 1) * |c_last - c_first| < atol],
    is left as it is: the Newton loop of [project_srv] does not run a single
    turn and returns the SRV representation it was given, and [project]
    returns the curve itself, whatever the bound on the iterations. *)
Theorem project_fixes_closed_curve (fuel n : nat) (c : mat) (atol : R)
    (max_iter : Z) :
  rect n 2 c -> (2 <= n)%nat -> positive_speeds c ->
  (1 <= fuel)%nat ->
  let m := EuclideanMetric 2 in
  let gap := vsub (last c []) (hd [] c) in
  INR (n - 1) * sqrt (dot gap gap) < atol ->
  project_srv fuel m (srv_of_curve m c) atol max_iter
  = Some (Ok (srv_of_curve m c))
  /\ project fuel (Euclidean 2) (Arr2 c) atol max_iter = Some (Ok (Arr2 c)).
Proof.
  intros Hc Hn Hpos Hfuel m gap Hgap.
  assert (Hlen : length c = n) by apply Hc.
  assert (Hsrv : project_srv fuel m (srv_of_curve m c) atol max_iter
                 = Some (Ok (srv_of_curve m c))).
  { unfold project_srv, project_srv_loop.
    change (negb (is_planar_metric m)) with false. cbv iota zeta.
    destruct fuel as [|fuel]; [lia|]. cbn [while_loop].
    unfold newton_cond at 1.
    pose proof (criteria_of_curve n c Hc Hn Hpos) as Hcrit.
    cbv zeta in Hcrit. fold m gap in Hcrit.
    rewrite Hcrit, (Rgeb_lt _ _ Hgap). reflexivity. }
  split; [exact Hsrv|].
  unfold project.
  change (negb (is_planar_manifold (Euclidean 2))) with false.
  cbv iota zeta. cbn [manifold_metric]. fold m.
  rewrite square_root_velocity_single by lia.
  cbn [bind]. rewrite as_tensor_3. cbn [bind].
  rewrite Hsrv.
  destruct c as [|p0 rest] eqn:Ec; [simpl in Hlen; lia|].
  cbn [first_slice array_of_one bind]. rewrite <- Ec in *.
  replace p0 with (hd [] c) by (rewrite Ec; reflexivity).
  f_equal. apply (inverse_of_srv_single 2 2).
  - lia.
  - apply Hc.
  - exact Hpos.
Qed.

Lemma project_fixes_closed_curve_witness :
  let c := [[0; 0]; [1; 0]; [0; 1]; [0; 0]] in
  let m := EuclideanMetric 2 in
  project_srv 1 m (srv_of_curve m c) (1 / 1000) 1000
  = Some (Ok (srv_of_curve m c))
  /\ project 1 (Euclidean 2) (Arr2 c) (1 / 1000) 1000 = Some (Ok (Arr2 c)).
Proof.
  apply (project_fixes_closed_curve 1 4 [[0; 0]; [1; 0]; [0; 1]; [0; 0]]).
  - split; [reflexivity | repeat constructor].
  - lia.
  - exact positive_speeds_triangle.
  - lia.
  - unfold vsub, dot, zip_with. simpl.
    replace (((0 - 0) * (0 - 0) + ((0 - 0) * (0 - 0) + 0))) with 0 by lra.
    rewrite sqrt_0. lra.
Defined.

(** ** The shape of a projection *)

Lemma cumsum_from_rows (d : nat) (delta : mat) (acc : vec) :
  length acc = d ->
  Forall (fun p => length p = d) delta ->
  rect (length delta) d (cumsum_from acc delta).
Proof.
  intros Hacc Hdelta. revert acc Hacc.
  induction Hdelta as [|r delta Hr Hdelta IH]; intros acc Hacc.
  - split; [reflexivity | constructor].
  - cbn [cumsum_from]. cbv zeta.
    assert (Hsum : length (vadd acc r) = d).
    { rewrite vadd_length, Hacc, Hr. apply Nat.min_id. }
    destruct (IH (vadd acc r) Hsum) as [Hk Hd].
    split.
    + cbn [length]. f_equal. exact Hk.
    + constructor; assumption.
Qed.

(** X3: the Newton loop keeps the shape of its array, and so does the
    projection: whenever [project_srv] returns on an array of [k] rows and
    two columns its result has [k] rows and two columns, and whenever
    [project] returns on a planar curve of [n >= 2] sampling points its
    result is a planar curve of [n] sampling points. *)
Theorem project_keeps_shape (fuel : nat) (atol : R) (max_iter : Z) :
  (forall m k srv r,
     rect k 2 srv ->
     project_srv fuel m srv atol max_iter = Some (Ok r) ->
     rect k 2 r)
  /\ (forall n c r,
        rect n 2 c -> (2 <= n)%nat ->
        project fuel (Euclidean 2) (Arr2 c) atol max_iter = Some (Ok r) ->
        exists c', r = Arr2 c' /\ rect n 2 c').
Proof.
  assert (Hsrv : forall m k srv r,
     rect k 2 srv ->
     project_srv fuel m srv atol max_iter = Some (Ok r) ->
     rect k 2 r).
  { intros m k srv r Hrect. unfold project_srv, project_srv_loop.
    destruct (negb (is_planar_metric m)); [discriminate|]. cbv zeta.
    destruct (while_loop fuel (newton_cond atol max_iter)
                (newton_step m (srv_norm m srv)) (newton_init m srv))
      as [[s|e]|] eqn:Hloop; try discriminate.
    cbn [option_result_map]. intros H. injection H as <-.
    eapply rect_newton_loop; [| |exact Hloop].
    - exact Hrect.
    - cbn [newton_init proj_norms]. rewrite length_map. apply Hrect. }
  split; [exact Hsrv|].
  intros n c r Hc Hn.
  assert (Hlen : length c = n) by apply Hc.
  unfold project.
  change (negb (is_planar_manifold (Euclidean 2))) with false.
  cbv iota zeta. cbn [manifold_metric].
  rewrite square_root_velocity_single by lia.
  cbn [bind]. rewrite as_tensor_3. cbn [bind].
  destruct (project_srv fuel (EuclideanMetric 2)
              (srv_of_curve (EuclideanMetric 2) c) atol max_iter)
    as [[srv_proj|e]|] eqn:Hproj; try discriminate.
  assert (Hrect : rect (n - 1) 2 srv_proj).
  { eapply Hsrv; [|exact Hproj]. apply rect_srv_of_curve. exact Hc. }
  destruct c as [|p0 rest]; [simpl in Hlen; lia|].
  assert (Hp0 : length p0 = 2%nat).
  { destruct Hc as [_ Hd]. apply Forall_cons_iff in Hd. apply Hd. }
  cbn [first_slice array_of_one bind].
  destruct srv_proj as [|row rows] eqn:Esrv.
  { destruct Hrect as [Hk _]. simpl in Hk. lia. }
  rewrite <- Esrv in *.
  assert (Hdelta :
    Forall (fun p => length p = 2%nat)
      (map (fun s => vscale (1 / INR (length srv_proj)
                             * metric_norm (EuclideanMetric 2) s []) s)
           srv_proj)).
  { apply Forall_map. eapply Forall_impl; [|apply Hrect].
    intros s Hs. cbv beta. rewrite vscale_length. exact Hs. }
  rewrite inverse_single.
  - intros H. injection H as <-. eexists. split; [reflexivity|].
    pose proof (cumsum_from_rows 2 _ p0 Hp0 Hdelta) as [Hk Hd].
    rewrite length_map in Hk.
    destruct Hrect as [Hrows _].
    split.
    + cbn [length]. unfold mat, vec in *. rewrite Hk, Hrows. lia.
    + constructor; assumption.
  - rewrite Esrv. discriminate.
  - rewrite Esrv. cbn [map cols_agree]. rewrite vscale_length.
    destruct Hrect as [_ Hd]. rewrite Esrv in Hd.
    apply Forall_cons_iff in Hd. destruct Hd as [Hrow _].
    rewrite Hrow, Hp0. reflexivity.
Qed.

Lemma project_of_triangle :
  let c := [[0; 0]; [1; 0]; [0; 1]; [0; 0]] in
  project 1 (Euclidean 2) (Arr2 c) (1 / 1000) 1000 = Some (Ok (Arr2 c)).
Proof.
  intros c.
  assert (Hc : rect 4 2 c) by (split; [reflexivity | repeat constructor]).
  unfold project.
  change (negb (is_planar_manifold (Euclidean 2))) with false.
  cbv iota zeta. cbn [manifold_metric].
  rewrite square_root_velocity_single by (simpl; lia).
  cbn [bind]. rewrite as_tensor_3. cbn [bind].
  unfold project_srv, project_srv_loop.
  change (negb (is_planar_metric (EuclideanMetric 2))) with false.
  cbv iota zeta. cbn [while_loop]. unfold newton_cond at 1.
  rewrite (criteria_of_curve 4 c Hc) by
    (try exact positive_speeds_triangle; lia).
  rewrite Rgeb_lt.
  - cbn [andb option_result_map newton_init proj].
    unfold c at 1. cbn [first_slice array_of_one bind].
    f_equal. apply (inverse_of_srv_single 2 2 c).
    + simpl. lia.
    + apply Hc.
    + exact positive_speeds_triangle.
  - unfold c, vsub, dot, zip_with. simpl.
    replace (((0 - 0) * (0 - 0) + ((0 - 0) * (0 - 0) + 0))) with 0
      by lra.
    rewrite sqrt_0. lra.
Qed.

Lemma project_keeps_shape_witness :
  let c := [[0; 0]; [1; 0]; [0; 1]; [0; 0]] in
  rect 4 2 c
  /\ project 1 (Euclidean 2) (Arr2 c) (1 / 1000) 1000 = Some (Ok (Arr2 c))
  /\ exists c', Arr2 c = Arr2 c' /\ rect 4 2 c'.
Proof.
  intros c.
  assert (Hc : rect 4 2 c) by (split; [reflexivity | repeat constructor]).
  split; [exact Hc|]. split; [exact project_of_triangle|].
  apply (proj2 (project_keeps_shape 1 (1 / 1000) 1000) 4%nat c (Arr2 c)).
  - exact Hc.
  - lia.
  - exact project_of_triangle.
Defined.

(** ** Symmetries of the square-root-velocity transform *)

Lemma tl_map_eq {A B : Type} (f : A -> B) (l : list A) :
  tl (map f l) = map f (tl l).
Proof. destruct l; reflexivity. Qed.

Lemma removelast_map_eq {A B : Type} (f : A -> B) (l : list A) :
  removelast (map f l) = map f (removelast l).
Proof.
  induction l as [|a [|b l] IH]; try reflexivity.
  change (f a :: removelast (map f (b :: l))
          = f a :: map f (removelast (b :: l))).
  f_equal. exact IH.
Qed.

Lemma zip_with_map_both {A A' B B' C : Type} (g : A' -> B' -> C)
    (f : A -> A') (h : B -> B') (x : list A) (y : list B) :
  zip_with g (map f x) (map h y) = zip_with (fun a b => g (f a) (h b)) x y.
Proof.
  unfold zip_with. revert y.
  induction x as [|a x IH]; intros [|b y]; simpl; auto.
  f_equal. apply IH.
Qed.

Lemma zip_with_ext_rows {A B C D : Type} (P : A -> Prop) (Q : B -> Prop)
    (S : D -> Prop) (k : A -> B -> D) (f g : A -> B -> C)
    (x : list A) (y : list B) :
  Forall P x -> Forall Q y -> Forall S (zip_with k x y) ->
  (forall a b, P a -> Q b -> S (k a b) -> f a b = g a b) ->
  zip_with f x y = zip_with g x y.
Proof.
  intros Hx Hy Hk Hfg. revert y Hy Hk.
  induction Hx as [|a x Ha Hx IH]; intros [|b y] Hy Hk; try reflexivity.
  rewrite !zip_with_cons in *.
  apply Forall_cons_iff in Hy. destruct Hy as [Hb Hy].
  apply Forall_cons_iff in Hk. destruct Hk as [Hab Hk].
  f_equal; [apply Hfg; assumption | apply IH; assumption].
Qed.

Lemma Forall_tl {A : Type} (P : A -> Prop) (l : list A) :
  Forall P l -> Forall P (tl l).
Proof. intros H. destruct H; [constructor | assumption]. Qed.

Lemma vsub_vadd_cancel (p q t : vec) :
  length p = length t -> length q = length t ->
  vsub (vadd p t) (vadd q t) = vsub p q.
Proof.
  unfold vsub, vadd, zip_with. revert q t.
  induction p as [|x p IH]; intros [|y q] [|z t] Hp Hq; simpl in *;
    try discriminate; auto.
  f_equal; [lra | apply IH; lia].
Qed.

Lemma vsub_vadd_l (a r : vec) :
  length a = length r -> vsub (vadd a r) a = r.
Proof.
  unfold vsub, vadd, zip_with. revert r.
  induction a as [|x a IH]; intros [|y r] H; simpl in *;
    try discriminate; auto.
  f_equal; [lra | apply IH; lia].
Qed.

Lemma vsub_vscale (a : R) (p q : vec) :
  vsub (vscale a p) (vscale a q) = vscale a (vsub p q).
Proof.
  unfold vsub, vscale, zip_with. revert q.
  induction p as [|x p IH]; intros [|y q]; simpl; auto.
  f_equal; [lra | apply IH].
Qed.

Lemma segment_translation (dim : nat) (coef : R) (p q t : vec) :
  length p = length t -> length q = length t ->
  srv_segment (EuclideanMetric dim) coef (vadd p t) (vadd q t)
  = srv_segment (EuclideanMetric dim) coef p q.
Proof.
  intros Hp Hq. unfold srv_segment, metric_norm.
  cbn [metric_log metric_inner_product].
  rewrite vsub_vadd_cancel by assumption. reflexivity.
Qed.

Lemma segment_scaling (dim : nat) (coef a : R) (p q : vec) :
  0 < coef -> 0 < a ->
  0 < sqrt (dot (vsub p q) (vsub p q)) ->
  srv_segment (EuclideanMetric dim) coef (vscale a p) (vscale a q)
  = vscale (sqrt a) (srv_segment (EuclideanMetric dim) coef p q).
Proof.
  intros Hcoef Ha Hspeed. unfold srv_segment, metric_norm.
  cbn [metric_log metric_inner_product]. cbv zeta.
  rewrite vsub_vscale.
  set (w := vsub p q) in *.
  assert (EV : vscale coef (vscale a w) = vscale a (vscale coef w)).
  { rewrite !vscale_vscale. f_equal. lra. }
  rewrite EV. set (V := vscale coef w).
  assert (Hnv : 0 < sqrt (dot V V)).
  { unfold V. rewrite norm_vscale by lra. apply Rmult_lt_0_compat; lra. }
  set (nv := sqrt (dot V V)) in *.
  rewrite norm_vscale by lra. fold nv.
  rewrite !vscale_vscale. f_equal.
  assert (Hsa : 0 < sqrt a) by (apply sqrt_lt_R0; exact Ha).
  assert (Hsn : 0 < sqrt nv) by (apply sqrt_lt_R0; exact Hnv).
  rewrite sqrt_mult by lra.
  assert (Hsq : sqrt a * sqrt a = a) by (apply sqrt_sqrt; lra).
  transitivity (1 / (sqrt a * sqrt nv) * (sqrt a * sqrt a));
    [rewrite Hsq; reflexivity|].
  field. split; lra.
Qed.

(** X4: the square-root-velocity transform of a curve in a Euclidean space
    does not see a translation of the curve: moving every sampling point by
    the same vector leaves the SRV representation unchanged. *)
Theorem square_root_velocity_translation (dim n d : nat) (c : mat)
    (t : vec) :
  rect n d c -> length t = d -> positive_speeds c ->
  let m := EuclideanMetric dim in
  square_root_velocity m (Arr2 (map (fun p => vadd p t) c))
  = square_root_velocity m (Arr2 c).
Proof.
  intros [Hn Hd] Ht Hpos m.
  destruct c as [|p0 rest] eqn:Ec; [reflexivity|]. rewrite <- Ec in *.
  assert (Hlen : (1 <= length c)%nat) by (rewrite Ec; simpl; lia).
  rewrite !square_root_velocity_single
    by (try rewrite length_map; exact Hlen).
  do 3 f_equal.
  unfold srv_of_curve, drop_first, drop_last.
  rewrite length_map, tl_map_eq, removelast_map_eq, zip_with_map_both.
  apply (zip_with_ext_rows (fun p => length p = d) (fun p => length p = d)
           (fun _ : vec => True) (fun p _ => p)).
  - apply Forall_tl. exact Hd.
  - apply Forall_removelast. exact Hd.
  - apply Forall_forall. intros; exact I.
  - intros p q Hp Hq _. apply segment_translation; congruence.
Qed.

Lemma square_root_velocity_translation_witness :
  let m := EuclideanMetric 2 in
  square_root_velocity m
    (Arr2 (map (fun p => vadd p [5; 7]) [[0; 0]; [1; 0]; [0; 1]; [0; 0]]))
  = square_root_velocity m (Arr2 [[0; 0]; [1; 0]; [0; 1]; [0; 0]]).
Proof.
  apply (square_root_velocity_translation 2 4 2
           [[0; 0]; [1; 0]; [0; 1]; [0; 0]] [5; 7]).
  - split; [reflexivity | repeat constructor].
  - reflexivity.
  - exact positive_speeds_triangle.
Defined.

(** X5: scaling a curve in a Euclidean space by a factor [a > 0] scales its
    SRV representation by [sqrt a]. *)
Theorem square_root_velocity_scaling (dim n d : nat) (c : mat) (a : R) :
  rect n d c -> (1 <= n)%nat -> positive_speeds c -> 0 < a ->
  let m := EuclideanMetric dim in
  square_root_velocity m (Arr2 c) = Ok (Arr3 [srv_of_curve m c])
  /\ square_root_velocity m (Arr2 (mscale a c))
     = Ok (Arr3 [mscale (sqrt a) (srv_of_curve m c)]).
Proof.
  intros [Hn Hd] Hn1 Hpos Ha m.
  assert (Hlen : (1 <= length c)%nat) by (rewrite Hn; exact Hn1).
  split; [apply square_root_velocity_single; exact Hlen|].
  rewrite square_root_velocity_single
    by (unfold mscale; rewrite length_map; exact Hlen).
  do 3 f_equal.
  unfold srv_of_curve, drop_first, drop_last, mscale.
  rewrite length_map, tl_map_eq, removelast_map_eq, zip_with_map_both.
  rewrite map_zip_with.
  destruct (Nat.eq_dec n 1) as [E1|Hn2].
  { destruct c as [|p0 [|p1 rest]]; simpl in Hn; try lia. reflexivity. }
  apply (zip_with_ext_Forall (fun s => 0 < s)
           (fun p q => sqrt (dot (vsub p q) (vsub p q)))).
  - exact Hpos.
  - intros p q Hs. apply segment_scaling; [|exact Ha|exact Hs].
    apply lt_0_INR. unfold mat, vec in *. lia.
Qed.

Lemma square_root_velocity_scaling_witness :
  let m := EuclideanMetric 2 in
  let c := [[0; 0]; [1; 0]; [0; 1]; [0; 0]] in
  square_root_velocity m (Arr2 c) = Ok (Arr3 [srv_of_curve m c])
  /\ square_root_velocity m (Arr2 (mscale 4 c))
     = Ok (Arr3 [mscale (sqrt 4) (srv_of_curve m c)]).
Proof.
  apply (square_root_velocity_scaling 2 4 2
           [[0; 0]; [1; 0]; [0; 1]; [0; 0]] 4).
  - split; [reflexivity | repeat constructor].
  - lia.
  - exact positive_speeds_triangle.
  - lra.
Defined.

(** ** Curves with a single sampling point *)

(** X6: a curve with a single sampling point has no segment: its SRV
    representation is empty, for any ambient metric.  The inverse transform
    divides by the number of segments and raises [ZeroDivisionError] on an
    empty representation, whatever the starting point, so the round trip
    through the two transforms does not return on such a curve. *)
Theorem single_point_curve (p : vec) :
  (forall m, square_root_velocity m (Arr2 [p]) = Ok (Arr3 [[]]))
  /\ (forall dim start,
        square_root_velocity_inverse (EuclideanMetric dim) (Arr2 [])
          (Arr2 start)
        = Raise ZeroDivisionError)
  /\ (forall dim,
        (srv <- square_root_velocity (EuclideanMetric dim) (Arr2 [p]) ;;
         square_root_velocity_inverse (EuclideanMetric dim) srv (Arr2 [p]))
        = Raise ZeroDivisionError).
Proof.
  split; [|split].
  - intros m. reflexivity.
  - intros dim start. reflexivity.
  - intros dim. reflexivity.
Qed.

(** ** The transform of a reconstructed curve *)

Lemma zip_cumsum {B : Type} (g : vec -> vec -> B) (h : vec -> B) (d : nat)
    (delta : mat) (acc : vec) :
  (forall a r, length a = d -> length r = d -> g (vadd a r) a = h r) ->
  length acc = d ->
  Forall (fun r => length r = d) delta ->
  zip_with g (cumsum_from acc delta)
    (removelast (acc :: cumsum_from acc delta))
  = map h delta.
Proof.
  intros Hg Hacc Hdelta. revert acc Hacc.
  induction Hdelta as [|r delta Hr Hdelta IH]; intros acc Hacc.
  - reflexivity.
  - cbn [cumsum_from]. cbv zeta.
    change (removelast (acc :: vadd acc r :: cumsum_from (vadd acc r) delta))
      with (acc :: removelast
                     (vadd acc r :: cumsum_from (vadd acc r) delta)).
    rewrite zip_with_cons. cbn [map]. f_equal.
    + apply Hg; assumption.
    + apply IH. rewrite vadd_length, Hacc, Hr. apply Nat.min_id.
Qed.

Lemma cumsum_from_length (delta : mat) (acc : vec) :
  length (cumsum_from acc delta) = length delta.
Proof.
  revert acc. induction delta as [|r delta IH]; intros acc; [reflexivity|].
  cbn [cumsum_from]. cbv zeta. cbn [length]. f_equal. apply IH.
Qed.

Lemma segment_of_delta (dim : nat) (k : R) (a s : vec) :
  0 < k -> 0 < dot s s ->
  length a = length s ->
  let m := EuclideanMetric dim in
  srv_segment m k (vadd a (vscale (1 / k * metric_norm m s []) s)) a = s.
Proof.
  intros Hk Hs Hlen m.
  unfold srv_segment. subst m. unfold metric_norm.
  cbn [metric_log metric_inner_product]. cbv zeta.
  rewrite vsub_vadd_l by (rewrite vscale_length; exact Hlen).
  set (nrm := sqrt (dot s s)).
  assert (Hn : 0 < nrm) by (apply sqrt_lt_R0; exact Hs).
  assert (Hv : vscale k (vscale (1 / k * nrm) s) = vscale nrm s).
  { rewrite vscale_vscale. f_equal. field. lra. }
  rewrite Hv.
  assert (Hnorm : sqrt (dot (vscale nrm s) (vscale nrm s)) = nrm * nrm).
  { rewrite norm_vscale by lra. reflexivity. }
  rewrite Hnorm, sqrt_square by lra.
  rewrite vscale_vscale.
  replace (1 / nrm * nrm) with 1 by (field; lra).
  apply vscale_one.
Qed.

Lemma srv_of_rebuilt (dim k d : nat) (q : mat) (p0 : vec) :
  rect k d q -> (1 <= k)%nat -> length p0 = d ->
  Forall (fun s => 0 < dot s s) q ->
  let m := EuclideanMetric dim in
  let delta := map (fun s => vscale (1 / INR k * metric_norm m s []) s) q in
  srv_of_curve m (p0 :: cumsum_from p0 delta) = q.
Proof.
  intros [Hk Hd] Hk1 Hp0 Hq m delta.
  unfold srv_of_curve, drop_first, drop_last. cbn [tl length].
  replace (S (length (cumsum_from p0 delta)) - 1)%nat with k
    by (rewrite cumsum_from_length; unfold delta; rewrite length_map;
        unfold mat, vec in *; lia).
  assert (Hdelta : Forall (fun r => length r = d) delta).
  { unfold delta. apply Forall_map. eapply Forall_impl; [|exact Hd].
    intros s Hs. cbv beta. rewrite vscale_length. exact Hs. }
  rewrite (zip_cumsum _ (fun r => srv_segment m (INR k) (vadd p0 r) p0) d).
  - unfold delta. rewrite map_map.
    transitivity (map (fun s : vec => s) q); [|apply map_id].
    apply map_ext_Forall.
    assert (Hboth : Forall (fun s => length s = d /\ 0 < dot s s) q).
    { apply Forall_forall. intros s Hin. split.
      - eapply Forall_forall in Hd; [exact Hd | exact Hin].
      - eapply Forall_forall in Hq; [exact Hq | exact Hin]. }
    eapply Forall_impl; [|exact Hboth].
    intros s [Hs Hpos]. cbv beta.
    apply (segment_of_delta dim (INR k) p0 s).
    + apply lt_0_INR. lia.
    + exact Hpos.
    + congruence.
  - intros a r Ha Hr. unfold srv_segment, metric_norm.
    subst m. cbn [metric_log metric_inner_product].
    rewrite !vsub_vadd_l by congruence. reflexivity.
  - exact Hp0.
  - exact Hdelta.
Qed.

(** X7: the other round trip.  For an SRV representation without zero rows
    and any starting point of the same dimension, the transform of the curve
    rebuilt by the inverse transform is the representation again. *)
Theorem inverse_then_square_root_velocity (dim k d : nat) (q : mat)
    (p0 : vec) :
  rect k d q -> (1 <= k)%nat -> length p0 = d ->
  Forall (fun s => 0 < dot s s) q ->
  let m := EuclideanMetric dim in
  (curve <- square_root_velocity_inverse m (Arr2 q) (Arr2 [p0]) ;;
   square_root_velocity m curve) = Ok (Arr3 [q]).
Proof.
  intros Hq Hk1 Hp0 Hnz m. subst m.
  set (m := EuclideanMetric dim).
  assert (Hk : length q = k) by apply Hq.
  destruct q as [|s0 q'] eqn:Eq; [simpl in Hk; lia|]. rewrite <- Eq in *.
  assert (Hs0 : length s0 = d).
  { destruct Hq as [_ Hd]. rewrite Eq in Hd.
    apply Forall_cons_iff in Hd. apply Hd. }
  unfold m. rewrite inverse_single.
  - cbn [bind]. fold m.
    rewrite square_root_velocity_single by (simpl; lia).
    do 3 f_equal. rewrite Hk.
    apply (srv_of_rebuilt dim k d); assumption.
  - rewrite Eq. discriminate.
  - rewrite Eq. cbn [map cols_agree]. rewrite vscale_length.
    rewrite Hs0, Hp0. apply Nat.eqb_refl.
Qed.

Lemma inverse_then_square_root_velocity_witness :
  let m := EuclideanMetric 2 in
  (curve <- square_root_velocity_inverse m (Arr2 [[1; 0]; [0; 2]])
              (Arr2 [[5; 7]]) ;;
   square_root_velocity m curve) = Ok (Arr3 [[[1; 0]; [0; 2]]]).
Proof.
  apply (inverse_then_square_root_velocity 2 2 2 [[1; 0]; [0; 2]] [5; 7]).
  - split; [reflexivity | repeat constructor].
  - lia.
  - reflexivity.
  - repeat (apply Forall_cons; [unfold dot, zip_with; simpl; lra|]).
    apply Forall_nil.
Defined.

(** ** The distance is a metric on curves of positive speed *)

Lemma rsum_app (l1 l2 : list R) : rsum (l1 ++ l2) = rsum l1 + rsum l2.
Proof.
  unfold rsum. induction l1 as [|x l1 IH]; simpl; [lra|].
  rewrite IH. lra.
Qed.

Lemma dot_app (a a' b b' : vec) :
  length a = length b ->
  dot (a ++ a') (b ++ b') = dot a b + dot a' b'.
Proof.
  intros H. unfold dot. rewrite zip_with_app by exact H. apply rsum_app.
Qed.

Lemma dot_cons (x y : R) (u v : vec) :
  dot (x :: u) (y :: v) = x * y + dot u v.
Proof. reflexivity. Qed.

Lemma dot_vsub_swap (p q : vec) :
  dot (vsub p q) (vsub p q) = dot (vsub q p) (vsub q p).
Proof.
  unfold vsub, zip_with. revert q.
  induction p as [|x p IH]; intros [|y q]; cbn [combine map fst snd];
    try reflexivity.
  rewrite !dot_cons, IH. ring.
Qed.

Lemma l2_inner_cons (m : ambient_metric) (u v : vec) (a b : mat) :
  l2_inner_product m (u :: a) (v :: b)
  = metric_inner_product m u v [] + l2_inner_product m a b.
Proof. reflexivity. Qed.

Lemma l2_log_swap (dim : nat) (a b : mat) :
  let m := EuclideanMetric dim in
  l2_inner_product m (l2_log m b a) (l2_log m b a)
  = l2_inner_product m (l2_log m a b) (l2_log m a b).
Proof.
  intros m. unfold l2_log, zip_with. revert b.
  induction a as [|p a IH]; intros [|q b]; cbn [combine map fst snd];
    try reflexivity.
  rewrite !l2_inner_cons, IH. f_equal.
  subst m. cbn [metric_inner_product metric_log]. apply dot_vsub_swap.
Qed.

Lemma list_eqb_sym (l1 l2 : list nat) : list_eqb l1 l2 = list_eqb l2 l1.
Proof.
  unfold list_eqb.
  destruct (list_eq_dec Nat.eq_dec l1 l2) as [E|NE];
    destruct (list_eq_dec Nat.eq_dec l2 l1) as [E'|NE']; try reflexivity.
  - exfalso. apply NE'. symmetry. exact E.
  - exfalso. apply NE. symmetry. exact E'.
Qed.

Lemma dist_value (dim : nat) (a b : mat) :
  let m := EuclideanMetric dim in
  shape (Arr2 a) = shape (Arr2 b) ->
  (1 <= length a)%nat ->
  dist m (Arr2 a) (Arr2 b)
  = Ok [sqrt (metric_dist m (hd [] a) (hd [] b) ^ 2
              + l2_dist m (srv_of_curve m a) (srv_of_curve m b) ^ 2)].
Proof.
  intros m Hshape Ha.
  assert (Hb : (1 <= length b)%nat).
  { simpl in Hshape. injection Hshape as Hlen _. lia. }
  unfold dist.
  change (negb (is_euclidean m)) with false. cbv iota.
  apply list_eqb_true in Hshape. rewrite Hshape. cbn [negb].
  rewrite !square_root_velocity_single by assumption.
  cbn [bind]. rewrite as_tensor_3. cbn [bind].
  rewrite as_tensor_3. cbn [bind].
  destruct a as [|p a]; [simpl in Ha; lia|].
  destruct b as [|q b]; [simpl in Hb; lia|].
  cbn [first_slice bind slice_dist zip_with combine map fst snd].
  unfold broadcast. cbn [length Nat.eqb zip_with combine map fst snd hd].
  reflexivity.
Qed.

Lemma l2_inner_concat (dim : nat) (x : mat) :
  l2_inner_product (EuclideanMetric dim) x x = dot (concat x) (concat x).
Proof.
  induction x as [|r x IH]; [reflexivity|].
  rewrite l2_inner_cons, IH. cbn [concat metric_inner_product].
  symmetry. apply dot_app. reflexivity.
Qed.

(** The displacement between two curves in the coordinates in which [dist]
    is a Euclidean norm: the difference of the starting points followed by
    the differences of the rows of the SRV representations. *)
Lemma dist_as_norm (dim : nat) (a b : mat) :
  let m := EuclideanMetric dim in
  shape (Arr2 a) = shape (Arr2 b) ->
  (1 <= length a)%nat ->
  let x := vsub (hd [] b) (hd [] a)
           ++ concat (msub (srv_of_curve m b) (srv_of_curve m a)) in
  dist m (Arr2 a) (Arr2 b) = Ok [sqrt (dot x x)].
Proof.
  intros m Hshape Ha x. subst x m.
  rewrite (dist_value dim a b Hshape Ha).
  do 3 f_equal.
  rewrite dot_app by reflexivity.
  unfold metric_dist, metric_norm, l2_dist, l2_norm.
  cbn [metric_inner_product metric_log].
  rewrite pow2_sqrt_dot. f_equal.
  rewrite <- (l2_inner_concat dim).
  simpl. rewrite Rmult_1_r. apply sqrt_sqrt. apply l2_inner_self_nonneg.
Qed.

Lemma shape_of_rect (n d : nat) (a : mat) :
  rect n d a -> (1 <= n)%nat -> shape (Arr2 a) = [n; d].
Proof.
  intros [Hn Hd] H1. cbn [shape]. rewrite Hn.
  destruct a as [|p a]; [simpl in Hn; lia|].
  apply Forall_cons_iff in Hd. destruct Hd as [Hp _].
  cbn [hd]. rewrite Hp. reflexivity.
Qed.

(** X8: [dist] is symmetric on single curves of positive speed in a
    Euclidean space, whether it returns a distance or raises for mismatched
    shapes. *)
Theorem dist_symmetric (dim : nat) (a b : mat) :
  positive_speeds a -> positive_speeds b ->
  let m := EuclideanMetric dim in
  dist m (Arr2 a) (Arr2 b) = dist m (Arr2 b) (Arr2 a).
Proof.
  intros _ _ m. subst m.
  destruct (list_eq_dec Nat.eq_dec (shape (Arr2 a)) (shape (Arr2 b)))
    as [E|NE].
  - destruct a as [|p a'] eqn:Ea.
    { destruct b as [|q b']; [reflexivity|]. simpl in E. discriminate. }
    rewrite <- Ea in *.
    assert (Ha : (1 <= length a)%nat) by (rewrite Ea; simpl; lia).
    assert (Hb : (1 <= length b)%nat).
    { simpl in E. injection E as Hlen _. lia. }
    rewrite (dist_value dim a b E Ha).
    rewrite (dist_value dim b a (eq_sym E) Hb).
    do 3 f_equal.
    unfold metric_dist, metric_norm, l2_dist, l2_norm.
    cbn [metric_inner_product metric_log].
    rewrite (dot_vsub_swap (hd [] b) (hd [] a)).
    pose proof (l2_log_swap dim (srv_of_curve (EuclideanMetric dim) a)
                  (srv_of_curve (EuclideanMetric dim) b)) as Hswap.
    cbv zeta in Hswap. rewrite Hswap. reflexivity.
  - unfold dist. cbn [is_euclidean negb].
    rewrite (list_eqb_sym (shape (Arr2 b))).
    apply list_eqb_false in NE. rewrite NE. reflexivity.
Qed.

Lemma positive_speeds_bend : positive_speeds [[0; 1]; [1; 1]; [1; 3]].
Proof.
  unfold positive_speeds, segment_speeds, zip_with, dot, vsub, zip_with.
  simpl. repeat constructor; apply sqrt_lt_R0; lra.
Qed.

Lemma positive_speeds_line : positive_speeds [[0; 0]; [1; 0]; [2; 0]].
Proof.
  unfold positive_speeds, segment_speeds, zip_with, dot, vsub, zip_with.
  simpl. repeat constructor; apply sqrt_lt_R0; lra.
Qed.

Lemma dist_symmetric_witness :
  let m := EuclideanMetric 2 in
  dist m (Arr2 [[0; 0]; [1; 0]; [2; 0]]) (Arr2 [[0; 1]; [1; 1]; [1; 3]])
  = dist m (Arr2 [[0; 1]; [1; 1]; [1; 3]]) (Arr2 [[0; 0]; [1; 0]; [2; 0]]).
Proof.
  apply (dist_symmetric 2 [[0; 0]; [1; 0]; [2; 0]]
           [[0; 1]; [1; 1]; [1; 3]]).
  - exact positive_speeds_line.
  - exact positive_speeds_bend.
Defined.

Lemma rows_equal_of_zero (d : nat) (x y : mat) :
  length x = length y ->
  Forall (fun r => length r = d) x ->
  Forall (fun r => length r = d) y ->
  dot (concat (msub y x)) (concat (msub y x)) = 0 ->
  x = y.
Proof.
  intros Hlen Hx. revert y Hlen.
  induction Hx as [|r x Hr Hx IH]; intros [|s y] Hlen Hy H0;
    simpl in Hlen; try discriminate; [reflexivity|].
  apply Forall_cons_iff in Hy. destruct Hy as [Hs Hy].
  unfold msub in H0. rewrite zip_with_cons in H0. cbn [concat] in H0.
  rewrite dot_app in H0 by reflexivity.
  pose proof (dot_self_nonneg (vsub s r)) as H1.
  pose proof (dot_self_nonneg (concat (zip_with vsub y x))) as H2.
  f_equal.
  - symmetry. apply vsub_all_zero; [congruence|].
    apply dot_zero_all_zero. lra.
  - apply IH; [lia | exact Hy|]. unfold msub. lra.
Qed.

Lemma dot_zeros_app (d : nat) (x : mat) :
  dot (concat (msub x x)) (concat (msub x x)) = 0.
Proof.
  induction x as [|r x IH]; [unfold dot, zip_with; reflexivity|].
  unfold msub in *. rewrite zip_with_cons. cbn [concat].
  rewrite dot_app by reflexivity. rewrite IH.
  rewrite vsub_self, (all_zero_dot _ (all_zero_repeat _)). lra.
Qed.

(** X9: [dist] separates curves.  For two curves of the same shape, with at
    least two sampling points and positive segment speeds, in a Euclidean
    space, the distance is zero exactly when the curves are equal. *)
Theorem dist_zero_iff_equal (dim n d : nat) (a b : mat) :
  rect n d a -> rect n d b -> (2 <= n)%nat ->
  positive_speeds a -> positive_speeds b ->
  let m := EuclideanMetric dim in
  dist m (Arr2 a) (Arr2 b) = Ok [0] <-> a = b.
Proof.
  intros Ha Hb Hn Hpa Hpb m. subst m. set (m := EuclideanMetric dim).
  assert (Hshape : shape (Arr2 a) = shape (Arr2 b)).
  { rewrite (shape_of_rect n d a), (shape_of_rect n d b);
      try assumption; try lia. reflexivity. }
  assert (Hla : length a = n) by apply Ha.
  assert (Hlb : length b = n) by apply Hb.
  unfold m at 1. rewrite (dist_as_norm dim a b Hshape) by lia.
  cbv zeta. fold m.
  split.
  - intros H. injection H as H.
    apply sqrt_eq_0 in H; [|apply dot_self_nonneg].
    rewrite dot_app in H by reflexivity.
    pose proof (dot_self_nonneg (vsub (hd [] b) (hd [] a))) as H1.
    pose proof (dot_self_nonneg
                  (concat (msub (srv_of_curve m b) (srv_of_curve m a))))
      as H2.
    assert (Hhd : hd [] a = hd [] b).
    { assert (Hlen : length (hd [] b) = length (hd [] a)).
      { destruct a as [|p a']; [simpl in Hla; lia|].
        destruct b as [|q b']; [simpl in Hlb; lia|].
        destruct Ha as [_ Hda]. destruct Hb as [_ Hdb].
        apply Forall_cons_iff in Hda. apply Forall_cons_iff in Hdb.
        cbn [hd]. destruct Hda as [-> _]. destruct Hdb as [-> _].
        reflexivity. }
      symmetry. apply (vsub_all_zero _ _ Hlen).
      apply dot_zero_all_zero. lra. }
    assert (Hsrv : srv_of_curve m a = srv_of_curve m b).
    { pose proof (rect_srv_of_curve dim n d a Ha) as [Hka Hda].
      pose proof (rect_srv_of_curve dim n d b Hb) as [Hkb Hdb].
      apply (rows_equal_of_zero d); try assumption.
      - unfold m. congruence.
      - lra. }
    assert (H2a : (2 <= length a)%nat) by lia.
    assert (H2b : (2 <= length b)%nat) by lia.
    pose proof (inverse_of_srv_single dim d a H2a (proj2 Ha) Hpa) as Ia.
    pose proof (inverse_of_srv_single dim d b H2b (proj2 Hb) Hpb) as Ib.
    cbv zeta in Ia, Ib. fold m in Ia, Ib.
    rewrite Hsrv, Hhd in Ia.
    rewrite Ia in Ib.
    injection Ib as Hab. exact Hab.
  - intros <-. do 2 f_equal.
    rewrite dot_app by reflexivity.
    rewrite (dot_zeros_app d).
    rewrite vsub_self, (all_zero_dot _ (all_zero_repeat _)).
    rewrite Rplus_0_r. apply sqrt_0.
Qed.

Lemma dist_zero_iff_equal_witness :
  let m := EuclideanMetric 2 in
  dist m (Arr2 [[0; 0]; [1; 0]; [2; 0]]) (Arr2 [[0; 1]; [1; 1]; [1; 3]])
  = Ok [0]
  <-> [[0; 0]; [1; 0]; [2; 0]] = [[0; 1]; [1; 1]; [1; 3]].
Proof.
  apply (dist_zero_iff_equal 2 3 2 [[0; 0]; [1; 0]; [2; 0]]
           [[0; 1]; [1; 1]; [1; 3]]).
  - split; [reflexivity | repeat constructor].
  - split; [reflexivity | repeat constructor].
  - lia.
  - exact positive_speeds_line.
  - exact positive_speeds_bend.
Defined.

(** *** The triangle inequality *)

Lemma dot_vadd_self (x y : vec) :
  length x = length y ->
  dot (vadd x y) (vadd x y) = dot x x + 2 * dot x y + dot y y.
Proof.
  unfold vadd, zip_with. revert y.
  induction x as [|a x IH]; intros [|b y] H; simpl in H; try discriminate.
  - unfold dot, zip_with. simpl. lra.
  - cbn [combine map fst snd]. rewrite !dot_cons, IH by lia. ring.
Qed.

Lemma minkowski (x y : vec) :
  length x = length y ->
  sqrt (dot (vadd x y) (vadd x y)) <= sqrt (dot x x) + sqrt (dot y y).
Proof.
  intros H. rewrite dot_vadd_self by exact H.
  pose proof (dot_self_nonneg x) as Hx.
  pose proof (dot_self_nonneg y) as Hy.
  pose proof (cauchy_schwarz x y) as Hcs.
  set (X := dot x x) in *. set (Y := dot y y) in *. set (C := dot x y) in *.
  pose proof (sqrt_pos X) as HsX. pose proof (sqrt_pos Y) as HsY.
  assert (EX : sqrt X * sqrt X = X) by (apply sqrt_sqrt; exact Hx).
  assert (EY : sqrt Y * sqrt Y = Y) by (apply sqrt_sqrt; exact Hy).
  assert (HC : C <= sqrt X * sqrt Y).
  { destruct (Rle_lt_dec C (sqrt X * sqrt Y)) as [Hle|Hgt]; [exact Hle|].
    exfalso.
    assert (Hp : 0 <= sqrt X * sqrt Y) by (apply Rmult_le_pos; assumption).
    assert (Hsq : (sqrt X * sqrt Y) * (sqrt X * sqrt Y) < C * C)
      by (apply Rmult_le_0_lt_compat; assumption).
    replace ((sqrt X * sqrt Y) * (sqrt X * sqrt Y))
      with ((sqrt X * sqrt X) * (sqrt Y * sqrt Y)) in Hsq by ring.
    rewrite EX, EY in Hsq. lra. }
  rewrite <- (sqrt_square (sqrt X + sqrt Y)) by lra.
  apply sqrt_le_1_alt.
  replace ((sqrt X + sqrt Y) * (sqrt X + sqrt Y))
    with (sqrt X * sqrt X + 2 * (sqrt X * sqrt Y) + sqrt Y * sqrt Y)
    by ring.
  rewrite EX, EY. lra.
Qed.

Lemma vadd_app (u u' v v' : vec) :
  length u = length v ->
  vadd (u ++ u') (v ++ v') = vadd u v ++ vadd u' v'.
Proof. intros H. unfold vadd. apply zip_with_app. exact H. Qed.

Lemma concat_chain (d : nat) (x y z : mat) :
  length x = length y -> length y = length z ->
  Forall (fun r => length r = d) x ->
  Forall (fun r => length r = d) y ->
  Forall (fun r => length r = d) z ->
  concat (msub z x)
  = vadd (concat (msub y x)) (concat (msub z y))
  /\ length (concat (msub y x)) = length (concat (msub z y)).
Proof.
  intros Hxy Hyz Hx. revert y z Hxy Hyz.
  induction Hx as [|r x Hr Hx IH]; intros [|s y] [|t z] Hxy Hyz Hy Hz;
    simpl in Hxy, Hyz; try discriminate.
  - split; reflexivity.
  - apply Forall_cons_iff in Hy. destruct Hy as [Hs Hy].
    apply Forall_cons_iff in Hz. destruct Hz as [Ht Hz].
    destruct (IH y z) as [E L]; try assumption; try lia.
    unfold msub in *. rewrite !zip_with_cons. cbn [concat].
    assert (Hl : length (vsub s r) = length (vsub t s)).
    { rewrite !vsub_length. congruence. }
    split.
    + rewrite vadd_app by exact Hl. f_equal; [|exact E].
      symmetry. apply vadd_vsub_chain; congruence.
    + rewrite !length_app. congruence.
Qed.

(** X10: [dist] satisfies the triangle inequality.  For three curves of the
    same shape with positive segment speeds in a Euclidean space, the
    distance from the first to the third is at most the sum of the distances
    through the second. *)
Theorem dist_triangle (dim n d : nat) (a b c : mat) :
  rect n d a -> rect n d b -> rect n d c -> (1 <= n)%nat ->
  positive_speeds a -> positive_speeds b -> positive_speeds c ->
  let m := EuclideanMetric dim in
  exists ab bc ac,
    dist m (Arr2 a) (Arr2 b) = Ok [ab]
    /\ dist m (Arr2 b) (Arr2 c) = Ok [bc]
    /\ dist m (Arr2 a) (Arr2 c) = Ok [ac]
    /\ ac <= ab + bc.
Proof.
  intros Ha Hb Hc Hn _ _ _ m. subst m.
  assert (Sa : shape (Arr2 a) = [n; d]) by (apply shape_of_rect; assumption).
  assert (Sb : shape (Arr2 b) = [n; d]) by (apply shape_of_rect; assumption).
  assert (Sc : shape (Arr2 c) = [n; d]) by (apply shape_of_rect; assumption).
  assert (Hla : length a = n) by apply Ha.
  assert (Hlb : length b = n) by apply Hb.
  assert (Hlc : length c = n) by apply Hc.
  rewrite (dist_as_norm dim a b) by (try congruence; lia).
  rewrite (dist_as_norm dim b c) by (try congruence; lia).
  rewrite (dist_as_norm dim a c) by (try congruence; lia).
  cbv zeta. set (m := EuclideanMetric dim).
  do 3 eexists. repeat split; try reflexivity.
  pose proof (hd_rect n d a Ha Hn) as Hha.
  pose proof (hd_rect n d b Hb Hn) as Hhb.
  pose proof (hd_rect n d c Hc Hn) as Hhc.
  pose proof (rect_srv_of_curve dim n d a Ha) as [Hka Hda].
  pose proof (rect_srv_of_curve dim n d b Hb) as [Hkb Hdb].
  pose proof (rect_srv_of_curve dim n d c Hc) as [Hkc Hdc].
  fold m in Hka, Hkb, Hkc, Hda, Hdb, Hdc.
  destruct (concat_chain d (srv_of_curve m a) (srv_of_curve m b)
              (srv_of_curve m c)) as [E L]; try assumption;
    try congruence.
  assert (Hl0 : length (vsub (hd [] b) (hd [] a))
                = length (vsub (hd [] c) (hd [] b))).
  { rewrite !vsub_length. congruence. }
  rewrite E.
  rewrite <- (vadd_vsub_chain (hd [] a) (hd [] b) (hd [] c))
    by congruence.
  rewrite <- vadd_app by exact Hl0.
  apply minkowski. rewrite !length_app. congruence.
Qed.

Lemma dist_triangle_witness :
  let m := EuclideanMetric 2 in
  exists ab bc ac,
    dist m (Arr2 [[0; 0]; [1; 0]; [2; 0]]) (Arr2 [[0; 1]; [1; 1]; [1; 3]])
    = Ok [ab]
    /\ dist m (Arr2 [[0; 1]; [1; 1]; [1; 3]])
         (Arr2 [[0; 0]; [1; 0]; [0; 1]]) = Ok [bc]
    /\ dist m (Arr2 [[0; 0]; [1; 0]; [2; 0]])
         (Arr2 [[0; 0]; [1; 0]; [0; 1]]) = Ok [ac]
    /\ ac <= ab + bc.
Proof.
  apply (dist_triangle 2 3 2 [[0; 0]; [1; 0]; [2; 0]]
           [[0; 1]; [1; 1]; [1; 3]] [[0; 0]; [1; 0]; [0; 1]]).
  - split; [reflexivity | repeat constructor].
  - split; [reflexivity | repeat constructor].
  - split; [reflexivity | repeat constructor].
  - lia.
  - exact positive_speeds_line.
  - exact positive_speeds_bend.
  - unfold positive_speeds, segment_speeds, zip_with, dot, vsub, zip_with.
    simpl. repeat constructor; apply sqrt_lt_R0; lra.
Defined.

(** ** The inner product of tangent vectors *)

Lemma l2_inner_comm (dim : nat) (a b : mat) :
  l2_inner_product (EuclideanMetric dim) a b
  = l2_inner_product (EuclideanMetric dim) b a.
Proof.
  revert b. induction a as [|u a IH]; intros [|v b]; try reflexivity.
  rewrite !l2_inner_cons, IH. cbn [metric_inner_product].
  rewrite dot_comm. reflexivity.
Qed.

Lemma d_square_root_velocity_ok (dim : nat) (tangent_vec curve : mat) :
  exists d_srv_vec,
    d_square_root_velocity (EuclideanMetric dim) tangent_vec curve
    = Ok d_srv_vec.
Proof. unfold d_square_root_velocity. cbn [is_euclidean negb]. eauto. Qed.

(** X11: in a Euclidean space [inner_product] is symmetric in its two
    tangent vectors, and the inner product of a tangent vector with itself
    is not negative.  The tangent vectors have the shape of the curve. *)
Theorem inner_product_symmetric_nonneg (dim n d : nat) (u v c : mat) :
  rect n d u -> rect n d v -> rect n d c ->
  (1 <= n)%nat -> positive_speeds c ->
  let m := EuclideanMetric dim in
  inner_product m u v c = inner_product m v u c
  /\ exists x, inner_product m v v c = Ok x /\ 0 <= x.
Proof.
  intros _ _ [Hc _] Hn _ m. subst m. unfold inner_product.
  cbn [is_euclidean negb].
  destruct (d_square_root_velocity_ok dim u c) as [du ->].
  destruct (d_square_root_velocity_ok dim v c) as [dv ->].
  cbn [bind]. split.
  - rewrite l2_inner_comm. reflexivity.
  - eexists. split; [reflexivity|].
    apply Rle_mult_inv_pos; [apply l2_inner_self_nonneg|].
    apply lt_0_INR. unfold mat, vec in *. lia.
Qed.

Lemma inner_product_symmetric_nonneg_witness :
  let m := EuclideanMetric 2 in
  let c := [[0; 0]; [1; 0]; [2; 0]] in
  let u := [[0; 1]; [0; 2]; [0; 0]] in
  let v := [[1; 1]; [0; 0]; [3; 0]] in
  inner_product m u v c = inner_product m v u c
  /\ exists x, inner_product m v v c = Ok x /\ 0 <= x.
Proof.
  apply (inner_product_symmetric_nonneg 2 3 2 [[0; 1]; [0; 2]; [0; 0]]
           [[1; 1]; [0; 0]; [3; 0]] [[0; 0]; [1; 0]; [2; 0]]).
  - split; [reflexivity | repeat constructor].
  - split; [reflexivity | repeat constructor].
  - split; [reflexivity | repeat constructor].
  - lia.
  - exact positive_speeds_line.
Defined.

(** *** Constant fields *)

Lemma all_zero_dot_l (u v : vec) : all_zero u -> dot u v = 0.
Proof.
  unfold all_zero. intros Hu. revert v.
  induction Hu as [|x u Hx Hu IH]; intros [|y v]; try reflexivity.
  rewrite dot_cons, IH, Hx. lra.
Qed.

Lemma all_zero_vscale (a : R) (v : vec) : all_zero v -> all_zero (vscale a v).
Proof.
  unfold all_zero, vscale. intros H. apply Forall_map.
  eapply Forall_impl; [|exact H]. intros x ->. lra.
Qed.

Lemma all_zero_vsub (u v : vec) :
  all_zero u -> all_zero v -> all_zero (vsub u v).
Proof.
  unfold all_zero, vsub, zip_with. intros Hu. revert v.
  induction Hu as [|x u Hx Hu IH]; intros v Hv; [constructor|].
  destruct Hv as [|y v Hy Hv]; [constructor|].
  simpl. constructor; [lra | apply IH; exact Hv].
Qed.

Lemma l2_inner_zero_rows (dim : nat) (a b : mat) :
  Forall all_zero a -> l2_inner_product (EuclideanMetric dim) a b = 0.
Proof.
  intros Ha. revert b.
  induction Ha as [|u a Hu Ha IH]; intros [|v b]; try reflexivity.
  rewrite l2_inner_cons, IH. cbn [metric_inner_product].
  rewrite (all_zero_dot_l u v Hu). lra.
Qed.

Lemma tl_repeat {A : Type} (t : A) (n : nat) :
  tl (repeat t n) = repeat t (n - 1).
Proof. destruct n; simpl; [reflexivity|]. rewrite Nat.sub_0_r. reflexivity. Qed.

Lemma removelast_repeat {A : Type} (t : A) (n : nat) :
  removelast (repeat t n) = repeat t (n - 1).
Proof.
  induction n as [|[|n] IH]; try reflexivity.
  change (repeat t (S (S n))) with (t :: repeat t (S n)).
  change (removelast (t :: repeat t (S n)))
    with (t :: removelast (repeat t (S n))).
  rewrite IH. simpl. rewrite Nat.sub_0_r. reflexivity.
Qed.

Lemma Forall_repeat {A : Type} (P : A -> Prop) (t : A) (n : nat) :
  P t -> Forall P (repeat t n).
Proof.
  intros H. apply Forall_forall. intros x Hx.
  apply repeat_spec in Hx. subst x. exact H.
Qed.

Lemma d_square_root_velocity_of_constant (dim n : nat) (t : vec)
    (c d_srv_vec : mat) :
  d_square_root_velocity (EuclideanMetric dim) (repeat t n) c = Ok d_srv_vec ->
  Forall all_zero d_srv_vec.
Proof.
  unfold d_square_root_velocity. cbn [is_euclidean negb]. cbv zeta.
  intros H. injection H as <-.
  assert (Hd : Forall all_zero
                 (mscale (INR (length c))
                    (msub (drop_first (repeat t n))
                          (drop_last (repeat t n))))).
  { unfold drop_first, drop_last.
    rewrite tl_repeat, removelast_repeat.
    unfold mscale. apply Forall_map.
    apply (Forall_zip_with_both (fun p => p = t) (fun p => p = t)).
    - apply Forall_repeat. reflexivity.
    - apply Forall_repeat. reflexivity.
    - intros a b -> ->. apply all_zero_vscale.
      rewrite vsub_self. apply all_zero_repeat. }
  revert Hd.
  generalize (mscale (INR (length c))
                (msub (drop_first (repeat t n)) (drop_last (repeat t n)))).
  intros d_vec Hd.
  apply (Forall_zip_with_l all_zero).
  - unfold msub. apply (Forall_zip_with_both all_zero all_zero).
    + exact Hd.
    + unfold mscale. apply Forall_map.
      apply (Forall_zip_with_r all_zero); [exact Hd|].
      intros u dv Hdv. cbv beta. apply all_zero_vscale.
      rewrite (all_zero_dot_l dv u Hdv). apply all_zero_vscale_zero.
    + intros a b. apply all_zero_vsub.
  - intros a b. apply all_zero_vscale.
Qed.

(** X12: the inner product does not see translations.  A constant field,
    the same vector at every sampling point, has a vanishing differential of
    the transform, so its [inner_product] with any tangent vector is zero:
    on the tangent vectors themselves the inner product is degenerate. *)
Theorem inner_product_of_constant_field (dim n d : nat) (t : vec)
    (v c : mat) :
  rect n d v -> rect n d c -> length t = d ->
  (1 <= n)%nat -> positive_speeds c ->
  let m := EuclideanMetric dim in
  inner_product m (repeat t n) v c = Ok 0
  /\ inner_product m v (repeat t n) c = Ok 0.
Proof.
  intros _ _ _ _ _ m. subst m. unfold inner_product.
  cbn [is_euclidean negb].
  destruct (d_square_root_velocity_ok dim (repeat t n) c) as [dt Ht].
  destruct (d_square_root_velocity_ok dim v c) as [dv Hv].
  rewrite Ht, Hv. cbn [bind].
  apply d_square_root_velocity_of_constant in Ht.
  split.
  - rewrite (l2_inner_zero_rows dim dt dv Ht). f_equal. unfold Rdiv. ring.
  - rewrite l2_inner_comm, (l2_inner_zero_rows dim dt dv Ht).
    f_equal. unfold Rdiv. ring.
Qed.

Lemma inner_product_of_constant_field_witness :
  let m := EuclideanMetric 2 in
  let c := [[0; 0]; [1; 0]; [2; 0]] in
  let v := [[1; 1]; [0; 0]; [3; 0]] in
  inner_product m (repeat [5; 7] 3) v c = Ok 0
  /\ inner_product m v (repeat [5; 7] 3) c = Ok 0.
Proof.
  apply (inner_product_of_constant_field 2 3 2 [5; 7]
           [[1; 1]; [0; 0]; [3; 0]] [[0; 0]; [1; 0]; [2; 0]]).
  - split; [reflexivity | repeat constructor].
  - split; [reflexivity | repeat constructor].
  - reflexivity.
  - lia.
  - exact positive_speeds_line.
Defined.

(** ** Exponential and logarithm are inverse to each other *)

Lemma srv_of_curve_rows (dim : nat) (c : mat) :
  srv_of_curve (EuclideanMetric dim) c = map srv_row (velocities c).
Proof.
  unfold srv_of_curve, velocities, differences, msub, mscale, drop_first,
    drop_last.
  rewrite !map_zip_with. reflexivity.
Qed.

Lemma zip_with_single {A B C : Type} (f : A -> B -> C) (a : A) (b : B) :
  zip_with f [a] [b] = [f a b].
Proof. reflexivity. Qed.

Lemma exp_rows (dim : nat) (D V H : mat) :
  length D = length V -> length H = length V ->
  let m := EuclideanMetric dim in
  l2_exp m
    (madd
       (zip_with vscale
          (map (fun nv => 1 / sqrt nv) (norms_along m V H)) D)
       (zip_with vscale
          (zip_with (fun nv ip => - 1 / (2 * sqrt nv ^ 5) * ip)
             (norms_along m V H) (inner_products_along m D V H))
          V))
    (map srv_row V)
  = zip_with exp_row D V.
Proof.
  intros HD HH m. subst m.
  unfold l2_exp, madd, norms_along, inner_products_along.
  revert D H HD HH.
  induction V as [|v V IH]; intros [|d D] [|h H] HD HH;
    simpl in HD, HH; try discriminate; [reflexivity|].
  repeat first [rewrite zip_with_cons | progress cbn [zip_with3 map]].
  f_equal. apply IH; lia.
Qed.

Lemma log_rows (dim : nat) (Q V H : mat) :
  length Q = length V -> length H = length V ->
  let m := EuclideanMetric dim in
  let srv_diff := msub Q (map srv_row V) in
  madd
    (zip_with vscale (map sqrt (norms_along m V H)) srv_diff)
    (zip_with vscale
       (zip_with (fun nv ip => 1 / sqrt nv ^ 3 * ip)
          (norms_along m V H) (inner_products_along m srv_diff V H))
       V)
  = zip_with log_row Q V.
Proof.
  intros HQ HH m srv_diff. subst srv_diff m.
  unfold madd, msub, norms_along, inner_products_along.
  revert Q H HQ HH.
  induction V as [|v V IH]; intros [|q Q] [|h H] HQ HH;
    simpl in HQ, HH; try discriminate; [reflexivity|].
  repeat first [rewrite zip_with_cons | progress cbn [zip_with3 map]].
  f_equal. apply IH; lia.
Qed.

Lemma velocities_length (c : mat) :
  length (velocities c) = (length c - 1)%nat.
Proof.
  unfold velocities, mscale, differences, msub.
  rewrite length_map, zip_with_length, drop_first_length, drop_last_length.
  apply Nat.min_id.
Qed.

Lemma pointwise_inner_product3_single (m : ambient_metric) (k d : nat)
    (a b c : mat) :
  rect k d a -> rect k d b -> rect k d c -> k <> 1%nat ->
  pointwise_inner_product3 m [a] [b] [c]
  = Ok [inner_products_along m a b c].
Proof.
  intros Ha Hb Hc Hk. unfold pointwise_inner_product3.
  cbn [zip_with3_result].
  rewrite (pointwise_inner_product_ok m k d) by assumption.
  reflexivity.
Qed.

Lemma pointwise_norm3_single (m : ambient_metric) (k d : nat) (a c : mat) :
  rect k d a -> rect k d c -> k <> 1%nat ->
  pointwise_norm3 m [a] [c] = Ok [norms_along m a c].
Proof.
  intros Ha Hc Hk. unfold pointwise_norm3.
  rewrite (pointwise_inner_product3_single m k d) by assumption.
  reflexivity.
Qed.

Lemma rect_drop_last (n d : nat) (c : mat) :
  rect n d c -> rect (n - 1) d (drop_last c).
Proof.
  intros [Hn Hd]. split.
  - rewrite drop_last_length, Hn. reflexivity.
  - apply Forall_removelast. exact Hd.
Qed.

Lemma rect_velocities (n d : nat) (c : mat) :
  rect n d c -> rect (n - 1) d (velocities c).
Proof.
  intros Hc. unfold velocities, differences. apply rect_mscale, rect_msub.
  - destruct Hc as [Hn Hd]. split.
    + rewrite drop_first_length, Hn. reflexivity.
    + apply Forall_tl. exact Hd.
  - apply rect_drop_last. exact Hc.
Qed.

Lemma exp_single (dim n d : nat) (tv c : mat) :
  rect n d tv -> rect n d c -> (3 <= n)%nat ->
  let m := EuclideanMetric dim in
  exp m (Arr3 [tv]) (Arr3 [c])
  = square_root_velocity_inverse m
      (Arr3 [zip_with exp_row (velocities tv) (velocities c)])
      (Arr2 [vadd (hd [] c) (hd [] tv)]).
Proof.
  intros Hrtv Hrc Hn m. subst m.
  assert (Hc : length c = n) by apply Hrc.
  assert (Htv : length tv = length c)
    by (destruct Hrtv as [-> _]; symmetry; exact Hc).
  unfold exp.
  cbn [is_euclidean negb]. rewrite !as_tensor_3. cbn [bind].
  rewrite (square_root_velocity_blocks _ (length c))
    by (try lia; repeat constructor).
  cbn [bind map]. rewrite as_tensor_3. cbn [bind]. cbv zeta.
  unfold shape_rows. cbn [hd map].
  change (mscale (INR (length c - 1)) (msub (drop_first c) (drop_last c)))
    with (velocities c).
  replace (mscale (INR (length c - 1)) (msub (drop_first tv) (drop_last tv)))
    with (velocities tv)
    by (unfold velocities, differences; rewrite Htv; reflexivity).
  rewrite (pointwise_norm3_single _ (n - 1) d)
    by (try apply rect_velocities; try apply rect_drop_last;
        try assumption; lia).
  rewrite (pointwise_inner_product3_single _ (n - 1) d)
    by (try apply rect_velocities; try apply rect_drop_last;
        try assumption; lia).
  cbn [bind]. rewrite !zip_with_single. cbn [map].
  rewrite !zip_with_single.
  rewrite srv_of_curve_rows.
  rewrite (exp_rows dim)
    by (rewrite ?velocities_length, ?drop_last_length; lia).
  destruct tv as [|t0 tv']; [simpl in Htv; lia|].
  destruct c as [|p0 c']; [simpl in Hc; lia|].
  reflexivity.
Qed.

Lemma log_single (dim n d : nat) (p c : mat) :
  rect n d p -> rect n d c -> (3 <= n)%nat ->
  let m := EuclideanMetric dim in
  log m (Arr3 [p]) (Arr3 [c])
  = Ok (Arr3 [log_assemble (INR (length p - 1))
                (vsub (hd [] p) (hd [] c)) (length (hd [] p))
                (zip_with log_row (srv_of_curve m p) (velocities c))]).
Proof.
  intros Hrp Hrc Hn m. subst m.
  assert (Hp : length p = n) by apply Hrp.
  assert (Hc : length c = length p)
    by (destruct Hrc as [-> _]; symmetry; exact Hp).
  unfold log.
  cbn [is_euclidean negb]. rewrite !as_tensor_3. cbn [bind].
  rewrite (square_root_velocity_blocks _ (length p))
    by (try lia; repeat constructor).
  cbn [bind map]. rewrite as_tensor_3. cbn [bind].
  rewrite (square_root_velocity_blocks _ (length c))
    by (try lia; repeat constructor).
  cbn [bind map]. rewrite as_tensor_3. cbn [bind]. cbv zeta.
  unfold shape_rows, n_coords. cbn [hd map].
  replace (mscale (INR (length p - 1)) (msub (drop_first c) (drop_last c)))
    with (velocities c)
    by (unfold velocities, differences; rewrite Hc; reflexivity).
  rewrite !zip_with_single.
  rewrite (pointwise_norm3_single _ (n - 1) d)
    by (try apply rect_velocities; try apply rect_drop_last;
        try assumption; lia).
  rewrite (pointwise_inner_product3_single _ (n - 1) d)
    by (try apply rect_msub; try apply rect_srv_of_curve;
        try apply rect_velocities; try apply rect_drop_last;
        try assumption; lia).
  cbn [bind]. rewrite !zip_with_single. cbn [map].
  rewrite !zip_with_single.
  rewrite (srv_of_curve_rows dim c).
  rewrite (log_rows dim)
    by (rewrite ?srv_of_curve_length, ?velocities_length,
          ?drop_last_length; lia).
  destruct (Nat.eqb_spec (length p - 1) 0) as [E|_]; [lia|].
  destruct p as [|p0 p']; [simpl in Hp; lia|].
  destruct c as [|c0 c']; [simpl in Hc; lia|].
  reflexivity.
Qed.

(** *** The algebra of one row *)

Lemma lin_comb_cancel (a s e c : R) (X V : vec) :
  length X = length V -> a * s = 1 -> a * e + c = 0 ->
  vadd (vscale a (vadd (vscale s X) (vscale e V))) (vscale c V) = X.
Proof.
  intros Hlen Has Hec. unfold vadd, vscale, zip_with. revert V Hlen.
  induction X as [|x X IH]; intros [|v V] Hlen; simpl in Hlen;
    try discriminate; [reflexivity|].
  cbn [map combine fst snd]. f_equal; [|apply IH; lia].
  replace (a * (s * x + e * v) + c * v)
    with ((a * s) * x + (a * e + c) * v) by ring.
  rewrite Has, Hec. ring.
Qed.

Lemma dot_lin (s e : R) (X V W : vec) :
  length X = length V ->
  dot (vadd (vscale s X) (vscale e V)) W = s * dot X W + e * dot V W.
Proof.
  unfold vadd, vscale, zip_with. revert V W.
  induction X as [|x X IH]; intros [|v V] [|w W] Hlen; simpl in Hlen;
    try discriminate; cbn [map combine fst snd];
    try (unfold dot, zip_with; simpl; ring).
  rewrite !dot_cons, IH by lia. ring.
Qed.

Lemma velocity_scalars (V : vec) :
  0 < dot V V ->
  let s := sqrt (sqrt (dot V V)) in
  0 < s /\ sqrt (dot V V) = s * s /\ dot V V = s * s * (s * s).
Proof.
  intros HV s.
  assert (Hnv : 0 < sqrt (dot V V)) by (apply sqrt_lt_R0; exact HV).
  assert (Hs : 0 < s) by (apply sqrt_lt_R0; exact Hnv).
  assert (E1 : s * s = sqrt (dot V V)) by (apply sqrt_sqrt; lra).
  assert (E2 : sqrt (dot V V) * sqrt (dot V V) = dot V V)
    by (apply sqrt_sqrt; lra).
  repeat split; [exact Hs | symmetry; exact E1 |].
  rewrite E1. symmetry. exact E2.
Qed.

Lemma srv_row_length (V : vec) : length (srv_row V) = length V.
Proof. apply vscale_length. Qed.

Lemma log_row_of_exp_row (D V : vec) :
  length D = length V -> 0 < dot V V ->
  log_row (exp_row D V) V = D.
Proof.
  intros Hlen HV.
  destruct (velocity_scalars V HV) as [Hs [Env E4]]. cbv zeta in *.
  unfold log_row, exp_row. cbv zeta.
  set (s := sqrt (sqrt (dot V V))) in *.
  set (c2 := - 1 / (2 * s ^ 5) * dot D V).
  rewrite vsub_vadd_l
    by (rewrite srv_row_length, vadd_length, !vscale_length; lia).
  apply lin_comb_cancel; [exact Hlen | field; lra |].
  rewrite dot_lin by exact Hlen. unfold c2. rewrite E4.
  field. lra.
Qed.

Lemma exp_row_of_log_row (Q V : vec) :
  length Q = length V -> 0 < dot V V ->
  exp_row (log_row Q V) V = Q.
Proof.
  intros Hlen HV.
  destruct (velocity_scalars V HV) as [Hs [Env E4]]. cbv zeta in *.
  unfold exp_row, log_row. cbv zeta.
  set (s := sqrt (sqrt (dot V V))) in *.
  set (X := vsub Q (srv_row V)).
  assert (HX : length X = length V).
  { unfold X. rewrite vsub_length, srv_row_length. lia. }
  set (e := 1 / s ^ 3 * dot X V).
  rewrite lin_comb_cancel.
  - unfold X. apply vadd_vsub. rewrite srv_row_length. lia.
  - exact HX.
  - field. lra.
  - rewrite dot_lin by exact HX. unfold e. rewrite E4. field. lra.
Qed.

Lemma exp_row_length (D V : vec) :
  length D = length V -> length (exp_row D V) = length V.
Proof.
  intros H. unfold exp_row. cbv zeta.
  rewrite !vadd_length, srv_row_length, !vscale_length. lia.
Qed.

Lemma log_row_length (Q V : vec) :
  length Q = length V -> length (log_row Q V) = length V.
Proof.
  intros H. unfold log_row. cbv zeta.
  rewrite !vadd_length, !vscale_length, vsub_length, srv_row_length. lia.
Qed.

Lemma exp_rows_of_log_rows (d : nat) (Qs Vs : mat) :
  length Qs = length Vs ->
  Forall (fun Q => length Q = d) Qs ->
  Forall (fun V => length V = d /\ 0 < dot V V) Vs ->
  zip_with exp_row (zip_with log_row Qs Vs) Vs = Qs.
Proof.
  intros Hlen HQ. revert Vs Hlen.
  induction HQ as [|Q Qs HQd HQs IH]; intros [|V Vs] Hlen HV;
    simpl in Hlen; try discriminate; [reflexivity|].
  apply Forall_cons_iff in HV. destruct HV as [[HVd HVpos] HVs].
  rewrite !zip_with_cons. f_equal.
  - apply exp_row_of_log_row; [congruence | exact HVpos].
  - apply IH; [lia | exact HVs].
Qed.

Lemma log_rows_of_exp_rows (d : nat) (Ds Vs : mat) :
  length Ds = length Vs ->
  Forall (fun D => length D = d) Ds ->
  Forall (fun V => length V = d /\ 0 < dot V V) Vs ->
  zip_with log_row (zip_with exp_row Ds Vs) Vs = Ds.
Proof.
  intros Hlen HD. revert Vs Hlen.
  induction HD as [|D Ds HDd HDs IH]; intros [|V Vs] Hlen HV;
    simpl in Hlen; try discriminate; [reflexivity|].
  apply Forall_cons_iff in HV. destruct HV as [[HVd HVpos] HVs].
  rewrite !zip_with_cons. f_equal.
  - apply log_row_of_exp_row; [congruence | exact HVpos].
  - apply IH; [lia | exact HVs].
Qed.

(** *** Running sums and differences *)

Lemma vadd_zeros_l (r : vec) : vadd (repeat 0 (length r)) r = r.
Proof.
  unfold vadd, zip_with. induction r as [|x r IH]; [reflexivity|].
  cbn [length repeat combine map fst snd]. f_equal; [lra | exact IH].
Qed.

Lemma vadd_all_zero_r (q z : vec) :
  all_zero z -> length z = length q -> vadd q z = q.
Proof.
  unfold all_zero, vadd, zip_with. intros Hz. revert q.
  induction Hz as [|x z Hx Hz IH]; intros [|y q] Hlen; simpl in Hlen;
    try discriminate; [reflexivity|].
  cbn [combine map fst snd]. f_equal; [lra | apply IH; lia].
Qed.

Lemma vsub_vadd_cancel_l (s a b : vec) :
  length a = length s -> length b = length s ->
  vsub (vadd s a) (vadd s b) = vsub a b.
Proof.
  unfold vsub, vadd, zip_with. revert a b.
  induction s as [|x s IH]; intros [|y a] [|z b] Ha Hb; simpl in *;
    try discriminate; auto.
  f_equal; [lra | apply IH; lia].
Qed.

Lemma cumsum_rows_from_zeros (d : nat) (X : mat) :
  Forall (fun r => length r = d) X ->
  cumsum_rows X = cumsum_from (repeat 0 d) X.
Proof.
  intros HX. destruct HX as [|r X Hr HX]; [reflexivity|].
  cbn [cumsum_rows cumsum_from]. cbv zeta.
  rewrite <- Hr, vadd_zeros_l. reflexivity.
Qed.

Lemma differences_cons2 (x y : vec) (l : mat) :
  differences (x :: y :: l) = vsub y x :: differences (y :: l).
Proof. reflexivity. Qed.

Lemma assemble_from (d : nat) (coef : R) (t0 : vec) (rest : mat)
    (t_prev : vec) :
  coef <> 0 -> length t0 = d -> length t_prev = d ->
  Forall (fun r => length r = d) rest ->
  map (fun row => vadd t0 (vscale (1 / coef) row))
      (cumsum_from (vscale coef (vsub t_prev t0))
         (mscale coef (differences (t_prev :: rest))))
  = rest.
Proof.
  intros Hcoef Ht0 Hprev Hrest. revert t_prev Hprev.
  induction Hrest as [|t1 rest Ht1 Hrest IH]; intros t_prev Hprev;
    [reflexivity|].
  rewrite differences_cons2. unfold mscale. cbn [map cumsum_from].
  cbv zeta. fold (mscale coef (differences (t1 :: rest))).
  rewrite vscale_vadd, vadd_vsub_chain by congruence.
  f_equal.
  - rewrite vscale_vscale.
    replace (1 / coef * coef) with 1 by (field; exact Hcoef).
    rewrite vscale_one. apply vadd_vsub. congruence.
  - apply IH. exact Ht1.
Qed.

Lemma assemble_velocities (d : nat) (coef : R) (tv : mat) :
  coef <> 0 -> tv <> [] ->
  Forall (fun r => length r = d) tv ->
  log_assemble coef (hd [] tv) d (mscale coef (differences tv)) = tv.
Proof.
  intros Hcoef Hne Htv. destruct tv as [|t0 rest]; [contradiction|].
  apply Forall_cons_iff in Htv. destruct Htv as [Ht0 Hrest].
  unfold log_assemble. cbn [hd map].
  assert (Hrows : Forall (fun r => length r = d)
                    (mscale coef (differences (t0 :: rest)))).
  { unfold mscale. apply Forall_map. unfold differences, msub.
    apply (Forall_zip_with_both (fun r => length r = d)
             (fun r => length r = d)).
    - apply Forall_tl. constructor; assumption.
    - apply Forall_removelast. constructor; assumption.
    - intros a b Ha Hb. rewrite vscale_length, vsub_length, Ha, Hb.
      apply Nat.min_id. }
  rewrite (cumsum_rows_from_zeros d) by exact Hrows.
  f_equal.
  - rewrite vscale_zeros. apply vadd_all_zero_r.
    + apply all_zero_repeat.
    + rewrite repeat_length. congruence.
  - replace (repeat 0 d) with (vscale coef (vsub t0 t0))
      by (rewrite vsub_self, vscale_zeros, Ht0; reflexivity).
    apply (assemble_from d); assumption.
Qed.

Lemma velocities_of_assemble_from (d : nat) (coef : R) (start : vec)
    (LD : mat) (acc : vec) :
  coef <> 0 -> length start = d -> length acc = d ->
  Forall (fun r => length r = d) LD ->
  mscale coef
    (differences
       (map (fun row => vadd start (vscale (1 / coef) row))
            (acc :: cumsum_from acc LD)))
  = LD.
Proof.
  intros Hcoef Hstart Hacc HLD. revert acc Hacc.
  induction HLD as [|r LD Hr HLD IH]; intros acc Hacc; [reflexivity|].
  cbn [cumsum_from map]. cbv zeta.
  rewrite differences_cons2. unfold mscale. cbn [map].
  f_equal.
  - rewrite vsub_vadd_cancel_l
      by (rewrite vscale_length, ?vadd_length; lia).
    rewrite vsub_vscale, vsub_vadd_l by congruence.
    rewrite vscale_vscale.
    replace (coef * (1 / coef)) with 1 by (field; exact Hcoef).
    apply vscale_one.
  - apply (IH (vadd acc r)). rewrite vadd_length. lia.
Qed.

Lemma velocities_of_assemble (d : nat) (coef : R) (start : vec)
    (LD : mat) :
  coef <> 0 -> length start = d ->
  Forall (fun r => length r = d) LD ->
  mscale coef (differences (log_assemble coef start d LD)) = LD.
Proof.
  intros Hcoef Hstart HLD. unfold log_assemble.
  rewrite (cumsum_rows_from_zeros d) by exact HLD.
  apply (velocities_of_assemble_from d); try assumption.
  apply repeat_length.
Qed.

Lemma log_assemble_length (coef : R) (start : vec) (d : nat) (LD : mat) :
  length (log_assemble coef start d LD) = S (length LD).
Proof.
  unfold log_assemble. rewrite length_map. cbn [length]. f_equal.
  destruct LD as [|r LD]; [reflexivity|].
  cbn [cumsum_rows length]. f_equal. apply cumsum_from_length.
Qed.

Lemma log_assemble_hd (coef : R) (start : vec) (d : nat) (LD : mat) :
  length start = d ->
  hd [] (log_assemble coef start d LD) = start.
Proof.
  intros H. unfold log_assemble. cbn [map hd].
  rewrite vscale_zeros. apply vadd_all_zero_r.
  - apply all_zero_repeat.
  - rewrite repeat_length. congruence.
Qed.

Lemma log_assemble_rows (coef : R) (start : vec) (d : nat) (LD : mat) :
  length start = d ->
  Forall (fun r => length r = d) LD ->
  Forall (fun r => length r = d) (log_assemble coef start d LD).
Proof.
  intros Hstart HLD. unfold log_assemble.
  rewrite (cumsum_rows_from_zeros d) by exact HLD.
  apply Forall_map.
  assert (Hall : Forall (fun r => length r = d)
                   (repeat 0 d :: cumsum_from (repeat 0 d) LD)).
  { constructor; [apply repeat_length|].
    apply (cumsum_from_rows d); [apply repeat_length | exact HLD]. }
  eapply Forall_impl; [|exact Hall].
  intros r Hr. cbv beta.
  rewrite vadd_length, vscale_length, Hstart, Hr. apply Nat.min_id.
Qed.

(** *** Velocities of a curve *)

Lemma Forall_zip_with_three {A B C D : Type} (P : A -> Prop)
    (P' : B -> Prop) (S : D -> Prop) (Q : C -> Prop) (k : A -> B -> D)
    (f : A -> B -> C) (x : list A) (y : list B) :
  Forall P x -> Forall P' y -> Forall S (zip_with k x y) ->
  (forall a b, P a -> P' b -> S (k a b) -> Q (f a b)) ->
  Forall Q (zip_with f x y).
Proof.
  intros Hx Hy Hk Hf. revert y Hy Hk.
  induction Hx as [|a x Ha Hx IH]; intros y Hy Hk; [constructor|].
  destruct Hy as [|b y Hb Hy]; [constructor|].
  rewrite zip_with_cons in *.
  apply Forall_cons_iff in Hk. destruct Hk as [Hab Hk].
  constructor; [apply Hf; assumption | apply IH; assumption].
Qed.

Lemma sqrt_pos_arg (x : R) : 0 <= x -> 0 < sqrt x -> 0 < x.
Proof.
  intros H0 Hs. destruct (Req_dec x 0) as [E|NE]; [|lra].
  rewrite E, sqrt_0 in Hs. lra.
Qed.

Lemma velocities_nonzero (n d : nat) (c : mat) :
  rect n d c -> (3 <= n)%nat -> positive_speeds c ->
  Forall (fun V => length V = d /\ 0 < dot V V) (velocities c).
Proof.
  intros [Hn Hd] Hn2 Hpos. unfold velocities, mscale, differences, msub.
  apply Forall_map.
  apply (Forall_zip_with_three (fun p => length p = d)
           (fun p => length p = d) (fun s => 0 < s)
           (fun w => length (vscale (INR (length c - 1)) w) = d
                     /\ 0 < dot (vscale (INR (length c - 1)) w)
                              (vscale (INR (length c - 1)) w))
           (fun p q => sqrt (dot (vsub p q) (vsub p q)))).
  - apply Forall_tl. exact Hd.
  - apply Forall_removelast. exact Hd.
  - exact Hpos.
  - intros p q Hp Hq Hs. split.
    + rewrite vscale_length, vsub_length, Hp, Hq. apply Nat.min_id.
    + rewrite dot_vscale.
      assert (Hcoef : 0 < INR (length c - 1))
        by (apply lt_0_INR; unfold mat, vec in *; lia).
      apply sqrt_pos_arg in Hs; [|apply dot_self_nonneg].
      apply Rmult_lt_0_compat; [|exact Hs].
      apply Rmult_lt_0_compat; exact Hcoef.
Qed.

Lemma velocities_rows (n d : nat) (c : mat) :
  rect n d c -> Forall (fun V => length V = d) (velocities c).
Proof.
  intros [Hn Hd]. unfold velocities, mscale, differences, msub.
  apply Forall_map.
  apply (Forall_zip_with_both (fun p => length p = d)
           (fun p => length p = d)).
  - apply Forall_tl. exact Hd.
  - apply Forall_removelast. exact Hd.
  - intros p q Hp Hq.
    rewrite vscale_length, vsub_length, Hp, Hq. apply Nat.min_id.
Qed.

Lemma Forall_zip_with_rows (d : nat) (f : vec -> vec -> vec) (x y : mat) :
  (forall a b, length a = d -> length b = d -> length (f a b) = d) ->
  Forall (fun r => length r = d) x ->
  Forall (fun r => length r = d) y ->
  Forall (fun r => length r = d) (zip_with f x y).
Proof.
  intros Hf Hx Hy.
  apply (Forall_zip_with_both (fun r => length r = d)
           (fun r => length r = d)); assumption.
Qed.

(** *** The two compositions on one curve *)

Lemma exp_of_log_single (dim n d : nat) (p c : mat) :
  rect n d p -> rect n d c -> (3 <= n)%nat ->
  positive_speeds p -> positive_speeds c ->
  let m := EuclideanMetric dim in
  let w := log_assemble (INR (n - 1)) (vsub (hd [] p) (hd [] c)) d
             (zip_with log_row (srv_of_curve m p) (velocities c)) in
  log m (Arr3 [p]) (Arr3 [c]) = Ok (Arr3 [w])
  /\ rect n d w
  /\ exp m (Arr3 [w]) (Arr3 [c]) = Ok (Arr3 [p]).
Proof.
  intros Hp Hc Hn Hpp Hpc m w.
  assert (Hlp : length p = n) by apply Hp.
  assert (Hlc : length c = n) by apply Hc.
  assert (Hhp : length (hd [] p) = d) by (apply (hd_rect n); [exact Hp | lia]).
  assert (Hhc : length (hd [] c) = d) by (apply (hd_rect n); [exact Hc | lia]).
  assert (Hstart : length (vsub (hd [] p) (hd [] c)) = d).
  { rewrite vsub_length, Hhp, Hhc. apply Nat.min_id. }
  pose proof (rect_srv_of_curve dim n d p Hp) as [Hks Hds].
  fold m in Hks, Hds.
  pose proof (velocities_nonzero n d c Hc Hn Hpc) as HV.
  assert (HVd : Forall (fun V => length V = d) (velocities c))
    by (apply (velocities_rows n); exact Hc).
  assert (HVl : length (velocities c) = (n - 1)%nat)
    by (rewrite velocities_length, Hlc; reflexivity).
  set (LD := zip_with log_row (srv_of_curve m p) (velocities c)) in *.
  assert (HLD : Forall (fun r => length r = d) LD).
  { apply Forall_zip_with_rows; try assumption.
    intros a b Ha Hb. rewrite log_row_length; congruence. }
  assert (HLDl : length LD = (n - 1)%nat).
  { unfold LD. rewrite zip_with_length. unfold mat, vec in *.
    rewrite Hks, HVl. apply Nat.min_id. }
  assert (Hwl : length w = n).
  { unfold w. rewrite log_assemble_length, HLDl. lia. }
  assert (Hcoef : INR (n - 1) <> 0).
  { apply not_0_INR. lia. }
  assert (Hrw : rect n d w).
  { split; [exact Hwl|]. apply log_assemble_rows; assumption. }
  split; [|split].
  - unfold m. rewrite (log_single dim n d) by assumption.
    rewrite Hlp, Hhp. reflexivity.
  - exact Hrw.
  - unfold m. rewrite (exp_single dim n d) by assumption.
    assert (Evel : velocities w = LD).
    { unfold velocities. rewrite Hwl.
      apply (velocities_of_assemble d); assumption. }
    rewrite Evel. unfold LD.
    rewrite (exp_rows_of_log_rows d); try assumption;
      [|unfold mat, vec in *; lia].
    unfold w. rewrite log_assemble_hd by exact Hstart.
    rewrite vadd_vsub by congruence.
    apply (inverse_of_blocks dim n d [p]); [lia | discriminate|].
    repeat constructor; try apply Hp. exact Hpp.
Qed.

Lemma inverse_tensor_single (dim : nat) (srv : mat) (p0 : vec) :
  let m := EuclideanMetric dim in
  let delta :=
    map (fun s => vscale (1 / INR (length srv) * metric_norm m s []) s)
        srv in
  srv <> [] ->
  cols_agree [p0] delta = true ->
  square_root_velocity_inverse m (Arr3 [srv]) (Arr2 [p0])
  = Ok (Arr3 [p0 :: cumsum_from p0 delta]).
Proof.
  intros m delta Hne Hcols.
  unfold square_root_velocity_inverse.
  change (negb (is_euclidean m)) with false.
  cbn [ndim Nat.eqb].
  change (to_ndarray (Arr2 [p0]) 3 1) with (Ok (Arr3 [[p0]])).
  rewrite to_ndarray_3. cbn [bind]. cbv zeta.
  unfold shape_rows. cbn [hd concat]. rewrite app_nil_r.
  destruct (Nat.eqb_spec (length srv) 0) as [E|_].
  { destruct srv; [contradiction | discriminate]. }
  rewrite zip_with_map_l. fold delta.
  unfold reshape3. cbn [length Nat.mul]. rewrite Nat.add_0_r.
  replace (length delta) with (length srv)
    by (unfold delta; rewrite length_map; reflexivity).
  rewrite Nat.eqb_refl. cbn [bind chunks].
  replace (firstn (length srv) delta) with delta
    by (symmetry; apply firstn_all2; unfold delta; rewrite length_map;
        lia).
  unfold concatenate_rows. cbn [length Nat.eqb combine forallb fst snd].
  rewrite Hcols. cbn [andb bind]. reflexivity.
Qed.

Lemma rows_nonzero_of_speeds (dim k d : nat) (q : mat) (p0 : vec) :
  rect k d q -> (1 <= k)%nat -> length p0 = d ->
  let m := EuclideanMetric dim in
  let delta := map (fun s => vscale (1 / INR k * metric_norm m s []) s) q in
  positive_speeds (p0 :: cumsum_from p0 delta) ->
  Forall (fun s => 0 < dot s s) q.
Proof.
  intros [Hk Hd] Hk1 Hp0 m delta Hpos.
  unfold positive_speeds, segment_speeds, drop_first, drop_last in Hpos.
  cbn [tl] in Hpos.
  assert (Hdelta : Forall (fun r => length r = d) delta).
  { unfold delta. apply Forall_map. eapply Forall_impl; [|exact Hd].
    intros s Hs. cbv beta. rewrite vscale_length. exact Hs. }
  rewrite (zip_cumsum _ (fun r => sqrt (dot r r)) d) in Hpos;
    try assumption.
  - unfold delta in Hpos. rewrite map_map, Forall_map in Hpos.
    eapply Forall_impl; [|exact Hpos].
    intros s Hs. cbv beta in Hs.
    destruct (Rle_lt_dec (dot s s) 0) as [Hle|Hgt]; [|exact Hgt].
    exfalso. pose proof (dot_self_nonneg s) as H0.
    assert (E : dot s s = 0) by lra.
    rewrite dot_vscale, E, Rmult_0_r, sqrt_0 in Hs. lra.
  - intros a r Ha Hr. rewrite vsub_vadd_l by congruence. reflexivity.
Qed.

Lemma log_of_exp_single (dim n d : nat) (tv c : mat) :
  rect n d tv -> rect n d c -> (3 <= n)%nat -> positive_speeds c ->
  let m := EuclideanMetric dim in
  exists e,
    exp m (Arr3 [tv]) (Arr3 [c]) = Ok (Arr3 [e])
    /\ rect n d e
    /\ (positive_speeds e -> log m (Arr3 [e]) (Arr3 [c]) = Ok (Arr3 [tv])).
Proof.
  intros Htv Hc Hn Hpc m.
  assert (Hlt : length tv = n) by apply Htv.
  assert (Hlc : length c = n) by apply Hc.
  assert (Hht : length (hd [] tv) = d)
    by (apply (hd_rect n); [exact Htv | lia]).
  assert (Hhc : length (hd [] c) = d)
    by (apply (hd_rect n); [exact Hc | lia]).
  pose proof (velocities_nonzero n d c Hc Hn Hpc) as HV.
  assert (HVd : Forall (fun V => length V = d) (velocities c))
    by (apply (velocities_rows n); exact Hc).
  assert (HDd : Forall (fun V => length V = d) (velocities tv))
    by (apply (velocities_rows n); exact Htv).
  assert (HVl : length (velocities c) = (n - 1)%nat)
    by (rewrite velocities_length, Hlc; reflexivity).
  assert (HDl : length (velocities tv) = (n - 1)%nat)
    by (rewrite velocities_length, Hlt; reflexivity).
  set (S := zip_with exp_row (velocities tv) (velocities c)).
  assert (HSd : Forall (fun r => length r = d) S).
  { apply Forall_zip_with_rows; try assumption.
    intros a b Ha Hb. rewrite exp_row_length; congruence. }
  assert (HSl : length S = (n - 1)%nat).
  { unfold S. rewrite zip_with_length. unfold mat, vec in *.
    rewrite HDl, HVl. apply Nat.min_id. }
  assert (HS : rect (n - 1) d S) by (split; assumption).
  set (start := vadd (hd [] c) (hd [] tv)).
  assert (Hstart : length start = d).
  { unfold start. rewrite vadd_length, Hhc, Hht. apply Nat.min_id. }
  set (delta := map (fun s => vscale (1 / INR (n - 1) * metric_norm m s []) s)
                  S).
  assert (Hdelta : Forall (fun r => length r = d) delta).
  { unfold delta. apply Forall_map. eapply Forall_impl; [|exact HSd].
    intros s Hs. cbv beta. rewrite vscale_length. exact Hs. }
  exists (start :: cumsum_from start delta).
  assert (Hexp : exp m (Arr3 [tv]) (Arr3 [c])
                 = Ok (Arr3 [start :: cumsum_from start delta])).
  { unfold m. rewrite (exp_single dim n d) by assumption. fold S start.
    rewrite inverse_tensor_single.
    - unfold mat, vec in *. rewrite HSl. reflexivity.
    - intros E. rewrite E in HSl. simpl in HSl. lia.
    - destruct S as [|s0 S']; [simpl in HSl; lia|].
      cbn [map cols_agree]. rewrite vscale_length.
      apply Forall_cons_iff in HSd. destruct HSd as [Hs0 _].
      rewrite Hs0, Hstart. apply Nat.eqb_refl. }
  assert (Hel : length (start :: cumsum_from start delta) = n).
  { cbn [length]. rewrite cumsum_from_length. unfold delta.
    rewrite length_map. unfold mat, vec in *. lia. }
  assert (Hre : rect n d (start :: cumsum_from start delta)).
  { split; [exact Hel|]. constructor; [exact Hstart|].
    apply (cumsum_from_rows d); assumption. }
  split; [exact Hexp|]. split.
  - exact Hre.
  - intros Hpe.
    assert (Hnz : Forall (fun s => 0 < dot s s) S).
    { apply (rows_nonzero_of_speeds dim (n - 1) d S start); try assumption.
      lia. }
    unfold m. rewrite (log_single dim n d) by assumption.
    fold m. rewrite Hel. cbn [hd].
    pose proof (srv_of_rebuilt dim (n - 1) d S start HS) as Hsrv.
    cbv zeta in Hsrv. fold m delta in Hsrv.
    rewrite Hsrv by (try assumption; lia).
    unfold S. rewrite (log_rows_of_exp_rows d); try assumption;
      [|unfold mat, vec in *; lia].
    unfold start. rewrite vsub_vadd_l by congruence.
    rewrite vadd_length, Hhc, Hht, Nat.min_id.
    do 3 f_equal.
    assert (E : velocities tv = mscale (INR (n - 1)) (differences tv))
      by (unfold velocities; rewrite Hlt; reflexivity).
    rewrite E. apply assemble_velocities.
    + apply not_0_INR. lia.
    + intros E0. rewrite E0 in Hlt. simpl in Hlt. lia.
    + apply Htv.
Qed.

Lemma exp_row_of_zero (D V : vec) :
  all_zero D -> length D = length V -> exp_row D V = srv_row V.
Proof.
  intros HD Hlen. unfold exp_row. cbv zeta.
  apply vadd_all_zero_r.
  - apply all_zero_vadd.
    + apply all_zero_vscale. exact HD.
    + rewrite (all_zero_dot_l D V HD), Rmult_0_r.
      apply all_zero_vscale_zero.
  - rewrite vadd_length, !vscale_length, srv_row_length. lia.
Qed.

Lemma velocities_of_zero (n d : nat) (tv : mat) :
  rect n d tv -> Forall all_zero tv ->
  Forall (fun D => all_zero D /\ length D = d) (velocities tv).
Proof.
  intros [Hn Hd] Hz. unfold velocities, mscale, differences, msub.
  apply Forall_map.
  assert (Hboth : Forall (fun r => all_zero r /\ length r = d) tv).
  { apply Forall_forall. intros r Hin. split.
    - eapply Forall_forall in Hz; [exact Hz | exact Hin].
    - eapply Forall_forall in Hd; [exact Hd | exact Hin]. }
  apply (Forall_zip_with_both (fun r => all_zero r /\ length r = d)
           (fun r => all_zero r /\ length r = d)).
  - apply Forall_tl. exact Hboth.
  - apply Forall_removelast. exact Hboth.
  - intros a b [Ha Hla] [Hb Hlb]. split.
    + apply all_zero_vscale. apply all_zero_vsub; assumption.
    + rewrite vscale_length, vsub_length, Hla, Hlb. apply Nat.min_id.
Qed.

Lemma exp_of_zero_single (dim n d : nat) (tv c : mat) :
  rect n d tv -> Forall all_zero tv ->
  rect n d c -> (3 <= n)%nat -> positive_speeds c ->
  exp (EuclideanMetric dim) (Arr3 [tv]) (Arr3 [c]) = Ok (Arr3 [c]).
Proof.
  intros Htv Hz Hc Hn Hpc.
  assert (Hlt : length tv = n) by apply Htv.
  assert (Hlc : length c = n) by apply Hc.
  rewrite (exp_single dim n d) by assumption.
  assert (ES : zip_with exp_row (velocities tv) (velocities c)
               = srv_of_curve (EuclideanMetric dim) c).
  { rewrite srv_of_curve_rows.
    rewrite <- (zip_with_map_r_self (fun _ V => srv_row V) (fun V => V)),
      map_id.
    assert (Hl : length (velocities tv) = length (velocities c))
      by (rewrite !velocities_length; lia).
    pose proof (velocities_of_zero n d tv Htv Hz) as HD.
    pose proof (velocities_rows n d c Hc) as HV.
    revert Hl HD HV.
    generalize (velocities tv) as Ds, (velocities c) as Vs.
    induction Ds as [|D Ds IH]; intros [|V Vs] Hl HD HV; simpl in Hl;
      try discriminate; [reflexivity|].
    apply Forall_cons_iff in HD. destruct HD as [[HDz HDl] HD].
    apply Forall_cons_iff in HV. destruct HV as [HVl HV].
    rewrite !zip_with_cons. f_equal.
    - apply exp_row_of_zero; [exact HDz | congruence].
    - apply IH; [lia | exact HD | exact HV]. }
  rewrite ES.
  assert (Hstart : vadd (hd [] c) (hd [] tv) = hd [] c).
  { destruct tv as [|t0 tv']; [simpl in Hlt; lia|].
    destruct c as [|c0 c']; [simpl in Hlc; lia|].
    destruct Htv as [_ Htd]. destruct Hc as [_ Hcd].
    apply Forall_cons_iff in Htd. apply Forall_cons_iff in Hcd.
    apply Forall_cons_iff in Hz.
    cbn [hd]. apply vadd_all_zero_r; [apply Hz|].
    destruct Htd as [-> _]. destruct Hcd as [-> _]. reflexivity. }
  rewrite Hstart.
  apply (inverse_of_blocks dim n d [c]); [lia | discriminate|].
  repeat constructor; try apply Hc. exact Hpc.
Qed.

Lemma mscale_one (x : mat) : mscale 1 x = x.
Proof.
  unfold mscale. rewrite <- (map_id x) at 2. apply map_ext.
  intros r. apply vscale_one.
Qed.

Lemma mscale_zero_rows (n d : nat) (x : mat) :
  rect n d x -> rect n d (mscale 0 x) /\ Forall all_zero (mscale 0 x).
Proof.
  intros Hx. split; [apply rect_mscale; exact Hx|].
  unfold mscale. apply Forall_map. apply Forall_forall.
  intros r _. apply all_zero_vscale_zero.
Qed.

(** X13: [exp] undoes [log].  For two curves of the same shape with at
    least three sampling points and positive segment speeds in a Euclidean
    space, the exponential at the base curve of the logarithm of a curve is
    that curve, with a batch axis of length one.  (On two sampling points
    both functions raise, see [pointwise_inner_product].) *)
Theorem exp_of_log (dim n d : nat) (p c : mat) :
  rect n d p -> rect n d c -> (3 <= n)%nat ->
  positive_speeds p -> positive_speeds c ->
  let m := EuclideanMetric dim in
  (w <- log m (Arr2 p) (Arr2 c) ;; exp m w (Arr2 c)) = Ok (Arr3 [p]).
Proof.
  intros Hp Hc Hn Hpp Hpc m.
  destruct (exp_of_log_single dim n d p c Hp Hc Hn Hpp Hpc)
    as [Hlog [_ Hexp]].
  change (log m (Arr2 p) (Arr2 c)) with (log m (Arr3 [p]) (Arr3 [c])).
  fold m in Hlog. rewrite Hlog. cbn [bind]. exact Hexp.
Qed.

Lemma exp_of_log_witness :
  let m := EuclideanMetric 2 in
  (w <- log m (Arr2 [[0; 1]; [1; 1]; [1; 3]])
          (Arr2 [[0; 0]; [1; 0]; [2; 0]]) ;;
   exp m w (Arr2 [[0; 0]; [1; 0]; [2; 0]]))
  = Ok (Arr3 [[[0; 1]; [1; 1]; [1; 3]]]).
Proof.
  apply (exp_of_log 2 3 2 [[0; 1]; [1; 1]; [1; 3]]
           [[0; 0]; [1; 0]; [2; 0]]).
  - split; [reflexivity | repeat constructor].
  - split; [reflexivity | repeat constructor].
  - lia.
  - exact positive_speeds_bend.
  - exact positive_speeds_line.
Defined.

(** X14: [log] undoes [exp].  For a tangent vector of the shape of a curve
    with at least three sampling points and positive segment speeds in a
    Euclidean space, [exp] returns a curve of the same shape, and when that
    curve has positive segment speeds too, its logarithm at the base curve
    is the tangent vector. *)
Theorem log_of_exp (dim n d : nat) (tv c : mat) :
  rect n d tv -> rect n d c -> (3 <= n)%nat -> positive_speeds c ->
  let m := EuclideanMetric dim in
  exists e,
    exp m (Arr2 tv) (Arr2 c) = Ok (Arr3 [e])
    /\ rect n d e
    /\ (positive_speeds e -> log m (Arr3 [e]) (Arr2 c) = Ok (Arr3 [tv])).
Proof.
  intros Htv Hc Hn Hpc m.
  destruct (log_of_exp_single dim n d tv c Htv Hc Hn Hpc)
    as [e [Hexp [He Hlog]]].
  exists e. split; [exact Hexp|]. split; [exact He|]. exact Hlog.
Qed.

Lemma log_of_exp_witness :
  let m := EuclideanMetric 2 in
  exists e,
    exp m (Arr2 [[0; 1]; [0; 2]; [0; 0]]) (Arr2 [[0; 0]; [1; 0]; [2; 0]])
    = Ok (Arr3 [e])
    /\ rect 3 2 e
    /\ (positive_speeds e ->
        log m (Arr3 [e]) (Arr2 [[0; 0]; [1; 0]; [2; 0]])
        = Ok (Arr3 [[[0; 1]; [0; 2]; [0; 0]]])).
Proof.
  apply (log_of_exp 2 3 2 [[0; 1]; [0; 2]; [0; 0]]
           [[0; 0]; [1; 0]; [2; 0]]).
  - split; [reflexivity | repeat constructor].
  - split; [reflexivity | repeat constructor].
  - lia.
  - exact positive_speeds_line.
Defined.

(** X15: the exponential of the zero tangent vector is the base curve,
    for a curve of at least three sampling points and positive segment
    speeds in a Euclidean space. *)
Theorem exp_of_zero (dim n d : nat) (c : mat) :
  rect n d c -> (3 <= n)%nat -> positive_speeds c ->
  exp (EuclideanMetric dim) (Arr2 (repeat (repeat 0 d) n)) (Arr2 c)
  = Ok (Arr3 [c]).
Proof.
  intros Hc Hn Hpc.
  apply (exp_of_zero_single dim n d); try assumption.
  - split; [apply repeat_length|].
    apply Forall_repeat. apply repeat_length.
  - apply Forall_repeat. apply all_zero_repeat.
Qed.

Lemma exp_of_zero_witness :
  exp (EuclideanMetric 2) (Arr2 (repeat (repeat 0 2) 3))
    (Arr2 [[0; 0]; [1; 0]; [2; 0]])
  = Ok (Arr3 [[[0; 0]; [1; 0]; [2; 0]]]).
Proof.
  apply (exp_of_zero 2 3 2 [[0; 0]; [1; 0]; [2; 0]]).
  - split; [reflexivity | repeat constructor].
  - lia.
  - exact positive_speeds_line.
Defined.

(** X16: the geodesic between two curves starts at the first and ends at
    the second.  For two curves of the same shape with at least three
    sampling points and positive segment speeds in a Euclidean space,
    [geodesic] with an end curve returns a path whose value at time 0 is
    the initial curve and whose value at time 1 is the end curve. *)
Theorem geodesic_end_points (tol : tolerance) (dim n d : nat)
    (c0 c1 : mat) :
  rect n d c0 -> rect n d c1 -> (3 <= n)%nat ->
  positive_speeds c0 -> positive_speeds c1 ->
  let m := EuclideanMetric dim in
  exists g,
    geodesic tol m (Arr2 c0) (Some (Arr2 c1)) None = Ok g
    /\ path g [0; 1] = Ok [Arr3 [c0]; Arr3 [c1]].
Proof.
  intros H0 H1 Hn Hp0 Hp1 m.
  destruct (exp_of_log_single dim n d c1 c0 H1 H0 Hn Hp1 Hp0)
    as [Hlog [Hw Hexp]].
  fold m in Hlog, Hexp.
  set (w := log_assemble (INR (n - 1)) (vsub (hd [] c1) (hd [] c0)) d
              (zip_with log_row (srv_of_curve m c1) (velocities c0))) in *.
  eexists. split.
  - unfold geodesic. change (negb (is_euclidean m)) with false. cbv iota.
    change (as_tensor (Arr2 c0)) with (Ok [c0]).
    change (as_tensor (Arr2 c1)) with (Ok [c1]).
    cbn [bind]. rewrite Hlog. cbn [bind]. rewrite as_tensor_3.
    cbn [bind]. reflexivity.
  - unfold path.
    cbn [path_metric path_initial_curve path_initial_tangent_vec
         batch_sum fold_left map map_result].
    rewrite mscale_one.
    change (exp m (Arr2 w) (Arr3 [c0])) with (exp m (Arr3 [w]) (Arr3 [c0])).
    rewrite Hexp.
    change (exp m (Arr2 (mscale 0 w)) (Arr3 [c0]))
      with (exp m (Arr3 [mscale 0 w]) (Arr3 [c0])).
    destruct (mscale_zero_rows n d w Hw) as [Hz0 Hz1].
    unfold m. rewrite (exp_of_zero_single dim n d); try assumption.
    reflexivity.
Qed.

Lemma geodesic_end_points_witness :
  let tol := {| gs_atol := 1 / 1000; gs_rtol := 1 / 1000 |} in
  let m := EuclideanMetric 2 in
  exists g,
    geodesic tol m (Arr2 [[0; 0]; [1; 0]; [2; 0]])
      (Some (Arr2 [[0; 1]; [1; 1]; [1; 3]])) None = Ok g
    /\ path g [0; 1]
       = Ok [Arr3 [[[0; 0]; [1; 0]; [2; 0]]];
             Arr3 [[[0; 1]; [1; 1]; [1; 3]]]].
Proof.
  apply (geodesic_end_points {| gs_atol := 1 / 1000; gs_rtol := 1 / 1000 |}
           2 3 2 [[0; 0]; [1; 0]; [2; 0]] [[0; 1]; [1; 1]; [1; 3]]).
  - split; [reflexivity | repeat constructor].
  - split; [reflexivity | repeat constructor].
  - lia.
  - exact positive_speeds_line.
  - exact positive_speeds_bend.
Defined.

(** ** The reparametrization of a horizontal path *)

Lemma get2_Forall (P : R -> Prop) (k d : nat) (a : mat) (i j : nat) :
  rect k d a -> Forall (Forall P) a -> (i < k)%nat -> (j < d)%nat ->
  exists x, get2 a i j = Ok x /\ P x.
Proof.
  intros Ha HP Hi Hj.
  destruct (rect_row k d a i Ha Hi) as [row [Hrow Hlen]].
  rewrite (get2_row a i j row Hrow).
  destruct (nth_error row j) as [x|] eqn:E.
  - exists x. split; [reflexivity|].
    apply nth_error_In in Hrow. apply nth_error_In in E.
    rewrite Forall_forall in HP. specialize (HP row Hrow).
    rewrite Forall_forall in HP. apply HP. exact E.
  - apply nth_error_None in E. lia.
Qed.

Lemma get2_linspace (n_points : nat) (rep : mat) (i j : nat) :
  nth_error rep i = Some (linspace n_points) -> (j < n_points)%nat ->
  get2 rep i j = Ok (INR j / INR (n_points - 1)).
Proof.
  intros Hrow Hj. rewrite (get2_row rep i j _ Hrow).
  rewrite linspace_nth by exact Hj. reflexivity.
Qed.

Lemma row_is_linspace (n_points k : nat) (rep : mat) (i : nat) :
  rect k n_points rep -> (i < k)%nat ->
  (forall j, (j < n_points)%nat ->
     get2 rep i j = Ok (INR j / INR (n_points - 1))) ->
  nth_error rep i = Some (linspace n_points).
Proof.
  intros Hrect Hi Hall.
  destruct (rect_row k n_points rep i Hrect Hi) as [row [Hrow Hlen]].
  rewrite Hrow. f_equal. apply nth_error_ext. intros j.
  destruct (Nat.lt_ge_cases j n_points) as [Hj|Hj].
  - specialize (Hall j Hj). rewrite (get2_row rep i j row Hrow) in Hall.
    rewrite linspace_nth by exact Hj.
    destruct (nth_error row j) as [x|]; [|discriminate].
    injection Hall as ->. reflexivity.
  - transitivity (@None R).
    + apply nth_error_None. lia.
    + symmetry. apply nth_error_None. rewrite linspace_length. lia.
Qed.

Section IdentityGrid.

Variables (n_points n_times : nat) (vertical_norm space_deriv_norm : mat).
Hypothesis times_pos : (1 <= n_times)%nat.
Hypothesis points_two : (2 <= n_points)%nat.
Hypothesis vertical_shape : rect (n_times - 1) n_points vertical_norm.
Hypothesis space_shape : rect n_times n_points space_deriv_norm.
Hypothesis vertical_zero : Forall (Forall (fun x => x = 0)) vertical_norm.

Lemma identity_inner_step (i j : nat) (rep : mat) :
  (i < n_times - 1)%nat -> (1 <= j < 1 + (n_points - 2))%nat ->
  identity_row_upto n_points n_times i j rep ->
  exists rep',
    (rep_next <- get2 rep i (j + 1) ;;
     rep_here <- get2 rep i j ;;
     rep_prev <- get2 rep i (j - 1) ;;
     let d_rep_plus := rep_next - rep_here in
     let d_rep_minus := rep_here - rep_prev in
     vn <- get2 vertical_norm i j ;;
     let rep_space_deriv :=
       if Rgtb vn 0 then INR n_points * d_rep_plus
       else INR n_points * d_rep_minus in
     sdn <- get2 space_deriv_norm i j ;;
     let rep_time_deriv := rep_space_deriv * vn / sdn in
     set2 rep (i + 1) j (rep_here + rep_time_deriv / INR n_times)) = Ok rep'
    /\ identity_row_upto n_points n_times i (S j) rep'.
Proof.
  intros Hi Hj [[Hrect [Hrows Hlast]] Hupto].
  assert (Hrow : nth_error rep i = Some (linspace n_points))
    by (apply Hrows; lia).
  rewrite !(get2_linspace n_points rep i) by (try exact Hrow; lia).
  destruct (get2_Forall _ _ _ vertical_norm i j vertical_shape
              vertical_zero) as [vn [Hvn Hvn0]]; try lia.
  destruct (rect_get2 _ _ space_deriv_norm i j space_shape) as [d Hd];
    try lia.
  rewrite Hvn, Hd. cbn [bind]. cbv zeta. subst vn.
  match goal with
  | |- context [set2 rep (i + 1) j ?x] =>
      replace x with (INR j / INR (n_points - 1))
        by (unfold Rdiv; ring);
      destruct (set2_spec _ _ rep (i + 1) j (INR j / INR (n_points - 1))
                  Hrect)
        as [rep' [Hset [Hrect' [Hget [Hother Hsame]]]]]; try lia
  end.
  exists rep'. split; [exact Hset|]. split; [split; [|split]|].
  - exact Hrect'.
  - intros i' Hle Hi'. rewrite Hsame by lia. apply Hrows; assumption.
  - intros i' Hi'. rewrite Hother; [apply Hlast; exact Hi'|].
    intros E. injection E as _ E. lia.
  - intros j' Hj'. destruct (Nat.eq_dec j' j) as [->|Hne]; [exact Hget|].
    rewrite Hother; [apply Hupto; lia|].
    intros E. injection E as E. contradiction.
Qed.

Lemma identity_outer_step (i : nat) (rep : mat) :
  (i < n_times - 1)%nat ->
  identity_rows n_points n_times i rep ->
  exists rep',
    (rep_i_1 <- get2 rep i 1 ;;
     rep_i_0 <- get2 rep i 0 ;;
     let rep_space_deriv := INR n_points * (rep_i_1 - rep_i_0) in
     vn <- get2 vertical_norm i 0 ;;
     sdn <- get2 space_deriv_norm i 0 ;;
     let rep_time_deriv := rep_space_deriv * vn / sdn in
     rep <- set2 rep (i + 1) 0 (rep_i_0 + rep_time_deriv / INR n_times) ;;
     for_each (seq 1 (n_points - 2))
       (fun j rep =>
          rep_next <- get2 rep i (j + 1) ;;
          rep_here <- get2 rep i j ;;
          rep_prev <- get2 rep i (j - 1) ;;
          let d_rep_plus := rep_next - rep_here in
          let d_rep_minus := rep_here - rep_prev in
          vn <- get2 vertical_norm i j ;;
          let rep_space_deriv :=
            if Rgtb vn 0 then INR n_points * d_rep_plus
            else INR n_points * d_rep_minus in
          sdn <- get2 space_deriv_norm i j ;;
          let rep_time_deriv := rep_space_deriv * vn / sdn in
          set2 rep (i + 1) j (rep_here + rep_time_deriv / INR n_times))
       rep) = Ok rep'
    /\ identity_rows n_points n_times (S i) rep'.
Proof.
  intros Hi [Hrect [Hrows Hlast]].
  assert (Hrow : nth_error rep i = Some (linspace n_points))
    by (apply Hrows; lia).
  rewrite !(get2_linspace n_points rep i) by (try exact Hrow; lia).
  destruct (get2_Forall _ _ _ vertical_norm i 0 vertical_shape
              vertical_zero) as [vn [Hvn Hvn0]]; try lia.
  destruct (rect_get2 _ _ space_deriv_norm i 0 space_shape) as [d Hd];
    try lia.
  rewrite Hvn, Hd. cbn [bind]. cbv zeta. subst vn.
  match goal with
  | |- context [set2 rep (i + 1) 0 ?x] =>
      replace x with (INR 0 / INR (n_points - 1))
        by (unfold Rdiv; ring);
      destruct (set2_spec _ _ rep (i + 1) 0 (INR 0 / INR (n_points - 1))
                  Hrect)
        as [rep1 [Hset [Hrect1 [Hget [Hother Hsame]]]]]; try lia
  end.
  rewrite Hset. cbn [bind].
  assert (Hinv1 : identity_row_upto n_points n_times i 1 rep1).
  { split; [split; [|split]|].
    - exact Hrect1.
    - intros i' Hle Hi'. rewrite Hsame by lia. apply Hrows; assumption.
    - intros i' Hi'. rewrite Hother; [apply Hlast; exact Hi'|].
      intros E. injection E as _ E. lia.
    - intros j' Hj'. assert (j' = 0)%nat by lia. subst j'. exact Hget. }
  destruct (for_each_seq_invariant
              (fun j t => identity_row_upto n_points n_times i j t)
              (fun j rep =>
                 rep_next <- get2 rep i (j + 1) ;;
                 rep_here <- get2 rep i j ;;
                 rep_prev <- get2 rep i (j - 1) ;;
                 let d_rep_plus := rep_next - rep_here in
                 let d_rep_minus := rep_here - rep_prev in
                 vn <- get2 vertical_norm i j ;;
                 let rep_space_deriv :=
                   if Rgtb vn 0 then INR n_points * d_rep_plus
                   else INR n_points * d_rep_minus in
                 sdn <- get2 space_deriv_norm i j ;;
                 let rep_time_deriv := rep_space_deriv * vn / sdn in
                 set2 rep (i + 1) j
                   (rep_here + rep_time_deriv / INR n_times))
              1 (n_points - 2) rep1 Hinv1)
    as [rep' [Hrun [[Hrect' [Hrows' Hlast']] Hupto']]].
  - intros j t Hj Ht. apply identity_inner_step; assumption.
  - exists rep'. split; [exact Hrun|]. split; [exact Hrect'|].
    split; [|exact Hlast'].
    intros i' Hle Hi'.
    destruct (Nat.eq_dec i' (S i)) as [->|Hne];
      [|apply Hrows'; [lia | exact Hi']].
    apply (row_is_linspace n_points n_times); [exact Hrect' | exact Hi'|].
    intros j Hj.
    destruct (Nat.eq_dec j (n_points - 1)) as [->|Hjn].
    + rewrite Hlast' by exact Hi'. f_equal. symmetry.
      apply Rdiv_diag. apply not_0_INR. lia.
    + replace (S i) with (i + 1)%nat by lia. apply Hupto'. lia.
Qed.

Lemma identity_grid :
  construct_reparametrization n_points n_times vertical_norm
    space_deriv_norm
  = Ok (repeat (linspace n_points) n_times).
Proof.
  unfold construct_reparametrization.
  destruct (Nat.eqb_spec n_times 0) as [E|_]; [lia|].
  destruct (Nat.eqb_spec n_points 0) as [E|_]; [lia|].
  cbv zeta.
  pose proof (grid_init n_points n_times times_pos points_two)
    as [Hrect0 [Hrow0 [Hlast0 _]]].
  match type of Hrect0 with
  | rect _ _ ?init =>
      assert (Hinit : identity_rows n_points n_times 0 init)
  end.
  { split; [exact Hrect0|]. split; [|exact Hlast0].
    intros i Hle _. assert (i = 0)%nat by lia. subst i. exact Hrow0. }
  destruct (for_each_seq_invariant
              (fun k t => identity_rows n_points n_times k t)
              (fun i rep =>
                 rep_i_1 <- get2 rep i 1 ;;
                 rep_i_0 <- get2 rep i 0 ;;
                 let rep_space_deriv := INR n_points * (rep_i_1 - rep_i_0) in
                 vn <- get2 vertical_norm i 0 ;;
                 sdn <- get2 space_deriv_norm i 0 ;;
                 let rep_time_deriv := rep_space_deriv * vn / sdn in
                 rep <- set2 rep (i + 1) 0
                          (rep_i_0 + rep_time_deriv / INR n_times) ;;
                 for_each (seq 1 (n_points - 2))
                   (fun j rep =>
                      rep_next <- get2 rep i (j + 1) ;;
                      rep_here <- get2 rep i j ;;
                      rep_prev <- get2 rep i (j - 1) ;;
                      let d_rep_plus := rep_next - rep_here in
                      let d_rep_minus := rep_here - rep_prev in
                      vn <- get2 vertical_norm i j ;;
                      let rep_space_deriv :=
                        if Rgtb vn 0 then INR n_points * d_rep_plus
                        else INR n_points * d_rep_minus in
                      sdn <- get2 space_deriv_norm i j ;;
                      let rep_time_deriv := rep_space_deriv * vn / sdn in
                      set2 rep (i + 1) j
                        (rep_here + rep_time_deriv / INR n_times))
                   rep)
              0 (n_times - 1) _ Hinit) as [rep [Hrun [Hrect [Hrows _]]]].
  - intros i t Hi Ht. apply identity_outer_step; [lia | exact Ht].
  - transitivity (Ok rep); [exact Hrun|].
    f_equal. apply nth_error_ext. intros i.
    destruct (Nat.lt_ge_cases i n_times) as [Hi|Hi].
    + rewrite Hrows by lia. symmetry. apply nth_error_repeat. exact Hi.
    + transitivity (@None vec).
      * apply nth_error_None. destruct Hrect as [Hl _].
        unfold mat, vec in *. lia.
      * symmetry. apply nth_error_None. rewrite repeat_length. lia.
Qed.

End IdentityGrid.

(** X17: a path without vertical component is not reparametrized.  When
    every entry of the vertical norm is zero, every row of the grid that
    [construct_reparametrization] returns is the uniform grid on [0, 1]. *)
Theorem reparametrization_identity (n_points n_times : nat)
    (vertical_norm space_deriv_norm : mat) :
  (1 <= n_times)%nat ->
  (2 <= n_points)%nat ->
  rect (n_times - 1) n_points vertical_norm ->
  rect n_times n_points space_deriv_norm ->
  Forall (Forall (fun x => x = 0)) vertical_norm ->
  Forall (Forall (fun x => x <> 0)) space_deriv_norm ->
  construct_reparametrization n_points n_times vertical_norm
    space_deriv_norm
  = Ok (repeat (linspace n_points) n_times).
Proof.
  intros Ht Hp Hv Hs Hzero _. apply identity_grid; assumption.
Qed.

Lemma reparametrization_identity_witness :
  construct_reparametrization 3 3 [[0; 0; 0]; [0; 0; 0]]
    [[1; 2; 1]; [1; 1; 3]; [2; 1; 1]]
  = Ok (repeat (linspace 3) 3).
Proof.
  apply reparametrization_identity.
  - lia.
  - lia.
  - split; [reflexivity | repeat constructor].
  - split; [reflexivity | repeat constructor].
  - repeat constructor.
  - repeat (apply Forall_cons; [repeat (apply Forall_cons; [lra|]);
                               apply Forall_nil|]).
    apply Forall_nil.
Defined.

(** X18: the grid at the limits of its sizes.  Without a time the array of
    time derivatives would have a negative size, which is an error of
    values; without a sampling point there is no last column to set, and
    with a single one there is no second column to read when a second time
    is computed, which are errors of index; with a single time the loops do
    not run and the grid is its first row, the uniform grid with its last
    entry set to one. *)
Theorem reparametrization_sizes (vertical_norm space_deriv_norm : mat) :
  (forall n_points,
     construct_reparametrization n_points 0 vertical_norm space_deriv_norm
     = Raise ValueError)
  /\ (forall n_times,
        (1 <= n_times)%nat ->
        construct_reparametrization 0 n_times vertical_norm space_deriv_norm
        = Raise IndexError)
  /\ (forall n_times,
        (2 <= n_times)%nat ->
        construct_reparametrization 1 n_times vertical_norm space_deriv_norm
        = Raise IndexError)
  /\ (forall n_points,
        (1 <= n_points)%nat ->
        construct_reparametrization n_points 1 vertical_norm space_deriv_norm
        = Ok [set_nth (n_points - 1) 1 (linspace n_points)]).
Proof.
  split; [|split; [|split]].
  - intros n_points. reflexivity.
  - intros n_times Ht. unfold construct_reparametrization.
    destruct (Nat.eqb_spec n_times 0) as [E|_]; [lia | reflexivity].
  - intros n_times Ht. unfold construct_reparametrization.
    destruct (Nat.eqb_spec n_times 0) as [E|_]; [lia|].
    cbv zeta. cbn [Nat.eqb].
    destruct n_times as [|[|k]]; try lia.
    reflexivity.
  - intros n_points Hp. unfold construct_reparametrization.
    cbn [Nat.eqb]. cbv zeta.
    destruct (Nat.eqb_spec n_points 0) as [E|_]; [lia|].
    reflexivity.
Qed.

Lemma reparametrization_sizes_witness :
  construct_reparametrization 0 2 [[0]] [[1]; [1]] = Raise IndexError
  /\ construct_reparametrization 1 2 [[0]] [[1]; [1]] = Raise IndexError
  /\ construct_reparametrization 3 1 [[0]] [[1]; [1]]
     = Ok [set_nth (3 - 1) 1 (linspace 3)].
Proof.
  split; [|split].
  - apply (proj1 (proj2 (reparametrization_sizes [[0]] [[1]; [1]])) 2%nat).
    lia.
  - apply (proj1 (proj2 (proj2 (reparametrization_sizes [[0]] [[1]; [1]])))
             2%nat).
    lia.
  - apply (proj2 (proj2 (proj2 (reparametrization_sizes [[0]] [[1]; [1]])))
             3%nat).
    lia.
Defined.

(** ** The shape of the horizontal and the vertical part *)

Lemma madd_msub_cancel (d : nat) (t v : mat) :
  length t = length v ->
  Forall (fun r => length r = d) t ->
  Forall (fun r => length r = d) v ->
  madd (msub t v) v = t.
Proof.
  intros Hlen Ht. revert v Hlen. unfold madd, msub.
  induction Ht as [|r t Hr Ht IH]; intros [|s v] Hlen Hv; simpl in Hlen;
    try discriminate; [reflexivity|].
  apply Forall_cons_iff in Hv. destruct Hv as [Hs Hv].
  rewrite !zip_with_cons. f_equal; [|apply IH; [lia | exact Hv]].
  unfold vadd, vsub, zip_with. clear - Hr Hs. revert s d Hr Hs.
  induction r as [|x r IHr]; intros [|y s] d Hr Hs; simpl in *;
    try reflexivity; try (subst d; discriminate).
  f_equal; [lra|]. apply (IHr s (pred d)); lia.
Qed.

Lemma vsub_zeros (t : vec) : vsub t (repeat 0 (length t)) = t.
Proof.
  unfold vsub, zip_with. induction t as [|x t IH]; [reflexivity|].
  cbn [length repeat combine map fst snd]. f_equal; [lra | exact IH].
Qed.

Lemma last_app_single {A : Type} (l : list A) (x d : A) :
  last (l ++ [x]) d = x.
Proof. apply last_last. Qed.



(** ** The logarithm of a curve at itself *)

(** X20: the logarithm of a curve at itself is the zero tangent vector,
    for a curve of at least three sampling points and positive segment
    speeds in a Euclidean space. *)
Theorem log_of_itself (dim n d : nat) (c : mat) :
  rect n d c -> (3 <= n)%nat -> positive_speeds c ->
  log (EuclideanMetric dim) (Arr2 c) (Arr2 c)
  = Ok (Arr3 [repeat (repeat 0 d) n]).
Proof.
  intros Hc Hn Hpc.
  set (z := repeat (repeat 0 d) n).
  assert (Hz : rect n d z).
  { split; [apply repeat_length|].
    apply Forall_repeat. apply repeat_length. }
  assert (Hz0 : Forall all_zero z).
  { apply Forall_repeat. apply all_zero_repeat. }
  destruct (log_of_exp_single dim n d z c Hz Hc Hn Hpc)
    as [e [Hexp [_ Hlog]]].
  rewrite (exp_of_zero_single dim n d z c Hz Hz0 Hc Hn Hpc) in Hexp.
  injection Hexp as <-.
  exact (Hlog Hpc).
Qed.

Lemma log_of_itself_witness :
  log (EuclideanMetric 2) (Arr2 [[0; 0]; [1; 0]; [2; 0]])
    (Arr2 [[0; 0]; [1; 0]; [2; 0]])
  = Ok (Arr3 [repeat (repeat 0 2) 3]).
Proof.
  apply (log_of_itself 2 3 2 [[0; 0]; [1; 0]; [2; 0]]).
  - split; [reflexivity | repeat constructor].
  - lia.
  - exact positive_speeds_line.
Defined.

(** ** The norm of an SRV representation and the length of the curve *)

Lemma rsum_map_scale (a : R) (l : list R) :
  rsum (map (Rmult a) l) = a * rsum l.
Proof.
  induction l as [|x l IH]; simpl; [lra|]. rewrite IH. lra.
Qed.

Lemma segment_norm_sq (dim : nat) (coef : R) (p q : vec) :
  0 < coef ->
  0 < sqrt (dot (vsub p q) (vsub p q)) ->
  let s := srv_segment (EuclideanMetric dim) coef p q in
  dot s s = coef * sqrt (dot (vsub p q) (vsub p q)).
Proof.
  intros Hcoef Hspeed s. subst s. unfold srv_segment, metric_norm.
  cbn [metric_log metric_inner_product]. cbv zeta.
  set (w := vsub p q) in *.
  rewrite norm_vscale by lra.
  set (nv := coef * sqrt (dot w w)).
  assert (Hnv : 0 < nv) by (apply Rmult_lt_0_compat; assumption).
  rewrite dot_vscale.
  assert (E : dot (vscale coef w) (vscale coef w) = nv * nv).
  { rewrite dot_vscale. unfold nv.
    pose proof (dot_self_nonneg w) as H0.
    pose proof (sqrt_sqrt (dot w w) H0) as Hs.
    replace (coef * sqrt (dot w w) * (coef * sqrt (dot w w)))
      with (coef * coef * (sqrt (dot w w) * sqrt (dot w w))) by ring.
    rewrite Hs. reflexivity. }
  rewrite E.
  assert (Hs : sqrt nv * sqrt nv = nv) by (apply sqrt_sqrt; lra).
  assert (Hsp : 0 < sqrt nv) by (apply sqrt_lt_R0; exact Hnv).
  transitivity (nv * nv / (sqrt nv * sqrt nv)); [field; lra|].
  rewrite Hs. field. lra.
Qed.

Lemma srv_norm_of_curve (dim n d : nat) (c : mat) :
  rect n d c -> (2 <= n)%nat -> positive_speeds c ->
  let m := EuclideanMetric dim in
  srv_norm m (srv_of_curve m c) ^ 2 = curve_length c.
Proof.
  intros [Hn Hd] Hn2 Hpos m.
  assert (Hcoef : 0 < INR (n - 1)) by (apply lt_0_INR; lia).
  unfold m. rewrite srv_norm_sq. unfold srv_inner_product.
  rewrite l2_inner_self_rows, srv_of_curve_length, Hn.
  assert (E : map (fun r => dot r r) (srv_of_curve (EuclideanMetric dim) c)
              = map (Rmult (INR (n - 1))) (segment_speeds c)).
  { unfold srv_of_curve, segment_speeds. rewrite !map_zip_with.
    apply (zip_with_ext_Forall (fun s => 0 < s)
             (fun p q => sqrt (dot (vsub p q) (vsub p q)))).
    - exact Hpos.
    - intros p q Hs. rewrite Hn.
      apply (segment_norm_sq dim (INR (n - 1)) p q Hcoef Hs). }
  rewrite E, rsum_map_scale. unfold curve_length. field. lra.
Qed.

Lemma length_of_rebuilt (dim k d : nat) (q : mat) (p0 : vec) :
  rect k d q -> (1 <= k)%nat -> length p0 = d ->
  let m := EuclideanMetric dim in
  let delta := map (fun s => vscale (1 / INR k * metric_norm m s []) s) q in
  curve_length (p0 :: cumsum_from p0 delta) = srv_norm m q ^ 2.
Proof.
  intros [Hk Hd] Hk1 Hp0 m delta.
  assert (Hcoef : 0 < INR k) by (apply lt_0_INR; lia).
  unfold m. rewrite srv_norm_sq. unfold srv_inner_product.
  rewrite l2_inner_self_rows, Hk.
  unfold curve_length, segment_speeds, drop_first, drop_last. cbn [tl].
  assert (Hdelta : Forall (fun r => length r = d) delta).
  { unfold delta. apply Forall_map. eapply Forall_impl; [|exact Hd].
    intros s Hs. cbv beta. rewrite vscale_length. exact Hs. }
  rewrite (zip_cumsum _ (fun r => sqrt (dot r r)) d); try assumption.
  2:{ intros a r Ha Hr. rewrite vsub_vadd_l by congruence. reflexivity. }
  unfold delta. rewrite map_map.
  assert (E : map (fun s => sqrt (dot (vscale (1 / INR k
                                               * metric_norm m s []) s)
                                      (vscale (1 / INR k
                                               * metric_norm m s []) s)))
                  q
              = map (Rmult (1 / INR k)) (map (fun r => dot r r) q)).
  { rewrite map_map. apply map_ext. intros s.
    unfold m, metric_norm. cbn [metric_inner_product].
    pose proof (dot_self_nonneg s) as H0.
    pose proof (sqrt_pos (dot s s)) as Hs0.
    rewrite norm_vscale.
    - pose proof (sqrt_sqrt (dot s s) H0) as Hs.
      replace (1 / INR k * sqrt (dot s s) * sqrt (dot s s))
        with (1 / INR k * (sqrt (dot s s) * sqrt (dot s s))) by ring.
      rewrite Hs. reflexivity.
    - apply Rmult_le_pos; [|exact Hs0].
      apply Rlt_le. apply Rdiv_lt_0_compat; lra. }
  rewrite E, rsum_map_scale. field. lra.
Qed.

(** X21: the squared SRV norm is the length of the curve.  The SRV norm of
    the transform of a curve with positive segment speeds in a Euclidean
    space, squared, is the length of the polygon through its sampling
    points; and the curve that the inverse transform rebuilds from an SRV
    representation has the squared SRV norm of the representation as its
    length. *)
Theorem srv_norm_is_length (dim : nat) :
  let m := EuclideanMetric dim in
  (forall n d c,
     rect n d c -> (2 <= n)%nat -> positive_speeds c ->
     square_root_velocity m (Arr2 c) = Ok (Arr3 [srv_of_curve m c])
     /\ srv_norm m (srv_of_curve m c) ^ 2 = curve_length c)
  /\ (forall k d q p0,
        rect k d q -> (1 <= k)%nat -> length p0 = d ->
        exists c,
          square_root_velocity_inverse m (Arr2 q) (Arr2 [p0]) = Ok (Arr2 c)
          /\ curve_length c = srv_norm m q ^ 2).
Proof.
  intros m. split.
  - intros n d c Hc Hn Hpos. split.
    + apply square_root_velocity_single. destruct Hc as [-> _]. lia.
    + apply (srv_norm_of_curve dim n d); assumption.
  - intros k d q p0 Hq Hk Hp0.
    assert (Hl : length q = k) by apply Hq.
    eexists. split.
    + unfold m. apply inverse_single.
      * intros E. rewrite E in Hl. simpl in Hl. lia.
      * destruct q as [|s0 q']; [simpl in Hl; lia|].
        cbn [map cols_agree]. rewrite vscale_length.
        destruct Hq as [_ Hd]. apply Forall_cons_iff in Hd.
        destruct Hd as [-> _]. rewrite Hp0. apply Nat.eqb_refl.
    + rewrite Hl. apply (length_of_rebuilt dim k d); assumption.
Qed.

Lemma srv_norm_is_length_witness :
  let m := EuclideanMetric 2 in
  let c := [[0; 0]; [1; 0]; [2; 0]] in
  (square_root_velocity m (Arr2 c) = Ok (Arr3 [srv_of_curve m c])
   /\ srv_norm m (srv_of_curve m c) ^ 2 = curve_length c)
  /\ exists c',
       square_root_velocity_inverse m (Arr2 [[1; 0]; [0; 2]]) (Arr2 [[5; 7]])
       = Ok (Arr2 c')
       /\ curve_length c' = srv_norm m [[1; 0]; [0; 2]] ^ 2.
Proof.
  split.
  - apply (proj1 (srv_norm_is_length 2) 3%nat 2%nat
             [[0; 0]; [1; 0]; [2; 0]]).
    + split; [reflexivity | repeat constructor].
    + lia.
    + exact positive_speeds_line.
  - apply (proj2 (srv_norm_is_length 2) 2%nat 2%nat [[1; 0]; [0; 2]]
             [5; 7]).
    + split; [reflexivity | repeat constructor].
    + lia.
    + reflexivity.
Defined.

(** ** The projection keeps the length of the curve *)

Lemma float_run_keeps_norm (srv : mat) (atol : R) (max_iter : Z)
    (fuel : nat) (s_final : newton_state) :
  let m := EuclideanMetric 2 in
  project_srv_float fuel m srv atol max_iter = Some (Ok (Finite s_final)) ->
  srv_norm m (proj s_final) = srv_norm m srv.
Proof.
  intros m Hrun. subst m. unfold project_srv_float in Hrun.
  change (negb (is_planar_metric (EuclideanMetric 2))) with false in Hrun.
  cbv iota zeta in Hrun.
  set (N := srv_norm (EuclideanMetric 2) srv) in *.
  assert (HN : 0 <= N) by apply srv_norm_nonneg.
  apply float_loop_last in Hrun. destruct Hrun as [E|[s [_ Hbody]]].
  - injection E as ->. reflexivity.
  - apply newton_step_float_finite in Hbody.
    destruct Hbody as [Hs' [updated [Hup Hnz]]].
    destruct (newton_step_spec (EuclideanMetric 2) N s updated Hup)
      as [s1 [Hs1 [Hproj _]]].
    rewrite Hs' in Hs1. injection Hs1 as <-.
    rewrite Hproj. apply renormalised_norm; assumption.
Qed.

(** X22: the projection onto closed curves keeps the length of the curve.
    For a planar curve with positive segment speeds on which the Newton
    loop ends with numbers (no quotient of it was [0 / 0]), [project]
    returns a curve, and the polygon through its sampling points is as
    long as the one of the input. *)
Theorem project_keeps_length (fuel n : nat) (c : mat) (atol : R)
    (max_iter : Z) (s : newton_state) :
  let m := EuclideanMetric 2 in
  rect n 2 c -> (2 <= n)%nat -> positive_speeds c ->
  project_srv_float fuel m (srv_of_curve m c) atol max_iter
  = Some (Ok (Finite s)) ->
  exists c',
    project fuel (Euclidean 2) (Arr2 c) atol max_iter = Some (Ok (Arr2 c'))
    /\ rect n 2 c'
    /\ curve_length c' = curve_length c.
Proof.
  intros m Hc Hn Hpos Hfloat.
  assert (Hlen : length c = n) by apply Hc.
  destruct (project_srv_float_finite _ _ _ _ _ _ Hfloat) as [Hloop Hsrv].
  pose proof (float_run_keeps_norm _ _ _ _ _ Hfloat) as Hnorm.
  cbv zeta in Hnorm. fold m in Hnorm.
  assert (Hrect : rect (n - 1) 2 (proj s)).
  { unfold project_srv_loop in Hloop.
    change (negb (is_planar_metric m)) with false in Hloop.
    cbv iota zeta in Hloop.
    eapply rect_newton_loop; [| |exact Hloop].
    - cbn [newton_init proj]. apply rect_srv_of_curve. exact Hc.
    - cbn [newton_init proj_norms]. rewrite length_map.
      rewrite srv_of_curve_length, Hlen. reflexivity. }
  assert (Hl : length (proj s) = (n - 1)%nat) by apply Hrect.
  unfold project.
  change (negb (is_planar_manifold (Euclidean 2))) with false.
  cbv iota zeta. cbn [manifold_metric]. fold m.
  rewrite square_root_velocity_single by lia.
  cbn [bind]. rewrite as_tensor_3. cbn [bind].
  rewrite Hsrv.
  assert (Hfirst : exists p0,
            first_slice (Arr2 c) = Ok (Arr1 p0) /\ length p0 = 2%nat).
  { destruct Hc as [_ Hcd]. destruct c as [|p0 c0].
    - simpl in Hlen. lia.
    - apply Forall_cons_iff in Hcd. exists p0.
      split; [reflexivity | apply Hcd]. }
  destruct Hfirst as [p0 [Hfirst Hp0]].
  rewrite Hfirst. cbn [array_of_one bind].
  unfold m. rewrite inverse_single.
  - eexists. split; [reflexivity|]. fold m. split.
    + split.
      * cbn [length]. rewrite cumsum_from_length, length_map.
        unfold mat, vec in *. lia.
      * constructor; [exact Hp0|].
        apply (cumsum_from_rows 2); [exact Hp0|].
        apply Forall_map. destruct Hrect as [_ Hd].
        eapply Forall_impl; [|exact Hd].
        intros row Hrow. cbv beta. rewrite vscale_length. exact Hrow.
    + rewrite Hl.
      rewrite (length_of_rebuilt 2 (n - 1) 2) by (try assumption; lia).
      unfold m in *. rewrite Hnorm.
      apply (srv_norm_of_curve 2 n 2); assumption.
  - intros E. rewrite E in Hl. simpl in Hl. lia.
  - destruct (proj s) as [|row rows]; [simpl in Hl; lia|].
    cbn [map cols_agree]. rewrite vscale_length.
    destruct Hrect as [_ Hd]. apply Forall_cons_iff in Hd.
    destruct Hd as [-> _]. rewrite Hp0. reflexivity.
Qed.

Lemma segment_unit_run :
  exists s',
    project_srv_float 2 (EuclideanMetric 2) [[1; 0]] (1 / 1000) 1
    = Some (Ok (Finite s')).
Proof.
  destruct segment_unit_step as [s' [Hstep Hnb]].
  exists s'. unfold project_srv_float.
  change (negb (is_planar_metric (EuclideanMetric 2))) with false.
  cbv iota zeta.
  cbn [while_loop newton_cond_float newton_body_float].
  rewrite Hstep.
  rewrite (segment_init 1) by lra.
  assert (Hcond : newton_cond (1 / 1000) 1
                    {| proj := [[1; 0]]; proj_norms := [1];
                       residual := [1 * 1; 0];
                       criteria := 1 * 1; nb_iter := 0 |}
                  = true).
  { unfold newton_cond. cbn [criteria nb_iter]. unfold Rgeb.
    destruct (Rge_dec (1 * 1) (1 / 1000)); [reflexivity | lra]. }
  rewrite Hcond. cbn [while_loop newton_cond_float].
  unfold newton_cond. rewrite Hnb.
  rewrite andb_false_r. reflexivity.
Qed.

Lemma positive_speeds_segment : positive_speeds [[0; 0]; [1; 0]].
Proof.
  unfold positive_speeds, segment_speeds, drop_first, drop_last. simpl.
  constructor; [|constructor].
  apply sqrt_lt_R0. unfold dot, vsub, zip_with. simpl. lra.
Qed.

Lemma srv_of_segment :
  srv_of_curve (EuclideanMetric 2) [[0; 0]; [1; 0]] = [[1; 0]].
Proof.
  unfold srv_of_curve, srv_segment, drop_first, drop_last, metric_norm.
  simpl. rewrite zip_with_single.
  replace (dot (vscale 1 (vsub [1; 0] [0; 0])) (vscale 1 (vsub [1; 0] [0; 0])))
    with 1 by (unfold dot, vscale, vsub, zip_with; simpl; lra).
  rewrite !sqrt_1. unfold vscale, vsub, zip_with. simpl.
  reals_in_lists_field.
Qed.

Lemma project_keeps_length_witness :
  exists c',
    project 2 (Euclidean 2) (Arr2 [[0; 0]; [1; 0]]) (1 / 1000) 1
    = Some (Ok (Arr2 c'))
    /\ rect 2 2 c'
    /\ curve_length c' = curve_length [[0; 0]; [1; 0]].
Proof.
  destruct segment_unit_run as [s' Hrun].
  apply (project_keeps_length 2 2 [[0; 0]; [1; 0]] (1 / 1000) 1 s').
  - split; [reflexivity | repeat constructor].
  - lia.
  - exact positive_speeds_segment.
  - rewrite srv_of_segment. exact Hrun.
Defined.

(** ** The stencil of the space derivative *)

Lemma lin_comb_length (d : nat) (row : vec) (c : mat) :
  Forall (fun p => length p = d) c -> length (lin_comb d row c) = d.
Proof.
  intros Hc. unfold lin_comb, sum_rows. revert row.
  induction Hc as [|p c Hp Hc IH]; intros [|x row].
  - apply repeat_length.
  - apply repeat_length.
  - apply repeat_length.
  - rewrite zip_with_cons. cbn [fold_right].
    rewrite vadd_length, vscale_length, Hp, IH. apply Nat.min_id.
Qed.

Lemma lin_comb_cons (d : nat) (x : R) (row p : vec) (c : mat) :
  lin_comb d (x :: row) (p :: c) = vadd (vscale x p) (lin_comb d row c).
Proof. reflexivity. Qed.

Lemma vadd_exchange (a1 a2 b1 b2 : vec) :
  length a1 = length a2 -> length a1 = length b1 -> length a1 = length b2 ->
  vadd (vadd a1 a2) (vadd b1 b2) = vadd (vadd a1 b1) (vadd a2 b2).
Proof.
  unfold vadd, zip_with. revert a2 b1 b2.
  induction a1 as [|x a1 IH]; intros [|y a2] [|z b1] [|w b2] H1 H2 H3;
    simpl in *; try discriminate; [reflexivity|].
  f_equal; [lra | apply IH; lia].
Qed.

Lemma vsub_exchange (a1 a2 b1 b2 : vec) :
  length a1 = length a2 -> length a1 = length b1 -> length a1 = length b2 ->
  vsub (vadd a1 a2) (vadd b1 b2) = vadd (vsub a1 b1) (vsub a2 b2).
Proof.
  unfold vadd, vsub, zip_with. revert a2 b1 b2.
  induction a1 as [|x a1 IH]; intros [|y a2] [|z b1] [|w b2] H1 H2 H3;
    simpl in *; try discriminate; [reflexivity|].
  f_equal; [lra | apply IH; lia].
Qed.

Lemma vscale_plus (x y : R) (p : vec) :
  vscale (x + y) p = vadd (vscale x p) (vscale y p).
Proof.
  unfold vscale, vadd, zip_with. induction p as [|a p IH]; [reflexivity|].
  cbn [map combine fst snd]. f_equal; [lra | exact IH].
Qed.

Lemma vscale_minus (x y : R) (p : vec) :
  vscale (x - y) p = vsub (vscale x p) (vscale y p).
Proof.
  unfold vscale, vsub, zip_with. induction p as [|a p IH]; [reflexivity|].
  cbn [map combine fst snd]. f_equal; [lra | exact IH].
Qed.

Lemma vadd_zeros (d : nat) : vadd (repeat 0 d) (repeat 0 d) = repeat 0 d.
Proof.
  unfold vadd, zip_with. induction d as [|d IH]; [reflexivity|].
  cbn [repeat combine map fst snd]. f_equal; [lra | exact IH].
Qed.

Lemma vsub_zeros_self (d : nat) : vsub (repeat 0 d) (repeat 0 d) = repeat 0 d.
Proof. rewrite vsub_self, repeat_length. reflexivity. Qed.

Lemma lin_comb_vadd (d : nat) (r1 r2 : vec) (c : mat) :
  length r1 = length r2 ->
  Forall (fun p => length p = d) c ->
  lin_comb d (vadd r1 r2) c = vadd (lin_comb d r1 c) (lin_comb d r2 c).
Proof.
  intros Hlen Hc. revert r1 r2 Hlen.
  induction Hc as [|p c Hp Hc IH]; intros [|x r1] [|y r2] Hlen;
    simpl in Hlen; try discriminate;
    try (unfold lin_comb, sum_rows; cbn; symmetry; apply vadd_zeros).
  change (vadd (x :: r1) (y :: r2)) with ((x + y) :: vadd r1 r2).
  rewrite !lin_comb_cons, IH by lia.
  rewrite vscale_plus. apply vadd_exchange.
  - rewrite !vscale_length. reflexivity.
  - rewrite vscale_length, lin_comb_length by exact Hc. exact Hp.
  - rewrite vscale_length, lin_comb_length by exact Hc. exact Hp.
Qed.

Lemma lin_comb_vsub (d : nat) (r1 r2 : vec) (c : mat) :
  length r1 = length r2 ->
  Forall (fun p => length p = d) c ->
  lin_comb d (vsub r1 r2) c = vsub (lin_comb d r1 c) (lin_comb d r2 c).
Proof.
  intros Hlen Hc. revert r1 r2 Hlen.
  induction Hc as [|p c Hp Hc IH]; intros [|x r1] [|y r2] Hlen;
    simpl in Hlen; try discriminate;
    try (unfold lin_comb, sum_rows; cbn; symmetry; apply vsub_zeros_self).
  change (vsub (x :: r1) (y :: r2)) with ((x - y) :: vsub r1 r2).
  rewrite !lin_comb_cons, IH by lia.
  rewrite vscale_minus. symmetry. apply vsub_exchange.
  - rewrite vscale_length, lin_comb_length by exact Hc. exact Hp.
  - rewrite !vscale_length. reflexivity.
  - rewrite vscale_length, lin_comb_length by exact Hc. exact Hp.
Qed.

Lemma vadd_all_zero_l (z q : vec) :
  all_zero z -> length z = length q -> vadd z q = q.
Proof.
  unfold all_zero, vadd, zip_with. intros Hz. revert q.
  induction Hz as [|x z Hx Hz IH]; intros [|y q] Hlen; simpl in Hlen;
    try discriminate; [reflexivity|].
  cbn [combine map fst snd]. f_equal; [lra | apply IH; lia].
Qed.

Lemma lin_comb_zero (d : nat) (row : vec) (c : mat) :
  all_zero row ->
  Forall (fun p => length p = d) c ->
  lin_comb d row c = repeat 0 d.
Proof.
  intros Hrow Hc. revert row Hrow.
  induction Hc as [|p c Hp Hc IH]; intros row Hrow.
  - destruct row; reflexivity.
  - destruct Hrow as [|x row Hx Hrow]; [reflexivity|].
    rewrite lin_comb_cons, IH by exact Hrow. subst x.
    apply vadd_all_zero_l.
    + apply all_zero_vscale_zero.
    + rewrite vscale_length, repeat_length. exact Hp.
Qed.

Lemma lin_comb_zero_head (d : nat) (row p : vec) (c : mat) :
  length p = d ->
  Forall (fun q => length q = d) c ->
  lin_comb d (0 :: row) (p :: c) = lin_comb d row c.
Proof.
  intros Hp Hc. rewrite lin_comb_cons. apply vadd_all_zero_l.
  - apply all_zero_vscale_zero.
  - rewrite vscale_length, lin_comb_length by exact Hc. exact Hp.
Qed.

Lemma lin_comb_zero_last (d : nat) (row p : vec) (c : mat) :
  length row = length c ->
  length p = d ->
  Forall (fun q => length q = d) c ->
  lin_comb d (row ++ [0]) (c ++ [p]) = lin_comb d row c.
Proof.
  intros Hlen Hp Hc. revert row Hlen.
  induction Hc as [|q c Hq Hc IH]; intros [|x row] Hlen; simpl in Hlen;
    try discriminate.
  - cbn [app]. rewrite lin_comb_cons.
    change (lin_comb d [] []) with (repeat 0 d).
    apply vadd_all_zero_l.
    + apply all_zero_vscale_zero.
    + rewrite vscale_length, repeat_length. exact Hp.
  - cbn [app]. rewrite !lin_comb_cons, IH by lia. reflexivity.
Qed.

(** The product of a diagonal matrix with a curve scales the rows. *)
Lemma lin_comb_indicator (d : nat) (a : R) (c : mat) (s i : nat) :
  Forall (fun p => length p = d) c ->
  (s <= i < s + length c)%nat ->
  lin_comb d (map (fun j => if Nat.eqb i j then a else 0)
                  (seq s (length c))) c
  = vscale a (nth (i - s) c (repeat 0 d)).
Proof.
  intros Hc. revert s.
  induction Hc as [|p c Hp Hc IH]; intros s Hi; [simpl in Hi; lia|].
  cbn [length seq map]. rewrite lin_comb_cons.
  destruct (Nat.eqb_spec i s) as [->|Hne].
  - rewrite Nat.sub_diag. cbn [nth].
    rewrite lin_comb_zero.
    + apply vadd_all_zero_r; [apply all_zero_repeat|].
      rewrite repeat_length, vscale_length. symmetry. exact Hp.
    + unfold all_zero. apply Forall_map. apply Forall_forall.
      intros j Hj. apply in_seq in Hj.
      destruct (Nat.eqb_spec s j); [lia | reflexivity].
    + exact Hc.
  - rewrite IH by (simpl in Hi; lia).
    replace (i - s)%nat with (S (i - S s)) by lia. cbn [nth].
    apply vadd_all_zero_l.
    + apply all_zero_vscale_zero.
    + assert (Hl : length (nth (i - S s) c (repeat 0 d)) = d).
      { destruct (nth_in_or_default (i - S s) c (repeat 0 d))
          as [Hin|Hdef].
        - rewrite Forall_forall in Hc. apply Hc. exact Hin.
        - rewrite Hdef. apply repeat_length. }
      rewrite !vscale_length. unfold vec in *. congruence.
Qed.

Lemma map_seq_nth_zip {A B C : Type} (f : A -> B -> C) (da : A) (db : B)
    (v : list A) (c : list B) :
  length v = length c ->
  map (fun i => f (nth i v da) (nth i c db)) (seq 0 (length v))
  = zip_with f v c.
Proof.
  revert c. induction v as [|x v IH]; intros [|y c] Hlen; simpl in Hlen;
    try discriminate; [reflexivity|].
  cbn [length seq map nth]. rewrite zip_with_cons. f_equal.
  rewrite <- seq_shift, map_map. cbn [nth]. apply IH. lia.
Qed.

Lemma matmul_diagonal (d : nat) (v : vec) (c : mat) :
  length v = length c ->
  Forall (fun p => length p = d) c ->
  map (fun row => lin_comb d row c) (diagonal_matrix v)
  = zip_with vscale v c.
Proof.
  intros Hlen Hc. unfold diagonal_matrix. rewrite map_map.
  rewrite <- (map_seq_nth_zip vscale 0 (repeat 0 d)) by exact Hlen.
  apply map_ext_in. intros i Hi. apply in_seq in Hi.
  rewrite Hlen.
  rewrite (lin_comb_indicator d (nth i v 0) c 0 i Hc) by lia.
  rewrite Nat.sub_0_r. reflexivity.
Qed.

Lemma constant_row_nat (x : R) (k : nat) :
  constant_row x (Z.of_nat k) = Ok (repeat x k).
Proof.
  unfold constant_row.
  destruct (Z.ltb_spec (Z.of_nat k) 0) as [H|_]; [lia|].
  rewrite Nat2Z.id. reflexivity.
Qed.

Lemma diagonal_matrix_length (v : vec) :
  length (diagonal_matrix v) = length v.
Proof. unfold diagonal_matrix. rewrite length_map. apply length_seq. Qed.

Lemma diagonal_matrix_rows (v : vec) :
  Forall (fun r => length r = length v) (diagonal_matrix v).
Proof.
  unfold diagonal_matrix. apply Forall_map. apply Forall_forall.
  intros i _. rewrite length_map. apply length_seq.
Qed.

Lemma zip_app_repeat_r {A : Type} (x : list A) (D : list (list A)) :
  zip_with (@app A) D (repeat x (length D)) = map (fun r => r ++ x) D.
Proof.
  induction D as [|r D IH]; [reflexivity|].
  cbn [length repeat map]. rewrite zip_with_cons. f_equal. exact IH.
Qed.

Lemma zip_app_repeat_l {A : Type} (x : list A) (D : list (list A)) :
  zip_with (@app A) (repeat x (length D)) D = map (fun r => x ++ r) D.
Proof.
  induction D as [|r D IH]; [reflexivity|].
  cbn [length repeat map]. rewrite zip_with_cons. f_equal. exact IH.
Qed.

Lemma cols_agree_rows (d : nat) (a b : mat) :
  Forall (fun r => length r = d) a ->
  Forall (fun r => length r = d) b ->
  cols_agree a b = true.
Proof.
  intros Ha Hb. destruct Ha as [|p a Hp Ha]; [reflexivity|].
  destruct Hb as [|q b Hq Hb]; [reflexivity|].
  cbn [cols_agree]. rewrite Hp, Hq. apply Nat.eqb_refl.
Qed.

Lemma hstack_zero_r (D : mat) (k : nat) :
  length D = k -> hstack D (repeat [0] k) = Ok (map (fun r => r ++ [0]) D).
Proof.
  intros <-. unfold hstack. rewrite repeat_length, Nat.eqb_refl.
  f_equal. apply zip_app_repeat_r.
Qed.

Lemma hstack_zero_l (D : mat) (k : nat) :
  length D = k -> hstack (repeat [0] k) D = Ok (map (fun r => [0] ++ r) D).
Proof.
  intros <-. unfold hstack. rewrite repeat_length, Nat.eqb_refl.
  f_equal. apply zip_app_repeat_l.
Qed.

Lemma vstack_rows (d : nat) (a b : mat) :
  Forall (fun r => length r = d) a ->
  Forall (fun r => length r = d) b ->
  vstack a b = Ok (a ++ b).
Proof.
  intros Ha Hb. unfold vstack. rewrite (cols_agree_rows d) by assumption.
  reflexivity.
Qed.

Lemma squeeze_long (row : vec) :
  (2 <= length row)%nat -> squeeze row = Vector row.
Proof.
  destruct row as [|x [|y r]]; simpl; intros H; try lia. reflexivity.
Qed.

Lemma space_derivative_matrix_value (n : nat) :
  (3 <= n)%nat ->
  let v1 := [-1] ++ repeat 0 (n - 2) ++ [1] in
  let v2 := vscale (1 / 2) (repeat 1 (n - 2)) ++ [1] in
  let v3 := [1] ++ vscale (1 / 2) (repeat 1 (n - 2)) in
  length v1 = n /\ length v2 = (n - 1)%nat /\ length v3 = (n - 1)%nat
  /\ space_derivative_matrix n
     = Ok (madd (msub (diagonal_matrix v1)
                   (repeat 0 n
                    :: map (fun r => r ++ [0]) (diagonal_matrix v2)))
             (map (fun r => [0] ++ r) (diagonal_matrix v3)
              ++ [repeat 0 n])).
Proof.
  intros Hn v1 v2 v3.
  assert (L1 : length v1 = n).
  { unfold v1. rewrite !length_app, repeat_length. simpl. lia. }
  assert (L2 : length v2 = (n - 1)%nat).
  { unfold v2. rewrite length_app, vscale_length, repeat_length.
    simpl. lia. }
  assert (L3 : length v3 = (n - 1)%nat).
  { unfold v3. rewrite length_app, vscale_length, repeat_length.
    simpl. lia. }
  split; [exact L1|]. split; [exact L2|]. split; [exact L3|].
  unfold space_derivative_matrix.
  replace (Z.of_nat n - 2)%Z with (Z.of_nat (n - 2)) by lia.
  rewrite !constant_row_nat. cbn [bind]. cbv zeta.
  fold v1 v2 v3.
  assert (S1 : squeeze v1 = Vector v1) by (apply squeeze_long; lia).
  assert (S2 : squeeze v2 = Vector v2) by (apply squeeze_long; lia).
  assert (S3 : squeeze v3 = Vector v3) by (apply squeeze_long; lia).
  rewrite S1, S2, S3. cbn [from_vector_to_diagonal_matrix bind].
  rewrite (hstack_zero_r (diagonal_matrix v2) (n - 1))
    by (rewrite diagonal_matrix_length; exact L2).
  cbn [bind].
  rewrite (vstack_rows n).
  2:{ constructor; [apply repeat_length | constructor]. }
  2:{ apply Forall_map. eapply Forall_impl; [|apply diagonal_matrix_rows].
      intros r Hr. cbv beta. rewrite length_app, Hr, L2. simpl. lia. }
  cbn [bind].
  rewrite (hstack_zero_l (diagonal_matrix v3) (n - 1))
    by (rewrite diagonal_matrix_length; exact L3).
  cbn [bind].
  rewrite (vstack_rows n).
  2:{ apply Forall_map. eapply Forall_impl; [|apply diagonal_matrix_rows].
      intros r Hr. cbv beta. rewrite length_app, Hr, L3. simpl. lia. }
  2:{ constructor; [apply repeat_length | constructor]. }
  reflexivity.
Qed.

Lemma map_lin_comb_zip (d n : nat) (f : vec -> vec -> vec)
    (g : vec -> vec -> vec) (c : mat) (A B : mat) :
  (forall r1 r2, length r1 = n -> length r2 = n ->
     lin_comb d (f r1 r2) c = g (lin_comb d r1 c) (lin_comb d r2 c)) ->
  Forall (fun r => length r = n) A ->
  Forall (fun r => length r = n) B ->
  map (fun r => lin_comb d r c) (zip_with f A B)
  = zip_with g (map (fun r => lin_comb d r c) A)
      (map (fun r => lin_comb d r c) B).
Proof.
  intros Hfg HA. revert B.
  induction HA as [|a A Ha HA IH]; intros B HB; [reflexivity|].
  destruct HB as [|b B Hb HB]; [reflexivity|].
  cbn [map]. rewrite !zip_with_cons. cbn [map]. f_equal.
  - apply Hfg; assumption.
  - apply IH. exact HB.
Qed.

Lemma space_derivative_product (n d : nat) (c : mat) :
  rect n d c -> (3 <= n)%nat ->
  let v1 := [-1] ++ repeat 0 (n - 2) ++ [1] in
  let v2 := vscale (1 / 2) (repeat 1 (n - 2)) ++ [1] in
  let v3 := [1] ++ vscale (1 / 2) (repeat 1 (n - 2)) in
  space_derivative c
  = Ok (mscale (INR n)
          (madd (msub (zip_with vscale v1 c)
                      (repeat 0 d :: zip_with vscale v2 (removelast c)))
                (zip_with vscale v3 (tl c) ++ [repeat 0 d]))).
Proof.
  intros [Hn Hd] Hn3 v1 v2 v3.
  destruct (space_derivative_matrix_value n Hn3) as [L1 [L2 [L3 HM]]].
  cbv zeta in L1, L2, L3, HM. fold v1 v2 v3 in L1, L2, L3, HM.
  unfold space_derivative. rewrite Hn, HM. cbn [bind].
  do 2 f_equal. unfold matmul.
  assert (Hhd : length (hd [] c) = d)
    by (apply (hd_rect n); [split; assumption | lia]).
  rewrite Hhd.
  assert (R1 : Forall (fun r => length r = n) (diagonal_matrix v1)).
  { pose proof (diagonal_matrix_rows v1) as H. rewrite L1 in H. exact H. }
  assert (R2 : Forall (fun r => length r = n)
                 (repeat 0 n
                  :: map (fun r => r ++ [0]) (diagonal_matrix v2))).
  { constructor; [apply repeat_length|].
    apply Forall_map. eapply Forall_impl; [|apply diagonal_matrix_rows].
    intros r Hr. cbv beta. rewrite length_app, Hr, L2. simpl. lia. }
  assert (R3 : Forall (fun r => length r = n)
                 (map (fun r => [0] ++ r) (diagonal_matrix v3)
                  ++ [repeat 0 n])).
  { apply Forall_app. split.
    - apply Forall_map. eapply Forall_impl; [|apply diagonal_matrix_rows].
      intros r Hr. cbv beta. rewrite length_app, Hr, L3. simpl. lia.
    - constructor; [apply repeat_length | constructor]. }
  unfold madd, msub.
  rewrite (map_lin_comb_zip d n vadd vadd).
  2:{ intros r1 r2 H1 H2. apply lin_comb_vadd; [congruence | exact Hd]. }
  2:{ apply (Forall_zip_with_both (fun r => length r = n)
               (fun r => length r = n)); try assumption.
      intros a b Ha Hb. rewrite vsub_length, Ha, Hb. apply Nat.min_id. }
  2:{ exact R3. }
  rewrite (map_lin_comb_zip d n vsub vsub).
  2:{ intros r1 r2 H1 H2. apply lin_comb_vsub; [congruence | exact Hd]. }
  2:{ exact R1. }
  2:{ exact R2. }
  destruct (list_ends c) as [c0 [mid [cl [Ec Hmid]]]];
    [rewrite Hn; lia|].
  assert (Hd' : Forall (fun p => length p = d) (c0 :: mid ++ [cl]))
    by (rewrite <- Ec; exact Hd).
  apply Forall_cons_iff in Hd'. destruct Hd' as [Hc0 Hd'].
  apply Forall_app in Hd'. destruct Hd' as [Hdm Hcl].
  apply Forall_cons_iff in Hcl. destruct Hcl as [Hcl _].
  f_equal; [f_equal|].
  - apply matmul_diagonal; [congruence | exact Hd].
  - cbn [map]. f_equal.
    + apply lin_comb_zero; [apply all_zero_repeat | exact Hd].
    + rewrite map_map.
      assert (Erl : removelast c = c0 :: mid).
      { rewrite Ec. change (c0 :: mid ++ [cl]) with ((c0 :: mid) ++ [cl]).
        apply removelast_last. }
      rewrite Erl.
      rewrite <- (matmul_diagonal d v2 (c0 :: mid)).
      * apply map_ext_Forall.
        eapply Forall_impl; [|apply diagonal_matrix_rows].
        intros r Hr. cbv beta. rewrite Ec.
        change (c0 :: mid ++ [cl]) with ((c0 :: mid) ++ [cl]).
        apply lin_comb_zero_last.
        -- rewrite Hr, L2. cbn [length]. unfold mat, vec in *. lia.
        -- exact Hcl.
        -- constructor; assumption.
      * rewrite L2. cbn [length]. unfold mat, vec in *. lia.
      * constructor; assumption.
  - rewrite map_app. cbn [map]. f_equal.
    + rewrite map_map. rewrite Ec. cbn [tl].
      rewrite <- (matmul_diagonal d v3 (mid ++ [cl])).
      * apply map_ext. intros r. cbn [app].
        apply lin_comb_zero_head; [exact Hc0|].
        apply Forall_app. split; [exact Hdm|]. constructor; [exact Hcl|].
        constructor.
      * rewrite L3, length_app. cbn [length]. unfold mat, vec in *. lia.
      * apply Forall_app. split; [exact Hdm|]. constructor; [exact Hcl|].
        constructor.
    + f_equal. apply lin_comb_zero; [apply all_zero_repeat | exact Hd].
Qed.

Lemma stencil_row (d : nat) (m u f : vec) :
  length m = d -> length u = d -> length f = d ->
  vadd (vsub (vscale 0 m) (vscale (1 / 2 * 1) u)) (vscale (1 / 2 * 1) f)
  = vscale (1 / 2) (vsub f u).
Proof.
  unfold vadd, vsub, vscale, zip_with. revert d u f.
  induction m as [|x m IH]; intros d [|y u] [|z f] Hm Hu Hf; simpl in *;
    try reflexivity; try (subst d; discriminate).
  f_equal; [lra|]. apply (IH (pred d)); lia.
Qed.

Lemma vscale_cons (a x : R) (v : vec) :
  vscale a (x :: v) = a * x :: vscale a v.
Proof. reflexivity. Qed.

Lemma stencil_middle (d : nat) (mid U F : mat) :
  length U = length mid -> length F = length mid ->
  Forall (fun p => length p = d) mid ->
  Forall (fun p => length p = d) U ->
  Forall (fun p => length p = d) F ->
  zip_with vadd
    (zip_with vsub (zip_with vscale (repeat 0 (length mid)) mid)
       (zip_with vscale (vscale (1 / 2) (repeat 1 (length mid))) U))
    (zip_with vscale (vscale (1 / 2) (repeat 1 (length mid))) F)
  = mscale (1 / 2) (msub F U).
Proof.
  intros HU HF Hmid. revert U F HU HF.
  induction Hmid as [|m mid Hm Hmid IH]; intros [|u U] [|f F] HU HF HdU HdF;
    simpl in HU, HF; try discriminate; [reflexivity|].
  apply Forall_cons_iff in HdU. destruct HdU as [Hu HdU].
  apply Forall_cons_iff in HdF. destruct HdF as [Hf HdF].
  cbn [length repeat]. rewrite !vscale_cons.
  unfold msub, mscale. rewrite !zip_with_cons. cbn [map]. f_equal.
  - apply (stencil_row d); assumption.
  - apply IH; try assumption; lia.
Qed.

Lemma stencil_first (d : nat) (c0 f0 : vec) :
  length c0 = d -> length f0 = d ->
  vadd (vsub (vscale (-1) c0) (repeat 0 d)) (vscale 1 f0) = vsub f0 c0.
Proof.
  unfold vadd, vsub, vscale, zip_with. revert d f0.
  induction c0 as [|x c0 IH]; intros d [|y f0] H0 Hf; simpl in *;
    try reflexivity; try (subst d; discriminate).
  subst d. cbn [repeat combine map fst snd]. f_equal; [lra|].
  apply IH; [reflexivity | lia].
Qed.

Lemma stencil_last (d : nat) (cl ul : vec) :
  length cl = d -> length ul = d ->
  vadd (vsub (vscale 1 cl) (vscale 1 ul)) (repeat 0 d) = vsub cl ul.
Proof.
  unfold vadd, vsub, vscale, zip_with. revert d ul.
  induction cl as [|x cl IH]; intros d [|y ul] H0 Hu; simpl in *;
    try reflexivity; try (subst d; discriminate).
  subst d. cbn [repeat combine map fst snd]. f_equal; [lra|].
  apply IH; [reflexivity | lia].
Qed.

(** X23: the space derivative is a difference stencil.  On a curve of at
    least three sampling points, [space_derivative] returns an array of the
    shape of the curve: its first row is [n] times the forward difference
    of the first two points, its last row [n] times the backward difference
    of the last two, and its interior rows are [n] times the centered
    differences [(c[i + 1] - c[i - 1]) / 2], the array that
    [split_horizontal_vertical] calls [d_pos]. *)
Theorem space_derivative_stencil (n d : nat) (c : mat) :
  rect n d c -> (3 <= n)%nat ->
  exists rows,
    space_derivative c = Ok rows
    /\ rect n d rows
    /\ hd [] rows = vscale (INR n) (vsub (nth 1 c []) (nth 0 c []))
    /\ interior rows = mscale (INR n) (centered_speed c)
    /\ last rows []
       = vscale (INR n) (vsub (nth (n - 1) c []) (nth (n - 2) c [])).
Proof.
  intros Hc Hn3.
  rewrite (space_derivative_product n d c Hc Hn3). cbv zeta.
  destruct Hc as [Hn Hd].
  destruct (list_ends c) as [c0 [mid [cl [Ec Hmid]]]]; [rewrite Hn; lia|].
  rewrite Hn in Hmid.
  destruct mid as [|f0 F'] eqn:Emid; [simpl in Hmid; lia|].
  rewrite <- Emid in *.
  assert (Hne : c0 :: mid <> []) by discriminate.
  destruct (exists_last Hne) as [U [ul EU]].
  set (F := F' ++ [cl]).
  assert (EF : mid ++ [cl] = f0 :: F) by (rewrite Emid; reflexivity).
  assert (Ec1 : c = c0 :: f0 :: F) by (rewrite Ec, EF; reflexivity).
  assert (Ec2 : c = (U ++ [ul]) ++ [cl]).
  { rewrite <- EU. rewrite Ec. reflexivity. }
  assert (HlU : length U = (n - 2)%nat).
  { assert (H : length (c0 :: mid) = length (U ++ [ul]))
      by (rewrite EU; reflexivity).
    rewrite length_app in H. cbn [length] in H. lia. }
  assert (HlF : length F = (n - 2)%nat).
  { assert (H : length (mid ++ [cl]) = length (f0 :: F))
      by (rewrite EF; reflexivity).
    rewrite length_app in H. cbn [length] in H. lia. }
  assert (Hall1 : Forall (fun p => length p = d) (c0 :: f0 :: F))
    by (rewrite <- Ec1; exact Hd).
  assert (Hall2 : Forall (fun p => length p = d) ((U ++ [ul]) ++ [cl]))
    by (rewrite <- Ec2; exact Hd).
  apply Forall_cons_iff in Hall1. destruct Hall1 as [Hc0 Hall1].
  apply Forall_cons_iff in Hall1. destruct Hall1 as [Hf0 HdF].
  apply Forall_app in Hall2. destruct Hall2 as [Hall2 Hcl].
  apply Forall_cons_iff in Hcl. destruct Hcl as [Hcl _].
  apply Forall_app in Hall2. destruct Hall2 as [HdU Hul].
  apply Forall_cons_iff in Hul. destruct Hul as [Hul _].
  assert (Hdm : Forall (fun p => length p = d) mid).
  { assert (H : Forall (fun p => length p = d) (c0 :: mid ++ [cl]))
      by (rewrite <- Ec; exact Hd).
    apply Forall_cons_iff in H. destruct H as [_ H].
    apply Forall_app in H. apply H. }
  assert (T1 : zip_with vscale ([-1] ++ repeat 0 (n - 2) ++ [1]) c
               = vscale (-1) c0
                 :: zip_with vscale (repeat 0 (length mid)) mid
                 ++ [vscale 1 cl]).
  { rewrite Ec. cbn [app]. rewrite zip_with_cons. f_equal.
    rewrite <- Hmid. rewrite zip_with_app by apply repeat_length.
    reflexivity. }
  assert (T2 : zip_with vscale
                 (vscale (1 / 2) (repeat 1 (n - 2)) ++ [1]) (removelast c)
               = zip_with vscale (vscale (1 / 2) (repeat 1 (length mid))) U
                 ++ [vscale 1 ul]).
  { rewrite Ec2, removelast_last, <- Hmid.
    rewrite zip_with_app by (rewrite vscale_length, repeat_length; lia).
    reflexivity. }
  assert (T3 : zip_with vscale
                 ([1] ++ vscale (1 / 2) (repeat 1 (n - 2))) (tl c)
               = vscale 1 f0
                 :: zip_with vscale
                      (vscale (1 / 2) (repeat 1 (length mid))) F).
  { rewrite Ec1. cbn [tl app]. rewrite zip_with_cons, Hmid. reflexivity. }
  rewrite T1, T2, T3.
  set (Z := zip_with vscale (repeat 0 (length mid)) mid).
  set (HU := zip_with vscale (vscale (1 / 2) (repeat 1 (length mid))) U).
  set (HF := zip_with vscale (vscale (1 / 2) (repeat 1 (length mid))) F).
  assert (LZ : length Z = (n - 2)%nat).
  { unfold Z. rewrite zip_with_length, repeat_length.
    unfold mat, vec in *. lia. }
  assert (LHU : length HU = (n - 2)%nat).
  { unfold HU. rewrite zip_with_length, vscale_length, repeat_length.
    unfold mat, vec in *. lia. }
  assert (LHF : length HF = (n - 2)%nat).
  { unfold HF. rewrite zip_with_length, vscale_length, repeat_length.
    unfold mat, vec in *. lia. }
  assert (Erows :
    madd (msub (vscale (-1) c0 :: Z ++ [vscale 1 cl])
               (repeat 0 d :: HU ++ [vscale 1 ul]))
         ((vscale 1 f0 :: HF) ++ [repeat 0 d])
    = vsub f0 c0 :: centered_speed c ++ [vsub cl ul]).
  { unfold madd, msub. rewrite zip_with_cons.
    rewrite (zip_with_app vsub Z [vscale 1 cl] HU [vscale 1 ul])
      by congruence.
    cbn [app]. rewrite zip_with_cons.
    rewrite zip_with_app by (rewrite zip_with_length; lia).
    rewrite !zip_with_single.
    f_equal; [apply (stencil_first d); assumption|].
    f_equal; [|f_equal; apply (stencil_last d); assumption].
    unfold Z, HU, HF. rewrite (stencil_middle d) by
      (try assumption; unfold mat, vec in *; lia).
    unfold centered_speed, from_two, upto_last_two.
    rewrite Ec1 at 1. cbn [skipn].
    rewrite Ec2, !removelast_last. reflexivity. }
  rewrite Erows.
  assert (Hcs : rect (n - 2) d (centered_speed c))
    by (apply rect_centered_speed; split; assumption).
  eexists. split; [reflexivity|].
  split; [|split; [|split]].
  - apply rect_mscale. split.
    + cbn [length]. rewrite length_app. cbn [length].
      destruct Hcs as [-> _]. lia.
    + constructor.
      * rewrite vsub_length, Hf0, Hc0. apply Nat.min_id.
      * apply Forall_app. split; [apply Hcs|].
        constructor; [|constructor].
        rewrite vsub_length, Hcl, Hul. apply Nat.min_id.
  - unfold mscale. cbn [map hd]. rewrite Ec1. reflexivity.
  - unfold mscale. cbn [map]. rewrite map_app. cbn [map].
    apply interior_ends.
  - unfold mscale. cbn [map]. rewrite map_app. cbn [map].
    rewrite last_cons_default, last_last. do 2 f_equal.
    + rewrite Ec2.
      replace (n - 1)%nat with (length (U ++ [ul]))
        by (rewrite length_app; cbn [length]; lia).
      symmetry. apply nth_middle.
    + rewrite Ec2, <- app_assoc. rewrite <- HlU. symmetry.
      apply nth_middle.
Qed.

Lemma space_derivative_stencil_witness :
  exists rows,
    space_derivative [[0; 0]; [1; 0]; [1; 1]; [0; 2]] = Ok rows
    /\ rect 4 2 rows
    /\ hd [] rows
       = vscale (INR 4)
           (vsub (nth 1 [[0; 0]; [1; 0]; [1; 1]; [0; 2]] [])
                 (nth 0 [[0; 0]; [1; 0]; [1; 1]; [0; 2]] []))
    /\ interior rows
       = mscale (INR 4) (centered_speed [[0; 0]; [1; 0]; [1; 1]; [0; 2]])
    /\ last rows []
       = vscale (INR 4)
           (vsub (nth (4 - 1) [[0; 0]; [1; 0]; [1; 1]; [0; 2]] [])
                 (nth (4 - 2) [[0; 0]; [1; 0]; [1; 1]; [0; 2]] [])).
Proof.
  apply (space_derivative_stencil 4 2 [[0; 0]; [1; 0]; [1; 1]; [0; 2]]).
  - split; [reflexivity | repeat constructor].
  - lia.
Defined.

(** X24: a curve too short for the stencil is rejected.  On a curve of
    fewer than two sampling points [space_derivative] raises a value error:
    the arrays of [n_points - 2] zeros and ones would have a negative
    size. *)
Theorem space_derivative_short_curve (c : mat) :
  (length c <= 1)%nat -> space_derivative c = Raise ValueError.
Proof.
  intros H. destruct c as [|p [|q c]]; [reflexivity | reflexivity |].
  cbn [length] in H. lia.
Qed.

Lemma space_derivative_short_curve_witness :
  space_derivative [[3; 4]] = Raise ValueError.
Proof. apply (space_derivative_short_curve [[3; 4]]). cbn [length]. lia. Defined.

(** ** Linearity of the differential of the transform *)

Lemma d_square_root_velocity_rows (dim : nat) (t c : mat) :
  d_square_root_velocity (EuclideanMetric dim) t c
  = Ok (d_srv_rows
          (mscale (INR (length c)) (msub (drop_first c) (drop_last c)))
          (mscale (INR (length c)) (msub (drop_first t) (drop_last t)))).
Proof.
  unfold d_square_root_velocity. cbn [is_euclidean negb]. cbv zeta.
  f_equal.
  generalize (mscale (INR (length c)) (msub (drop_first c) (drop_last c))).
  generalize (mscale (INR (length c)) (msub (drop_first t) (drop_last t))).
  intros D V. unfold d_srv_rows. revert D.
  induction V as [|p V IH]; intros [|q D]; try reflexivity.
  specialize (IH D). cbn [map metric_norm metric_inner_product] in *.
  unfold msub, mscale in *. rewrite !zip_with_cons. cbn [map].
  rewrite !zip_with_cons. f_equal. exact IH.
Qed.

Lemma d_srv_row_linear (a b : R) (V D1 D2 : vec) :
  length D1 = length V -> length D2 = length V ->
  d_srv_row V (vadd (vscale a D1) (vscale b D2))
  = vadd (vscale a (d_srv_row V D1)) (vscale b (d_srv_row V D2)).
Proof.
  intros H1 H2. unfold d_srv_row. cbv zeta.
  rewrite dot_lin by congruence.
  generalize (dot D1 (vscale (1 / sqrt (dot V V)) V)).
  generalize (dot D2 (vscale (1 / sqrt (dot V V)) V)).
  generalize (1 / sqrt (sqrt (dot V V))).
  generalize (vscale (1 / sqrt (dot V V)) V).
  intros U k t s. clear H1 H2.
  unfold vadd, vsub, vscale, zip_with. revert D2 U.
  induction D1 as [|x D1 IH]; intros [|y D2] [|z U]; try reflexivity.
  cbn [map combine fst snd]. f_equal; [lra | apply IH].
Qed.
Lemma d_srv_rows_linear (d : nat) (a b : R) (V D1 D2 : mat) :
  Forall (fun p => length p = d) V ->
  Forall (fun p => length p = d) D1 ->
  Forall (fun p => length p = d) D2 ->
  d_srv_rows V (madd (mscale a D1) (mscale b D2))
  = madd (mscale a (d_srv_rows V D1)) (mscale b (d_srv_rows V D2)).
Proof.
  intros HV. revert D1 D2.
  induction HV as [|p V Hp HV IH]; intros D1 D2 H1 H2.
  - reflexivity.
  - destruct H1 as [|q1 D1 Hq1 H1].
    { reflexivity. }
    destruct H2 as [|q2 D2 Hq2 H2].
    { unfold d_srv_rows, madd, mscale. cbn [map].
      rewrite !zip_with_nil_r. reflexivity. }
    unfold d_srv_rows, madd, mscale in *. cbn [map].
    rewrite !zip_with_cons. cbn [map]. rewrite !zip_with_cons.
    f_equal.
    + apply d_srv_row_linear; congruence.
    + apply IH; assumption.
Qed.

Lemma tl_zip_with {A B C : Type} (f : A -> B -> C) (x : list A)
    (y : list B) :
  tl (zip_with f x y) = zip_with f (tl x) (tl y).
Proof.
  destruct x as [|a x]; [reflexivity|].
  destruct y as [|b y]; [|reflexivity].
  cbn [tl]. rewrite !zip_with_nil_r. reflexivity.
Qed.

Lemma removelast_zip_with {A B C : Type} (f : A -> B -> C) (x : list A)
    (y : list B) :
  length x = length y ->
  removelast (zip_with f x y) = zip_with f (removelast x) (removelast y).
Proof.
  revert y. induction x as [|a x IH]; intros [|b y] H; try discriminate H.
  - reflexivity.
  - injection H as H. destruct x as [|a' x]; destruct y as [|b' y];
      try discriminate H; [reflexivity|].
    specialize (IH (b' :: y) H).
    change (f a b :: removelast (zip_with f (a' :: x) (b' :: y))
            = f a b :: zip_with f (removelast (a' :: x))
                         (removelast (b' :: y))).
    f_equal. exact IH.
Qed.

Lemma msub_madd_exchange (d : nat) (A B A' B' : mat) :
  Forall (fun p => length p = d) A -> Forall (fun p => length p = d) B ->
  Forall (fun p => length p = d) A' -> Forall (fun p => length p = d) B' ->
  msub (madd A B) (madd A' B') = madd (msub A A') (msub B B').
Proof.
  intros HA. revert B A' B'.
  induction HA as [|p A Hp HA IH]; intros B A' B' HB HA' HB'.
  - reflexivity.
  - destruct HB as [|q B Hq HB].
    { unfold msub, madd. destruct A'; reflexivity. }
    destruct HA' as [|p' A' Hp' HA'].
    { unfold msub, madd. rewrite !zip_with_cons, !zip_with_nil_r.
      reflexivity. }
    destruct HB' as [|q' B' Hq' HB'].
    { unfold msub, madd. rewrite !zip_with_cons, !zip_with_nil_r.
      reflexivity. }
    unfold msub, madd in *. rewrite !zip_with_cons. f_equal.
    + apply vsub_exchange; congruence.
    + apply IH; assumption.
Qed.

Lemma msub_mscale (a : R) (A B : mat) :
  msub (mscale a A) (mscale a B) = mscale a (msub A B).
Proof.
  unfold msub, mscale. rewrite zip_with_map_both, map_zip_with.
  revert B. induction A as [|p A IH]; intros [|q B]; try reflexivity.
  rewrite !zip_with_cons. f_equal; [apply vsub_vscale | apply IH].
Qed.

Lemma mscale_madd (a : R) (A B : mat) :
  mscale a (madd A B) = madd (mscale a A) (mscale a B).
Proof.
  unfold madd, mscale. rewrite zip_with_map_both, map_zip_with.
  revert B. induction A as [|p A IH]; intros [|q B]; try reflexivity.
  rewrite !zip_with_cons. f_equal; [symmetry; apply vscale_vadd | apply IH].
Qed.

Lemma mscale_mscale_comm (a b : R) (A : mat) :
  mscale a (mscale b A) = mscale b (mscale a A).
Proof.
  unfold mscale. rewrite !map_map. apply map_ext. intros p.
  rewrite !vscale_vscale. f_equal. lra.
Qed.

Lemma Forall_rows_mscale (d : nat) (a : R) (A : mat) :
  Forall (fun p => length p = d) A ->
  Forall (fun p => length p = d) (mscale a A).
Proof.
  intros H. unfold mscale. apply Forall_map.
  eapply Forall_impl; [|exact H]. intros p Hp. cbv beta.
  rewrite vscale_length. exact Hp.
Qed.

Lemma Forall_rows_msub (d : nat) (A B : mat) :
  Forall (fun p => length p = d) A -> Forall (fun p => length p = d) B ->
  Forall (fun p => length p = d) (msub A B).
Proof.
  intros HA HB. unfold msub.
  apply (Forall_zip_with_both (fun p => length p = d)
           (fun p => length p = d)); try assumption.
  intros p q Hp Hq. rewrite vsub_length, Hp, Hq. apply Nat.min_id.
Qed.

Lemma differences_linear (n d : nat) (k a b : R) (u v : mat) :
  rect n d u -> rect n d v ->
  let t := madd (mscale a u) (mscale b v) in
  mscale k (msub (drop_first t) (drop_last t))
  = madd (mscale a (mscale k (msub (drop_first u) (drop_last u))))
         (mscale b (mscale k (msub (drop_first v) (drop_last v)))).
Proof.
  intros [Lu Hu] [Lv Hv] t. subst t. unfold drop_first, drop_last.
  unfold madd at 1 2. rewrite tl_zip_with, removelast_zip_with
    by (unfold mscale; rewrite !length_map; congruence).
  fold (madd (tl (mscale a u)) (tl (mscale b v))).
  fold (madd (removelast (mscale a u)) (removelast (mscale b v))).
  unfold mscale at 2 3 4 5.
  rewrite !tl_map_eq, !removelast_map_eq.
  fold (mscale a (tl u)) (mscale b (tl v)) (mscale a (removelast u))
       (mscale b (removelast v)).
  rewrite (msub_madd_exchange d).
  - rewrite !msub_mscale, mscale_madd.
    rewrite (mscale_mscale_comm k a), (mscale_mscale_comm k b).
    reflexivity.
  - apply Forall_rows_mscale, Forall_tl, Hu.
  - apply Forall_rows_mscale, Forall_tl, Hv.
  - apply Forall_rows_mscale, Forall_removelast, Hu.
  - apply Forall_rows_mscale, Forall_removelast, Hv.
Qed.
Lemma d_srv_rows_rect (k d : nat) (V D : mat) :
  rect k d V -> rect k d D -> rect k d (d_srv_rows V D).
Proof.
  intros [LV HV] [LD HD]. unfold d_srv_rows. split.
  - rewrite zip_with_length, LV, LD. apply Nat.min_id.
  - apply (Forall_zip_with_both (fun p => length p = d)
             (fun p => length p = d)); try assumption.
    intros p q Hp Hq. unfold d_srv_row. cbv zeta.
    rewrite vscale_length, vsub_length, !vscale_length, Hp, Hq.
    apply Nat.min_id.
Qed.

Lemma rect_differences (n d : nat) (k : R) (u : mat) :
  rect n d u ->
  rect (n - 1) d (mscale k (msub (drop_first u) (drop_last u))).
Proof.
  intros [Lu Hu]. apply rect_mscale. split.
  - unfold msub, drop_first, drop_last.
    rewrite zip_with_length, tl_length, removelast_length.
    unfold mat, vec in *. rewrite Lu. apply Nat.min_id.
  - apply Forall_rows_msub.
    + apply Forall_tl, Hu.
    + apply Forall_removelast, Hu.
Qed.

Lemma l2_inner_linear (dim k d : nat) (a b : R) (A B W : mat) :
  rect k d A -> rect k d B ->
  l2_inner_product (EuclideanMetric dim) (madd (mscale a A) (mscale b B)) W
  = a * l2_inner_product (EuclideanMetric dim) A W
    + b * l2_inner_product (EuclideanMetric dim) B W.
Proof.
  intros [LA HA] [LB HB]. revert k B W LA LB HB.
  induction HA as [|p A Hp HA IH]; intros k B W LA LB HB.
  - destruct B; [|simpl in *; congruence].
    unfold l2_inner_product, madd, mscale, rsum, zip_with. simpl. lra.
  - destruct HB as [|q B Hq HB]; [simpl in *; congruence|].
    destruct W as [|w W].
    { unfold l2_inner_product, madd, mscale.
      rewrite !zip_with_nil_r. simpl. lra. }
    unfold madd, mscale in *. cbn [map]. rewrite zip_with_cons.
    rewrite !l2_inner_cons. cbn [metric_inner_product].
    rewrite dot_lin by congruence.
    rewrite (IH (length A) B W); [lra | reflexivity | | exact HB].
    simpl in LA, LB. unfold mat, vec in *. lia.
Qed.

(** X25: the differential of the transform is linear in the tangent
    vector.  In a Euclidean space, for tangent vectors [u] and [v] of the
    shape of the curve, [d_square_root_velocity] of [a * u + b * v] is
    [a] times the one of [u] plus [b] times the one of [v], an array with
    one row less than the curve. *)
Theorem d_square_root_velocity_linear (dim n d : nat) (a b : R)
    (u v c : mat) :
  rect n d u -> rect n d v -> rect n d c -> positive_speeds c ->
  let m := EuclideanMetric dim in
  exists du dv,
    d_square_root_velocity m u c = Ok du
    /\ d_square_root_velocity m v c = Ok dv
    /\ rect (n - 1) d du /\ rect (n - 1) d dv
    /\ d_square_root_velocity m (madd (mscale a u) (mscale b v)) c
       = Ok (madd (mscale a du) (mscale b dv)).
Proof.
  intros Hu Hv Hc _ m. subst m.
  rewrite !d_square_root_velocity_rows.
  do 2 eexists. split; [reflexivity|]. split; [reflexivity|].
  pose proof (rect_differences n d (INR (length c)) c Hc) as HV.
  pose proof (rect_differences n d (INR (length c)) u Hu) as HDu.
  pose proof (rect_differences n d (INR (length c)) v Hv) as HDv.
  split; [apply d_srv_rows_rect; assumption|].
  split; [apply d_srv_rows_rect; assumption|].
  f_equal.
  rewrite (differences_linear n d (INR (length c)) a b u v Hu Hv).
  apply (d_srv_rows_linear d); [apply HV | apply HDu | apply HDv].
Qed.

Lemma d_square_root_velocity_linear_witness :
  let m := EuclideanMetric 2 in
  let c := [[0; 0]; [1; 0]; [2; 0]] in
  let u := [[0; 1]; [0; 2]; [0; 0]] in
  let v := [[1; 1]; [0; 0]; [3; 0]] in
  exists du dv,
    d_square_root_velocity m u c = Ok du
    /\ d_square_root_velocity m v c = Ok dv
    /\ rect (3 - 1) 2 du /\ rect (3 - 1) 2 dv
    /\ d_square_root_velocity m (madd (mscale 2 u) (mscale 5 v)) c
       = Ok (madd (mscale 2 du) (mscale 5 dv)).
Proof.
  apply (d_square_root_velocity_linear 2 3 2 2 5 [[0; 1]; [0; 2]; [0; 0]]
           [[1; 1]; [0; 0]; [3; 0]] [[0; 0]; [1; 0]; [2; 0]]).
  - split; [reflexivity | repeat constructor].
  - split; [reflexivity | repeat constructor].
  - split; [reflexivity | repeat constructor].
  - exact positive_speeds_line.
Defined.

(** X26: the inner product is linear in its first tangent vector.  In a
    Euclidean space, on a curve of at least one sampling point and for
    tangent vectors of its shape, [inner_product] of [a * u + b * v] with
    [w] is [a] times the one of [u] with [w] plus [b] times the one of [v]
    with [w]. *)
Theorem inner_product_linear (dim n d : nat) (a b : R) (u v w c : mat) :
  rect n d u -> rect n d v -> rect n d w -> rect n d c ->
  (1 <= n)%nat -> positive_speeds c ->
  let m := EuclideanMetric dim in
  exists x y,
    inner_product m u w c = Ok x
    /\ inner_product m v w c = Ok y
    /\ inner_product m (madd (mscale a u) (mscale b v)) w c
       = Ok (a * x + b * y).
Proof.
  intros Hu Hv _ Hc _ _ m. subst m. unfold inner_product.
  cbn [is_euclidean negb]. cbv zeta.
  rewrite !d_square_root_velocity_rows. cbn [bind].
  do 2 eexists. split; [reflexivity|]. split; [reflexivity|].
  f_equal.
  pose proof (rect_differences n d (INR (length c)) c Hc) as HV.
  pose proof (rect_differences n d (INR (length c)) u Hu) as HDu.
  pose proof (rect_differences n d (INR (length c)) v Hv) as HDv.
  rewrite (differences_linear n d (INR (length c)) a b u v Hu Hv).
  rewrite (d_srv_rows_linear d) by (apply HV || apply HDu || apply HDv).
  rewrite (l2_inner_linear dim (n - 1) d)
    by (apply d_srv_rows_rect; assumption).
  unfold Rdiv. ring.
Qed.

Lemma inner_product_linear_witness :
  let m := EuclideanMetric 2 in
  let c := [[0; 0]; [1; 0]; [2; 0]] in
  let u := [[0; 1]; [0; 2]; [0; 0]] in
  let v := [[1; 1]; [0; 0]; [3; 0]] in
  let w := [[1; 0]; [0; 1]; [2; 2]] in
  exists x y,
    inner_product m u w c = Ok x
    /\ inner_product m v w c = Ok y
    /\ inner_product m (madd (mscale 2 u) (mscale 5 v)) w c
       = Ok (2 * x + 5 * y).
Proof.
  apply (inner_product_linear 2 3 2 2 5 [[0; 1]; [0; 2]; [0; 0]]
           [[1; 1]; [0; 0]; [3; 0]] [[1; 0]; [0; 1]; [2; 2]]
           [[0; 0]; [1; 0]; [2; 0]]).
  - split; [reflexivity | repeat constructor].
  - split; [reflexivity | repeat constructor].
  - split; [reflexivity | repeat constructor].
  - split; [reflexivity | repeat constructor].
  - lia.
  - exact positive_speeds_line.
Defined.
(** ** The controls of a geodesic *)

Lemma Rleb_false (x y : R) : y < x -> Rleb x y = false.
Proof.
  intros H. unfold Rleb. destruct (Rle_dec x y); [lra | reflexivity].
Qed.

Lemma Rleb_true (x y : R) : x <= y -> Rleb x y = true.
Proof.
  intros H. unfold Rleb. destruct (Rle_dec x y); [reflexivity | lra].
Qed.

Lemma close_same (tol : tolerance) (x : R) :
  0 <= gs_atol tol -> 0 <= gs_rtol tol -> close tol x x = true.
Proof.
  intros Ha Hr. unfold close. apply Rleb_true.
  replace (x - x) with 0 by lra. rewrite Rabs_R0.
  pose proof (Rabs_pos x). nra.
Qed.

Lemma close_far (tol : tolerance) (x y : R) :
  gs_atol tol + gs_rtol tol * Rabs y < Rabs (x - y) ->
  close tol x y = false.
Proof. intros H. unfold close. apply Rleb_false. exact H. Qed.


Lemma log_example :
  log (EuclideanMetric 2) (Arr3 [[[0; 0]; [8; 0]; [16; 0]]])
    (Arr3 [[[0; 0]; [2; 0]; [4; 0]]])
  = Ok (Arr3 [[[0; 0]; [4; 0]; [8; 0]]]).
Proof.
  rewrite (log_single 2 3 2);
    [| split; [reflexivity | repeat constructor]
     | split; [reflexivity | repeat constructor] | lia].
  do 3 f_equal.
  unfold log_assemble, srv_of_curve, velocities, differences, srv_segment,
    log_row, srv_row, metric_norm.
  simpl.
  assert (E4 : sqrt (dot [(1 + 1) * (2 - 0); (1 + 1) * (0 - 0)]
                         [(1 + 1) * (2 - 0); (1 + 1) * (0 - 0)]) = 4)
    by (apply sqrt_of_square; [lra | unfold dot, zip_with; simpl; lra]).
  assert (E16 : sqrt (dot [(1 + 1) * (8 - 0); (1 + 1) * (0 - 0)]
                          [(1 + 1) * (8 - 0); (1 + 1) * (0 - 0)]) = 16)
    by (apply sqrt_of_square; [lra | unfold dot, zip_with; simpl; lra]).
  assert (E168 : sqrt (dot [(1 + 1) * (16 - 8); (1 + 1) * (0 - 0)]
                           [(1 + 1) * (16 - 8); (1 + 1) * (0 - 0)]) = 16)
    by (apply sqrt_of_square; [lra | unfold dot, zip_with; simpl; lra]).
  assert (E42 : sqrt (dot [(1 + 1) * (4 - 2); (1 + 1) * (0 - 0)]
                          [(1 + 1) * (4 - 2); (1 + 1) * (0 - 0)]) = 4)
    by (apply sqrt_of_square; [lra | unfold dot, zip_with; simpl; lra]).
  rewrite ?E4, ?E16, ?E168, ?E42.
  replace (sqrt 4) with 2 by (symmetry; apply sqrt_of_square; lra).
  replace (sqrt 16) with 4 by (symmetry; apply sqrt_of_square; lra).
  unfold dot, vadd, vsub, vscale, zip_with. simpl.
  repeat (first [ reflexivity | lra | (field; lra) | f_equal ]).
Qed.

Lemma shooting_example :
  shooting_tangent_vec (EuclideanMetric 2) [[[0; 0]; [2; 0]; [4; 0]]]
    (Arr2 [[0; 0]; [8; 0]; [16; 0]])
  = Ok [[[0; 0]; [4; 0]; [8; 0]]].
Proof.
  unfold shooting_tangent_vec.
  change (as_tensor (Arr2 [[0; 0]; [8; 0]; [16; 0]]))
    with (Ok [[[0; 0]; [8; 0]; [16; 0]]]).
  cbn [bind]. rewrite log_example. reflexivity.
Qed.

Lemma allclose_example_same :
  allclose example_tol [[[0; 0]; [4; 0]; [8; 0]]]
    (Arr2 [[0; 0]; [4; 0]; [8; 0]]) = Ok true.
Proof.
  unfold allclose, stretch3, allclose_mat, allclose_vec. cbn.
  rewrite !close_same by (simpl; lra). reflexivity.
Qed.

Lemma allclose_example_row :
  allclose example_tol [[[0; 0]; [4; 0]; [8; 0]]] (Arr2 [[0; 0]])
  = Ok false.
Proof.
  unfold allclose, stretch3, allclose_mat, allclose_vec. cbn.
  rewrite !close_same by (simpl; lra).
  rewrite (close_far example_tol 4 0).
  - reflexivity.
  - simpl. rewrite Rabs_R0. replace (4 - 0) with 4 by lra.
    rewrite Rabs_pos_eq by lra. lra.
Qed.

Lemma allclose_example_shape :
  allclose example_tol [[[0; 0]; [4; 0]; [8; 0]]]
    (Arr2 [[0; 0]; [4; 0]]) = Raise ValueError.
Proof. reflexivity. Qed.

(** ** Curves too short for the pointwise operations *)

Lemma pointwise_norm3_one_row (m : ambient_metric) (d : nat) (a c : mat) :
  rect 1 d a -> rect 1 d c ->
  pointwise_norm3 m [a] [c] = Raise ValueError.
Proof.
  intros Ha Hc. unfold pointwise_norm3, pointwise_inner_product3.
  cbn [zip_with3_result].
  rewrite (pointwise_inner_product_single m d) by assumption.
  reflexivity.
Qed.

Lemma exp_two_points (dim d : nat) (tv c : mat) :
  rect 2 d c ->
  exp (EuclideanMetric dim) (Arr3 [tv]) (Arr3 [c]) = Raise ValueError.
Proof.
  intros Hrc.
  assert (Hc : length c = 2%nat) by apply Hrc.
  unfold exp. cbn [is_euclidean negb]. rewrite !as_tensor_3. cbn [bind].
  rewrite (square_root_velocity_blocks _ 2)
    by (try lia; repeat constructor; exact Hc).
  cbn [bind map]. rewrite as_tensor_3. cbn [bind]. cbv zeta.
  unfold shape_rows. cbn [hd map]. rewrite Hc.
  change (mscale (INR (2 - 1)) (msub (drop_first c) (drop_last c)))
    with (mscale (INR (2 - 1)) (differences c)).
  rewrite (pointwise_norm3_one_row _ d).
  - reflexivity.
  - apply rect_mscale, rect_msub.
    + destruct Hrc as [Hn Hd]. split.
      * rewrite drop_first_length, Hn. reflexivity.
      * apply Forall_tl. exact Hd.
    + apply (rect_drop_last 2 d c Hrc).
  - apply (rect_drop_last 2 d c Hrc).
Qed.

Lemma log_two_points (dim d : nat) (p c : mat) :
  rect 2 d p -> rect 2 d c ->
  log (EuclideanMetric dim) (Arr3 [p]) (Arr3 [c]) = Raise ValueError.
Proof.
  intros Hrp Hrc.
  assert (Hp : length p = 2%nat) by apply Hrp.
  assert (Hc : length c = 2%nat) by apply Hrc.
  unfold log. cbn [is_euclidean negb]. rewrite !as_tensor_3. cbn [bind].
  rewrite (square_root_velocity_blocks _ 2)
    by (try lia; repeat constructor; exact Hp).
  cbn [bind map]. rewrite as_tensor_3. cbn [bind].
  rewrite (square_root_velocity_blocks _ 2)
    by (try lia; repeat constructor; exact Hc).
  cbn [bind map]. rewrite as_tensor_3. cbn [bind]. cbv zeta.
  unfold shape_rows. cbn [hd map]. rewrite Hp.
  rewrite (pointwise_norm3_one_row _ d).
  - reflexivity.
  - apply rect_mscale, rect_msub.
    + destruct Hrc as [Hn Hd]. split.
      * rewrite drop_first_length, Hn. reflexivity.
      * apply Forall_tl. exact Hd.
    + apply (rect_drop_last 2 d c Hrc).
  - apply (rect_drop_last 2 d c Hrc).
Qed.

(** X27: [split_horizontal_vertical] needs four sampling points.  On a
    curve of three sampling points there is one interior point; the
    pointwise norm of the single centered difference is squeezed to a
    scalar inside the vectorised call, which raises an input error,
    whatever the tangent vector. *)
Theorem split_needs_four_points (dim d : nat) (tangent_vec curve : mat) :
  rect 3 d curve ->
  split_horizontal_vertical (EuclideanMetric dim) tangent_vec curve
  = Raise ValueError.
Proof. intros Hc. apply (split_three_points _ d). exact Hc. Qed.

Lemma split_needs_four_points_witness :
  split_horizontal_vertical (EuclideanMetric 2) [[2; 0]; [0; 0]; [0; 0]]
    [[0; 0]; [1; 0]; [2; 0]]
  = Raise ValueError.
Proof.
  apply (split_needs_four_points 2 2).
  split; [reflexivity | repeat constructor].
Defined.

(** X28: [exp], [log] and [geodesic] need three sampling points.  On
    curves of two sampling points there is one segment; the pointwise norm
    of the single velocity is squeezed to a scalar inside the vectorised
    call, and all three raise an input error. *)
Theorem exp_log_need_three_points (tol : tolerance) (dim d : nat)
    (tv p c : mat) :
  let m := EuclideanMetric dim in
  rect 2 d p -> rect 2 d c ->
  exp m (Arr2 tv) (Arr2 c) = Raise ValueError
  /\ log m (Arr2 p) (Arr2 c) = Raise ValueError
  /\ geodesic tol m (Arr2 c) (Some (Arr2 p)) None = Raise ValueError.
Proof.
  intros m Hp Hc. subst m.
  split; [apply (exp_two_points dim d); exact Hc|].
  pose proof (log_two_points dim d p c Hp Hc) as Hlog.
  split; [exact Hlog|].
  unfold geodesic. cbn [is_euclidean negb].
  change (as_tensor (Arr2 c)) with (Ok [c]).
  change (as_tensor (Arr2 p)) with (Ok [p]).
  cbn [bind]. rewrite Hlog. reflexivity.
Qed.

Lemma exp_log_need_three_points_witness :
  let m := EuclideanMetric 2 in
  exp m (Arr2 [[1; 0]; [1; 0]]) (Arr2 [[0; 0]; [1; 0]]) = Raise ValueError
  /\ log m (Arr2 [[0; 0]; [2; 0]]) (Arr2 [[0; 0]; [1; 0]])
     = Raise ValueError
  /\ geodesic example_tol m (Arr2 [[0; 0]; [1; 0]])
       (Some (Arr2 [[0; 0]; [2; 0]])) None = Raise ValueError.
Proof.
  apply (exp_log_need_three_points example_tol 2 2 [[1; 0]; [1; 0]]
           [[0; 0]; [2; 0]] [[0; 0]; [1; 0]]);
    (split; [reflexivity | repeat constructor]).
Defined.
